(** * R10K-style out-of-order pipeline simulator: a shallow embedding of
    [src/cpu.cpp] and the properties of its seven stage procedures.

    The scheduler [CPU] of [cpu.cpp] is embedded by explicit state passing.
    Every [Instruction*] of the C++ code points into [instructionsList] and is
    never freed, so an instruction reference is its index in that list and
    the list is the shared store: a stage that mutates an instruction updates
    the store, and every queue, ROB entry and reservation station that holds
    the same index sees the update.

    Undefined behaviour of the C++ code (an out-of-range index into a map
    table, a null station pointer) is a [Fault] of the model. *)

From stdpp Require Import base tactics numbers option list sets relations.

Set Default Proof Using "Type".
Set Warnings "-clear-no-such-hyp".

(** ** Machine integers *)

(** [uint32_t] arithmetic wraps modulo [2^32]. *)
Definition wrap32 (z : Z) : Z := (z mod 4294967296)%Z.

(** [(uint32_t)-1], the "none" sentinel of operands and register numbers. *)
Definition NONE : Z := 4294967295%Z.

(** ** Faults *)

Inductive Fault :=
| ArchRegOutOfRange (a : Z)
| PhysRegOutOfRange (p : Z)
| FreeListEmpty
| NoStationOfType
| NullStation.

Inductive result (A : Type) :=
| Ok (a : A)
| Err (f : Fault).
Arguments Ok {A} a.
Arguments Err {A} f.

#[global] Instance result_ret : MRet result := @Ok.
#[global] Instance result_bind : MBind result := λ A B f r,
  match r with
  | Ok a => f a
  | Err e => Err e
  end.

(** ** Leaf data *)

Inductive RSType := RSType_ALU | RSType_LOAD | RSType_STORE.

#[global] Instance RSType_eq_dec : EqDecision RSType.
Proof. solve_decision. Defined.

(** Modelled from the spec: class [PhysicalRegister] (register number plus a
    ready flag; a default-constructed register has number -1). *)
Record PhysicalRegister := mkPR { regNum : Z; isReady : bool }.

(** Modelled from the spec: the default-constructed [PhysicalRegister] of
    [cpu.cpp] ("By default, T = -1"), not ready. *)
Definition defaultReg : PhysicalRegister := mkPR NONE false.

(** Modelled from the spec: [PhysicalRegister::setReady]. *)
Definition setReady (b : bool) (p : PhysicalRegister) : PhysicalRegister :=
  mkPR (regNum p) b.

(** The seven pipeline stages, in pipeline order. *)
Inductive Stage := Fetch | Decode | Dispatch | Issue | Execute | Complete | Retire.

#[global] Instance Stage_eq_dec : EqDecision Stage.
Proof. solve_decision. Defined.

(** Modelled from the spec: class [Instruction] (operation kind, operand
    identifiers, renamed registers, status flags, one optional timestamp per
    stage, the execution latency and the back-reference to its station). *)
Record Instruction := mkInst {
  instType : RSType;
  srcOp1 : Z;
  srcOp2 : Z;
  dstOp : Z;
  srcPhysicalReg1 : PhysicalRegister;
  srcPhysicalReg2 : PhysicalRegister;
  dstPhysicalReg : PhysicalRegister;
  renamed : bool;
  hasIssued : bool;
  hasCompleted : bool;
  hasRetired : bool;
  execTime : Z;
  allocatedRs : option nat;
  fetchCycle : option Z;
  decodeCycle : option Z;
  dispatchCycle : option Z;
  issueCycle : option Z;
  executeCycle : option Z;
  completeCycle : option Z;
  retireCycle : option Z
}.

(** Modelled from the spec: the [Instruction] constructor, called by
    [addInstruction] with the index of the instruction as its identity (the
    index in [instructionsList] in this embedding): no renamed register, no
    flag, no timestamp. *)
Definition newInstruction (t : RSType) (s1 s2 d : Z) : Instruction :=
  mkInst t s1 s2 d defaultReg defaultReg defaultReg false false false false
         0%Z None None None None None None None None.

#[global] Instance Instruction_inhabited : Inhabited Instruction :=
  populate (newInstruction RSType_ALU NONE NONE NONE).

(** Modelled from the spec: [Instruction::getReservationStation], the type of
    station the operation kind needs. *)
Definition getReservationStation (i : Instruction) : RSType := instType i.

(** Modelled from the spec: the setters of [Instruction] that [cpu.cpp]
    calls; each writes the one field it names. *)
Definition setSrcPhysicalReg1 (p : PhysicalRegister) (i : Instruction) :=
  mkInst (instType i) (srcOp1 i) (srcOp2 i) (dstOp i) p (srcPhysicalReg2 i)
         (dstPhysicalReg i) (renamed i) (hasIssued i) (hasCompleted i)
         (hasRetired i) (execTime i) (allocatedRs i) (fetchCycle i)
         (decodeCycle i) (dispatchCycle i) (issueCycle i) (executeCycle i)
         (completeCycle i) (retireCycle i).

Definition setSrcPhysicalReg2 (p : PhysicalRegister) (i : Instruction) :=
  mkInst (instType i) (srcOp1 i) (srcOp2 i) (dstOp i) (srcPhysicalReg1 i) p
         (dstPhysicalReg i) (renamed i) (hasIssued i) (hasCompleted i)
         (hasRetired i) (execTime i) (allocatedRs i) (fetchCycle i)
         (decodeCycle i) (dispatchCycle i) (issueCycle i) (executeCycle i)
         (completeCycle i) (retireCycle i).

Definition setDstPhysicalReg (p : PhysicalRegister) (i : Instruction) :=
  mkInst (instType i) (srcOp1 i) (srcOp2 i) (dstOp i) (srcPhysicalReg1 i)
         (srcPhysicalReg2 i) p (renamed i) (hasIssued i) (hasCompleted i)
         (hasRetired i) (execTime i) (allocatedRs i) (fetchCycle i)
         (decodeCycle i) (dispatchCycle i) (issueCycle i) (executeCycle i)
         (completeCycle i) (retireCycle i).

Definition setRenamed (b : bool) (i : Instruction) :=
  mkInst (instType i) (srcOp1 i) (srcOp2 i) (dstOp i) (srcPhysicalReg1 i)
         (srcPhysicalReg2 i) (dstPhysicalReg i) b (hasIssued i) (hasCompleted i)
         (hasRetired i) (execTime i) (allocatedRs i) (fetchCycle i)
         (decodeCycle i) (dispatchCycle i) (issueCycle i) (executeCycle i)
         (completeCycle i) (retireCycle i).

Definition setExecTime (t : Z) (i : Instruction) :=
  mkInst (instType i) (srcOp1 i) (srcOp2 i) (dstOp i) (srcPhysicalReg1 i)
         (srcPhysicalReg2 i) (dstPhysicalReg i) (renamed i) (hasIssued i)
         (hasCompleted i) (hasRetired i) t (allocatedRs i) (fetchCycle i)
         (decodeCycle i) (dispatchCycle i) (issueCycle i) (executeCycle i)
         (completeCycle i) (retireCycle i).

Definition setAllocatedRs (k : nat) (i : Instruction) :=
  mkInst (instType i) (srcOp1 i) (srcOp2 i) (dstOp i) (srcPhysicalReg1 i)
         (srcPhysicalReg2 i) (dstPhysicalReg i) (renamed i) (hasIssued i)
         (hasCompleted i) (hasRetired i) (execTime i) (Some k) (fetchCycle i)
         (decodeCycle i) (dispatchCycle i) (issueCycle i) (executeCycle i)
         (completeCycle i) (retireCycle i).

Definition setFetchCycle (c : Z) (i : Instruction) :=
  mkInst (instType i) (srcOp1 i) (srcOp2 i) (dstOp i) (srcPhysicalReg1 i)
         (srcPhysicalReg2 i) (dstPhysicalReg i) (renamed i) (hasIssued i)
         (hasCompleted i) (hasRetired i) (execTime i) (allocatedRs i) (Some c)
         (decodeCycle i) (dispatchCycle i) (issueCycle i) (executeCycle i)
         (completeCycle i) (retireCycle i).

Definition setDecodeCycle (c : Z) (i : Instruction) :=
  mkInst (instType i) (srcOp1 i) (srcOp2 i) (dstOp i) (srcPhysicalReg1 i)
         (srcPhysicalReg2 i) (dstPhysicalReg i) (renamed i) (hasIssued i)
         (hasCompleted i) (hasRetired i) (execTime i) (allocatedRs i)
         (fetchCycle i) (Some c) (dispatchCycle i) (issueCycle i)
         (executeCycle i) (completeCycle i) (retireCycle i).

Definition setDispatchCycle (c : Z) (i : Instruction) :=
  mkInst (instType i) (srcOp1 i) (srcOp2 i) (dstOp i) (srcPhysicalReg1 i)
         (srcPhysicalReg2 i) (dstPhysicalReg i) (renamed i) (hasIssued i)
         (hasCompleted i) (hasRetired i) (execTime i) (allocatedRs i)
         (fetchCycle i) (decodeCycle i) (Some c) (issueCycle i)
         (executeCycle i) (completeCycle i) (retireCycle i).

(** Modelled from the spec: [setIssueCycle] records the cycle and marks the
    instruction issued ("push it to the execute queue and mark it issued");
    [cpu.cpp] has no other call that could set the flag [hasIssued] reads. *)
Definition setIssueCycle (c : Z) (i : Instruction) :=
  mkInst (instType i) (srcOp1 i) (srcOp2 i) (dstOp i) (srcPhysicalReg1 i)
         (srcPhysicalReg2 i) (dstPhysicalReg i) (renamed i) true
         (hasCompleted i) (hasRetired i) (execTime i) (allocatedRs i)
         (fetchCycle i) (decodeCycle i) (dispatchCycle i) (Some c)
         (executeCycle i) (completeCycle i) (retireCycle i).

Definition setExecuteCycle (c : Z) (i : Instruction) :=
  mkInst (instType i) (srcOp1 i) (srcOp2 i) (dstOp i) (srcPhysicalReg1 i)
         (srcPhysicalReg2 i) (dstPhysicalReg i) (renamed i) (hasIssued i)
         (hasCompleted i) (hasRetired i) (execTime i) (allocatedRs i)
         (fetchCycle i) (decodeCycle i) (dispatchCycle i) (issueCycle i)
         (Some c) (completeCycle i) (retireCycle i).

(** Modelled from the spec: [setCompleteCycle] records the cycle and marks the
    instruction completed (the flag [hasCompleted] that [retire] reads). *)
Definition setCompleteCycle (c : Z) (i : Instruction) :=
  mkInst (instType i) (srcOp1 i) (srcOp2 i) (dstOp i) (srcPhysicalReg1 i)
         (srcPhysicalReg2 i) (dstPhysicalReg i) (renamed i) (hasIssued i)
         true (hasRetired i) (execTime i) (allocatedRs i)
         (fetchCycle i) (decodeCycle i) (dispatchCycle i) (issueCycle i)
         (executeCycle i) (Some c) (retireCycle i).

(** Modelled from the spec: [setRetireCycle] records the cycle and marks the
    instruction retired ("mark the instruction retired and record the
    retirement cycle"). *)
Definition setRetireCycle (c : Z) (i : Instruction) :=
  mkInst (instType i) (srcOp1 i) (srcOp2 i) (dstOp i) (srcPhysicalReg1 i)
         (srcPhysicalReg2 i) (dstPhysicalReg i) (renamed i) (hasIssued i)
         (hasCompleted i) true (execTime i) (allocatedRs i)
         (fetchCycle i) (decodeCycle i) (dispatchCycle i) (issueCycle i)
         (executeCycle i) (completeCycle i) (Some c).

(** Modelled from the spec: [Instruction::getExecuteCycle] as [complete]
    reads it into a [uint32_t]; an unset timestamp reads as the sentinel. *)
Definition getExecuteCycle (i : Instruction) : Z :=
  match executeCycle i with
  | Some c => c
  | None => NONE
  end.

(** The timestamp of a stage. *)
Definition stamp (st : Stage) (i : Instruction) : option Z :=
  match st with
  | Fetch => fetchCycle i
  | Decode => decodeCycle i
  | Dispatch => dispatchCycle i
  | Issue => issueCycle i
  | Execute => executeCycle i
  | Complete => completeCycle i
  | Retire => retireCycle i
  end.

(** Modelled from the spec: [ReservationStation::broadcastRegReady] on the
    held instruction ("each station updates the readiness of any of its held
    instruction's matching source operand"). *)
Definition markSrcReady (r : Z) (i : Instruction) : Instruction :=
  let i1 := if (regNum (srcPhysicalReg1 i) =? r)%Z
            then setSrcPhysicalReg1 (setReady true (srcPhysicalReg1 i)) i
            else i in
  if (regNum (srcPhysicalReg2 i1) =? r)%Z
  then setSrcPhysicalReg2 (setReady true (srcPhysicalReg2 i1)) i1
  else i1.

(** Modelled from the spec: the held instruction is ready to execute when
    "both present source physical registers [are] marked ready". *)
Definition srcsReady (i : Instruction) : bool :=
  ((srcOp1 i =? NONE)%Z || isReady (srcPhysicalReg1 i)) &&
  ((srcOp2 i =? NONE)%Z || isReady (srcPhysicalReg2 i)).

(** ** Map table *)

(** Modelled from the spec: class [MapTable] ("total function from
    architectural register to currently-mapped physical register, plus a
    parallel readiness bit indexed by physical-register number"); both arrays
    are indexed by a [uint32_t], and an index outside the array is a fault. *)
Record MapTable := mkMapTable { mapping : list Z; readyBits : list bool }.

(** Indexing of an array by a [uint32_t]. *)
Definition zlookup {A} (l : list A) (i : Z) : option A :=
  if ((0 <=? i) && (i <? Z.of_nat (length l)))%Z then l !! Z.to_nat i else None.

(** Modelled from the spec: [MapTable::getMapping], the mapped physical
    register with its readiness bit. *)
Definition getMapping (m : MapTable) (a : Z) : result PhysicalRegister :=
  match zlookup (mapping m) a with
  | None => Err (ArchRegOutOfRange a)
  | Some p =>
      match zlookup (readyBits m) p with
      | None => Err (PhysRegOutOfRange p)
      | Some b => Ok (mkPR p b)
      end
  end.

(** Modelled from the spec: [MapTable::setMapping], which installs the
    register and its readiness. *)
Definition setMapping (m : MapTable) (a : Z) (p : PhysicalRegister) : result MapTable :=
  match zlookup (mapping m) a with
  | None => Err (ArchRegOutOfRange a)
  | Some _ =>
      match zlookup (readyBits m) (regNum p) with
      | None => Err (PhysRegOutOfRange (regNum p))
      | Some _ =>
          Ok (mkMapTable (<[Z.to_nat a := regNum p]> (mapping m))
                         (<[Z.to_nat (regNum p) := isReady p]> (readyBits m)))
      end
  end.

(** Modelled from the spec: [MapTable::setReadyBit]. *)
Definition setReadyBit (m : MapTable) (p : Z) : result MapTable :=
  match zlookup (readyBits m) p with
  | None => Err (PhysRegOutOfRange p)
  | Some _ => Ok (mkMapTable (mapping m) (<[Z.to_nat p := true]> (readyBits m)))
  end.

(** Modelled from the spec: the [MapTable] constructor maps architectural
    register [a] to physical register [a], every register ready. *)
Definition newMapTable (numArchRegs numPhysicalRegs : nat) : MapTable :=
  mkMapTable (seqZ 0 (Z.of_nat numArchRegs))
             (replicate (Nat.max numArchRegs numPhysicalRegs) true).

(** ** Free list *)

(** Modelled from the spec: class [FreeList] ("pool of unallocated physical
    registers beyond the architectural set"), a queue popped at the front. *)
Definition FreeList := list PhysicalRegister.

(** Modelled from the spec: the [FreeList] constructor, the physical
    registers from [numArchRegs] up to [numPhysicalRegs]. *)
Definition newFreeList (numArchRegs numPhysicalRegs : nat) : FreeList :=
  (λ r, mkPR r true) <$> seqZ (Z.of_nat numArchRegs)
                              (Z.of_nat (numPhysicalRegs - numArchRegs)).

(** Modelled from the spec: [FreeList::hasRegister], [popRegister] (a fault
    on an empty list) and [addRegister]. *)
Definition hasRegister (fl : FreeList) : bool :=
  match fl with
  | [] => false
  | _ :: _ => true
  end.

Definition popRegister (fl : FreeList) : result (PhysicalRegister * FreeList) :=
  match fl with
  | [] => Err FreeListEmpty
  | p :: fl' => Ok (p, fl')
  end.

Definition addRegister (p : PhysicalRegister) (fl : FreeList) : FreeList :=
  fl ++ [p].

(** ** Reorder buffer *)

(** Modelled from the spec: class [ROB] ("ordered, fixed-capacity sequence of
    entries, each holding the instruction reference, T and Told"; "entries
    retire strictly in insertion order"; "full exactly when entry count
    equals capacity"). The head is the first entry. *)
Record ROBEntry := mkROBEntry {
  robInst : nat;
  robT : PhysicalRegister;
  robTold : PhysicalRegister
}.

Record ROB := mkROB { robCapacity : nat; robQueue : list ROBEntry }.

(** Modelled from the spec: [ROB::hasFreeEntry], [getHead] (null when the
    buffer is empty), [addInstruction] and [retireHeadInstruction]. *)
Definition hasFreeEntry (r : ROB) : bool :=
  (length (robQueue r) <? robCapacity r)%nat.

Definition getHead (r : ROB) : option ROBEntry := head (robQueue r).

Definition robAddInstruction (i : nat) (T Told : PhysicalRegister) (r : ROB) : ROB :=
  mkROB (robCapacity r) (robQueue r ++ [mkROBEntry i T Told]).

Definition retireHeadInstruction (r : ROB) : ROB :=
  mkROB (robCapacity r) (tail (robQueue r)).

(** ** Reservation stations *)

(** Modelled from the spec: class [ReservationStation] (type, fixed latency,
    busy flag, held instruction or none). *)
Record ReservationStation := mkRS {
  rsType : RSType;
  rsExecTime : Z;
  rsBusy : bool;
  rsInst : option nat
}.

(** Modelled from the spec: the [ReservationStation] constructor,
    [allocate] and [free]. *)
Definition newReservationStation (t : RSType) (lat : Z) : ReservationStation :=
  mkRS t lat false None.

Definition allocate (i : nat) (r : ReservationStation) : ReservationStation :=
  mkRS (rsType r) (rsExecTime r) true (Some i).

Definition free (r : ReservationStation) : ReservationStation :=
  mkRS (rsType r) (rsExecTime r) false None.

(** ** Pipeline stage queues *)

(** Modelled from the spec: class [PipelineStage], a FIFO of instruction
    references. [cpu.cpp] states three times that the result of [push] "is
    always true in this project": [push] appends and succeeds. *)
Definition PipelineStage := list nat.

Definition push (i : nat) (q : PipelineStage) : bool * PipelineStage :=
  (true, q ++ [i]).

(** ** The scheduler state *)

(** The fields of class [CPU] that [cpu.cpp] reads or writes. The queues
    [fetchStage], [issueStage] and [retireStage] are constructed and never
    used; [instructionsList] is the store of all instructions. *)
Record CPU := mkCPU {
  width : nat;
  instructionsList : list Instruction;
  archMappingTable : MapTable;
  mapTable : MapTable;
  rob : ROB;
  freeList : FreeList;
  reservationStations : list ReservationStation;
  decodeStage : PipelineStage;
  dispatchStage : PipelineStage;
  executeStage : PipelineStage;
  completeStage : PipelineStage;
  fetchPtr : nat;
  isFetching : bool;
  hasProgress : bool;
  cycle : Z;
  freePhysRegsPrevCycle : list PhysicalRegister
}.

Definition set_instructionsList (v : list Instruction) (s : CPU) : CPU :=
  mkCPU (width s) v (archMappingTable s) (mapTable s) (rob s) (freeList s)
        (reservationStations s) (decodeStage s) (dispatchStage s)
        (executeStage s) (completeStage s) (fetchPtr s) (isFetching s)
        (hasProgress s) (cycle s) (freePhysRegsPrevCycle s).

Definition set_archMappingTable (v : MapTable) (s : CPU) : CPU :=
  mkCPU (width s) (instructionsList s) v (mapTable s) (rob s) (freeList s)
        (reservationStations s) (decodeStage s) (dispatchStage s)
        (executeStage s) (completeStage s) (fetchPtr s) (isFetching s)
        (hasProgress s) (cycle s) (freePhysRegsPrevCycle s).

Definition set_mapTable (v : MapTable) (s : CPU) : CPU :=
  mkCPU (width s) (instructionsList s) (archMappingTable s) v (rob s)
        (freeList s) (reservationStations s) (decodeStage s) (dispatchStage s)
        (executeStage s) (completeStage s) (fetchPtr s) (isFetching s)
        (hasProgress s) (cycle s) (freePhysRegsPrevCycle s).

Definition set_rob (v : ROB) (s : CPU) : CPU :=
  mkCPU (width s) (instructionsList s) (archMappingTable s) (mapTable s) v
        (freeList s) (reservationStations s) (decodeStage s) (dispatchStage s)
        (executeStage s) (completeStage s) (fetchPtr s) (isFetching s)
        (hasProgress s) (cycle s) (freePhysRegsPrevCycle s).

Definition set_freeList (v : FreeList) (s : CPU) : CPU :=
  mkCPU (width s) (instructionsList s) (archMappingTable s) (mapTable s)
        (rob s) v (reservationStations s) (decodeStage s) (dispatchStage s)
        (executeStage s) (completeStage s) (fetchPtr s) (isFetching s)
        (hasProgress s) (cycle s) (freePhysRegsPrevCycle s).

Definition set_reservationStations (v : list ReservationStation) (s : CPU) : CPU :=
  mkCPU (width s) (instructionsList s) (archMappingTable s) (mapTable s)
        (rob s) (freeList s) v (decodeStage s) (dispatchStage s)
        (executeStage s) (completeStage s) (fetchPtr s) (isFetching s)
        (hasProgress s) (cycle s) (freePhysRegsPrevCycle s).

Definition set_decodeStage (v : PipelineStage) (s : CPU) : CPU :=
  mkCPU (width s) (instructionsList s) (archMappingTable s) (mapTable s)
        (rob s) (freeList s) (reservationStations s) v (dispatchStage s)
        (executeStage s) (completeStage s) (fetchPtr s) (isFetching s)
        (hasProgress s) (cycle s) (freePhysRegsPrevCycle s).

Definition set_dispatchStage (v : PipelineStage) (s : CPU) : CPU :=
  mkCPU (width s) (instructionsList s) (archMappingTable s) (mapTable s)
        (rob s) (freeList s) (reservationStations s) (decodeStage s) v
        (executeStage s) (completeStage s) (fetchPtr s) (isFetching s)
        (hasProgress s) (cycle s) (freePhysRegsPrevCycle s).

Definition set_executeStage (v : PipelineStage) (s : CPU) : CPU :=
  mkCPU (width s) (instructionsList s) (archMappingTable s) (mapTable s)
        (rob s) (freeList s) (reservationStations s) (decodeStage s)
        (dispatchStage s) v (completeStage s) (fetchPtr s) (isFetching s)
        (hasProgress s) (cycle s) (freePhysRegsPrevCycle s).

Definition set_completeStage (v : PipelineStage) (s : CPU) : CPU :=
  mkCPU (width s) (instructionsList s) (archMappingTable s) (mapTable s)
        (rob s) (freeList s) (reservationStations s) (decodeStage s)
        (dispatchStage s) (executeStage s) v (fetchPtr s) (isFetching s)
        (hasProgress s) (cycle s) (freePhysRegsPrevCycle s).

Definition set_fetchPtr (v : nat) (s : CPU) : CPU :=
  mkCPU (width s) (instructionsList s) (archMappingTable s) (mapTable s)
        (rob s) (freeList s) (reservationStations s) (decodeStage s)
        (dispatchStage s) (executeStage s) (completeStage s) v (isFetching s)
        (hasProgress s) (cycle s) (freePhysRegsPrevCycle s).

Definition set_isFetching (v : bool) (s : CPU) : CPU :=
  mkCPU (width s) (instructionsList s) (archMappingTable s) (mapTable s)
        (rob s) (freeList s) (reservationStations s) (decodeStage s)
        (dispatchStage s) (executeStage s) (completeStage s) (fetchPtr s) v
        (hasProgress s) (cycle s) (freePhysRegsPrevCycle s).

Definition set_hasProgress (v : bool) (s : CPU) : CPU :=
  mkCPU (width s) (instructionsList s) (archMappingTable s) (mapTable s)
        (rob s) (freeList s) (reservationStations s) (decodeStage s)
        (dispatchStage s) (executeStage s) (completeStage s) (fetchPtr s)
        (isFetching s) v (cycle s) (freePhysRegsPrevCycle s).

Definition set_cycle (v : Z) (s : CPU) : CPU :=
  mkCPU (width s) (instructionsList s) (archMappingTable s) (mapTable s)
        (rob s) (freeList s) (reservationStations s) (decodeStage s)
        (dispatchStage s) (executeStage s) (completeStage s) (fetchPtr s)
        (isFetching s) (hasProgress s) v (freePhysRegsPrevCycle s).

Definition set_freePhysRegsPrevCycle (v : list PhysicalRegister) (s : CPU) : CPU :=
  mkCPU (width s) (instructionsList s) (archMappingTable s) (mapTable s)
        (rob s) (freeList s) (reservationStations s) (decodeStage s)
        (dispatchStage s) (executeStage s) (completeStage s) (fetchPtr s)
        (isFetching s) (hasProgress s) (cycle s) v.

(** The instruction at an index of the store. *)
Definition nthInst (l : list Instruction) (i : nat) : Instruction :=
  default inhabitant (l !! i).
Arguments nthInst : simpl never.

(** Dereference of an [Instruction*]. *)
Definition getInst (s : CPU) (i : nat) : Instruction :=
  nthInst (instructionsList s) i.
Arguments getInst s i /.

(** Mutation through an [Instruction*]. *)
Definition updInst (i : nat) (f : Instruction → Instruction) (s : CPU) : CPU :=
  set_instructionsList (alter f i (instructionsList s)) s.
Arguments updInst i f s /.

(** ** Construction *)

Record Config := mkConfig {
  numArchRegs : nat;
  numPhysicalRegs : nat;
  robEntries : nat;
  cfgWidth : nat;
  numLSQEntries : nat
}.

(** [CPU::CPU]: two ALU stations of latency 1, one LOAD and one STORE station
    of latency 2. *)
Definition newCPU (c : Config) : CPU :=
  mkCPU (cfgWidth c) []
        (newMapTable (numArchRegs c) (numPhysicalRegs c))
        (newMapTable (numArchRegs c) (numPhysicalRegs c))
        (mkROB (robEntries c) [])
        (newFreeList (numArchRegs c) (numPhysicalRegs c))
        [ newReservationStation RSType_ALU 1;
          newReservationStation RSType_ALU 1;
          newReservationStation RSType_LOAD 2;
          newReservationStation RSType_STORE 2 ]
        [] [] [] [] 0 true false 0%Z [].

(** One line of the program: kind, the two sources and the destination. *)
Definition ProgramLine : Type := RSType * Z * Z * Z.

(** [CPU::addInstruction] *)
Definition addInstruction (l : ProgramLine) (s : CPU) : CPU :=
  let '(t, s1, s2, d) := l in
  set_instructionsList (instructionsList s ++ [newInstruction t s1 s2 d]) s.

Definition loadProgram (c : Config) (p : list ProgramLine) : CPU :=
  foldl (λ s l, addInstruction l s) (newCPU c) p.

(** [CPU::isFinished] *)
Definition isFinished (s : CPU) : bool :=
  forallb hasRetired (instructionsList s).

(** ** The stages *)

(** The body of the loop of [fetch] once [push] has succeeded. *)
Definition fetch_one (q : PipelineStage) (s : CPU) : CPU :=
  let s1 := set_hasProgress true (set_decodeStage q s) in
  let s2 := updInst (fetchPtr s1) (setFetchCycle (cycle s1)) s1 in
  let s3 := set_fetchPtr (S (fetchPtr s2)) s2 in
  if (length (instructionsList s3) <=? fetchPtr s3)%nat
  then set_isFetching false s3 else s3.

(** [CPU::fetch] *)
Fixpoint fetch_loop (n : nat) (s : CPU) : CPU :=
  match n with
  | O => s
  | S n' =>
      if negb (isFetching s) then s
      else if (length (instructionsList s) <=? fetchPtr s)%nat
      then set_isFetching false s
      else
        let '(res, q) := push (fetchPtr s) (decodeStage s) in
        if res then fetch_loop n' (fetch_one q s) else s
  end.

Definition fetch (s : CPU) : CPU := fetch_loop (width s) s.

(** The body of the loop of [decode] for the front [i] of the decode queue,
    once [push] has succeeded; [rest] is the queue after [pop]. *)
Definition decode_one (i : nat) (rest q : PipelineStage) (s : CPU) : CPU :=
  let s1 := set_dispatchStage q s in
  let s2 := updInst i (setDecodeCycle (cycle s1)) s1 in
  let s3 := set_hasProgress true s2 in
  set_decodeStage rest s3.

(** [CPU::decode] *)
Fixpoint decode_loop (n : nat) (s : CPU) : CPU :=
  match n with
  | O => s
  | S n' =>
      match decodeStage s with
      | [] => s
      | i :: rest =>
          let '(res, q) := push i (dispatchStage s) in
          if res then decode_loop n' (decode_one i rest q s) else s
      end
  end.

Definition decode (s : CPU) : CPU := decode_loop (width s) s.

(** The search of [dispatch] for a free station of the required type: the
    first index [j] with a matching type and a clear busy flag. *)
Fixpoint findFreeRS (t : RSType) (j : nat) (rs : list ReservationStation) : option nat :=
  match rs with
  | [] => None
  | r :: rs' =>
      if bool_decide (rsType r = t) && negb (rsBusy r) then Some j
      else findFreeRS t (S j) rs'
  end.

(** The renaming of [dispatch] (lines 156-172): the source lookups, then the
    destination. Returns [T], [Told] and the state. *)
Definition rename (i : nat) (s : CPU) : result (PhysicalRegister * PhysicalRegister * CPU) :=
  p1 ← getMapping (mapTable s) (srcOp1 (getInst s i));
  let s1 := updInst i (setSrcPhysicalReg1 p1) s in
  s2 ← (if negb (srcOp2 (getInst s1 i) =? NONE)%Z
        then p2 ← getMapping (mapTable s1) (srcOp2 (getInst s1 i));
             Ok (updInst i (setSrcPhysicalReg2 p2) s1)
        else Ok s1);
  if negb (dstOp (getInst s2 i) =? NONE)%Z
  then
    '(T0, fl) ← popRegister (freeList s2);
    let T := setReady false T0 in
    let s3 := updInst i (setDstPhysicalReg T) (set_freeList fl s2) in
    Told ← getMapping (mapTable s3) (dstOp (getInst s3 i));
    mt ← setMapping (mapTable s3) (dstOp (getInst s3 i)) T;
    Ok (T, Told, set_mapTable mt s3)
  else
    Ok (defaultReg, defaultReg, updInst i (setDstPhysicalReg defaultReg) s2).

(** The rest of the loop body of [dispatch] after the three stall tests, for
    the front [i] of the dispatch queue and the free station [k]. *)
Definition dispatch_one (i k : nat) (s : CPU) : result CPU :=
  '(T, Told, s3) ← rename i s;
  let s4 := updInst i (setRenamed true) s3 in
  let s5 := set_rob (robAddInstruction i T Told (rob s4)) s4 in
  let s6 := set_reservationStations
              (alter (allocate i) k (reservationStations s5)) s5 in
  let s7 := updInst i (setAllocatedRs k) s6 in
  let s8 := updInst i (setDispatchCycle (cycle s7)) s7 in
  let s9 := set_hasProgress true s8 in
  Ok (set_dispatchStage (tail (dispatchStage s9)) s9).

(** [CPU::dispatch] *)
Fixpoint dispatch_loop (n : nat) (s : CPU) : result CPU :=
  match n with
  | O => Ok s
  | S n' =>
      match dispatchStage s with
      | [] => Ok s
      | i :: _ =>
          if negb (hasFreeEntry (rob s)) then Ok s
          else
            match findFreeRS (getReservationStation (getInst s i)) 0
                             (reservationStations s) with
            | None => Ok s
            | Some k =>
                if negb (dstOp (getInst s i) =? NONE)%Z
                   && negb (hasRegister (freeList s))
                then Ok s
                else s' ← dispatch_one i k s; dispatch_loop n' s'
            end
      end
  end.

Definition dispatch (s : CPU) : result CPU := dispatch_loop (width s) s.

(** Modelled from the spec: [ReservationStation::isReadyToExecute], false for
    a station that holds no instruction. *)
Definition isReadyToExecute (s : CPU) (r : ReservationStation) : bool :=
  rsBusy r &&
  match rsInst r with
  | Some i => srcsReady (getInst s i)
  | None => false
  end.

(** The test of line 214: the held instruction, when the station is ready to
    execute and the instruction has not issued. *)
Definition issueCandidate (s : CPU) (r : ReservationStation) : option nat :=
  match rsInst r with
  | Some i =>
      if isReadyToExecute s r && negb (hasIssued (getInst s i)) then Some i
      else None
  | None => None
  end.

(** The body of the test of line 225 for candidate [i]. *)
Definition issue_one (i : nat) (q : PipelineStage) (s : CPU) : CPU :=
  let s1 := set_executeStage q s in
  let s2 := updInst i (setIssueCycle (cycle s1)) s1 in
  set_hasProgress true s2.

(** The inner loop of [issue] over the stations, which [issue] never changes.
    The first component of the result is true when the scan hit
    [return]. *)
Fixpoint issue_scan (rs : list ReservationStation) (wc : nat) (s : CPU)
  : bool * nat * CPU :=
  match rs with
  | [] => (false, wc, s)
  | r :: rs' =>
      match issueCandidate s r with
      | Some i =>
          let wc' := S wc in
          if (width s <? wc')%nat then (true, wc', s)
          else
            let '(res, q) := push i (executeStage s) in
            if res then issue_scan rs' wc' (issue_one i q s)
            else issue_scan rs' wc' s
      | None => issue_scan rs' wc s
      end
  end.

Fixpoint issue_loop (n : nat) (wc : nat) (s : CPU) : CPU :=
  match n with
  | O => s
  | S n' =>
      let '(ret, wc', s') := issue_scan (reservationStations s) wc s in
      if ret then s' else issue_loop n' wc' s'
  end.

(** [CPU::issue] *)
Definition issue (s : CPU) : CPU := issue_loop (width s) 0 s.

(** The search of [execute] for the first station of the instruction's type. *)
Fixpoint findRSOfType (t : RSType) (j : nat) (rs : list ReservationStation) : option nat :=
  match rs with
  | [] => None
  | r :: rs' =>
      if bool_decide (rsType r = t) then Some j else findRSOfType t (S j) rs'
  end.

(** The body of the loop of [execute] for the front [i] of the execute queue,
    once [push] has succeeded; [rest] is the queue after [pop]. An
    [RSIndex] left at -1 and a null [getAllocatedRs()] are faults. *)
Definition execute_one (i : nat) (rest q : PipelineStage) (s : CPU) : result CPU :=
  let s1 := set_completeStage q s in
  let myType := getReservationStation (getInst s1 i) in
  let s2 := updInst i (setExecuteCycle (cycle s1)) s1 in
  match findRSOfType myType 0 (reservationStations s2)
        ≫= (reservationStations s2 !!.) with
  | None => Err NoStationOfType
  | Some r =>
      let s3 := updInst i (setExecTime (rsExecTime r)) s2 in
      match allocatedRs (getInst s3 i) with
      | None => Err NullStation
      | Some a =>
          let s4 := set_reservationStations
                      (alter free a (reservationStations s3)) s3 in
          let s5 := set_hasProgress true s4 in
          Ok (set_executeStage rest s5)
      end
  end.

(** [CPU::execute] *)
Fixpoint execute_loop (n : nat) (s : CPU) : result CPU :=
  match n with
  | O => Ok s
  | S n' =>
      match executeStage s with
      | [] => Ok s
      | i :: rest =>
          let '(res, q) := push i (completeStage s) in
          if res then s' ← execute_one i rest q s; execute_loop n' s'
          else execute_loop n' s
      end
  end.

Definition execute (s : CPU) : result CPU := execute_loop (width s) s.

(** Modelled from the spec: [ReservationStation::broadcastRegReady], acting
    on the held instruction through [markSrcReady]. *)
Definition broadcastRegReady (r : Z) (s : CPU) (st : ReservationStation) : CPU :=
  match rsInst st with
  | Some i => updInst i (markSrcReady r) s
  | None => s
  end.

(** The broadcast loop of [complete] over all stations. *)
Definition broadcast (r : Z) (s : CPU) : CPU :=
  foldl (broadcastRegReady r) s (reservationStations s).

(** The deadline test of line 325, on [uint32_t] operands. *)
Definition deadlineReached (s : CPU) (i : nat) : bool :=
  let executionCycle := getExecuteCycle (getInst s i) in
  let executionTime := execTime (getInst s i) in
  (wrap32 (executionCycle + executionTime) <=? cycle s)%Z.

(** The completion of the instruction [i] found at index [j] of the complete
    queue (lines 328-354). *)
Definition complete_one (i j : nat) (s : CPU) : result CPU :=
  let destinationRegNum := regNum (dstPhysicalReg (getInst s i)) in
  let s1 := broadcast destinationRegNum s in
  s2 ← (if negb (dstOp (getInst s1 i) =? NONE)%Z
        then mt ← setReadyBit (mapTable s1) destinationRegNum;
             Ok (set_mapTable mt s1)
        else Ok s1);
  let s3 := updInst i (setCompleteCycle (cycle s2)) s2 in
  let s4 := set_completeStage (delete j (completeStage s3)) s3 in
  Ok (set_hasProgress true s4).

(** The inner loop of [complete]: index [j] runs over the queue while the
    loop body erases from it; [fuel] is the length of the queue on entry, and
    the queue never grows. *)
Fixpoint complete_scan (fuel j : nat) (s : CPU) : result CPU :=
  match fuel with
  | O => Ok s
  | S fuel' =>
      match completeStage s !! j with
      | None => Ok s
      | Some i =>
          if deadlineReached s i
          then s' ← complete_one i j s; complete_scan fuel' (S j) s'
          else complete_scan fuel' (S j) (set_hasProgress true s)
      end
  end.

(** [CPU::complete] *)
Fixpoint complete_loop (n : nat) (s : CPU) : result CPU :=
  match n with
  | O => Ok s
  | S n' =>
      match completeStage s with
      | [] => Ok s
      | _ :: _ =>
          s' ← complete_scan (length (completeStage s)) 0 s;
          complete_loop n' s'
      end
  end.

Definition complete (s : CPU) : result CPU := complete_loop (width s) s.

(** The retirement of the head entry [robHead] (lines 411-442). *)
Definition retire_one (robHead : ROBEntry) (s : CPU) : result CPU :=
  let i := robInst robHead in
  let s1 := set_rob (retireHeadInstruction (rob s)) s in
  let destinationReg := dstPhysicalReg (getInst s1 i) in
  s2 ← (if negb (dstOp (getInst s1 i) =? NONE)%Z
        then mt ← setMapping (archMappingTable s1)
                             (dstOp (getInst s1 i)) destinationReg;
             Ok (set_archMappingTable mt s1)
        else Ok s1);
  let destinationTold := robTold robHead in
  let s3 := if negb (dstOp (getInst s2 i) =? NONE)%Z
            then set_freePhysRegsPrevCycle
                   (freePhysRegsPrevCycle s2 ++ [destinationTold]) s2
            else s2 in
  let s4 := updInst i (setRetireCycle (cycle s3)) s3 in
  Ok (set_hasProgress true s4).

(** [CPU::retire] *)
Fixpoint retire_loop (n : nat) (s : CPU) : result CPU :=
  match n with
  | O => Ok s
  | S n' =>
      match getHead (rob s) with
      | None => Ok s
      | Some robHead =>
          if negb (hasCompleted (getInst s (robInst robHead))) then Ok s
          else s' ← retire_one robHead s; retire_loop n' s'
      end
  end.

Definition retire (s : CPU) : result CPU := retire_loop (width s) s.

(** ** The cycle *)

(** The head of [CPU::tick]: the registers freed in the previous cycle enter
    the free list and the buffer is cleared. *)
Definition release (s : CPU) : CPU :=
  set_freePhysRegsPrevCycle []
    (set_freeList (foldl (λ fl p, addRegister p fl) (freeList s)
                         (freePhysRegsPrevCycle s)) s).

(** The stages of [CPU::tick] that follow [retire], in call order. *)
Definition stages_after_retire (s1 : CPU) : result CPU :=
  s2 ← complete s1;
  s3 ← execute s2;
  s5 ← dispatch (issue s3);
  Ok (fetch (decode s5)).

(** [CPU::tick] *)
Definition tick (s : CPU) : result CPU :=
  s1 ← retire (release s);
  stages_after_retire s1.

(** The condition of the loop of [CPU::simulate]. *)
Definition loop_cond (s : CPU) : bool := negb (isFinished s) && hasProgress s.

(** The body of the loop of [CPU::simulate]: clear the flag, tick, count the
    cycle. *)
Definition cycle_body (s : CPU) : result CPU :=
  s' ← tick (set_hasProgress false s);
  Ok (set_cycle (wrap32 (cycle s' + 1)) s').

(** The outcome of [simulate] on bounded fuel. *)
Inductive Outcome :=
| Finished (s : CPU)
| OutOfFuel (s : CPU)
| Faulted (f : Fault).

Fixpoint simulate_loop (fuel : nat) (s : CPU) : Outcome :=
  if loop_cond s then
    match fuel with
    | O => OutOfFuel s
    | S fuel' =>
        match cycle_body s with
        | Ok s' => simulate_loop fuel' s'
        | Err e => Faulted e
        end
    end
  else Finished s.

(** [CPU::simulate] *)
Definition simulate (fuel : nat) (s : CPU) : Outcome :=
  simulate_loop fuel (set_hasProgress true s).

(** The state on entry to the loop of [simulate]. *)
Definition start (c : Config) (p : list ProgramLine) : CPU :=
  set_hasProgress true (loadProgram c p).

(** The states at the head of the loop of [simulate], counted by the number
    of cycles run. *)
Inductive reachable (c : Config) (p : list ProgramLine) : nat → CPU → Prop :=
| reach_start :
    reachable c p 0 (start c p)
| reach_cycle n s s' :
    reachable c p n s →
    loop_cond s = true →
    cycle_body s = Ok s' →
    reachable c p (S n) s'.

(** An executable form of [reachable]: run [n] full cycles. *)
Fixpoint run (n : nat) (s : CPU) : option CPU :=
  match n with
  | O => Some s
  | S n' =>
      if loop_cond s then
        match cycle_body s with
        | Ok s' => run n' s'
        | Err _ => None
        end
      else None
  end.


(** ** Notions used by the properties *)

(** The position of a stage in the pipeline. *)
Definition stageIndex (st : Stage) : nat :=
  match st with
  | Fetch => 0
  | Decode => 1
  | Dispatch => 2
  | Issue => 3
  | Execute => 4
  | Complete => 5
  | Retire => 6
  end.

(** [before x y]: when the later timestamp [y] is set, the earlier one [x] is
    set too and is strictly smaller. *)
Definition before (x y : option Z) : Prop :=
  match y with
  | None => True
  | Some b =>
      match x with
      | Some a => (a < b)%Z
      | None => False
      end
  end.

(** The timestamps of one instruction are ordered along the pipeline. *)
Definition chain (i : Instruction) : Prop :=
  before (fetchCycle i) (decodeCycle i) ∧
  before (decodeCycle i) (dispatchCycle i) ∧
  before (dispatchCycle i) (issueCycle i) ∧
  before (issueCycle i) (executeCycle i) ∧
  before (executeCycle i) (completeCycle i) ∧
  before (completeCycle i) (retireCycle i).

(** A timestamp that is set in [s] has the same value in [s']. *)
Definition stable (s s' : CPU) : Prop :=
  ∀ i st a, stamp st (getInst s i) = Some a → stamp st (getInst s' i) = Some a.

(** Some instruction advanced a stage between [s] and [s']: a timestamp unset
    in [s] is set in [s']. *)
Definition gained (s s' : CPU) : Prop :=
  ∃ i st, stamp st (getInst s i) = None ∧ is_Some (stamp st (getInst s' i)).

(** The instructions held by the reservation stations, in station order. *)
Definition held (s : CPU) : list nat := omap rsInst (reservationStations s).

(** The instructions of the ROB entries, head first. *)
Definition robIds (s : CPU) : list nat := robInst <$> robQueue (rob s).

(** The instructions [issue] would accept, in station order. *)
Definition candidates (s : CPU) : list nat :=
  omap (issueCandidate s) (reservationStations s).

(** The ROB entry belongs to an instruction with a destination. *)
Definition hasDst (s : CPU) (e : ROBEntry) : bool :=
  negb (dstOp (getInst s (robInst e)) =? NONE)%Z.

(** The old mappings held by the ROB for release at retirement. *)
Definition robTolds (s : CPU) : list Z :=
  (λ e, regNum (robTold e)) <$> filter (λ e, Is_true (hasDst s e)) (robQueue (rob s)).

(** The physical registers accounted for: the free list, the targets of the
    speculative map table, the old mappings held in the ROB and the buffer of
    registers pending release. *)
Definition regs (s : CPU) : list Z :=
  (regNum <$> freeList s) ++ mapping (mapTable s) ++ robTolds s
  ++ (regNum <$> freePhysRegsPrevCycle s).

(** The first stall test of [dispatch] that fails for the front of the
    dispatch queue, if any. *)
Definition dispatchStalled (s : CPU) (i : nat) : Prop :=
  hasFreeEntry (rob s) = false ∨
  findFreeRS (getReservationStation (getInst s i)) 0 (reservationStations s) = None ∨
  (dstOp (getInst s i) ≠ NONE ∧ freeList s = []).

(** ** Invariants of the simulation *)

(** The bound on the last timestamp of an instruction waiting for the stage
    that runs at position [p] of the tick, after [k] stages of the tick have
    run: strictly below the cycle until the stage that feeds it has run. *)
Definition lim (p k : nat) (c : Z) : Z :=
  if (p <=? k)%nat then (c + 1)%Z else c.

(** Where each instruction is and which timestamps it carries there. *)
Record stamp_inv (k : nat) (s : CPU) : Prop := mkStampInv {
  si_chain : ∀ i, chain (getInst s i);
  si_flag : ∀ i, hasCompleted (getInst s i) = true →
                 is_Some (completeCycle (getInst s i));
  si_unfetched : ∀ i, fetchPtr s ≤ i → fetchCycle (getInst s i) = None;
  si_decode : ∀ i, i ∈ decodeStage s →
      decodeCycle (getInst s i) = None ∧
      ∃ a, fetchCycle (getInst s i) = Some a ∧ (a < lim 7 k (cycle s))%Z;
  si_decode_nd : NoDup (decodeStage s);
  si_dispatch : ∀ i, i ∈ dispatchStage s →
      dispatchCycle (getInst s i) = None ∧
      ∃ a, decodeCycle (getInst s i) = Some a ∧ (a < lim 6 k (cycle s))%Z;
  si_dispatch_nd : NoDup (dispatchStage s);
  si_station : ∀ j r i,
      reservationStations s !! j = Some r → rsInst r = Some i →
      allocatedRs (getInst s i) = Some j ∧
      executeCycle (getInst s i) = None ∧
      (hasIssued (getInst s i) = false → issueCycle (getInst s i) = None) ∧
      ∃ a, dispatchCycle (getInst s i) = Some a ∧ (a < lim 5 k (cycle s))%Z;
  si_execute : ∀ i, i ∈ executeStage s →
      executeCycle (getInst s i) = None ∧
      ∃ a, issueCycle (getInst s i) = Some a ∧ (a < lim 4 k (cycle s))%Z;
  si_execute_nd : NoDup (executeStage s);
  si_complete : ∀ i, i ∈ completeStage s →
      completeCycle (getInst s i) = None ∧
      ∃ a, executeCycle (getInst s i) = Some a ∧ (a < lim 3 k (cycle s))%Z;
  si_complete_nd : NoDup (completeStage s);
  si_rob : ∀ i, i ∈ robIds s →
      retireCycle (getInst s i) = None ∧
      is_Some (dispatchCycle (getInst s i)) ∧
      (hasCompleted (getInst s i) = true →
       ∃ a, completeCycle (getInst s i) = Some a ∧ (a < lim 2 k (cycle s))%Z);
  si_rob_nd : NoDup (robIds s)
}.

(** Program order: the ROB, the dispatch queue and the decode queue hold, in
    this order, the consecutive instructions from the oldest unretired one
    [r] up to the fetch pointer; retirement timestamps grow with the
    instruction index. *)
Definition ord_inv (s : CPU) : Prop :=
  ∃ r, r ≤ fetchPtr s ∧
       robIds s ++ dispatchStage s ++ decodeStage s = seq r (fetchPtr s - r) ∧
       (∀ i, r ≤ i → retireCycle (getInst s i) = None) ∧
       (∀ i j a b, i ≤ j →
                   retireCycle (getInst s i) = Some a →
                   retireCycle (getInst s j) = Some b → (a ≤ b)%Z) ∧
       (∀ i a, retireCycle (getInst s i) = Some a → (a ≤ cycle s)%Z).

(** The registers accounted for are exactly the registers of [l], each
    once. *)
Definition reg_inv (l : list Z) (s : CPU) : Prop := regs s ≡ₚ l.

(** The registers a configuration starts with. *)
Definition allRegs (c : Config) : list Z :=
  seqZ 0 (Z.of_nat (Nat.max (numArchRegs c) (numPhysicalRegs c))).

(** ** What a stage leaves alone *)

(** The register bookkeeping is untouched. *)
Record reg_same (s s' : CPU) : Prop := mkRegSame {
  rs_free : freeList s' = freeList s;
  rs_mapping : mapping (mapTable s') = mapping (mapTable s);
  rs_rob : rob s' = rob s;
  rs_pending : freePhysRegsPrevCycle s' = freePhysRegsPrevCycle s;
  rs_dst : ∀ i, dstOp (getInst s' i) = dstOp (getInst s i)
}.

(** What issue, execute and complete leave alone: the in-order part of the
    pipeline, the register bookkeeping and the retirement timestamps. *)
Record mid_frame (s s' : CPU) : Prop := mkMidFrame {
  mf_regs : reg_same s s';
  mf_width : width s' = width s;
  mf_dispatch : dispatchStage s' = dispatchStage s;
  mf_decode : decodeStage s' = decodeStage s;
  mf_fetchPtr : fetchPtr s' = fetchPtr s;
  mf_cycle : cycle s' = cycle s;
  mf_retire : ∀ i, retireCycle (getInst s' i) = retireCycle (getInst s i)
}.

(** The store after the broadcast of register [r] to the stations [rs]. *)
Definition broadcastList (r : Z) (rs : list ReservationStation)
    (l : list Instruction) : list Instruction :=
  foldl (λ l' st, match rsInst st with
                  | Some i => alter (markSrcReady r) i l'
                  | None => l'
                  end) l rs.

(** Every stage leaves the width and the cycle counter alone. *)
Definition base_same (s s' : CPU) : Prop :=
  width s' = width s ∧ cycle s' = cycle s.

(** Two versions of an instruction with the same timestamps, flags and
    station back-reference. *)
Definition same_status (x y : Instruction) : Prop :=
  fetchCycle x = fetchCycle y ∧ decodeCycle x = decodeCycle y ∧
  dispatchCycle x = dispatchCycle y ∧ issueCycle x = issueCycle y ∧
  executeCycle x = executeCycle y ∧ completeCycle x = completeCycle y ∧
  retireCycle x = retireCycle y ∧ hasIssued x = hasIssued y ∧
  hasCompleted x = hasCompleted y ∧ allocatedRs x = allocatedRs y.

(** A stage never clears the progress flag, and leaves every instruction as
    it was when it does not set the flag. *)
Definition quiet (s s' : CPU) : Prop :=
  (hasProgress s = true → hasProgress s' = true) ∧
  (hasProgress s' = false → instructionsList s' = instructionsList s).

(** The state after the instructions [cs] have been issued in turn. *)
Definition issueAll (cs : list nat) (s : CPU) : CPU :=
  foldl (λ s' i, issue_one i (executeStage s' ++ [i]) s') s cs.

(** The part of a tick that precedes [issue]. *)
Definition beforeIssue (s : CPU) : result CPU :=
  s1 ← retire (release s);
  s2 ← complete s1;
  execute s2.

(** The head of the ROB cannot retire: the ROB is empty or the head
    instruction has not completed. *)
Definition retireBlocked (s : CPU) : Prop :=
  match getHead (rob s) with
  | None => True
  | Some e => hasCompleted (getInst s (robInst e)) = false
  end.

(** The value of a successful computation, or a default. *)
Definition okOr {A} (d : A) (r : result A) : A :=
  match r with
  | Ok a => a
  | Err _ => d
  end.

(** The state after [n] cycles of the program [p], when the loop of
    [simulate] runs that long. *)
Definition stateAfter (n : nat) (c : Config) (p : list ProgramLine) : CPU :=
  default (start c p) (run n (start c p)).

(** The instructions that are completed in [s2] and were not in [s1]. *)
Definition newlyCompleted (s1 s2 : CPU) : list nat :=
  filter (λ i, Is_true (hasCompleted (getInst s2 i)
                        && negb (hasCompleted (getInst s1 i))))
         (seq 0 (length (instructionsList s2))).

(** ** Example configurations and programs *)

(** Four architectural and eight physical registers, eight ROB entries. *)
Definition cfgWidth1 : Config := mkConfig 4 8 8 1 0.
Definition cfgWidth2 : Config := mkConfig 4 8 8 2 0.

(** The same machine without any ROB entry. *)
Definition cfgNoRob : Config := mkConfig 4 8 0 1 0.

(** A load of r1 from r0. *)
Definition progLoad : list ProgramLine :=
  [ (RSType_LOAD, 0%Z, NONE, 1%Z) ].

(** A load of r1 from r0, then an ALU operation writing r2 from r0 and r0. *)
Definition progLoadAlu : list ProgramLine :=
  [ (RSType_LOAD, 0%Z, NONE, 1%Z); (RSType_ALU, 0%Z, 0%Z, 2%Z) ].

(** A load, a store and two ALU operations, all reading r0 only. *)
Definition progFour : list ProgramLine :=
  [ (RSType_LOAD, 0%Z, NONE, 1%Z); (RSType_STORE, 0%Z, 0%Z, NONE);
    (RSType_ALU, 0%Z, 0%Z, 2%Z); (RSType_ALU, 0%Z, 0%Z, 3%Z) ].

(** An ALU operation without any source operand, writing r1. *)
Definition progNoSource : list ProgramLine :=
  [ (RSType_ALU, NONE, NONE, 1%Z) ].

(** A store of r0 with a first source and no second source. *)
Definition progOneSource : list ProgramLine :=
  [ (RSType_STORE, 0%Z, NONE, NONE) ].

(** The state the next cycle starts its stages in: the cycle counted, the
    flag cleared and the pending registers released. *)
Definition nextCycleEntry (s' : CPU) : CPU :=
  release (set_hasProgress false (set_cycle (wrap32 (cycle s' + 1)) s')).

(** The states of a demonstration run of [progLoadAlu] at width 1, in the
    cycle in which the load retires. *)
Definition demoS1 : CPU :=
  okOr (start cfgWidth1 progLoadAlu)
       (retire (release (set_hasProgress false
                           (stateAfter 7 cfgWidth1 progLoadAlu)))).
Definition demoS2 : CPU := okOr demoS1 (complete demoS1).
Definition demoS3 : CPU := okOr demoS2 (execute demoS2).
Definition demoS5 : CPU := okOr demoS3 (dispatch (issue demoS3)).

(** The state [issue] runs on in cycle 3 of [progFour] at width 2. *)
Definition demoIssue : CPU :=
  okOr (start cfgWidth2 progFour)
       (beforeIssue (set_hasProgress false (stateAfter 3 cfgWidth2 progFour))).

(** The state after cycle 5 of [progLoad] at width 1. *)
Definition demoWait : CPU :=
  okOr (start cfgWidth1 progLoad) (cycle_body (stateAfter 5 cfgWidth1 progLoad)).

(** ** The moves of the stages *)

(** One iteration of the loop of a stage that changes the state. The number
    is the position of the stage in [tick]: 1 for [retire], 2 for
    [complete], 3 for [execute], 4 for [issue], 5 for [dispatch], 6 for
    [decode] and 7 for [fetch]. Each move carries the tests its loop body
    passed. *)
Inductive step : nat → CPU → CPU → Prop :=
| step_retire s e s' :
    getHead (rob s) = Some e →
    hasCompleted (getInst s (robInst e)) = true →
    retire_one e s = Ok s' →
    step 1 s s'
| step_complete s j i s' :
    completeStage s !! j = Some i →
    deadlineReached s i = true →
    complete_one i j s = Ok s' →
    step 2 s s'
| step_wait s j i :
    completeStage s !! j = Some i →
    deadlineReached s i = false →
    step 2 s (set_hasProgress true s)
| step_execute s i rest s' :
    executeStage s = i :: rest →
    execute_one i rest (completeStage s ++ [i]) s = Ok s' →
    step 3 s s'
| step_issue s r i :
    r ∈ reservationStations s →
    issueCandidate s r = Some i →
    step 4 s (issue_one i (executeStage s ++ [i]) s)
| step_dispatch s i rest k s' :
    dispatchStage s = i :: rest →
    hasFreeEntry (rob s) = true →
    findFreeRS (getReservationStation (getInst s i)) 0
               (reservationStations s) = Some k →
    (dstOp (getInst s i) = NONE ∨ hasRegister (freeList s) = true) →
    dispatch_one i k s = Ok s' →
    step 5 s s'
| step_decode s i rest :
    decodeStage s = i :: rest →
    step 6 s (decode_one i rest (dispatchStage s ++ [i]) s)
| step_fetch s :
    isFetching s = true →
    fetchPtr s < length (instructionsList s) →
    step 7 s (fetch_one (decodeStage s ++ [fetchPtr s]) s)
| step_fetch_end s :
    isFetching s = true →
    length (instructionsList s) ≤ fetchPtr s →
    step 7 s (set_isFetching false s).

(** The stage whose loop makes the moves numbered [k]. *)
Definition stageAt (k : nat) : Stage :=
  match k with
  | 1 => Retire
  | 2 => Complete
  | 3 => Execute
  | 4 => Issue
  | 5 => Dispatch
  | 6 => Decode
  | _ => Fetch
  end.

(** The invariants of the simulation at position [k] of the tick: the
    timestamps, the program order of the queues and the register
    bookkeeping, in a cycle the 32-bit counter can still count on from. *)
Definition kernel_inv (c : Config) (k : nat) (s : CPU) : Prop :=
  stamp_inv k s ∧ ord_inv s ∧ reg_inv (allRegs c) s ∧
  (0 ≤ cycle s < 4294967295)%Z.

(** What a move does to the timestamps: every timestamp is as it was, except
    the timestamp of the stage [st] on the one instruction [i], which is the
    current cycle. *)
Definition touches (st : Stage) (i : nat) (s s' : CPU) : Prop :=
  ∀ j st', stamp st' (getInst s' j) = stamp st' (getInst s j) ∨
           (j = i ∧ st' = st ∧ stamp st' (getInst s' j) = Some (cycle s)).

(** The operands of an instruction, as [addInstruction] received them. *)
Definition operands (x : Instruction) : ProgramLine :=
  (instType x, srcOp1 x, srcOp2 x, dstOp x).

(** The latency of the stations [CPU::CPU] creates for a type. *)
Definition latency (t : RSType) : Z :=
  match t with
  | RSType_ALU => 1
  | RSType_LOAD => 2
  | RSType_STORE => 2
  end.

(** The number of readiness bits of a map table: one for every physical
    register number in use. *)
Definition physCount (c : Config) : nat :=
  Nat.max (numArchRegs c) (numPhysicalRegs c).

(** The shape of a state: what never changes after the program is loaded,
    the sizes of the tables, and how the flags and fields of an instruction
    follow its timestamps. *)
Record shape_inv (c : Config) (p : list ProgramLine) (s : CPU) : Prop := mkShape {
  sh_len : length (instructionsList s) = length p;
  sh_ops : ∀ i l, p !! i = Some l → operands (getInst s i) = l;
  sh_stations :
    (λ r, (rsType r, rsExecTime r)) <$> reservationStations s
    = [ (RSType_ALU, 1%Z); (RSType_ALU, 1%Z);
        (RSType_LOAD, 2%Z); (RSType_STORE, 2%Z) ];
  sh_width : width s = cfgWidth c;
  sh_cap : robCapacity (rob s) = robEntries c;
  sh_rob : length (robQueue (rob s)) ≤ robEntries c;
  sh_map : length (mapping (mapTable s)) = numArchRegs c ∧
           length (readyBits (mapTable s)) = physCount c;
  sh_arch : length (mapping (archMappingTable s)) = numArchRegs c ∧
            length (readyBits (archMappingTable s)) = physCount c;
  sh_disp : ∀ i, is_Some (dispatchCycle (getInst s i)) →
      is_Some (allocatedRs (getInst s i)) ∧
      (dstOp (getInst s i) ≠ NONE →
       (0 ≤ dstOp (getInst s i) < Z.of_nat (numArchRegs c))%Z ∧
       (0 ≤ regNum (dstPhysicalReg (getInst s i)) < Z.of_nat (physCount c))%Z);
  sh_exec : ∀ i, is_Some (executeCycle (getInst s i)) →
      execTime (getInst s i) = latency (instType (getInst s i));
  sh_fetching : isFetching s = false →
      length (instructionsList s) ≤ fetchPtr s;
  sh_issued : ∀ i, hasIssued (getInst s i) = true ↔
                   is_Some (issueCycle (getInst s i));
  sh_completed : ∀ i, hasCompleted (getInst s i) = true ↔
                      is_Some (completeCycle (getInst s i));
  sh_retired : ∀ i, hasRetired (getInst s i) = true ↔
                    is_Some (retireCycle (getInst s i))
}.

(** Every timestamp is a cycle that has been counted: below the counter
    between two cycles, at most the counter inside a tick. *)
Definition stamps_below (s : CPU) : Prop :=
  ∀ i st a, stamp st (getInst s i) = Some a → (0 ≤ a < cycle s)%Z.

Definition stamps_upto (s : CPU) : Prop :=
  ∀ i st a, stamp st (getInst s i) = Some a → (0 ≤ a ≤ cycle s)%Z.

(** The latency of the station type separates execution from completion. *)
Definition lat_inv (s : CPU) : Prop :=
  ∀ i u, completeCycle (getInst s i) = Some u →
    ∃ e, executeCycle (getInst s i) = Some e ∧
         (e + latency (instType (getInst s i)) ≤ u)%Z.

(** The instruction a move numbered [k] can take from the state [s]. *)
Definition moves (k : nat) (s : CPU) (i : nat) : Prop :=
  match k with
  | 1 => ∃ e, getHead (rob s) = Some e ∧ robInst e = i ∧
              hasCompleted (getInst s i) = true
  | 2 => i ∈ completeStage s ∧ deadlineReached s i = true
  | 3 => head (executeStage s) = Some i
  | 4 => i ∈ candidates s
  | 5 => head (dispatchStage s) = Some i
  | 6 => head (decodeStage s) = Some i
  | _ => i = fetchPtr s ∧ fetchPtr s < length (instructionsList s)
  end.

(** ** Operands and faults *)

(** The operand [a] of the program line [l] is not the number of an
    architectural register: the first source whatever it is, the second
    source or the destination unless it is the sentinel. *)
Definition badOperand (c : Config) (l : ProgramLine) (a : Z) : Prop :=
  let '(_, s1, s2, d) := l in
  (a = s1 ∨ (a = s2 ∧ s2 ≠ NONE) ∨ (a = d ∧ d ≠ NONE)) ∧
  ¬ (0 ≤ a < Z.of_nat (numArchRegs c))%Z.

(** [a] is the number of an architectural register. *)
Definition archReg (c : Config) (a : Z) : bool :=
  ((0 <=? a) && (a <? Z.of_nat (numArchRegs c)))%Z.

(** Every operand of the line that the renaming looks up is the number of an
    architectural register. *)
Definition lineOk (c : Config) (l : ProgramLine) : bool :=
  let '(_, s1, s2, d) := l in
  archReg c s1 && ((s2 =? NONE)%Z || archReg c s2)
  && ((d =? NONE)%Z || archReg c d).

Definition wellFormed (c : Config) (p : list ProgramLine) : Prop :=
  forallb (lineOk c) p = true.

(** The invariants a stage relies on not to fault. *)
Definition good (c : Config) (p : list ProgramLine) (k : nat) (s : CPU) : Prop :=
  kernel_inv c k s ∧ shape_inv c p s.

(** ** Counting *)

(** The instructions that carry the cycle [t] as their timestamp of the
    stage [st]. *)
Definition stampedAt (st : Stage) (t : Z) (s : CPU) : list nat :=
  filter (λ i, stamp st (getInst s i) = Some t)
         (seq 0 (length (instructionsList s))).

(** ** Program order *)

(** An instruction that has been fetched and is in none of the in-order
    queues has retired. *)
Definition retired_inv (s : CPU) : Prop :=
  ∀ i, i < fetchPtr s → i ∉ robIds s → i ∉ dispatchStage s →
       i ∉ decodeStage s → is_Some (retireCycle (getInst s i)).

(** The stages that take the instructions in program order. *)
Definition inOrderStage (st : Stage) : bool :=
  match st with
  | Fetch | Decode | Dispatch | Retire => true
  | _ => false
  end.

(** An instruction reaches an in-order stage only after every earlier
    instruction, and never in an earlier cycle. *)
Definition inorder_inv (s : CPU) : Prop :=
  ∀ st i j b, inOrderStage st = true → i ≤ j →
    stamp st (getInst s j) = Some b →
    ∃ a, stamp st (getInst s i) = Some a ∧ (a ≤ b)%Z.

(** ** Termination *)

Definition allStages : list Stage :=
  [Fetch; Decode; Dispatch; Issue; Execute; Complete; Retire].

(** The timestamps that are still to be set. *)
Definition pending (s : CPU) : list (nat * Stage) :=
  filter (λ x, stamp x.2 (getInst s x.1) = None)
         (cprod (seq 0 (length (instructionsList s))) allStages).

(** Some instruction of the complete queue is before its deadline. *)
Definition waiting (s : CPU) : bool :=
  existsb (λ i, negb (deadlineReached s i)) (completeStage s).

(** What bounds the number of cycles still to run: every cycle that sets the
    progress flag sets a timestamp, or follows a cycle of waiting for a
    latency. *)
Definition potential (s : CPU) : nat :=
  2 * length (pending s) + (if waiting s then 1 else 0).

(** The loop of [simulate] came to its end within the fuel. *)
Definition terminated (o : Outcome) : Prop :=
  match o with
  | OutOfFuel _ => False
  | _ => True
  end.

(** ** Liveness *)

(** [w] is an instruction of the ROB that writes the physical register [r]
    and has not completed: the producer a consumer of [r] waits for. *)
Definition producer (s : CPU) (r : Z) (w : nat) : Prop :=
  w ∈ robIds s ∧ hasCompleted (getInst s w) = false ∧
  dstOp (getInst s w) ≠ NONE ∧ regNum (dstPhysicalReg (getInst s w)) = r.

(** Where the instructions of the ROB are, and who will wake up a source
    that is not ready. *)
Record live_inv (s : CPU) : Prop := mkLive {
  li_busy : ∀ r, r ∈ reservationStations s →
      (rsBusy r = true ↔ is_Some (rsInst r));
  li_held : ∀ i, i ∈ held s → i ∈ robIds s;
  li_rob : ∀ i, i ∈ robIds s →
      hasCompleted (getInst s i) = true ∨ i ∈ completeStage s ∨
      (i ∈ held s ∧ (hasIssued (getInst s i) = false ∨ i ∈ executeStage s));
  li_exec : ∀ i, i ∈ executeStage s → i ∈ held s;
  li_src1 : ∀ i, i ∈ held s → srcOp1 (getInst s i) ≠ NONE →
      isReady (srcPhysicalReg1 (getInst s i)) = true ∨
      ∃ w, producer s (regNum (srcPhysicalReg1 (getInst s i))) w ∧ w < i;
  li_src2 : ∀ i, i ∈ held s → srcOp2 (getInst s i) ≠ NONE →
      isReady (srcPhysicalReg2 (getInst s i)) = true ∨
      ∃ w, producer s (regNum (srcPhysicalReg2 (getInst s i))) w ∧ w < i;
  li_map : ∀ a r, mapping (mapTable s) !! a = Some r →
      readyBits (mapTable s) !! Z.to_nat r = Some true ∨
      ∃ w, producer s r w
}.

(** A configuration in which the pipeline can move: a positive width, a ROB
    with an entry, and a physical register beyond the architectural ones. *)
Definition sane (c : Config) : Prop :=
  (0 <? cfgWidth c) && (0 <? robEntries c)
  && (numArchRegs c <? numPhysicalRegs c) = true.

(** The fields of an instruction the liveness invariant reads. *)
Definition liveFields (x : Instruction) :=
  (hasCompleted x, hasIssued x, dstOp x, dstPhysicalReg x,
   srcOp1 x, srcOp2 x, srcPhysicalReg1 x, srcPhysicalReg2 x).

(** ** The output *)

(** A timestamp as [generateOutputFile] prints it: the getters of
    [Instruction] give the sentinel for a stage not reached. *)
Definition getCycle (st : Stage) (x : Instruction) : Z :=
  default NONE (stamp st x).

(** The numbers of one line of the output, in print order. *)
Definition outputRow (x : Instruction) : list Z :=
  [ getCycle Fetch x; getCycle Decode x; getCycle Dispatch x;
    getCycle Issue x; getCycle Execute x; getCycle Complete x;
    getCycle Retire x ].

(** [CPU::generateOutputFile]: one line for each instruction of the store, in
    program order. *)
Definition generateOutputFile (s : CPU) : list (list Z) :=
  outputRow <$> instructionsList s.

(** ** Committed and speculative mappings *)

(** The renaming of the instruction of one ROB entry, applied to a mapping
    from architectural to physical registers. *)
Definition renameEntry (s : CPU) (m : list Z) (e : ROBEntry) : list Z :=
  if hasDst s e
  then <[Z.to_nat (dstOp (getInst s (robInst e))) :=
           regNum (dstPhysicalReg (getInst s (robInst e)))]> m
  else m.

(** The architectural mapping with the renamings of the entries [es] applied
    in order. *)
Definition replay (s : CPU) (es : list ROBEntry) : list Z :=
  foldl (renameEntry s) (mapping (archMappingTable s)) es.

(** The speculative mapping is the architectural one replayed over the ROB,
    and every entry holds as [Told] what its destination was mapped to just
    before it. *)
Record commit_inv (s : CPU) : Prop := mkCommit {
  ci_map : mapping (mapTable s) = replay s (robQueue (rob s));
  ci_told : ∀ k e, robQueue (rob s) !! k = Some e → hasDst s e = true →
      replay s (take k (robQueue (rob s)))
        !! Z.to_nat (dstOp (getInst s (robInst e)))
      = Some (regNum (robTold e))
}.

(** ** Configurations that cannot move *)

(** What a dispatched instruction tells about the configuration, and the
    free list of a configuration without a spare physical register. *)
Definition starved_inv (c : Config) (s : CPU) : Prop :=
  (∀ i, is_Some (dispatchCycle (getInst s i)) →
        0 < robEntries c ∧
        (dstOp (getInst s i) ≠ NONE → numArchRegs c < numPhysicalRegs c)) ∧
  (numPhysicalRegs c ≤ numArchRegs c →
   freeList s = [] ∧ freePhysRegsPrevCycle s = []).

(** ** The destinations in flight *)

(** The destination registers of the instructions in the ROB that have a
    destination, head first. *)
Definition robTs (s : CPU) : list Z :=
  (λ e, regNum (dstPhysicalReg (getInst s (robInst e))))
    <$> filter (λ e, Is_true (hasDst s e)) (robQueue (rob s)).

(** The speculative mapping and the old mappings of the ROB hold the
    registers of the architectural mapping and of the destinations in
    flight. *)
Definition alloc_inv (s : CPU) : Prop :=
  mapping (mapTable s) ++ robTolds s
  ≡ₚ mapping (archMappingTable s) ++ robTs s.

(** ** Read after write *)

(** The number of the destination register of an instruction. *)
Definition dstReg (s : CPU) (w : nat) : Z :=
  regNum (dstPhysicalReg (getInst s w)).

Definition dispatched (s : CPU) (j : nat) : Prop :=
  is_Some (dispatchCycle (getInst s j)).

(** [w] is the last instruction dispatched so far that writes the
    architectural register [a]. *)
Definition lastWriter (s : CPU) (a : Z) (w : nat) : Prop :=
  dispatched s w ∧ dstOp (getInst s w) = a ∧
  ∀ j, w < j → dispatched s j → dstOp (getInst s j) ≠ a.

(** [w] is the last instruction before [i] in the program that writes the
    architectural register [a]: the instruction whose result [i] reads when
    [a] is one of its sources. *)
Definition writerBefore (s : CPU) (i : nat) (a : Z) (w : nat) : Prop :=
  w < i ∧ dstOp (getInst s w) = a ∧
  ∀ j, w < j < i → dstOp (getInst s j) ≠ a.

(** [a] is a source operand of the instruction [x], renamed to [r]. *)
Definition source (x : Instruction) (a : Z) (r : PhysicalRegister) : Prop :=
  a ≠ NONE ∧
  ((srcOp1 x = a ∧ srcPhysicalReg1 x = r) ∨
   (srcOp2 x = a ∧ srcPhysicalReg2 x = r)).

(** How the renaming follows the writers: the ready bit of a mapped register
    tells that its last writer has completed; the map table holds the
    destination of a last writer in flight; a source of an instruction in
    flight is the destination of its writer, and is ready only when the
    writer has completed; an instruction without a destination carries the
    default register. *)
Record raw_inv (s : CPU) : Prop := mkRaw {
  ri_bits : ∀ a w x, a ≠ NONE → lastWriter s a w →
      mapping (mapTable s) !! Z.to_nat a = Some x →
      readyBits (mapTable s) !! Z.to_nat x = Some true →
      hasCompleted (getInst s w) = true;
  ri_map : ∀ a w, a ≠ NONE → lastWriter s a w → w ∈ robIds s →
      mapping (mapTable s) !! Z.to_nat a = Some (dstReg s w);
  ri_src : ∀ i a r w, i ∈ robIds s → source (getInst s i) a r →
      writerBefore s i a w → w ∈ robIds s → regNum r = dstReg s w;
  ri_ready : ∀ i a r w, i ∈ robIds s → source (getInst s i) a r →
      writerBefore s i a w → isReady r = true →
      hasCompleted (getInst s w) = true;
  ri_nodst : ∀ w, dispatched s w → dstOp (getInst s w) = NONE →
      dstReg s w = regNum defaultReg
}.

(** An instruction is issued no earlier than the cycle in which the writer
    of each of its sources completed. *)
Definition issue_after_writer (s : CPU) : Prop :=
  ∀ i a w t,
    a ≠ NONE → srcOp1 (getInst s i) = a ∨ srcOp2 (getInst s i) = a →
    writerBefore s i a w → issueCycle (getInst s i) = Some t →
    ∃ u, completeCycle (getInst s w) = Some u ∧ (u ≤ t)%Z.

(** The fields of an instruction the renaming invariant reads. *)
Definition rawFields (x : Instruction) :=
  (dstOp x, dstPhysicalReg x, srcOp1 x, srcOp2 x,
   srcPhysicalReg1 x, srcPhysicalReg2 x, hasCompleted x, dispatchCycle x).

(** The renaming invariants together. *)
Definition flow_inv (s : CPU) : Prop :=
  retired_inv s ∧ commit_inv s ∧ alloc_inv s ∧ live_inv s ∧ raw_inv s ∧
  issue_after_writer s.

(** The operands of a program line. *)
Definition lineSrc1 (l : ProgramLine) : Z := l.1.1.2.
Definition lineSrc2 (l : ProgramLine) : Z := l.1.2.
Definition lineDst (l : ProgramLine) : Z := l.2.

(** The line [l] reads the architectural register [a]. *)
Definition reads (l : ProgramLine) (a : Z) : Prop :=
  a ≠ NONE ∧ (lineSrc1 l = a ∨ lineSrc2 l = a).

(** Line [w] is the last line before line [i] that writes the architectural
    register [a]. *)
Definition lastWriteBefore (p : list ProgramLine) (i : nat) (a : Z) (w : nat)
  : Prop :=
  w < i ∧ (∃ l, p !! w = Some l ∧ lineDst l = a) ∧
  ∀ j l, w < j < i → p !! j = Some l → lineDst l ≠ a.

(** A load and an ALU operation that reads the loaded register. *)
Definition progChain : list ProgramLine :=
  [ (RSType_LOAD, 0%Z, NONE, 1%Z); (RSType_ALU, 1%Z, 1%Z, 2%Z) ].

(** * Basic facts *)

Lemma bind_Ok {A B} (m : result A) (f : A → result B) (b : B) :
  m ≫= f = Ok b → ∃ a, m = Ok a ∧ f a = Ok b.
Proof. destruct m as [a|e]; simpl; [eauto | discriminate]. Qed.

(** Inversion of a successful monadic computation. *)
Ltac inv_ok :=
  repeat match goal with
  | H : Ok _ = Ok _ |- _ => injection H as H; try subst
  | H : Err _ = Ok _ |- _ => discriminate H
  | H : (_ ≫= _) = Ok _ |- _ =>
      let a := fresh "a" in
      let Ha := fresh "Ha" in
      apply bind_Ok in H as (a & Ha & H)
  | H : (let '(_, _) := ?p in _) = Ok _ |- _ => destruct p
  | H : (if ?b then _ else _) = Ok _ |- _ => destruct b eqn:?
  | H : match ?x with _ => _ end = Ok _ |- _ => destruct x eqn:?
  end.

Lemma wrap32_small z : (0 ≤ z < 4294967296)%Z → wrap32 z = z.
Proof. intros. unfold wrap32. by rewrite Z.mod_small. Qed.

Lemma zlookup_Some {A} (l : list A) (i : Z) (x : A) :
  zlookup l i = Some x ↔ (0 ≤ i)%Z ∧ l !! Z.to_nat i = Some x.
Proof.
  unfold zlookup. split.
  - destruct (_ && _) eqn:E; [|done]. intros. split; [lia | done].
  - intros [H0 Hl]. apply lookup_lt_Some in Hl as Hlt.
    replace (_ && _) with true; [done|]. symmetry. apply andb_true_iff. lia.
Qed.

Lemma nthInst_alter_ne l i j f :
  j ≠ i → nthInst (alter f i l) j = nthInst l j.
Proof. intros. unfold nthInst. by rewrite list_lookup_alter_ne. Qed.

Lemma nthInst_alter_eq l i f :
  is_Some (l !! i) → nthInst (alter f i l) i = f (nthInst l i).
Proof.
  intros [x Hx]. unfold nthInst. by rewrite list_lookup_alter_eq, Hx.
Qed.

(** A mutation that leaves a field alone leaves it alone in the store. *)
Lemma nthInst_alter_pres {A} (P : Instruction → A) l i f j :
  (∀ x, P (f x) = P x) → P (nthInst (alter f i l) j) = P (nthInst l j).
Proof.
  intros Hf. destruct (decide (j = i)) as [->|Hne].
  - unfold nthInst. rewrite list_lookup_alter_eq.
    destruct (l !! i); simpl; [apply Hf | done].
  - by rewrite nthInst_alter_ne.
Qed.

(** An instruction reference that carries a set timestamp points into the
    store. *)
Lemma stamp_in_range l i st a :
  stamp st (nthInst l i) = Some a → is_Some (l !! i).
Proof.
  unfold nthInst. destruct (l !! i); [eauto|].
  by destruct st.
Qed.

Lemma alter_in_range {A} (f : A → A) (l : list A) i j :
  is_Some (alter f i l !! j) ↔ is_Some (l !! j).
Proof. rewrite !lookup_lt_is_Some. by rewrite length_alter. Qed.

Lemma stable_refl s : stable s s.
Proof. by intros i st a. Qed.

Lemma stable_trans s1 s2 s3 : stable s1 s2 → stable s2 s3 → stable s1 s3.
Proof. intros H1 H2 i st a H. by apply H2, H1. Qed.

Lemma gained_stable s1 s2 s3 : gained s1 s2 → stable s2 s3 → gained s1 s3.
Proof.
  intros (i & st & Hn & [a Ha]) Hs. exists i, st. split; [done|].
  exists a. by apply Hs.
Qed.

Lemma stable_gained s1 s2 s3 : stable s1 s2 → gained s2 s3 → gained s1 s3.
Proof.
  intros Hs (i & st & Hn & Hg). exists i, st. split; [|done].
  destruct (stamp st (getInst s1 i)) as [a|] eqn:E; [|done].
  apply Hs in E. congruence.
Qed.

(** The timestamps of an instruction, stage by stage: a later stage that is
    reached has a strictly larger timestamp than every earlier one. *)
Lemma chain_ordered i st1 st2 b :
  chain i → stageIndex st1 < stageIndex st2 → stamp st2 i = Some b →
  ∃ a, stamp st1 i = Some a ∧ (a < b)%Z.
Proof.
  unfold chain, before. intros (H1 & H2 & H3 & H4 & H5 & H6) Hlt Hb.
  destruct i as [? ? ? ? ? ? ? ? ? ? ? ? ? tf td tp ti te tc tr]. simpl in *.
  destruct st1, st2; simpl in *; try lia; subst;
    repeat match goal with
    | H : match ?x with Some _ => _ | None => _ end |- _ => destruct x; try done
    end; eexists; (split; [done | lia]).
Qed.


(** Resolve the conditionals whose test is a hypothesis. *)
Ltac known_ifs :=
  repeat match goal with
  | H : ?b = true |- context [if ?b then _ else _] => rewrite H
  | H : ?b = false |- context [if ?b then _ else _] => rewrite H
  end.

(** Rewrite the fields a mutation of the store leaves alone. *)
Ltac pres :=
  repeat (rewrite nthInst_alter_pres in * by (intros []; reflexivity)).

Lemma reg_same_refl s : reg_same s s.
Proof. by constructor. Qed.

Lemma reg_same_trans s1 s2 s3 : reg_same s1 s2 → reg_same s2 s3 → reg_same s1 s3.
Proof.
  intros [? ? ? ? H1] [? ? ? ? H2].
  constructor; first [congruence | intros i; by rewrite H2, H1].
Qed.

Lemma mid_frame_refl s : mid_frame s s.
Proof. constructor; auto using reg_same_refl. Qed.

Lemma mid_frame_trans s1 s2 s3 : mid_frame s1 s2 → mid_frame s2 s3 → mid_frame s1 s3.
Proof.
  intros [? ? ? ? ? ? H1] [? ? ? ? ? ? H2].
  constructor; eauto using reg_same_trans;
    first [congruence | intros i; by rewrite H2, H1].
Qed.

Lemma getHead_Some r e : getHead r = Some e → ∃ es, robQueue r = e :: es.
Proof. unfold getHead. destruct (robQueue r); naive_solver. Qed.

Lemma alter_alter {A} (f g : A → A) (i : nat) (l : list A) :
  alter f i (alter g i l) = alter (f ∘ g) i l.
Proof.
  apply list_eq. intros j. destruct (decide (j = i)) as [->|Hne].
  - rewrite !list_lookup_alter_eq. by destruct (l !! i).
  - by rewrite !list_lookup_alter_ne.
Qed.

(** * Program order (the ROB retires in fetch order) *)

Lemma fetch_one_ord s :
  ord_inv s → ord_inv (fetch_one (decodeStage s ++ [fetchPtr s]) s).
Proof.
  intros (r & Hr & Hseq & Hnone & Hmono & Hle).
  assert (E : ∀ s0,
    instructionsList s0
      = alter (setFetchCycle (cycle s)) (fetchPtr s) (instructionsList s) →
    robIds s0 = robIds s → dispatchStage s0 = dispatchStage s →
    decodeStage s0 = decodeStage s ++ [fetchPtr s] →
    fetchPtr s0 = S (fetchPtr s) → cycle s0 = cycle s → ord_inv s0).
  { intros s0 Hl Hrob Hdq Hdec Hfp Hc.
    exists r. simpl in *. rewrite Hrob, Hdq, Hdec, Hfp, Hc, Hl. split; [lia|].
    split.
    { rewrite !app_assoc, <- (app_assoc (robIds s)), Hseq.
      replace (S (fetchPtr s) - r) with ((fetchPtr s - r) + 1) by lia.
      rewrite seq_app. simpl. do 3 f_equal. lia. }
    repeat split; intros; pres; eauto. }
  unfold fetch_one. simpl. case_match; apply E; done.
Qed.

Lemma fetch_loop_ord n s : ord_inv s → ord_inv (fetch_loop n s).
Proof.
  revert s. induction n as [|n IH]; intros s H; simpl; [done|].
  destruct (isFetching s); simpl; [|done].
  destruct (_ <=? _)%nat eqn:E; [done|].
  by apply IH, fetch_one_ord.
Qed.

Lemma decode_one_ord s i rest :
  decodeStage s = i :: rest →
  ord_inv s → ord_inv (decode_one i rest (dispatchStage s ++ [i]) s).
Proof.
  intros Hq (r & Hr & Hseq & Hnone & Hmono & Hle).
  exists r. unfold decode_one, robIds in *. simpl in *.
  split; [done|]. split.
  { rewrite <- Hseq, Hq. by rewrite <- !app_assoc. }
  repeat split; intros; pres; eauto.
Qed.

Lemma decode_loop_ord n s : ord_inv s → ord_inv (decode_loop n s).
Proof.
  revert s. induction n as [|n IH]; intros s H; simpl; [done|].
  destruct (decodeStage s) eqn:E; [done|].
  by apply IH, decode_one_ord.
Qed.

Lemma mid_frame_ord s s' : mid_frame s s' → ord_inv s → ord_inv s'.
Proof.
  intros [[] ? ? ? ? ? Hret] (r & Hr & Hseq & Hnone & Hmono & Hle).
  exists r. unfold robIds in *.
  repeat match goal with H : _ s' = _ s |- _ => rewrite H end.
  repeat split; try done; intros *; rewrite ?Hret; eauto.
Qed.

Lemma retire_one_ord s e s' :
  getHead (rob s) = Some e →
  ord_inv s → retire_one e s = Ok s' → ord_inv s'.
Proof.
  intros [es Hq]%getHead_Some (r & Hr & Hseq & Hnone & Hmono & Hle) H.
  unfold robIds in *. rewrite Hq in Hseq. simpl in Hseq.
  destruct (fetchPtr s - r) as [|m] eqn:Hm; [done|].
  simpl in Hseq. injection Hseq as Hhd Hseq.
  change (list_fmap ROBEntry nat robInst es) with (robInst <$> es) in Hseq.
  assert (E : ∀ s0,
    instructionsList s0 = alter (setRetireCycle (cycle s)) r (instructionsList s) →
    robQueue (rob s0) = es → dispatchStage s0 = dispatchStage s →
    decodeStage s0 = decodeStage s → fetchPtr s0 = fetchPtr s →
    cycle s0 = cycle s → ord_inv s0).
  { intros s0 Hl Hrob Hdq Hdec Hfp Hc. exists (S r). unfold robIds. simpl.
    rewrite Hrob, Hdq, Hdec, Hfp, Hc, Hl, Hseq.
    split; [lia|]. split; [f_equal; lia|].
    assert (Hnew : ∀ j a, retireCycle (nthInst (alter (setRetireCycle (cycle s)) r (instructionsList s)) j) = Some a →
      (j = r ∧ a = cycle s) ∨ (j < r ∧ retireCycle (nthInst (instructionsList s) j) = Some a)).
    { intros j a. destruct (decide (j = r)) as [->|Hne].
      - unfold nthInst. rewrite list_lookup_alter_eq.
        destruct (instructionsList s !! r); simpl; [|done]. left. naive_solver.
      - rewrite nthInst_alter_ne by done. intros Hj. right. split; [|done].
        destruct (decide (j < r)); [done|].
        specialize (Hnone j ltac:(lia)). simpl in Hnone. congruence. }
    repeat split.
    - intros j Hj. rewrite nthInst_alter_ne by lia. apply Hnone. lia.
    - intros i j a b Hij [[-> ->]|[Hi Ha]]%Hnew [[-> ->]|[Hj Hb]]%Hnew;
        try lia; eauto.
    - intros i a [[-> ->]|[Hi Ha]]%Hnew; eauto. lia. }
  unfold retire_one in H. simpl in H. inv_ok; simpl in *; subst;
    known_ifs; apply E; simpl; rewrite ?Hq; done.
Qed.

Lemma retire_loop_ord n s s' :
  ord_inv s → retire_loop n s = Ok s' → ord_inv s'.
Proof.
  revert s. induction n as [|n IH]; intros s Hinv H; simpl in H; inv_ok; eauto.
  - eapply IH; [|done]. by eapply retire_one_ord.
Qed.

(** Inversion of a successful [dispatch_one]: the four cases of [rename]. *)
Ltac inv_dispatch H :=
  unfold dispatch_one, rename, getMapping, setMapping, popRegister in H;
  simpl in H; inv_ok; simpl in *; pres; known_ifs.

(** * What the stages leave alone *)

Lemma markSrcReady_pres {A} (P : Instruction → A) r :
  (∀ p x, P (setSrcPhysicalReg1 p x) = P x) →
  (∀ p x, P (setSrcPhysicalReg2 p x) = P x) →
  ∀ x, P (markSrcReady r x) = P x.
Proof.
  intros H1 H2 x. unfold markSrcReady.
  repeat case_match; rewrite ?H2, ?H1; done.
Qed.

Lemma broadcast_fold r rs s :
  foldl (broadcastRegReady r) s rs
  = set_instructionsList (broadcastList r rs (instructionsList s)) s.
Proof.
  revert s. induction rs as [|st rs IH]; intros s; simpl.
  - by destruct s.
  - rewrite IH. unfold broadcastRegReady. by destruct (rsInst st).
Qed.

Lemma broadcast_eq r s :
  broadcast r s
  = set_instructionsList
      (broadcastList r (reservationStations s) (instructionsList s)) s.
Proof. apply broadcast_fold. Qed.

Lemma broadcastList_pres {A} (P : Instruction → A) r rs l j :
  (∀ x, P (markSrcReady r x) = P x) →
  P (nthInst (broadcastList r rs l) j) = P (nthInst l j).
Proof.
  intros HP. revert l. induction rs as [|st rs IH]; intros l; simpl; [done|].
  unfold broadcastList in *. simpl. rewrite IH.
  destruct (rsInst st); [|done]. by apply nthInst_alter_pres.
Qed.

Lemma broadcastList_in_range r rs l j :
  is_Some (broadcastList r rs l !! j) ↔ is_Some (l !! j).
Proof.
  revert l. induction rs as [|st rs IH]; intros l; simpl; [done|].
  unfold broadcastList in *. simpl. rewrite IH.
  destruct (rsInst st); [|done]. apply alter_in_range.
Qed.

(** Rewrite the fields a mutation of the store leaves alone, through the
    broadcast too. *)
Ltac pres ::=
  repeat first
    [ rewrite nthInst_alter_pres in * by (intros []; reflexivity)
    | rewrite broadcastList_pres in *
        by (apply markSrcReady_pres; intros ? []; reflexivity) ].

(** ** Issue *)

Lemma issue_one_frame i s :
  mid_frame s (issue_one i (executeStage s ++ [i]) s).
Proof. unfold issue_one. repeat constructor; simpl; intros; pres; done. Qed.

Lemma issue_scan_frame rs wc s ret wc' s' :
  issue_scan rs wc s = (ret, wc', s') → mid_frame s s'.
Proof.
  revert wc s. induction rs as [|r rs IH]; intros wc s H; simpl in H.
  - injection H as <- <- <-. apply mid_frame_refl.
  - destruct (issueCandidate s r) as [i|]; [|by eapply IH].
    destruct (_ <? _)%nat.
    + injection H as <- <- <-. apply mid_frame_refl.
    + eapply mid_frame_trans; [apply (issue_one_frame i)|by eapply IH].
Qed.

Lemma issue_loop_frame n wc s : mid_frame s (issue_loop n wc s).
Proof.
  revert wc s. induction n as [|n IH]; intros wc s; simpl.
  - apply mid_frame_refl.
  - destruct (issue_scan _ _ _) as [[ret wc'] s'] eqn:E.
    apply issue_scan_frame in E. destruct ret; [done|].
    eapply mid_frame_trans; [done|apply IH].
Qed.

Lemma issue_frame s : mid_frame s (issue s).
Proof. apply issue_loop_frame. Qed.

(** ** Execute *)

Lemma execute_one_frame i rest s s' :
  execute_one i rest (completeStage s ++ [i]) s = Ok s' → mid_frame s s'.
Proof.
  unfold execute_one. simpl. intros H. inv_ok.
  repeat constructor; simpl; intros; pres; done.
Qed.

Lemma execute_loop_frame n s s' : execute_loop n s = Ok s' → mid_frame s s'.
Proof.
  revert s. induction n as [|n IH]; intros s H; simpl in H; inv_ok;
    try apply mid_frame_refl.
  eapply mid_frame_trans; [by eapply execute_one_frame|by apply IH].
Qed.

(** ** Complete *)

Lemma complete_one_frame i j s s' :
  complete_one i j s = Ok s' → mid_frame s s'.
Proof.
  unfold complete_one. rewrite broadcast_eq. simpl. intros H.
  unfold setReadyBit in *. inv_ok;
    repeat constructor; simpl; intros; pres; done.
Qed.

Lemma set_hasProgress_frame b s : mid_frame s (set_hasProgress b s).
Proof. repeat constructor. Qed.

Lemma complete_scan_frame fuel j s s' :
  complete_scan fuel j s = Ok s' → mid_frame s s'.
Proof.
  revert j s. induction fuel as [|fuel IH]; intros j s H; simpl in H; inv_ok;
    try apply mid_frame_refl.
  - eapply mid_frame_trans; [by eapply complete_one_frame|by eapply IH].
  - eapply mid_frame_trans; [apply (set_hasProgress_frame true)|by eapply IH].
Qed.

Lemma complete_loop_frame n s s' : complete_loop n s = Ok s' → mid_frame s s'.
Proof.
  revert s. induction n as [|n IH]; intros s H; simpl in H; inv_ok;
    try apply mid_frame_refl.
  eapply mid_frame_trans; [by eapply complete_scan_frame|by apply IH].
Qed.

(** ** Decode and fetch *)

Lemma decode_loop_regs n s : reg_same s (decode_loop n s).
Proof.
  revert s. induction n as [|n IH]; intros s; simpl; [apply reg_same_refl|].
  destruct (decodeStage s); [apply reg_same_refl|].
  eapply reg_same_trans; [|apply IH].
  unfold decode_one. constructor; simpl; intros; pres; done.
Qed.

Lemma fetch_loop_regs n s : reg_same s (fetch_loop n s).
Proof.
  revert s. induction n as [|n IH]; intros s; simpl; [apply reg_same_refl|].
  destruct (isFetching s); simpl; [|apply reg_same_refl].
  destruct (_ <=? _)%nat; [by constructor|].
  eapply reg_same_trans; [|apply IH].
  unfold fetch_one. simpl. case_match; constructor; simpl; intros; pres; done.
Qed.

(** ** Width and cycle *)

Lemma base_same_trans s1 s2 s3 :
  base_same s1 s2 → base_same s2 s3 → base_same s1 s3.
Proof. intros [] []. split; congruence. Qed.

Lemma mid_frame_base s s' : mid_frame s s' → base_same s s'.
Proof. by intros []. Qed.

Lemma fetch_loop_base n s : base_same s (fetch_loop n s).
Proof.
  revert s. induction n as [|n IH]; intros s; simpl; [done|].
  destruct (isFetching s); simpl; [|done].
  destruct (_ <=? _)%nat; [done|].
  eapply base_same_trans; [|apply IH].
  unfold fetch_one. simpl. by case_match.
Qed.

Lemma decode_loop_base n s : base_same s (decode_loop n s).
Proof.
  revert s. induction n as [|n IH]; intros s; simpl; [done|].
  destruct (decodeStage s); [done|].
  eapply base_same_trans; [|apply IH]. done.
Qed.

Lemma retire_loop_base n s s' : retire_loop n s = Ok s' → base_same s s'.
Proof.
  revert s. induction n as [|n IH]; intros s H; simpl in H; inv_ok; try done.
  eapply base_same_trans; [|by apply IH].
  unfold retire_one in *. simpl in *. inv_ok; simpl; known_ifs; done.
Qed.

Lemma dispatch_one_ord s i rest k s' :
  dispatchStage s = i :: rest →
  ord_inv s → dispatch_one i k s = Ok s' → ord_inv s'.
Proof.
  intros Hq (r & Hr & Hseq & Hnone & Hmono & Hle) H.
  assert (Hseq' : (robIds s ++ [i]) ++ rest ++ decodeStage s
                  = seq r (fetchPtr s - r)).
  { rewrite <- Hseq, Hq. by rewrite <- app_assoc. }
  unfold robIds in *.
  inv_dispatch H;
    (exists r; unfold robIds; simpl; rewrite ?fmap_app, ?Hq; simpl;
     repeat split; try done; intros; pres; eauto).
Qed.

Lemma dispatch_loop_ord n s s' :
  ord_inv s → dispatch_loop n s = Ok s' → ord_inv s'.
Proof.
  revert s. induction n as [|n IH]; intros s Hinv H; simpl in H; inv_ok; eauto.
  eapply IH; [|done]. by eapply dispatch_one_ord.
Qed.

Lemma dispatch_loop_base n s s' : dispatch_loop n s = Ok s' → base_same s s'.
Proof.
  revert s. induction n as [|n IH]; intros s H; simpl in H; inv_ok; try done.
  eapply base_same_trans; [|by apply IH].
  clear H. inv_dispatch Ha; done.
Qed.

Lemma tick_base s s' : tick s = Ok s' → base_same s s'.
Proof.
  intros H. unfold tick, stages_after_retire in H. inv_ok.
  eapply base_same_trans; [|apply fetch_loop_base].
  eapply base_same_trans; [|apply decode_loop_base].
  eapply base_same_trans; [|by eapply dispatch_loop_base].
  eapply base_same_trans; [|apply mid_frame_base, issue_frame].
  eapply base_same_trans; [|by eapply mid_frame_base, execute_loop_frame].
  eapply base_same_trans; [|by eapply mid_frame_base, complete_loop_frame].
  eapply base_same_trans; [|by eapply retire_loop_base]. done.
Qed.

Lemma release_ord s : ord_inv s → ord_inv (release s).
Proof. intros (r & H). by exists r. Qed.

(** One tick keeps the instructions in program order. *)
Lemma tick_ord s s' : ord_inv s → tick s = Ok s' → ord_inv s'.
Proof.
  intros Hinv H. unfold tick, stages_after_retire in H. inv_ok.
  apply fetch_loop_ord, decode_loop_ord.
  eapply dispatch_loop_ord; [|done].
  eapply mid_frame_ord; [apply issue_frame|].
  eapply mid_frame_ord; [by eapply execute_loop_frame|].
  eapply mid_frame_ord; [by eapply complete_loop_frame|].
  eapply retire_loop_ord; [|done]. by apply release_ord.
Qed.

Lemma cycle_body_cycle s s' :
  (0 ≤ cycle s < 4294967295)%Z →
  cycle_body s = Ok s' → cycle s' = (cycle s + 1)%Z.
Proof.
  intros Hc H. unfold cycle_body in H. inv_ok.
  apply tick_base in Ha as [_ Hca]. simpl in *. rewrite Hca.
  apply wrap32_small. lia.
Qed.

Lemma cycle_body_ord s s' :
  (0 ≤ cycle s < 4294967295)%Z →
  ord_inv s → cycle_body s = Ok s' → ord_inv s'.
Proof.
  intros Hc Hinv H. pose proof (cycle_body_cycle _ _ Hc H) as Hc'.
  unfold cycle_body in H. inv_ok.
  assert (Hord : ord_inv a).
  { eapply tick_ord; [|done]. destruct Hinv as (r & ?). by exists r. }
  simpl in Hc'. apply tick_base in Ha as [_ Hca]. simpl in Hca.
  destruct Hord as (r & Hr & Hseq & Hnone & Hmono & Hle).
  exists r. unfold robIds in *. simpl. repeat split; try done.
  intros i x Hx. apply Hle in Hx. rewrite Hc'. lia.
Qed.

Lemma loadProgram_eq c p :
  loadProgram c p
  = set_instructionsList
      ((λ '(t, s1, s2, d), newInstruction t s1 s2 d) <$> p) (newCPU c).
Proof.
  unfold loadProgram.
  assert (G : ∀ s, foldl (λ s l, addInstruction l s) s p
    = set_instructionsList (instructionsList s
        ++ ((λ '(t, s1, s2, d), newInstruction t s1 s2 d) <$> p)) s).
  { induction p as [|[[[t s1] s2] d] p IH]; intros s; simpl.
    - rewrite app_nil_r. by destruct s.
    - rewrite IH. simpl. by rewrite <- app_assoc. }
  by rewrite G.
Qed.

Lemma nthInst_fresh p i st :
  stamp st (nthInst ((λ '(t, s1, s2, d), newInstruction t s1 s2 d) <$> p) i) = None.
Proof.
  unfold nthInst. rewrite list_lookup_fmap.
  destruct (p !! i) as [[[[t s1] s2] d]|]; by destruct st.
Qed.

Lemma nthInst_fresh_eq p i :
  ∃ t s1 s2 d,
    nthInst ((λ '(t, s1, s2, d), newInstruction t s1 s2 d) <$> p) i
    = newInstruction t s1 s2 d.
Proof.
  unfold nthInst. rewrite list_lookup_fmap.
  destruct (p !! i) as [[[[t s1] s2] d]|]; simpl; eauto.
Qed.

Lemma start_ord c p : ord_inv (start c p).
Proof.
  unfold start. rewrite loadProgram_eq. exists 0. simpl.
  repeat split; try done; intros *.
  - intros _. apply (nthInst_fresh p _ Retire).
  - intros _. by rewrite (nthInst_fresh p _ Retire).
  - by rewrite (nthInst_fresh p _ Retire).
Qed.

(** The cycle counter counts the cycles run, as long as it does not wrap. *)
Lemma reachable_cycle c p n s :
  reachable c p n s → (Z.of_nat n < 4294967296)%Z → cycle s = Z.of_nat n.
Proof.
  induction 1 as [|n s s' Hr IH Hcond Hbody]; intros Hn.
  - unfold start. by rewrite loadProgram_eq.
  - rewrite (cycle_body_cycle s s'); [|rewrite IH; lia|done]. rewrite IH; lia.
Qed.

Lemma reachable_ord c p n s :
  reachable c p n s → (Z.of_nat n < 4294967296)%Z → ord_inv s.
Proof.
  induction 1 as [|n s s' Hr IH Hcond Hbody]; intros Hn.
  - apply start_ord.
  - eapply cycle_body_ord; [|apply IH; lia|done].
    rewrite (reachable_cycle _ _ _ _ Hr); lia.
Qed.

(** * Register conservation *)

Lemma hasDst_same s s' e :
  (∀ i, dstOp (getInst s' i) = dstOp (getInst s i)) → hasDst s' e = hasDst s e.
Proof. intros H. unfold hasDst. by rewrite H. Qed.

Lemma robTolds_same s s' :
  rob s' = rob s → (∀ i, dstOp (getInst s' i) = dstOp (getInst s i)) →
  robTolds s' = robTolds s.
Proof.
  intros Hrob Hdst. unfold robTolds. rewrite Hrob. f_equal.
  apply list_filter_iff. intros e. by rewrite (hasDst_same s s').
Qed.

Lemma regs_same s s' : reg_same s s' → regs s' = regs s.
Proof.
  intros [Hf Hm Hr Hp Hd]. unfold regs.
  by rewrite Hf, Hm, Hp, (robTolds_same s s').
Qed.

Lemma reg_same_inv l s s' : reg_same s s' → reg_inv l s → reg_inv l s'.
Proof. intros H. unfold reg_inv. by rewrite (regs_same s s'). Qed.

Lemma foldl_addRegister (fl pend : list PhysicalRegister) :
  foldl (λ fl p, addRegister p fl) fl pend = fl ++ pend.
Proof.
  revert fl. induction pend as [|p pend IH]; intros fl; simpl.
  - by rewrite app_nil_r.
  - rewrite IH. unfold addRegister. by rewrite <- app_assoc.
Qed.

Lemma release_freeList s :
  freeList (release s) = freeList s ++ freePhysRegsPrevCycle s.
Proof. unfold release. simpl. apply foldl_addRegister. Qed.

Lemma release_regs l s : reg_inv l s → reg_inv l (release s).
Proof.
  unfold reg_inv, regs. rewrite release_freeList.
  intros <-. unfold release, robTolds, hasDst. simpl.
  rewrite fmap_app. solve_Permutation.
Qed.

(** The effect of one retirement on the register bookkeeping. *)
Lemma retire_one_regs s e es s' :
  robQueue (rob s) = e :: es → retire_one e s = Ok s' →
  robQueue (rob s') = es ∧
  freeList s' = freeList s ∧
  mapping (mapTable s') = mapping (mapTable s) ∧
  freePhysRegsPrevCycle s'
    = freePhysRegsPrevCycle s ++ (if hasDst s e then [robTold e] else []) ∧
  (∀ i, dstOp (getInst s' i) = dstOp (getInst s i)).
Proof.
  intros Hq H. unfold retire_one, hasDst in *. simpl in *.
  inv_ok; simpl; known_ifs; simpl; rewrite ?Hq, ?app_nil_r;
    repeat split; try done; intros; pres; done.
Qed.

Lemma retire_one_reg_inv l s e es s' :
  robQueue (rob s) = e :: es → retire_one e s = Ok s' →
  reg_inv l s → reg_inv l s'.
Proof.
  intros Hq H. destruct (retire_one_regs _ _ _ _ Hq H) as (Hr & Hf & Hm & Hp & Hd).
  unfold reg_inv, regs. intros <-. rewrite Hf, Hm, Hp.
  unfold robTolds. rewrite Hr, Hq. rewrite filter_cons.
  rewrite (list_filter_iff _ (λ e0, Is_true (hasDst s e0)))
    by (intros e0; by rewrite (hasDst_same s s')).
  destruct (hasDst s e).
  - rewrite decide_True by done. rewrite fmap_app, !fmap_cons. solve_Permutation.
  - rewrite decide_False by (by intros []). by rewrite app_nil_r.
Qed.

(** What [retire] does to the register bookkeeping: it pops a prefix [es] of
    the ROB and queues the old mappings of those entries that have a
    destination, in order; the free list is not touched. *)
Lemma retire_loop_regs n s s' :
  retire_loop n s = Ok s' →
  ∃ es, robQueue (rob s) = es ++ robQueue (rob s') ∧
        length es ≤ n ∧
        freeList s' = freeList s ∧
        freePhysRegsPrevCycle s'
          = freePhysRegsPrevCycle s
            ++ (robTold <$> filter (λ e, Is_true (hasDst s e)) es) ∧
        (∀ i, dstOp (getInst s' i) = dstOp (getInst s i)).
Proof.
  revert s. induction n as [|n IH]; intros s H; simpl in H; inv_ok;
    try (exists []; simpl; rewrite app_nil_r; split_and!; (done || lia)).
  apply getHead_Some in Heqo as [es0 Hq].
  destruct (retire_one_regs _ _ _ _ Hq Ha) as (Hr & Hf & Hm & Hp & Hd).
  destruct (IH _ H) as (es & Hes & Hlen & Hf' & Hp' & Hd').
  exists (r :: es). rewrite Hq. split_and!.
  - rewrite <- Hr, Hes. done.
  - simpl. lia.
  - congruence.
  - rewrite Hp', Hp, filter_cons.
    rewrite (list_filter_iff _ (λ e0, Is_true (hasDst s e0)))
      by (intros e0; by rewrite (hasDst_same s a)).
    destruct (hasDst s r).
    + rewrite decide_True by done. by rewrite fmap_cons, <- app_assoc.
    + rewrite decide_False by (by intros []). by rewrite app_nil_r.
  - intros i. by rewrite Hd', Hd.
Qed.

Lemma retire_loop_reg_inv l n s s' :
  retire_loop n s = Ok s' → reg_inv l s → reg_inv l s'.
Proof.
  revert s. induction n as [|n IH]; intros s H Hinv; simpl in H; inv_ok;
    try done.
  apply getHead_Some in Heqo as [es0 Hq].
  eapply IH; [done|]. by eapply retire_one_reg_inv.
Qed.

Lemma filter_hasDst_same s s' (l : list ROBEntry) :
  (∀ i, dstOp (getInst s' i) = dstOp (getInst s i)) →
  filter (λ e, Is_true (hasDst s' e)) l = filter (λ e, Is_true (hasDst s e)) l.
Proof.
  intros H. apply list_filter_iff. intros e. by rewrite (hasDst_same s s').
Qed.

Lemma filter_hasDst_one s i T Told :
  filter (λ e, Is_true (hasDst s e)) [mkROBEntry i T Told]
  = if negb (dstOp (getInst s i) =? NONE)%Z then [mkROBEntry i T Told] else [].
Proof.
  rewrite filter_cons, filter_nil. unfold hasDst. simpl.
  destruct (negb _); [by rewrite decide_True | by rewrite decide_False by (by intros [])].
Qed.

Lemma insert_swap_perm (m : list Z) (d : nat) (t z : Z) :
  m !! d = Some z → <[d := t]> m ++ [z] ≡ₚ t :: m.
Proof.
  intros Hd. rewrite insert_take_drop by (by eapply lookup_lt_Some).
  rewrite <- (take_drop_middle m d z) at 3 by done. solve_Permutation.
Qed.

(** The effect of one dispatch on the register bookkeeping. *)
Lemma dispatch_one_regs l s i k s' :
  dispatch_one i k s = Ok s' → reg_inv l s →
  reg_inv l s' ∧
  (freeList s' = freeList s ∨ freeList s' = tail (freeList s)) ∧
  freePhysRegsPrevCycle s' = freePhysRegsPrevCycle s ∧
  (∀ j, dstOp (getInst s' j) = dstOp (getInst s j)).
Proof.
  intros H Hinv. unfold reg_inv, regs, robTolds in *.
  inv_dispatch H.
  all: split; [|split_and!; try first [by auto | by intros; pres]].
  all: try (right; by rewrite Heqf0).
  all: rewrite (filter_hasDst_same s) by (intros; simpl; pres; done).
  all: rewrite filter_app, filter_hasDst_one; simpl; known_ifs.
  all: rewrite <- Hinv; clear Hinv.
  all: rewrite ?app_nil_r; try done.
  all: rewrite Heqf0, !fmap_app, !fmap_cons; simpl.
  all: apply zlookup_Some in Heqo as [_ Heqo].
  all: pose proof (insert_swap_perm _ _ (regNum p1) _ Heqo) as Hperm.
  all: match goal with
       | |- ?A ++ ?I ++ (?R ++ [?z]) ++ ?P ≡ₚ _ =>
           trans (A ++ (I ++ [z]) ++ R ++ P);
           [solve_Permutation | rewrite Hperm; solve_Permutation]
       end.
Qed.

Lemma dispatch_loop_regs l n s s' :
  dispatch_loop n s = Ok s' → reg_inv l s →
  reg_inv l s' ∧
  (∃ m, freeList s' = drop m (freeList s)) ∧
  freePhysRegsPrevCycle s' = freePhysRegsPrevCycle s ∧
  (∀ j, dstOp (getInst s' j) = dstOp (getInst s j)).
Proof.
  revert s. induction n as [|n IH]; intros s H Hinv; simpl in H; inv_ok;
    try (split_and!; [done|by exists 0|done|done]).
  destruct (dispatch_one_regs _ _ _ _ _ Ha Hinv) as (Hinv1 & Hf1 & Hp1 & Hd1).
  destruct (IH _ H Hinv1) as (Hinv2 & [m Hf2] & Hp2 & Hd2).
  split_and!; [done| |congruence|intros j; by rewrite Hd2, Hd1].
  destruct Hf1 as [Hf1|Hf1]; rewrite Hf2, Hf1; [by exists m|].
  exists (S m). destruct (freeList s); simpl; [by rewrite drop_nil | done].
Qed.

(** After [retire], the rest of the tick only pops the free list and leaves
    the buffer of pending registers alone. *)
Lemma stages_after_retire_regs l s1 s' :
  stages_after_retire s1 = Ok s' → reg_inv l s1 →
  reg_inv l s' ∧
  (∃ m, freeList s' = drop m (freeList s1)) ∧
  freePhysRegsPrevCycle s' = freePhysRegsPrevCycle s1.
Proof.
  intros H Hinv. unfold stages_after_retire in H. inv_ok.
  apply complete_loop_frame in Ha as [Hc _ _ _ _ _ _].
  apply execute_loop_frame in Ha0 as [He _ _ _ _ _ _].
  pose proof (issue_frame a0) as [Hi _ _ _ _ _ _].
  pose proof (reg_same_trans _ _ _ (reg_same_trans _ _ _ Hc He) Hi) as H3.
  apply (reg_same_inv l) in H3 as Hinv3; [|done].
  destruct (dispatch_loop_regs _ _ _ _ Ha1 Hinv3) as (Hinv4 & [m Hf] & Hp & _).
  assert (H5 : reg_same a1 (fetch (decode a1)))
    by (eapply reg_same_trans; [apply decode_loop_regs | apply fetch_loop_regs]).
  split_and!.
  - by eapply reg_same_inv.
  - exists m. destruct H5 as [-> _ _ _ _], H3 as [<- _ _ _ _]. done.
  - destruct H5 as [_ _ _ -> _], H3 as [_ _ _ <- _]. done.
Qed.

Lemma tick_regs l s s' : tick s = Ok s' → reg_inv l s → reg_inv l s'.
Proof.
  intros H Hinv. unfold tick in H. inv_ok.
  eapply stages_after_retire_regs; [done|].
  eapply retire_loop_reg_inv; [done|]. by apply release_regs.
Qed.

Lemma cycle_body_regs l s s' : cycle_body s = Ok s' → reg_inv l s → reg_inv l s'.
Proof.
  intros H Hinv. unfold cycle_body in H. inv_ok.
  by apply (tick_regs l) in Ha.
Qed.

Lemma start_regs c p : reg_inv (allRegs c) (start c p).
Proof.
  unfold reg_inv, regs, start, allRegs. rewrite loadProgram_eq.
  unfold robTolds. simpl. unfold newFreeList.
  rewrite <- list_fmap_compose.
  rewrite (list_fmap_ext _ id) by done. rewrite list_fmap_id.
  rewrite app_nil_r, Permutation_app_comm.
  replace (Z.of_nat (numArchRegs c `max` numPhysicalRegs c))
    with (Z.of_nat (numArchRegs c) + Z.of_nat (numPhysicalRegs c - numArchRegs c))%Z
    by lia.
  by rewrite seqZ_app by lia.
Qed.

Lemma reachable_regs c p n s : reachable c p n s → reg_inv (allRegs c) s.
Proof.
  induction 1; [apply start_regs | by eapply cycle_body_regs].
Qed.

Lemma regs_NoDup c s : reg_inv (allRegs c) s → NoDup (regs s).
Proof. intros ->. apply NoDup_seqZ. Qed.

(** * Stage timestamps *)

Lemma lim_mono p k k' c : k ≤ k' → (lim p k c ≤ lim p k' c)%Z.
Proof.
  intros Hk. unfold lim.
  destruct (p <=? k)%nat eqn:E1, (p <=? k')%nat eqn:E2; try lia.
  apply Nat.leb_le in E1. apply Nat.leb_gt in E2. lia.
Qed.

(** The bounds only loosen as the tick proceeds. *)
Lemma stamp_inv_weaken k k' s : k ≤ k' → stamp_inv k s → stamp_inv k' s.
Proof.
  intros Hk [Hch Hfl Hun Hde Hden Hdi Hdin Hst Hex Hexn Hco Hcon Hro Hron].
  assert (L : ∀ p a, (a < lim p k (cycle s))%Z → (a < lim p k' (cycle s))%Z).
  { intros p a Ha. pose proof (lim_mono p k k' (cycle s) Hk). lia. }
  constructor; try done.
  - intros i Hi. destruct (Hde i Hi) as (? & a & ? & ?). eauto.
  - intros i Hi. destruct (Hdi i Hi) as (? & a & ? & ?). eauto.
  - intros j r i Hj Hi. destruct (Hst j r i Hj Hi) as (? & ? & ? & a & ? & ?).
    eauto 10.
  - intros i Hi. destruct (Hex i Hi) as (? & a & ? & ?). eauto.
  - intros i Hi. destruct (Hco i Hi) as (? & a & ? & ?). eauto.
  - intros i Hi. destruct (Hro i Hi) as (? & ? & Hc). split_and!; [done..|].
    intros Hd. destruct (Hc Hd) as (a & ? & ?). eauto.
Qed.

(** After the seventh stage of a tick, counting the cycle restores the strict
    bounds. *)
Lemma stamp_inv_bump s :
  stamp_inv 7 s → stamp_inv 0 (set_cycle (cycle s + 1) s).
Proof. intros []. constructor; done. Qed.

Lemma nthInst_alter l i f j :
  is_Some (l !! i) →
  nthInst (alter f i l) j = if decide (j = i) then f (nthInst l i) else nthInst l j.
Proof.
  intros Hi. case_decide as E; [subst; by apply nthInst_alter_eq|].
  by apply nthInst_alter_ne.
Qed.

(** Decide a goal about the timestamps of the instruction [x] from the
    hypotheses about them. *)
Ltac chain_at x :=
  unfold chain, before in *; simpl in *;
  destruct x as [? ? ? ? ? ? ? ? ? ? ? ? ? tf td tp ti te tc tr];
  simpl in *; simplify_eq; simpl in *;
  repeat match goal with
         | H : context [match ?o with Some _ => _ | None => _ end] |- _ =>
             destruct o; simpl in H
         end;
  intuition (try done; try lia).

(** ** Decode *)

Lemma decode_one_stamp s i rest :
  decodeStage s = i :: rest → stamp_inv 6 s →
  let s' := decode_one i rest (dispatchStage s ++ [i]) s in
  stamp_inv 6 s' ∧ stable s s' ∧ gained s s'.
Proof.
  intros Hq Hinv. destruct Hinv as [Hch Hfl Hun Hde Hden Hdi Hdin Hst Hex Hexn Hco Hcon Hro Hron].
  simpl in *. rewrite Hq in *.
  destruct (Hde i) as (Hd & a & Hf & Ha); [left|]. unfold lim in Ha. simpl in Ha.
  pose proof (stamp_in_range _ _ Fetch _ Hf) as Hi.
  apply NoDup_cons in Hden as [Hni Hden].
  assert (Hnd : i ∉ dispatchStage s).
  { intros [_ (b & Hb & _)]%Hdi. congruence. }
  pose proof (Hch i) as Hci.
  split_and!.
  - constructor; simpl; try done.
    + intros j. rewrite nthInst_alter by done. case_decide; [subst|done].
      clear -Hci Hf Hd Ha. chain_at (nthInst (instructionsList s) i).
    + intros j. pres. auto.
    + intros j. pres. auto.
    + intros j Hj. rewrite nthInst_alter_ne by set_solver.
      pres. apply Hde. by right.
    + intros j [Hj| ->%list_elem_of_singleton]%elem_of_app.
      * pres. rewrite nthInst_alter_ne by set_solver. unfold lim in *. simpl in *.
        destruct (Hdi j Hj) as (? & b & ? & ?). split; [done|]. exists b. split; [done|lia].
      * pres. rewrite nthInst_alter_eq by done. simpl. split; [|eexists; split; [done|unfold lim; simpl; lia]].
        destruct Hci as (_ & Hci & _). unfold before in Hci. rewrite Hd in Hci.
        by destruct (dispatchCycle _).
    + apply NoDup_app. split_and!; [done|set_solver|apply NoDup_singleton].
    + intros j r k Hj Hk. pres. by eapply Hst.
    + intros j Hj. pres. by apply Hex.
    + intros j Hj. pres. by apply Hco.
    + intros j Hj. pres. by apply Hro.
  - intros j st b. simpl. destruct st; simpl; pres; try done.
    rewrite nthInst_alter by done. case_decide; [subst; congruence|done].
  - exists i, Decode. simpl. rewrite nthInst_alter_eq by done. simpl. eauto.
Qed.

Lemma decode_loop_stamp n s :
  stamp_inv 6 s →
  stamp_inv 6 (decode_loop n s) ∧ stable s (decode_loop n s) ∧
  (hasProgress (decode_loop n s) = true →
   hasProgress s = true ∨ gained s (decode_loop n s)).
Proof.
  revert s. induction n as [|n IH]; intros s Hinv; simpl.
  { split_and!; auto using stable_refl. }
  destruct (decodeStage s) as [|i rest] eqn:Hq.
  { split_and!; auto using stable_refl. }
  destruct (decode_one_stamp s i rest Hq Hinv) as (H1 & H2 & H3).
  destruct (IH _ H1) as (H4 & H5 & H6).
  split_and!; [done|by eapply stable_trans|].
  intros _. right. by eapply gained_stable.
Qed.

(** ** Fetch *)

(** An instruction whose first timestamp is unset has none. *)
Lemma chain_fetch_None x :
  chain x → fetchCycle x = None → decodeCycle x = None.
Proof.
  unfold chain, before. intros (H & _) Hf. rewrite Hf in H.
  by destruct (decodeCycle x).
Qed.

Lemma fetch_one_stamp s :
  fetchPtr s < length (instructionsList s) → stamp_inv 7 s →
  let s' := fetch_one (decodeStage s ++ [fetchPtr s]) s in
  stamp_inv 7 s' ∧ stable s s' ∧ gained s s'.
Proof.
  intros Hlt [Hch Hfl Hun Hde Hden Hdi Hdin Hst Hex Hexn Hco Hcon Hro Hron].
  simpl in *. set (i := fetchPtr s) in *.
  pose proof (Hun i ltac:(lia)) as Hf.
  pose proof (chain_fetch_None _ (Hch i) Hf) as Hd.
  apply lookup_lt_is_Some_2 in Hlt as Hi.
  assert (Hnd : i ∉ decodeStage s).
  { intros [_ (b & Hb & _)]%Hde. congruence. }
  pose proof (Hch i) as Hci.
  assert (G : ∀ s', instructionsList s' = alter (setFetchCycle (cycle s)) i (instructionsList s) →
    fetchPtr s' = S i → decodeStage s' = decodeStage s ++ [i] →
    dispatchStage s' = dispatchStage s → reservationStations s' = reservationStations s →
    executeStage s' = executeStage s → completeStage s' = completeStage s →
    rob s' = rob s → cycle s' = cycle s →
    stamp_inv 7 s' ∧ stable s s' ∧ gained s s').
  { intros s' Hl Hfp Hdq Hdiq Hrs Hexq Hcq Hrob Hc. split_and!.
    - constructor; unfold robIds; simpl;
        rewrite ?Hl, ?Hfp, ?Hdq, ?Hdiq, ?Hrs, ?Hexq, ?Hcq, ?Hrob, ?Hc; try done.
      + intros j. rewrite nthInst_alter by done. case_decide; [subst|done].
        clear -Hci Hf Hd. chain_at (nthInst (instructionsList s) i).
      + intros j. pres. auto.
      + intros j Hj. rewrite nthInst_alter_ne by lia. apply Hun. lia.
      + intros j [Hj| ->%list_elem_of_singleton]%elem_of_app.
        * pres. rewrite nthInst_alter_ne by set_solver. by apply Hde.
        * pres. rewrite nthInst_alter_eq by done. simpl.
          split; [done|]. eexists. split; [done|]. unfold lim. simpl. lia.
      + apply NoDup_app. split_and!; [done|set_solver|apply NoDup_singleton].
      + intros j Hj. pres. by apply Hdi.
      + intros j r k Hj Hk. pres. by eapply Hst.
      + intros j Hj. pres. by apply Hex.
      + intros j Hj. pres. by apply Hco.
      + intros j Hj. pres. by apply Hro.
    - intros j st b. simpl. rewrite Hl. destruct st; simpl; pres; try done.
      rewrite nthInst_alter by done. case_decide; [subst; congruence|done].
    - exists i, Fetch. simpl. rewrite Hl, nthInst_alter_eq by done. simpl. eauto. }
  unfold fetch_one. simpl. case_match; apply G; done.
Qed.

Lemma fetch_loop_stamp n s :
  stamp_inv 7 s →
  stamp_inv 7 (fetch_loop n s) ∧ stable s (fetch_loop n s) ∧
  (hasProgress (fetch_loop n s) = true →
   hasProgress s = true ∨ gained s (fetch_loop n s)).
Proof.
  revert s. induction n as [|n IH]; intros s Hinv; simpl.
  { split_and!; auto using stable_refl. }
  destruct (isFetching s); simpl.
  2: { split_and!; auto using stable_refl. }
  destruct (_ <=? _)%nat eqn:E.
  { split_and!; [by destruct Hinv|by intros j st b|auto]. }
  apply Nat.leb_gt in E.
  destruct (fetch_one_stamp s E Hinv) as (H1 & H2 & H3).
  destruct (IH _ H1) as (H4 & H5 & H6).
  split_and!; [done|by eapply stable_trans|].
  intros _. right. by eapply gained_stable.
Qed.

(** ** Retire *)

Lemma retire_one_stamp s e s' :
  getHead (rob s) = Some e →
  hasCompleted (getInst s (robInst e)) = true →
  stamp_inv 1 s → retire_one e s = Ok s' →
  stamp_inv 1 s' ∧ stable s s' ∧ gained s s'.
Proof.
  intros [es Hq]%getHead_Some Hdone
    [Hch Hfl Hun Hde Hden Hdi Hdin Hst Hex Hexn Hco Hcon Hro Hron] H.
  unfold robIds in *. simpl in *. rewrite Hq in *. rewrite fmap_cons in *.
  set (i := robInst e) in *.
  destruct (Hro i) as (Hr & [d Hd] & Hc); [left|].
  destruct (Hc Hdone) as (a & Ha & Hlt). unfold lim in Hlt. simpl in Hlt.
  pose proof (stamp_in_range _ _ Complete _ Ha) as Hi.
  apply NoDup_cons in Hron as [Hni Hron].
  pose proof (Hch i) as Hci.
  assert (G : ∀ s', instructionsList s' = alter (setRetireCycle (cycle s)) i (instructionsList s) →
    fetchPtr s' = fetchPtr s → decodeStage s' = decodeStage s →
    dispatchStage s' = dispatchStage s → reservationStations s' = reservationStations s →
    executeStage s' = executeStage s → completeStage s' = completeStage s →
    robQueue (rob s') = es → cycle s' = cycle s →
    stamp_inv 1 s' ∧ stable s s' ∧ gained s s').
  { intros s0 Hl Hfp Hdq Hdiq Hrs Hexq Hcq Hrob Hcy. split_and!.
    - constructor; unfold robIds; simpl;
        rewrite ?Hl, ?Hfp, ?Hdq, ?Hdiq, ?Hrs, ?Hexq, ?Hcq, ?Hrob, ?Hcy; try done.
      + intros j. rewrite nthInst_alter by done. case_decide; [subst|done].
        clear -Hci Ha Hr Hlt. chain_at (nthInst (instructionsList s) i).
      + intros j. pres. auto.
      + intros j Hj. pres. by apply Hun.
      + intros j Hj. pres. by apply Hde.
      + intros j Hj. pres. by apply Hdi.
      + intros j r k Hj Hk. pres. by eapply Hst.
      + intros j Hj. pres. by apply Hex.
      + intros j Hj. pres. by apply Hco.
      + intros j Hj. pres. rewrite nthInst_alter_ne by set_solver.
        apply Hro. by right.
    - intros j st b. simpl. rewrite Hl. destruct st; simpl; pres; try done.
      rewrite nthInst_alter by done. case_decide; [subst; congruence|done].
    - exists i, Retire. simpl. rewrite Hl, nthInst_alter_eq by done. simpl. eauto. }
  unfold retire_one in H. simpl in H.
  inv_ok; simpl in *; known_ifs; apply G; simpl; rewrite ?Hq; done.
Qed.

Lemma retire_loop_stamp n s s' :
  stamp_inv 1 s → retire_loop n s = Ok s' →
  stamp_inv 1 s' ∧ stable s s' ∧
  (hasProgress s' = true → hasProgress s = true ∨ gained s s').
Proof.
  revert s. induction n as [|n IH]; intros s Hinv H; simpl in H; inv_ok;
    try (split_and!; auto using stable_refl; fail).
  apply negb_false_iff in Heqb.
  destruct (retire_one_stamp _ _ _ Heqo Heqb Hinv Ha) as (H1 & H2 & H3).
  destruct (IH _ H1 H) as (H4 & H5 & H6).
  split_and!; [done|by eapply stable_trans|].
  intros _. right. by eapply gained_stable.
Qed.

(** ** Complete *)

Lemma elem_of_delete_NoDup {A} (l : list A) (j : nat) (i x : A) :
  NoDup l → l !! j = Some i → x ∈ delete j l → x ∈ l ∧ x ≠ i.
Proof.
  intros Hnd Hj Hx.
  rewrite <- (take_drop_middle l j i Hj) in Hnd.
  rewrite delete_take_drop in Hx.
  apply NoDup_app in Hnd as (_ & Hdis & [Hni _]%NoDup_cons).
  rewrite <- (take_drop_middle l j i Hj).
  apply elem_of_app in Hx as [Hx|Hx].
  - split; [set_solver|]. intros ->. apply (Hdis i Hx). by left.
  - split; [set_solver|]. by intros ->.
Qed.

Lemma NoDup_delete {A} (l : list A) (j : nat) : NoDup l → NoDup (delete j l).
Proof.
  intros H. eapply sublist_NoDup; [done|apply sublist_delete].
Qed.

Lemma complete_one_stamp s i jq s' :
  completeStage s !! jq = Some i →
  stamp_inv 2 s → complete_one i jq s = Ok s' →
  stamp_inv 2 s' ∧ stable s s' ∧ gained s s'.
Proof.
  intros Hjq [Hch Hfl Hun Hde Hden Hdi Hdin Hst Hex Hexn Hco Hcon Hro Hron] H.
  unfold robIds in *. simpl in *.
  destruct (Hco i) as (Hc & a & Ha & Hlt); [by eapply list_elem_of_lookup_2|].
  unfold lim in Hlt. simpl in Hlt.
  pose proof (stamp_in_range _ _ Execute _ Ha) as Hi.
  pose proof (Hch i) as Hci.
  set (l' := λ r, broadcastList r (reservationStations s) (instructionsList s)).
  assert (G : ∀ s' r, instructionsList s' = alter (setCompleteCycle (cycle s)) i (l' r) →
    fetchPtr s' = fetchPtr s → decodeStage s' = decodeStage s →
    dispatchStage s' = dispatchStage s → reservationStations s' = reservationStations s →
    executeStage s' = executeStage s → completeStage s' = delete jq (completeStage s) →
    rob s' = rob s → cycle s' = cycle s →
    stamp_inv 2 s' ∧ stable s s' ∧ gained s s').
  { intros s0 r Hl Hfp Hdq Hdiq Hrs Hexq Hcq Hrob Hcy.
    assert (Hi' : is_Some (l' r !! i)) by by apply broadcastList_in_range.
    unfold l' in *. split_and!.
    - constructor; unfold robIds; simpl;
        rewrite ?Hl, ?Hfp, ?Hdq, ?Hdiq, ?Hrs, ?Hexq, ?Hcq, ?Hrob, ?Hcy; try done.
      + intros j. rewrite nthInst_alter by done. case_decide; [subst|].
        * unfold chain. simpl. pres. clear -Hci Ha Hc Hlt.
          chain_at (nthInst (instructionsList s) i).
        * unfold chain in *. pres. apply Hch.
      + intros j. rewrite nthInst_alter by done. case_decide; [by subst|].
        pres. auto.
      + intros j Hj. pres. by apply Hun.
      + intros j Hj. pres. by apply Hde.
      + intros j Hj. pres. by apply Hdi.
      + intros j r0 k Hj Hk. pres. by eapply Hst.
      + intros j Hj. pres. by apply Hex.
      + intros j [Hj Hne]%(elem_of_delete_NoDup _ _ i); [|done..].
        pres. rewrite nthInst_alter_ne by done. pres. by apply Hco.
      + by apply NoDup_delete.
      + intros j Hj. pres. rewrite nthInst_alter by done.
        case_decide; [subst; simpl|pres; by apply Hro].
        pres. destruct (Hro i Hj) as (? & ? & _). split_and!; [done..|].
        intros _. eexists. split; [done|]. unfold lim. simpl. lia.
    - intros j st b. simpl. rewrite Hl. destruct st; simpl; pres; try done.
      rewrite nthInst_alter by done. case_decide; [subst; congruence|]. by pres.
    - exists i, Complete. simpl. rewrite Hl, nthInst_alter_eq by done. simpl. eauto. }
  unfold complete_one in H. rewrite broadcast_eq in H. simpl in H.
  unfold setReadyBit in H.
  inv_ok; simpl in *; apply (G _ (regNum (dstPhysicalReg (nthInst (instructionsList s) i)))); done.
Qed.

Lemma complete_scan_stamp fuel j s s' :
  stamp_inv 2 s → complete_scan fuel j s = Ok s' →
  stamp_inv 2 s' ∧ stable s s'.
Proof.
  revert j s. induction fuel as [|fuel IH]; intros j s Hinv H; simpl in H;
    inv_ok; try (split_and!; auto using stable_refl; fail).
  - destruct (complete_one_stamp _ _ _ _ Heqo Hinv Ha) as (H1 & H2 & H3).
    destruct (IH _ _ H1 H) as (H4 & H5).
    split; [done|by eapply stable_trans].
  - eapply (IH _ (set_hasProgress true s)) in H as (H4 & H5); [|by destruct Hinv].
    done.
Qed.

Lemma complete_loop_stamp n s s' :
  stamp_inv 2 s → complete_loop n s = Ok s' →
  stamp_inv 2 s' ∧ stable s s'.
Proof.
  revert s. induction n as [|n IH]; intros s Hinv H; simpl in H; inv_ok;
    try (split_and!; auto using stable_refl; fail).
  destruct (complete_scan_stamp _ _ _ _ Hinv Ha) as (H1 & H2).
  destruct (IH _ H1 H) as (H4 & H5).
  split; [done|by eapply stable_trans].
Qed.

(** Rewrite the status fields of the store [L] to those of the store they
    were copied from. *)
Ltac status HL j :=
  let E1 := fresh in let E2 := fresh in let E3 := fresh in let E4 := fresh in
  let E5 := fresh in let E6 := fresh in let E7 := fresh in let E8 := fresh in
  let E9 := fresh in let E10 := fresh in
  destruct (HL j) as (E1 & E2 & E3 & E4 & E5 & E6 & E7 & E8 & E9 & E10);
  rewrite ?E1, ?E2, ?E3, ?E4, ?E5, ?E6, ?E7, ?E8, ?E9, ?E10;
  clear E1 E2 E3 E4 E5 E6 E7 E8 E9 E10.

(** ** Execute *)

Lemma execute_one_stamp s i rest s' :
  executeStage s = i :: rest → stamp_inv 3 s →
  execute_one i rest (completeStage s ++ [i]) s = Ok s' →
  stamp_inv 3 s' ∧ stable s s' ∧ gained s s'.
Proof.
  intros Hq [Hch Hfl Hun Hde Hden Hdi Hdin Hst Hex Hexn Hco Hcon Hro Hron] H.
  unfold robIds in *. simpl in *. rewrite Hq in *.
  destruct (Hex i) as (He & b & Hb & Hlt); [left|].
  unfold lim in Hlt. simpl in Hlt.
  pose proof (stamp_in_range _ _ Issue _ Hb) as Hi.
  apply NoDup_cons in Hexn as [Hni Hexn].
  assert (Hnc : i ∉ completeStage s).
  { intros [_ (d & Hd & _)]%Hco. congruence. }
  pose proof (Hch i) as Hci.
  assert (G : ∀ s' t a,
    instructionsList s'
      = alter (setExecTime t) i (alter (setExecuteCycle (cycle s)) i (instructionsList s)) →
    allocatedRs (nthInst (instructionsList s) i) = Some a →
    fetchPtr s' = fetchPtr s → decodeStage s' = decodeStage s →
    dispatchStage s' = dispatchStage s →
    reservationStations s' = alter free a (reservationStations s) →
    executeStage s' = rest → completeStage s' = completeStage s ++ [i] →
    rob s' = rob s → cycle s' = cycle s →
    stamp_inv 3 s' ∧ stable s s' ∧ gained s s').
  { intros s0 t a Hl Hal Hfp Hdq Hdiq Hrs Hexq Hcq Hrob Hcy.
    rewrite alter_alter in Hl. split_and!.
    - constructor; unfold robIds; simpl;
        rewrite ?Hl, ?Hfp, ?Hdq, ?Hdiq, ?Hrs, ?Hexq, ?Hcq, ?Hrob, ?Hcy; try done.
      + intros j. rewrite nthInst_alter by done. case_decide; [subst|done].
        clear -Hci Hb He Hlt. chain_at (nthInst (instructionsList s) i).
      + intros j. pres. auto.
      + intros j Hj. pres. by apply Hun.
      + intros j Hj. pres. by apply Hde.
      + intros j Hj. pres. by apply Hdi.
      + intros j r k Hj Hk.
        destruct (decide (j = a)) as [->|Hne].
        { rewrite list_lookup_alter_eq in Hj.
          destruct (reservationStations s !! a); simplify_eq/=. }
        rewrite list_lookup_alter_ne in Hj by done.
        destruct (Hst j r k Hj Hk) as (Hk1 & Hk2).
        assert (k ≠ i) by (intros ->; congruence).
        rewrite nthInst_alter_ne by done. done.
      + intros j Hj. pres. rewrite nthInst_alter_ne by set_solver.
        apply Hex. by right.
      + intros j [Hj| ->%list_elem_of_singleton]%elem_of_app.
        * pres. rewrite nthInst_alter_ne by set_solver. by apply Hco.
        * pres. rewrite nthInst_alter_eq by done. simpl. split.
          { clear -Hci He. chain_at (nthInst (instructionsList s) i). }
          eexists. split; [done|]. unfold lim. simpl. lia.
      + apply NoDup_app. split_and!; [done|set_solver|apply NoDup_singleton].
      + intros j Hj. pres. by apply Hro.
    - intros j st d. simpl. rewrite Hl. destruct st; simpl; pres; try done.
      rewrite nthInst_alter by done. case_decide; [subst; congruence|done].
    - exists i, Execute. simpl. rewrite Hl, nthInst_alter_eq by done. simpl. eauto. }
  unfold execute_one in H. simpl in H. inv_ok. pres.
  eapply G; simpl; done.
Qed.

Lemma execute_loop_stamp n s s' :
  stamp_inv 3 s → execute_loop n s = Ok s' →
  stamp_inv 3 s' ∧ stable s s' ∧
  (hasProgress s' = true → hasProgress s = true ∨ gained s s').
Proof.
  revert s. induction n as [|n IH]; intros s Hinv H; simpl in H; inv_ok;
    try (split_and!; auto using stable_refl; fail).
  destruct (execute_one_stamp _ _ _ _ Heqp Hinv Ha) as (H1 & H2 & H3).
  destruct (IH _ H1 H) as (H4 & H5 & H6).
  split_and!; [done|by eapply stable_trans|].
  intros _. right. by eapply gained_stable.
Qed.

(** ** Issue *)

Lemma issueCandidate_Some s r i :
  issueCandidate s r = Some i →
  rsInst r = Some i ∧ hasIssued (getInst s i) = false.
Proof.
  unfold issueCandidate. destruct (rsInst r) as [k|]; [|done].
  destruct (isReadyToExecute s r); simpl; [|done].
  destruct (hasIssued _) eqn:E; simpl; [done|]. intros [= ->]. done.
Qed.

Lemma issue_one_stamp s i r :
  r ∈ reservationStations s → issueCandidate s r = Some i →
  stamp_inv 4 s →
  let s' := issue_one i (executeStage s ++ [i]) s in
  stamp_inv 4 s' ∧ stable s s' ∧ gained s s'.
Proof.
  intros [jr Hjr]%list_elem_of_lookup_1 [Hr Hni]%issueCandidate_Some
    [Hch Hfl Hun Hde Hden Hdi Hdin Hst Hex Hexn Hco Hcon Hro Hron].
  unfold robIds in *. simpl in *.
  destruct (Hst jr r i Hjr Hr) as (Hal & He & Hisn & a & Ha & Hlt).
  specialize (Hisn Hni). unfold lim in Hlt. simpl in Hlt.
  pose proof (stamp_in_range _ _ Dispatch _ Ha) as Hi.
  assert (Hne : i ∉ executeStage s).
  { intros [_ (d & Hd & _)]%Hex. congruence. }
  pose proof (Hch i) as Hci.
  split_and!.
  - constructor; unfold robIds; simpl; try done.
    + intros j. rewrite nthInst_alter by done. case_decide; [subst|done].
      clear -Hci Ha He Hisn Hlt. chain_at (nthInst (instructionsList s) i).
    + intros j. pres. auto.
    + intros j Hj. pres. by apply Hun.
    + intros j Hj. pres. by apply Hde.
    + intros j Hj. pres. by apply Hdi.
    + intros j r0 k Hj Hk. pres. rewrite nthInst_alter by done.
      destruct (Hst j r0 k Hj Hk) as (? & ? & ? & ?).
      case_decide; [subst; simpl|done]. split_and!; done.
    + intros j [Hj| ->%list_elem_of_singleton]%elem_of_app.
      * pres. rewrite nthInst_alter_ne by set_solver. by apply Hex.
      * pres. rewrite nthInst_alter_eq by done. simpl. split; [done|].
        eexists. split; [done|]. unfold lim. simpl. lia.
    + apply NoDup_app. split_and!; [done|set_solver|apply NoDup_singleton].
    + intros j Hj. pres. by apply Hco.
    + intros j Hj. pres. by apply Hro.
  - intros j st d. simpl. destruct st; simpl; pres; try done.
    rewrite nthInst_alter by done. case_decide; [subst; congruence|done].
  - exists i, Issue. simpl. rewrite nthInst_alter_eq by done. simpl. eauto.
Qed.

Lemma issue_scan_stamp rs wc s ret wc' s' :
  (∀ r, r ∈ rs → r ∈ reservationStations s) →
  stamp_inv 4 s → issue_scan rs wc s = (ret, wc', s') →
  stamp_inv 4 s' ∧ stable s s' ∧
  reservationStations s' = reservationStations s ∧
  (hasProgress s' = true → hasProgress s = true ∨ gained s s').
Proof.
  revert wc s. induction rs as [|r rs IH]; intros wc s Hrs Hinv H; simpl in H.
  { injection H as <- <- <-. split_and!; auto using stable_refl. }
  destruct (issueCandidate s r) as [i|] eqn:Hc.
  2: { eapply IH; [|done..]. intros r0 Hr0. apply Hrs. by right. }
  destruct (_ <? _)%nat.
  { injection H as <- <- <-. split_and!; auto using stable_refl. }
  destruct (issue_one_stamp s i r) as (H1 & H2 & H3); [apply Hrs; by left|done..|].
  eapply IH in H as (H4 & H5 & H6 & H7); [|intros r0 Hr0; apply Hrs; by right|done].
  split_and!; [done|by eapply stable_trans|done|].
  intros _. right. by eapply gained_stable.
Qed.

Lemma issue_loop_stamp n wc s :
  stamp_inv 4 s →
  stamp_inv 4 (issue_loop n wc s) ∧ stable s (issue_loop n wc s) ∧
  (hasProgress (issue_loop n wc s) = true →
   hasProgress s = true ∨ gained s (issue_loop n wc s)).
Proof.
  revert wc s. induction n as [|n IH]; intros wc s Hinv; simpl.
  { split_and!; auto using stable_refl. }
  destruct (issue_scan _ _ _) as [[ret wc'] s1] eqn:E.
  apply issue_scan_stamp in E as (H1 & H2 & H3 & H4); [|done..].
  destruct ret; [done|].
  destruct (IH wc' _ H1) as (H5 & H6 & H7).
  split_and!; [done|by eapply stable_trans|].
  intros [Hp|Hg]%H7.
  - destruct (H4 Hp); [by left|]. right. by eapply gained_stable.
  - right. by eapply stable_gained.
Qed.

(** ** Dispatch *)

Lemma dispatch_one_stamp s i rest k s' :
  dispatchStage s = i :: rest → stamp_inv 5 s →
  dispatch_one i k s = Ok s' →
  stamp_inv 5 s' ∧ stable s s' ∧ gained s s'.
Proof.
  intros Hq [Hch Hfl Hun Hde Hden Hdi Hdin Hst Hex Hexn Hco Hcon Hro Hron] H.
  simpl in *. rewrite Hq in *.
  destruct (Hdi i) as (Hd & b & Hb & Hlt); [left|].
  unfold lim in Hlt. simpl in Hlt.
  pose proof (stamp_in_range _ _ Decode _ Hb) as Hi.
  apply NoDup_cons in Hdin as [Hni Hdin].
  assert (Hnr : i ∉ robIds s).
  { intros (_ & [d Hd'] & _)%Hro. congruence. }
  pose proof (Hch i) as Hci.
  assert (G : ∀ s' L T Told,
    instructionsList s'
      = alter (setDispatchCycle (cycle s)) i (alter (setAllocatedRs k) i L) →
    (∀ j, same_status (nthInst L j) (nthInst (instructionsList s) j)) →
    is_Some (L !! i) →
    fetchPtr s' = fetchPtr s → decodeStage s' = decodeStage s →
    dispatchStage s' = rest →
    reservationStations s' = alter (allocate i) k (reservationStations s) →
    executeStage s' = executeStage s → completeStage s' = completeStage s →
    rob s' = robAddInstruction i T Told (rob s) → cycle s' = cycle s →
    stamp_inv 5 s' ∧ stable s s' ∧ gained s s').
  { intros s0 L T Told Hl HL HiL Hfp Hdq Hdiq Hrs Hexq Hcq Hrob Hcy.
    rewrite alter_alter in Hl.
    assert (Hrid : robIds s0 = robIds s ++ [i]).
    { unfold robIds. rewrite Hrob. simpl. by rewrite fmap_app. }
    split_and!.
    - constructor; simpl;
        rewrite ?Hl, ?Hfp, ?Hdq, ?Hdiq, ?Hrs, ?Hexq, ?Hcq, ?Hrid, ?Hcy; try done.
      + intros j. rewrite nthInst_alter by done. case_decide; [subst|].
        * unfold chain. simpl. status HL i.
          clear -Hci Hb Hd Hlt. chain_at (nthInst (instructionsList s) i).
        * unfold chain. status HL j. apply Hch.
      + intros j. pres. status HL j. auto.
      + intros j Hj. pres. status HL j. by apply Hun.
      + intros j Hj. pres. status HL j. by apply Hde.
      + intros j Hj. pres. rewrite nthInst_alter_ne by set_solver.
        status HL j. apply Hdi. by right.
      + intros j r i' Hj Hi'.
        destruct (decide (j = k)) as [->|Hne].
        * rewrite list_lookup_alter_eq in Hj.
          destruct (reservationStations s !! k) as [r0|]; simplify_eq/=.
          pres. rewrite nthInst_alter_eq by done. simpl. status HL i'.
          split_and!; [done|..].
          { clear -Hci Hd. chain_at (nthInst (instructionsList s) i'). }
          { intros _. clear -Hci Hd. chain_at (nthInst (instructionsList s) i'). }
          eexists. split; [done|]. unfold lim. simpl. lia.
        * rewrite list_lookup_alter_ne in Hj by done.
          destruct (Hst j r i' Hj Hi') as (Hk1 & Hk2 & Hk3 & a & Ha & Hk4).
          assert (i' ≠ i) by (intros ->; congruence).
          rewrite nthInst_alter_ne by done. status HL i'. eauto 10.
      + intros j Hj. pres. status HL j. by apply Hex.
      + intros j Hj. pres. status HL j. by apply Hco.
      + intros j [Hj| ->%list_elem_of_singleton]%elem_of_app.
        * pres. rewrite nthInst_alter by done.
          case_decide; [subst; by destruct Hnr|]. status HL j. by apply Hro.
        * pres. rewrite nthInst_alter_eq by done. simpl. status HL i.
          split_and!; [|done|].
          { clear -Hci Hd. chain_at (nthInst (instructionsList s) i). }
          intros Hc. apply Hfl in Hc as [c Hc]. exfalso.
          clear -Hci Hd Hc. chain_at (nthInst (instructionsList s) i).
      + apply NoDup_app. split_and!; [done|set_solver|apply NoDup_singleton].
    - intros j st d. simpl. rewrite Hl. intros Hs.
      assert (Hs' : stamp st (nthInst L j) = Some d)
        by (destruct st; simpl in *; status HL j; done).
      destruct st; simpl in *; pres; try done.
      rewrite nthInst_alter by done. case_decide; [subst; congruence|done].
    - exists i, Dispatch. simpl. rewrite Hl, nthInst_alter_eq by done. simpl. eauto. }
  inv_dispatch H.
  all: eapply G; simpl; try done;
    first [ by (intros j; repeat split; pres)
          | by rewrite ?alter_in_range
          | by rewrite Hq ].
Qed.

Lemma dispatch_loop_stamp n s s' :
  stamp_inv 5 s → dispatch_loop n s = Ok s' →
  stamp_inv 5 s' ∧ stable s s' ∧
  (hasProgress s' = true → hasProgress s = true ∨ gained s s').
Proof.
  revert s. induction n as [|n IH]; intros s Hinv H; simpl in H; inv_ok;
    try (split_and!; auto using stable_refl; fail).
  destruct (dispatch_one_stamp _ _ _ _ _ Heqp Hinv Ha) as (H1 & H2 & H3).
  destruct (IH _ H1 H) as (H4 & H5 & H6).
  split_and!; [done|by eapply stable_trans|].
  intros _. right. by eapply gained_stable.
Qed.

(** * The progress flag *)

Lemma quiet_refl s : quiet s s.
Proof. by split. Qed.

Lemma quiet_trans s1 s2 s3 : quiet s1 s2 → quiet s2 s3 → quiet s1 s3.
Proof.
  intros [H1 H2] [H3 H4]. split; [auto|].
  intros H. rewrite H4 by done. apply H2.
  destruct (hasProgress s2) eqn:E; [|done]. rewrite H3 in H; done.
Qed.

(** A step that sets the flag, followed by anything quiet. *)
Lemma quiet_after_progress s s1 s' :
  hasProgress s1 = true → quiet s1 s' → quiet s s'.
Proof.
  intros H1 [H2 _]. split; [auto|]. intros H. rewrite H2 in H; done.
Qed.

Lemma fetch_loop_quiet n s : quiet s (fetch_loop n s).
Proof.
  revert s. induction n as [|n IH]; intros s; simpl; [apply quiet_refl|].
  destruct (isFetching s); simpl; [|apply quiet_refl].
  destruct (_ <=? _)%nat; [by split|].
  eapply quiet_after_progress; [|apply IH].
  unfold fetch_one. simpl. by case_match.
Qed.

Lemma decode_loop_quiet n s : quiet s (decode_loop n s).
Proof.
  revert s. induction n as [|n IH]; intros s; simpl; [apply quiet_refl|].
  destruct (decodeStage s); [apply quiet_refl|].
  eapply quiet_after_progress; [|apply IH]. done.
Qed.

Lemma dispatch_loop_quiet n s s' : dispatch_loop n s = Ok s' → quiet s s'.
Proof.
  revert s. induction n as [|n IH]; intros s H; simpl in H; inv_ok;
    try apply quiet_refl.
  eapply quiet_after_progress; [|by apply IH].
  clear H. inv_dispatch Ha; done.
Qed.

Lemma issue_scan_quiet rs wc s ret wc' s' :
  issue_scan rs wc s = (ret, wc', s') → quiet s s'.
Proof.
  revert wc s. induction rs as [|r rs IH]; intros wc s H; simpl in H.
  { injection H as <- <- <-. apply quiet_refl. }
  destruct (issueCandidate s r) as [i|]; [|by eapply IH].
  destruct (_ <? _)%nat.
  { injection H as <- <- <-. apply quiet_refl. }
  eapply quiet_after_progress; [|by eapply IH]. done.
Qed.

Lemma issue_loop_quiet n wc s : quiet s (issue_loop n wc s).
Proof.
  revert wc s. induction n as [|n IH]; intros wc s; simpl; [apply quiet_refl|].
  destruct (issue_scan _ _ _) as [[ret wc'] s'] eqn:E.
  apply issue_scan_quiet in E. destruct ret; [done|].
  eapply quiet_trans; [done|apply IH].
Qed.

Lemma execute_loop_quiet n s s' : execute_loop n s = Ok s' → quiet s s'.
Proof.
  revert s. induction n as [|n IH]; intros s H; simpl in H; inv_ok;
    try apply quiet_refl.
  eapply quiet_after_progress; [|by apply IH].
  unfold execute_one in Ha. simpl in Ha. inv_ok. done.
Qed.

Lemma complete_one_progress i j s s' :
  complete_one i j s = Ok s' → hasProgress s' = true.
Proof.
  unfold complete_one. rewrite broadcast_eq. simpl. unfold setReadyBit.
  intros H. inv_ok; done.
Qed.

Lemma complete_scan_quiet fuel j s s' :
  complete_scan fuel j s = Ok s' → quiet s s'.
Proof.
  revert j s. induction fuel as [|fuel IH]; intros j s H; simpl in H; inv_ok;
    try apply quiet_refl.
  - eapply quiet_after_progress; [by eapply complete_one_progress|by eapply IH].
  - eapply (quiet_after_progress _ (set_hasProgress true s)); [done|by eapply IH].
Qed.

(** A scan of a non-empty queue sets the flag, whether or not anything
    completes. *)
Lemma complete_scan_progress fuel s s' :
  completeStage s ≠ [] → complete_scan (S fuel) 0 s = Ok s' →
  hasProgress s' = true.
Proof.
  intros Hne H. simpl in H. destruct (completeStage s) as [|i q] eqn:E; [done|].
  simpl in H. inv_ok.
  - apply complete_one_progress in Ha. by apply (complete_scan_quiet _ _ _ _ H).
  - by apply (complete_scan_quiet _ _ _ _ H).
Qed.

Lemma complete_loop_quiet n s s' : complete_loop n s = Ok s' → quiet s s'.
Proof.
  revert s. induction n as [|n IH]; intros s H; simpl in H; inv_ok;
    try apply quiet_refl.
  eapply quiet_trans; [by eapply complete_scan_quiet|by apply IH].
Qed.

(** [complete] sets the flag exactly when the queue it finds is not empty
    (and the width is not zero), or the flag was set already. *)
Lemma complete_loop_progress n s s' :
  complete_loop n s = Ok s' →
  hasProgress s' = true ↔
  hasProgress s = true ∨ (completeStage s ≠ [] ∧ 0 < n).
Proof.
  intros H. destruct n as [|n]; simpl in H.
  { inv_ok. split; [auto|]. intros [?|[_ ?]]; [done|lia]. }
  destruct (completeStage s) as [|i q] eqn:E.
  { inv_ok. split; [auto|]. intros [?|[? _]]; done. }
  inv_ok. assert (Hp : hasProgress a = true).
  { eapply (complete_scan_progress (length q) s); [by rewrite E|done]. }
  apply complete_loop_quiet in H as [H _]. split; [|auto].
  intros _. right. split; [done|lia].
Qed.

Lemma retire_loop_quiet n s s' : retire_loop n s = Ok s' → quiet s s'.
Proof.
  revert s. induction n as [|n IH]; intros s H; simpl in H; inv_ok;
    try apply quiet_refl.
  eapply quiet_after_progress; [|by apply IH].
  unfold retire_one in Ha. simpl in Ha. inv_ok; done.
Qed.

Lemma retire_loop_completeStage n s s' :
  retire_loop n s = Ok s' → completeStage s' = completeStage s.
Proof.
  revert s. induction n as [|n IH]; intros s H; simpl in H; inv_ok; try done.
  rewrite (IH _ H). unfold retire_one in Ha. simpl in Ha.
  inv_ok; simpl; known_ifs; done.
Qed.

(** ** One tick *)

Lemma release_stamp s : stamp_inv 0 s → stamp_inv 0 (release s).
Proof. intros []. by constructor. Qed.

Lemma tick_stamp s s' :
  stamp_inv 0 s → tick s = Ok s' →
  stamp_inv 7 s' ∧ stable s s' ∧
  (hasProgress s' = true →
   hasProgress s = true ∨ gained s s' ∨ (completeStage s ≠ [] ∧ 0 < width s)).
Proof.
  intros Hinv H. unfold tick, stages_after_retire in H. inv_ok.
  apply release_stamp in Hinv.
  assert (Hs0 : stable s (release s)) by (by intros j st b).
  pose proof (retire_loop_completeStage _ _ _ Ha) as Hcq.
  pose proof (retire_loop_base _ _ _ Ha) as [Hw _].
  eapply retire_loop_stamp in Ha as (I1 & S1 & P1);
    [|by eapply stamp_inv_weaken; [|done]; lia].
  pose proof (complete_loop_progress _ _ _ Ha0) as P2.
  eapply complete_loop_stamp in Ha0 as (I2 & S2);
    [|by eapply stamp_inv_weaken; [|done]; lia].
  eapply execute_loop_stamp in Ha1 as (I3 & S3 & P3);
    [|by eapply stamp_inv_weaken; [|done]; lia].
  destruct (issue_loop_stamp (width a1) 0 a1) as (I4 & S4 & P4);
    [by eapply stamp_inv_weaken; [|done]; lia|].
  eapply dispatch_loop_stamp in Ha2 as (I5 & S5 & P5);
    [|by eapply stamp_inv_weaken; [|done]; lia].
  destruct (decode_loop_stamp (width a2) a2) as (I6 & S6 & P6);
    [by eapply stamp_inv_weaken; [|done]; lia|].
  destruct (fetch_loop_stamp (width (decode a2)) (decode a2)) as (I7 & S7 & P7);
    [by eapply stamp_inv_weaken; [|done]; lia|].
  fold (issue a1) in *. fold (decode a2) in *. fold (fetch (decode a2)) in *.
  pose proof (stable_trans _ _ _ Hs0 S1) as F1.
  pose proof (stable_trans _ _ _ F1 S2) as F2.
  pose proof (stable_trans _ _ _ F2 S3) as F3.
  pose proof (stable_trans _ _ _ F3 S4) as F4.
  pose proof (stable_trans _ _ _ F4 S5) as F5.
  pose proof (stable_trans _ _ _ F5 S6) as F6.
  pose proof (stable_trans _ _ _ F6 S7) as F7.
  pose proof (stable_trans _ _ _ S6 S7) as B6.
  pose proof (stable_trans _ _ _ S5 B6) as B5.
  pose proof (stable_trans _ _ _ S4 B5) as B4.
  pose proof (stable_trans _ _ _ S3 B4) as B3.
  pose proof (stable_trans _ _ _ S2 B3) as B2.
  assert (G0 : ∀ x, gained (release s) x → gained s x).
  { intros x (i & st & ? & ?). by exists i, st. }
  split_and!; [done..|].
  assert (G : ∀ x y, stable s x → stable y (fetch (decode a2)) → gained x y →
                     hasProgress s = true ∨ gained s (fetch (decode a2))
                     ∨ (completeStage s ≠ [] ∧ 0 < width s)).
  { intros x y Hx Hy Hg. right. left.
    eapply stable_gained; [done|]. by eapply gained_stable. }
  intros [Hp|Hg]%P7; [|by apply (G _ _ F6 (stable_refl _))].
  apply P6 in Hp as [Hp|Hg]; [|by apply (G _ _ F5 S7)].
  apply P5 in Hp as [Hp|Hg]; [|by apply (G _ _ F4 B6)].
  apply P4 in Hp as [Hp|Hg]; [|by apply (G _ _ F3 B5)].
  apply P3 in Hp as [Hp|Hg]; [|by apply (G _ _ F2 B4)].
  apply P2 in Hp as [Hp|[Hne Hw']].
  - apply P1 in Hp as [Hp|Hg]; [by left|].
    right. left. apply G0. by eapply gained_stable.
  - right. right. rewrite Hcq in Hne. rewrite Hw in Hw'. done.
Qed.

(** The timestamps of an instruction once a cycle has been counted. *)
Lemma cycle_body_stamp s s' :
  (0 ≤ cycle s < 4294967295)%Z →
  stamp_inv 0 s → cycle_body s = Ok s' →
  stamp_inv 0 s' ∧ stable s s' ∧
  (hasProgress s' = true →
   gained s s' ∨ (completeStage s ≠ [] ∧ 0 < width s)).
Proof.
  intros Hc Hinv H. unfold cycle_body in H. inv_ok.
  pose proof (tick_base _ _ Ha) as [_ Hca]. simpl in Hca.
  apply tick_stamp in Ha as (I & S & P); [|by destruct Hinv].
  rewrite wrap32_small by lia.
  split_and!; [by apply stamp_inv_bump|done|].
  simpl. intros [Hp|[Hg|Hq]]%P; [done|by left|by right].
Qed.

Lemma start_stamp c p : stamp_inv 0 (start c p).
Proof.
  unfold start. rewrite loadProgram_eq.
  constructor; unfold robIds; simpl; try (intros; set_solver);
    try apply NoDup_nil_2.
  - intros i. destruct (nthInst_fresh_eq p i) as (t & s1 & s2 & d & ->). done.
  - intros i. destruct (nthInst_fresh_eq p i) as (t & s1 & s2 & d & ->). done.
  - intros i _. destruct (nthInst_fresh_eq p i) as (t & s1 & s2 & d & ->). done.
  - intros j r i Hj Hi.
    repeat (destruct j as [|j]; simplify_eq/=).
Qed.

Lemma reachable_stamp c p n s :
  reachable c p n s → (Z.of_nat n < 4294967296)%Z → stamp_inv 0 s.
Proof.
  induction 1 as [|n s s' Hr IH Hcond Hbody]; intros Hn.
  - apply start_stamp.
  - eapply cycle_body_stamp; [|apply IH; lia|done].
    rewrite (reachable_cycle _ _ _ _ Hr); lia.
Qed.

(** * Issue: at most [width] instructions, lowest stations first *)

Lemma issueAll_frame cs s :
  reservationStations (issueAll cs s) = reservationStations s ∧
  width (issueAll cs s) = width s ∧
  cycle (issueAll cs s) = cycle s ∧
  executeStage (issueAll cs s) = executeStage s ++ cs.
Proof.
  revert s. induction cs as [|i cs IH]; intros s; simpl.
  - by rewrite app_nil_r.
  - destruct (IH (issue_one i (executeStage s ++ [i]) s)) as (-> & -> & -> & ->).
    simpl. by rewrite <- app_assoc.
Qed.

Lemma issueAll_other cs s k :
  k ∉ cs → getInst (issueAll cs s) k = getInst s k.
Proof.
  revert s. induction cs as [|i cs IH]; intros s Hk; simpl; [done|].
  apply not_elem_of_cons in Hk as [Hne Hk].
  change (getInst (issueAll cs (issue_one i (executeStage s ++ [i]) s)) k
          = getInst s k).
  rewrite IH by done. simpl. by rewrite nthInst_alter_ne.
Qed.

Lemma issueAll_issued cs s k :
  k ∈ cs → is_Some (instructionsList s !! k) →
  hasIssued (getInst (issueAll cs s) k) = true ∧
  issueCycle (getInst (issueAll cs s) k) = Some (cycle s).
Proof.
  revert s. induction cs as [|i cs IH]; intros s Hk Hr; [by apply elem_of_nil in Hk|].
  change (issueAll (i :: cs) s)
    with (issueAll cs (issue_one i (executeStage s ++ [i]) s)).
  destruct (decide (k ∈ cs)) as [Hin|Hnin].
  - destruct (IH (issue_one i (executeStage s ++ [i]) s) Hin) as [-> ->];
      [simpl; by apply alter_in_range|done].
  - apply elem_of_cons in Hk as [->|Hk]; [|done].
    rewrite issueAll_other by done. simpl.
    rewrite nthInst_alter_eq by done. done.
Qed.

Lemma issueCandidate_same s s' r :
  (∀ k, rsInst r = Some k → getInst s' k = getInst s k) →
  issueCandidate s' r = issueCandidate s r.
Proof.
  intros H. unfold issueCandidate, isReadyToExecute.
  destruct (rsInst r) as [k|]; [|done]. by rewrite (H k).
Qed.

Lemma omap_issueCandidate_same s s' (rs : list ReservationStation) :
  (∀ k, k ∈ omap rsInst rs → getInst s' k = getInst s k) →
  omap (issueCandidate s') rs = omap (issueCandidate s) rs.
Proof.
  intros H. apply list_omap_ext, Forall2_same_length_lookup. split; [done|].
  intros j r r' Hr Hr'. simplify_eq. apply issueCandidate_same.
  intros k Hk. apply H, list_elem_of_omap. exists r.
  split; [by eapply list_elem_of_lookup_2|done].
Qed.

Lemma omap_eq_nil {A B} (f : A → option B) (l : list A) :
  Forall (λ x, f x = None) l → omap f l = [].
Proof. induction 1 as [|x l Hx _ IH]; csimpl; [done|]. by rewrite Hx. Qed.

Lemma NoDup_omap_labelled {A B} (f : A → option B) (g : B → option nat)
    (l : list A) (off : nat) :
  (∀ j x y, l !! j = Some x → f x = Some y → g y = Some (off + j)) →
  NoDup (omap f l).
Proof.
  revert off. induction l as [|x l IH]; intros off H; csimpl; [apply NoDup_nil_2|].
  assert (Hl : NoDup (omap f l)).
  { apply (IH (S off)). intros j x' y Hj Hy.
    rewrite (H (S j) x' y Hj Hy). f_equal. lia. }
  destruct (f x) as [y|] eqn:Hy; [|done].
  apply NoDup_cons. split; [|done].
  intros (x' & [j Hj]%list_elem_of_lookup_1 & Hy')%list_elem_of_omap.
  pose proof (H 0 x y eq_refl Hy) as H0.
  pose proof (H (S j) x' y Hj Hy') as H1.
  rewrite H0 in H1. injection H1. lia.
Qed.

(** One scan over the stations issues the first candidates, as many as the
    counter still allows, and hits [return] exactly when there are more. *)
Lemma issue_scan_spec rs wc s :
  NoDup (omap rsInst rs) → wc ≤ width s →
  let cs := omap (issueCandidate s) rs in
  ∃ wc', issue_scan rs wc s
         = (bool_decide (width s < wc + length cs), wc',
            issueAll (take (width s - wc) cs) s) ∧
         (wc + length cs ≤ width s → wc' = wc + length cs).
Proof.
  revert wc s. induction rs as [|r rs IH]; intros wc s Hnd Hwc; csimpl.
  { exists wc. rewrite bool_decide_false by lia. rewrite take_nil.
    split; [done|lia]. }
  csimpl in Hnd.
  destruct (issueCandidate s r) as [i|] eqn:Hc; csimpl.
  2: { apply IH; [|done]. destruct (rsInst r); [|done].
       by apply NoDup_cons in Hnd as [_ ?]. }
  apply issueCandidate_Some in Hc as Hci. destruct Hci as [Hr Hni].
  rewrite Hr in Hnd. apply NoDup_cons in Hnd as [Hnotin Hnd].
  destruct (width s <? S wc)%nat eqn:E.
  - apply Nat.ltb_lt in E. exists (S wc).
    rewrite bool_decide_true by lia.
    replace (width s - wc) with 0 by lia. split; [done|lia].
  - apply Nat.ltb_ge in E.
    set (s1 := issue_one i (executeStage s ++ [i]) s).
    destruct (IH (S wc) s1 Hnd) as (wc' & Hscan & Hwc'); [done|].
    assert (Hcs : omap (issueCandidate s1) rs = omap (issueCandidate s) rs).
    { apply omap_issueCandidate_same. intros k Hk. unfold s1. simpl.
      rewrite nthInst_alter_ne; [done|]. by intros ->. }
    rewrite Hcs in *. simpl in Hscan.
    exists wc'. rewrite Hscan. split; [|intros; rewrite Hwc'; simpl; lia].
    replace (width s - wc) with (S (width s - S wc)) by lia. simpl.
    do 2 f_equal. apply bool_decide_ext. lia.
Qed.

Lemma issue_scan_idle rs wc s :
  omap (issueCandidate s) rs = [] → issue_scan rs wc s = (false, wc, s).
Proof.
  induction rs as [|r rs IH]; csimpl; [done|].
  destruct (issueCandidate s r); [done|]. apply IH.
Qed.

Lemma issue_loop_idle n wc s : candidates s = [] → issue_loop n wc s = s.
Proof.
  intros H. revert wc. induction n as [|n IH]; intros wc; simpl; [done|].
  rewrite issue_scan_idle by done. apply IH.
Qed.

Lemma elem_of_candidates s i :
  i ∈ candidates s → i ∈ held s ∧ hasIssued (getInst s i) = false.
Proof.
  unfold candidates, held. intros (r & Hr & Hc)%list_elem_of_omap.
  apply issueCandidate_Some in Hc as [Hi Hn]. split; [|done].
  apply list_elem_of_omap. eauto.
Qed.

(** Once every candidate has been issued, no station offers one. *)
Lemma candidates_issueAll s :
  (∀ i, i ∈ held s → is_Some (instructionsList s !! i)) →
  candidates (issueAll (candidates s) s) = [].
Proof.
  intros Hrange. set (s1 := issueAll (candidates s) s).
  unfold candidates at 1.
  destruct (issueAll_frame (candidates s) s) as (Hrs & _). fold s1 in Hrs.
  rewrite Hrs.
  apply omap_eq_nil. apply Forall_forall. intros r Hr.
  destruct (issueCandidate s1 r) as [k|] eqn:Hc; [|done]. exfalso.
  apply issueCandidate_Some in Hc as Hk. destruct Hk as [Hrk Hnk].
  assert (Hheld : k ∈ held s) by (apply list_elem_of_omap; eauto).
  destruct (decide (k ∈ candidates s)) as [Hin|Hnin].
  - destruct (issueAll_issued _ s k Hin (Hrange k Hheld)) as [Hiss _].
    fold s1 in Hiss. congruence.
  - rewrite (issueCandidate_same s s1 r) in Hc.
    + apply Hnin. apply list_elem_of_omap. eauto.
    + intros k' Hk'. assert (k' = k) as -> by congruence.
      by apply issueAll_other.
Qed.

(** [issue] issues the first [width] candidates in station order. *)
Lemma issue_spec s :
  NoDup (held s) → (∀ i, i ∈ held s → is_Some (instructionsList s !! i)) →
  issue s = issueAll (take (width s) (candidates s)) s.
Proof.
  intros Hnd Hrange. unfold issue. destruct (width s) as [|w] eqn:Hw; [done|].
  simpl. destruct (issue_scan_spec (reservationStations s) 0 s Hnd)
    as (wc' & -> & Hwc'); [lia|].
  fold (candidates s). rewrite Nat.sub_0_r, Hw.
  case_bool_decide as Hlt; [done|].
  rewrite take_ge by lia.
  apply issue_loop_idle. by apply candidates_issueAll.
Qed.

(** In the states [issue] runs on, no instruction sits in two stations and
    every held reference points into the store. *)
Lemma stamp_inv_held k s :
  stamp_inv k s →
  NoDup (held s) ∧ (∀ i, i ∈ held s → is_Some (instructionsList s !! i)).
Proof.
  intros [_ _ _ _ _ _ _ Hst _ _ _ _ _ _]. split.
  - apply (NoDup_omap_labelled _ (λ i, allocatedRs (getInst s i)) _ 0).
    intros j r i Hj Hi. by destruct (Hst j r i Hj Hi) as (-> & _).
  - intros i (r & [j Hj]%list_elem_of_lookup_1 & Hi)%list_elem_of_omap.
    destruct (Hst j r i Hj Hi) as (_ & _ & _ & a & Ha & _).
    by apply (stamp_in_range _ _ Dispatch a).
Qed.

(** * Reachable states *)

Lemma run_reachable c p m n s s' :
  reachable c p m s → run n s = Some s' → reachable c p (m + n) s'.
Proof.
  revert m s. induction n as [|n IH]; intros m s Hr H; simpl in H.
  - injection H as <-. by rewrite Nat.add_0_r.
  - destruct (loop_cond s) eqn:Hc; [|done].
    destruct (cycle_body s) as [s1|] eqn:Hb; [|done].
    replace (m + S n) with (S m + n) by lia.
    eapply IH; [|done]. by eapply reach_cycle.
Qed.

Lemma stateAfter_reachable c p n :
  is_Some (run n (start c p)) → reachable c p n (stateAfter n c p).
Proof.
  intros [s Hs]. unfold stateAfter. rewrite Hs. simpl.
  apply (run_reachable c p 0 n (start c p)); [constructor|done].
Qed.

Lemma reachable_functional c p n s1 s2 :
  reachable c p n s1 → reachable c p n s2 → s1 = s2.
Proof.
  intros H1. revert s2. induction H1 as [|n s s' Hr IH Hcond Hbody];
    intros s2 H2; inversion H2; subst; [done|].
  match goal with H : reachable _ _ _ ?t |- _ => apply IH in H; subst end.
  congruence.
Qed.

(** A timestamp that is set keeps its value in every later state. *)
Lemma reachable_stable c p n n' s s' :
  reachable c p n s → reachable c p n' s' → n ≤ n' →
  (Z.of_nat n' < 4294967296)%Z → stable s s'.
Proof.
  intros Hs Hs'. revert n s Hs.
  induction Hs' as [|m t t' Hr IH Hcond Hbody]; intros n s Hs Hle Hb.
  - assert (n = 0) as -> by lia.
    rewrite (reachable_functional _ _ _ _ _ Hs (reach_start c p)).
    apply stable_refl.
  - destruct (decide (n = S m)) as [->|Hne].
    { rewrite (reachable_functional _ _ _ _ _ Hs (reach_cycle _ _ _ _ _ Hr Hcond Hbody)).
      apply stable_refl. }
    eapply stable_trans; [apply (IH n s Hs); lia|].
    eapply cycle_body_stamp; [|apply (reachable_stamp c p m); [done|lia]|done].
    rewrite (reachable_cycle _ _ _ _ Hr); lia.
Qed.

(** ** The tick, stage by stage *)

Lemma tick_unfold s :
  tick s = s3 ← beforeIssue s; s5 ← dispatch (issue s3); Ok (fetch (decode s5)).
Proof.
  unfold tick, stages_after_retire, beforeIssue.
  destruct (retire (release s)) as [s1|]; simpl; [|done].
  destruct (complete s1) as [s2|]; simpl; [|done]. done.
Qed.

Lemma beforeIssue_stamp s s3 :
  stamp_inv 0 s → beforeIssue s = Ok s3 →
  stamp_inv 4 s3 ∧ width s3 = width s ∧ cycle s3 = cycle s.
Proof.
  intros Hinv H. unfold beforeIssue in H. inv_ok.
  apply release_stamp in Hinv.
  pose proof (retire_loop_base _ _ _ Ha) as [Hw1 Hc1].
  pose proof (mid_frame_base _ _ (complete_loop_frame _ _ _ Ha0)) as [Hw2 Hc2].
  pose proof (mid_frame_base _ _ (execute_loop_frame _ _ _ H)) as [Hw3 Hc3].
  eapply retire_loop_stamp in Ha as (I1 & _);
    [|by eapply stamp_inv_weaken; [|done]; lia].
  eapply complete_loop_stamp in Ha0 as (I2 & _);
    [|by eapply stamp_inv_weaken; [|done]; lia].
  eapply execute_loop_stamp in H as (I3 & _);
    [|by eapply stamp_inv_weaken; [|done]; lia].
  split_and!; [by eapply stamp_inv_weaken; [|done]; lia|..].
  - rewrite Hw3, Hw2, Hw1. done.
  - rewrite Hc3, Hc2, Hc1. done.
Qed.

(** A tick that does not set the flag leaves every instruction as it was;
    a tick that finds the complete queue non-empty sets it. *)
Lemma tick_quiet s s' :
  tick s = Ok s' →
  quiet s s' ∧ (completeStage s ≠ [] → 0 < width s → hasProgress s' = true).
Proof.
  intros H. unfold tick, stages_after_retire in H. inv_ok.
  pose proof (retire_loop_completeStage _ _ _ Ha) as Hcq.
  pose proof (retire_loop_base _ _ _ Ha) as [Hw _].
  pose proof (complete_loop_progress _ _ _ Ha0) as Hp.
  apply retire_loop_quiet in Ha. apply complete_loop_quiet in Ha0.
  apply execute_loop_quiet in Ha1. apply dispatch_loop_quiet in Ha2.
  pose proof (issue_loop_quiet (width a1) 0 a1) as Hi.
  pose proof (decode_loop_quiet (width a2) a2) as Hd.
  pose proof (fetch_loop_quiet (width (decode a2)) (decode a2)) as Hf.
  pose proof (quiet_trans _ _ _ Ha1
    (quiet_trans _ _ _ Hi (quiet_trans _ _ _ Ha2 (quiet_trans _ _ _ Hd Hf))))
    as Q.
  split.
  - assert (Q0 : quiet s (release s)) by done.
    exact (quiet_trans _ _ _ Q0 (quiet_trans _ _ _ Ha (quiet_trans _ _ _ Ha0 Q))).
  - intros Hne Hlt. apply Q, Hp. right. rewrite Hcq, Hw. done.
Qed.

Lemma gained_same_store s s' :
  instructionsList s' = instructionsList s → ¬ gained s s'.
Proof.
  intros H (i & st & Hn & [a Ha]). simpl in *. rewrite H in Ha. congruence.
Qed.

(** ** Stalls *)

Lemma dispatch_loop_stalled m s i rest :
  dispatchStage s = i :: rest → dispatchStalled s i → dispatch_loop m s = Ok s.
Proof.
  intros Hq Hst. unfold dispatchStalled in Hst. simpl in Hst.
  destruct m as [|m]; simpl; [done|]. rewrite Hq.
  destruct (hasFreeEntry (rob s)) eqn:Hrob; simpl; [|done].
  destruct (findFreeRS _ _ _) as [k|] eqn:Hrs; [|done].
  destruct Hst as [?|[?|[Hd Hf]]]; [congruence..|].
  apply Z.eqb_neq in Hd. rewrite Hd, Hf. done.
Qed.

Lemma retire_loop_blocked m s : retireBlocked s → retire_loop m s = Ok s.
Proof.
  unfold retireBlocked. intros H. destruct m as [|m]; simpl; [done|].
  destruct (getHead (rob s)) as [e|]; [|done]. simpl in H. by rewrite H.
Qed.

(** * The properties of the specification *)

(** C1. Program-order retirement. In every state the simulation reaches
    before the 32-bit cycle counter wraps, an instruction earlier in program
    order never has a later retirement cycle than a later one that has also
    retired. [retire] leaves the state as it is, for any number of remaining
    iterations, once the ROB is empty or its head has not completed, whatever
    the entries behind the head are; and what it removes is a prefix of the
    ROB, of at most [width] entries. *)
Theorem program_order_retirement c p n s :
  reachable c p n s → (Z.of_nat n < 4294967296)%Z →
  (∀ i j a b, i < j →
     retireCycle (getInst s i) = Some a →
     retireCycle (getInst s j) = Some b → (a ≤ b)%Z) ∧
  (∀ t m, retireBlocked t → retire_loop m t = Ok t) ∧
  (∀ t t', retire t = Ok t' →
     ∃ k, k ≤ width t ∧ robQueue (rob t') = drop k (robQueue (rob t))).
Proof.
  intros Hr Hn. split_and!.
  - destruct (reachable_ord _ _ _ _ Hr Hn) as (r & _ & _ & _ & Hmono & _).
    intros i j a b Hij. apply Hmono. lia.
  - intros t m. apply retire_loop_blocked.
  - intros t t' H. apply retire_loop_regs in H as (es & Hq & Hlen & _).
    exists (length es). split; [done|]. by rewrite Hq, drop_app_length.
Qed.

Lemma program_order_retirement_witness :
  reachable cfgWidth1 progLoadAlu 9 (stateAfter 9 cfgWidth1 progLoadAlu) ∧
  (Z.of_nat 9 < 4294967296)%Z ∧
  ∀ a b,
    retireCycle (getInst (stateAfter 9 cfgWidth1 progLoadAlu) 0) = Some a →
    retireCycle (getInst (stateAfter 9 cfgWidth1 progLoadAlu) 1) = Some b →
    (a ≤ b)%Z.
Proof.
  assert (R : reachable cfgWidth1 progLoadAlu 9
                (stateAfter 9 cfgWidth1 progLoadAlu)).
  { apply stateAfter_reachable. vm_compute. eexists. reflexivity. }
  split; [exact R|]. split; [lia|]. intros a b.
  apply (program_order_retirement _ _ _ _ R); lia.
Defined.

(** C2. Stage monotonicity. In every state the simulation reaches before the
    cycle counter wraps, whenever a stage timestamp of an instruction is set,
    the timestamp of every earlier stage is set too and is strictly smaller
    (fetch < decode < dispatch < issue < execute < complete < retire); and a
    timestamp that is set has the same value in every later state: it is
    never written again. *)
Theorem stage_monotonicity c p n s :
  reachable c p n s → (Z.of_nat n < 4294967296)%Z →
  (∀ i st1 st2 b,
     stageIndex st1 < stageIndex st2 →
     stamp st2 (getInst s i) = Some b →
     ∃ a, stamp st1 (getInst s i) = Some a ∧ (a < b)%Z) ∧
  (∀ n' s', reachable c p n' s' → n ≤ n' → (Z.of_nat n' < 4294967296)%Z →
     ∀ i st a, stamp st (getInst s i) = Some a →
               stamp st (getInst s' i) = Some a).
Proof.
  intros Hr Hn. split.
  - intros i st1 st2 b Hlt Hb.
    apply (chain_ordered _ st1 st2 b); [|done..].
    by destruct (reachable_stamp _ _ _ _ Hr Hn).
  - intros n' s' Hr' Hle Hn'. by apply (reachable_stable c p n n').
Qed.

Lemma stage_monotonicity_witness :
  reachable cfgWidth1 progLoadAlu 9 (stateAfter 9 cfgWidth1 progLoadAlu) ∧
  (Z.of_nat 9 < 4294967296)%Z ∧
  ∀ b,
    stamp Retire (getInst (stateAfter 9 cfgWidth1 progLoadAlu) 1) = Some b →
    ∃ a, stamp Fetch (getInst (stateAfter 9 cfgWidth1 progLoadAlu) 1) = Some a
         ∧ (a < b)%Z.
Proof.
  assert (R : reachable cfgWidth1 progLoadAlu 9
                (stateAfter 9 cfgWidth1 progLoadAlu)).
  { apply stateAfter_reachable. vm_compute. eexists. reflexivity. }
  split; [exact R|]. split; [lia|]. intros b.
  apply (stage_monotonicity _ _ _ _ R); [lia|]. simpl. lia.
Defined.

(** C3. The scan of [complete] at width 1 on the program [load; alu]: in
    cycle 6 the complete queue holds both instructions, both past their
    deadline; the scan completes the first, erases it, steps its index past
    the second, and the second stays queued and not completed. *)
Lemma complete_skips_after_erase :
  reachable cfgWidth1 progLoadAlu 6 (stateAfter 6 cfgWidth1 progLoadAlu) ∧
  ∃ s1 s2,
    retire (release (set_hasProgress false
                       (stateAfter 6 cfgWidth1 progLoadAlu))) = Ok s1 ∧
    complete s1 = Ok s2 ∧
    cycle s1 = 6%Z ∧
    completeStage s1 = [0; 1] ∧
    deadlineReached s1 0 = true ∧ deadlineReached s1 1 = true ∧
    completeStage s2 = [1] ∧
    hasCompleted (getInst s2 0) = true ∧
    hasCompleted (getInst s2 1) = false.
Proof.
  split.
  { apply stateAfter_reachable. vm_compute. eexists. reflexivity. }
  eexists _, _. split; [vm_compute; reflexivity|].
  split; [vm_compute; reflexivity|].
  split_and!; vm_compute; reflexivity.
Qed.

(** C4, as the claim states it, fails: physical register 1, the initial
    mapping of architectural register 1, is in the free list after the load
    that renamed r1 has retired and its old mapping has been released. *)
Lemma initial_register_enters_free_list :
  reachable cfgWidth1 progLoadAlu 9 (stateAfter 9 cfgWidth1 progLoadAlu) ∧
  mapping (mapTable (start cfgWidth1 progLoadAlu)) !! 1 = Some 1%Z ∧
  1%Z ∈ regNum <$> freeList (stateAfter 9 cfgWidth1 progLoadAlu).
Proof.
  split; [|split].
  - apply stateAfter_reachable. vm_compute. eexists. reflexivity.
  - reflexivity.
  - vm_compute. do 2 right. left.
Qed.

(** C4, amended. Register conservation. At every cycle boundary the free
    list, the targets of the speculative map table, the old mappings held by
    the ROB entries of instructions with a destination and the buffer of
    registers pending release together hold every physical register exactly
    once, so their sizes add up to the number of physical registers; and the
    initial physical registers of the architectural registers are not in the
    free list the simulation starts with. *)
Theorem register_conservation c p n s :
  reachable c p n s → numArchRegs c ≤ numPhysicalRegs c →
  regs s ≡ₚ seqZ 0 (Z.of_nat (numPhysicalRegs c)) ∧
  length (freeList s) + length (mapping (mapTable s))
    + (length (robTolds s) + length (freePhysRegsPrevCycle s))
    = numPhysicalRegs c ∧
  (∀ r, r ∈ regNum <$> freeList (start c p) →
        r ∉ mapping (mapTable (start c p))).
Proof.
  intros Hr Hle.
  assert (Hall : allRegs c = seqZ 0 (Z.of_nat (numPhysicalRegs c))).
  { unfold allRegs. do 2 f_equal. lia. }
  pose proof (reachable_regs _ _ _ _ Hr) as Hinv.
  unfold reg_inv in Hinv. rewrite Hall in Hinv. split_and!.
  - done.
  - apply Permutation_length in Hinv. unfold regs in Hinv.
    rewrite !length_app, !length_fmap, length_seqZ in Hinv. lia.
  - pose proof (regs_NoDup c _ (start_regs c p)) as Hnd. unfold regs in Hnd.
    apply NoDup_app in Hnd as (_ & Hdis & _).
    intros r Hr1 Hr2. apply (Hdis r Hr1). apply elem_of_app. by left.
Qed.

Lemma register_conservation_witness :
  reachable cfgWidth1 progLoadAlu 9 (stateAfter 9 cfgWidth1 progLoadAlu) ∧
  numArchRegs cfgWidth1 ≤ numPhysicalRegs cfgWidth1 ∧
  regs (stateAfter 9 cfgWidth1 progLoadAlu) ≡ₚ seqZ 0 8.
Proof.
  assert (R : reachable cfgWidth1 progLoadAlu 9
                (stateAfter 9 cfgWidth1 progLoadAlu)).
  { apply stateAfter_reachable. vm_compute. eexists. reflexivity. }
  assert (L : numArchRegs cfgWidth1 ≤ numPhysicalRegs cfgWidth1).
  { simpl. lia. }
  split; [exact R|]. split; [exact L|].
  exact (proj1 (register_conservation _ _ _ _ R L)).
Defined.

(** C5. Dispatch stall. When a stall test fails for the instruction at the
    front of the dispatch queue (no free ROB entry, no free station of its
    type, or a destination and an empty free list), the dispatch loop
    returns the state it was given, whatever number of iterations of the
    width is left: no register is popped, no mapping installed, no ROB entry
    or station allocated, and the dispatch queue keeps its front. *)
Theorem dispatch_stall_keeps_state s i rest m :
  dispatchStage s = i :: rest → dispatchStalled s i →
  dispatch_loop m s = Ok s ∧ dispatch s = Ok s.
Proof.
  intros Hq Hst. split; by eapply dispatch_loop_stalled.
Qed.

Lemma dispatch_stall_keeps_state_witness :
  dispatchStage (stateAfter 2 cfgNoRob progLoad) = 0 :: [] ∧
  dispatchStalled (stateAfter 2 cfgNoRob progLoad) 0 ∧
  dispatch (stateAfter 2 cfgNoRob progLoad)
  = Ok (stateAfter 2 cfgNoRob progLoad).
Proof.
  assert (Q : dispatchStage (stateAfter 2 cfgNoRob progLoad) = 0 :: []).
  { vm_compute. reflexivity. }
  assert (S : dispatchStalled (stateAfter 2 cfgNoRob progLoad) 0).
  { left. vm_compute. reflexivity. }
  split; [exact Q|]. split; [exact S|].
  exact (proj2 (dispatch_stall_keeps_state _ _ _ 1 Q S)).
Defined.

(** C6. Delayed release. In a cycle of a reachable state, what [retire]
    queues in the buffer of pending registers is exactly the old mappings
    (Told) of the ROB entries it retires that belong to an instruction with a
    destination, in order, and nothing for the others. No register it queues
    is in the free list after [retire] or after any later stage of the same
    cycle, the buffer is not touched by those stages, and every queued
    register is in the free list when the stages of the next cycle start. *)
Theorem told_released_next_cycle c p n s s1 s2 s3 s5 :
  reachable c p n s →
  retire (release (set_hasProgress false s)) = Ok s1 →
  complete s1 = Ok s2 → execute s2 = Ok s3 → dispatch (issue s3) = Ok s5 →
  ∃ es,
    robQueue (rob s) = es ++ robQueue (rob s1) ∧
    freePhysRegsPrevCycle s1
      = robTold <$> filter (λ e, Is_true (hasDst s e)) es ∧
    freePhysRegsPrevCycle (fetch (decode s5)) = freePhysRegsPrevCycle s1 ∧
    ∀ r, r ∈ freePhysRegsPrevCycle s1 →
      (∀ t, t ∈ [s1; s2; s3; issue s3; s5; decode s5; fetch (decode s5)] →
            regNum r ∉ (regNum <$> freeList t)) ∧
      r ∈ freeList (nextCycleEntry (fetch (decode s5))).
Proof.
  intros Hr H1 H2 H3 H5.
  pose proof (reachable_regs _ _ _ _ Hr) as Hinv.
  assert (Hinv0 : reg_inv (allRegs c) (release (set_hasProgress false s)))
    by (by apply release_regs).
  pose proof (retire_loop_reg_inv _ _ _ _ H1 Hinv0) as Hinv1.
  destruct (retire_loop_regs _ _ _ H1) as (es & Hq & _ & Hf1 & Hp1 & _).
  simpl in Hq, Hp1.
  assert (Hst : stages_after_retire s1 = Ok (fetch (decode s5))).
  { unfold stages_after_retire. rewrite H2. simpl. rewrite H3. simpl.
    rewrite H5. done. }
  destruct (stages_after_retire_regs _ _ _ Hst Hinv1) as (_ & _ & Hp').
  pose proof (complete_loop_frame _ _ _ H2) as [[Hf2 _ _ _ _] _ _ _ _ _ _].
  pose proof (execute_loop_frame _ _ _ H3) as [[Hf3 _ _ _ _] _ _ _ _ _ _].
  pose proof (issue_frame s3) as [[Hf4 _ _ _ _] _ _ _ _ _ _].
  assert (Hinv4 : reg_inv (allRegs c) (issue s3)).
  { eapply reg_same_inv; [apply issue_frame|].
    eapply reg_same_inv; [by eapply execute_loop_frame|].
    eapply reg_same_inv; [by eapply complete_loop_frame|]. done. }
  destruct (dispatch_loop_regs _ _ _ _ H5 Hinv4) as (_ & [m Hf5] & _ & _).
  pose proof (decode_loop_regs (width s5) s5) as [Hf6 _ _ _ _].
  pose proof (fetch_loop_regs (width (decode s5)) (decode s5)) as [Hf7 _ _ _ _].
  fold (decode s5) in *. fold (fetch (decode s5)) in *.
  exists es. split_and!; [done..|].
  intros r Hin.
  assert (Hnot : regNum r ∉ regNum <$> freeList s1).
  { pose proof (regs_NoDup _ _ Hinv1) as Hnd. unfold regs in Hnd.
    apply NoDup_app in Hnd as (_ & Hdis & _).
    intros Hfr. apply (Hdis _ Hfr). rewrite !elem_of_app. do 2 right.
    by apply list_elem_of_fmap_2. }
  assert (Hnot5 : regNum r ∉ regNum <$> freeList s5).
  { rewrite Hf5, Hf4, Hf3, Hf2. intros Hfr. apply Hnot.
    eapply list_elem_of_fmap in Hfr as (x & -> & Hx).
    apply list_elem_of_fmap_2. by eapply subseteq_drop. }
  split.
  - intros t Ht. repeat (apply elem_of_cons in Ht as [->|Ht]);
      [..|by apply elem_of_nil in Ht]; congruence.
  - unfold nextCycleEntry. rewrite release_freeList. simpl.
    apply elem_of_app. right. by rewrite Hp'.
Qed.

Lemma told_released_next_cycle_witness :
  reachable cfgWidth1 progLoadAlu 7 (stateAfter 7 cfgWidth1 progLoadAlu) ∧
  retire (release (set_hasProgress false
                     (stateAfter 7 cfgWidth1 progLoadAlu))) = Ok demoS1 ∧
  complete demoS1 = Ok demoS2 ∧
  execute demoS2 = Ok demoS3 ∧
  dispatch (issue demoS3) = Ok demoS5 ∧
  regNum <$> freePhysRegsPrevCycle demoS1 = [1%Z] ∧
  ∀ r, r ∈ freePhysRegsPrevCycle demoS1 →
       (regNum r ∉ (regNum <$> freeList demoS5)) ∧
       (r ∈ freeList (nextCycleEntry (fetch (decode demoS5)))).
Proof.
  assert (R : reachable cfgWidth1 progLoadAlu 7
                (stateAfter 7 cfgWidth1 progLoadAlu)).
  { apply stateAfter_reachable. vm_compute. eexists. reflexivity. }
  assert (H1 : retire (release (set_hasProgress false
                 (stateAfter 7 cfgWidth1 progLoadAlu))) = Ok demoS1).
  { vm_compute. reflexivity. }
  assert (H2 : complete demoS1 = Ok demoS2) by (vm_compute; reflexivity).
  assert (H3 : execute demoS2 = Ok demoS3) by (vm_compute; reflexivity).
  assert (H5 : dispatch (issue demoS3) = Ok demoS5) by (vm_compute; reflexivity).
  split; [exact R|]. split; [exact H1|]. split; [exact H2|].
  split; [exact H3|]. split; [exact H5|]. split; [vm_compute; reflexivity|].
  destruct (told_released_next_cycle _ _ _ _ _ _ _ _ R H1 H2 H3 H5)
    as (es & _ & _ & _ & H).
  intros r Hr. destruct (H r Hr) as [Hnot Hin]. split; [|exact Hin].
  apply Hnot. do 4 right. left.
Defined.

(** C7. Issue width. In every cycle of a reachable run, [issue] issues
    exactly the first [width] candidates in station order (a candidate is the
    instruction of a station that is ready to execute and has not issued): it
    appends them to the execute queue in that order, marks them issued with
    the current cycle, and leaves every other instruction as it was. So at
    most [width] instructions issue in a cycle, a lower station index wins
    when the slots run out, and an instruction already marked issued is never
    a candidate again. *)
Theorem issue_width_cap c p n s s3 :
  reachable c p n s → (Z.of_nat n < 4294967296)%Z →
  beforeIssue (set_hasProgress false s) = Ok s3 →
  issue s3 = issueAll (take (width s3) (candidates s3)) s3 ∧
  executeStage (issue s3)
    = executeStage s3 ++ take (width s3) (candidates s3) ∧
  length (take (width s3) (candidates s3)) ≤ width s3 ∧
  (∀ i, i ∈ take (width s3) (candidates s3) →
        hasIssued (getInst s3 i) = false ∧
        hasIssued (getInst (issue s3) i) = true ∧
        issueCycle (getInst (issue s3) i) = Some (cycle s3)) ∧
  (∀ i, i ∉ take (width s3) (candidates s3) →
        getInst (issue s3) i = getInst s3 i) ∧
  (∀ i, hasIssued (getInst s3 i) = true → i ∉ candidates s3).
Proof.
  intros Hr Hn H.
  pose proof (reachable_stamp _ _ _ _ Hr Hn) as Hinv.
  assert (Hinv0 : stamp_inv 0 (set_hasProgress false s))
    by (destruct Hinv; by constructor).
  destruct (beforeIssue_stamp _ _ Hinv0 H) as (Hinv3 & _ & _).
  destruct (stamp_inv_held _ _ Hinv3) as [Hnd Hrange].
  pose proof (issue_spec s3 Hnd Hrange) as Hspec.
  destruct (issueAll_frame (take (width s3) (candidates s3)) s3)
    as (_ & _ & _ & Hex).
  rewrite Hspec. split_and!.
  - done.
  - done.
  - rewrite length_take. lia.
  - intros i Hi.
    assert (Hc : i ∈ candidates s3).
    { apply elem_of_take in Hi as (j & Hj & _). by eapply list_elem_of_lookup_2. }
    apply elem_of_candidates in Hc as [Hheld Hni].
    split; [done|]. apply issueAll_issued; [done|by apply Hrange].
  - intros i Hi. by apply issueAll_other.
  - intros i Hi Hc. apply elem_of_candidates in Hc as [_ Hni]. congruence.
Qed.

Lemma issue_width_cap_witness :
  reachable cfgWidth2 progFour 3 (stateAfter 3 cfgWidth2 progFour) ∧
  (Z.of_nat 3 < 4294967296)%Z ∧
  beforeIssue (set_hasProgress false (stateAfter 3 cfgWidth2 progFour))
  = Ok demoIssue ∧
  candidates demoIssue = [0; 1] ∧
  executeStage (issue demoIssue)
  = executeStage demoIssue ++ take (width demoIssue) (candidates demoIssue).
Proof.
  assert (R : reachable cfgWidth2 progFour 3 (stateAfter 3 cfgWidth2 progFour)).
  { apply stateAfter_reachable. vm_compute. eexists. reflexivity. }
  assert (B : beforeIssue (set_hasProgress false
                (stateAfter 3 cfgWidth2 progFour)) = Ok demoIssue).
  { vm_compute. reflexivity. }
  assert (N : (Z.of_nat 3 < 4294967296)%Z) by lia.
  split; [exact R|]. split; [exact N|]. split; [exact B|].
  split; [vm_compute; reflexivity|].
  exact (proj1 (proj2 (issue_width_cap _ _ _ _ _ R N B))).
Defined.

(** C8, as the claim states it, fails: in cycle 5 of the program [load] at
    width 1 the load waits in the complete queue for its latency; the scan of
    [complete] sets the progress flag in its else-branch, and no instruction
    advances a stage in that cycle. *)
Lemma progress_flag_without_advance :
  reachable cfgWidth1 progLoad 5 (stateAfter 5 cfgWidth1 progLoad) ∧
  cycle_body (stateAfter 5 cfgWidth1 progLoad) = Ok demoWait ∧
  hasProgress demoWait = true ∧
  ¬ gained (stateAfter 5 cfgWidth1 progLoad) demoWait.
Proof.
  split_and!.
  - apply stateAfter_reachable. vm_compute. eexists. reflexivity.
  - vm_compute. reflexivity.
  - vm_compute. reflexivity.
  - apply gained_same_store. vm_compute. reflexivity.
Qed.

Lemma simulate_loop_exit fuel t t' :
  simulate_loop fuel t = Finished t' → loop_cond t' = false.
Proof.
  revert t. induction fuel as [|fuel IH]; intros t; simpl.
  - destruct (loop_cond t) eqn:E; [done|]. by intros [= <-].
  - destruct (loop_cond t) eqn:E; [|by intros [= <-]].
    destruct (cycle_body t); [apply IH|done].
Qed.

(** C8, amended. The loop of [simulate] exits exactly at a state in which
    every instruction has retired or the progress flag is clear. The flag is
    set in a cycle if and only if some instruction advanced a stage in that
    cycle or [complete] found its queue non-empty (an instruction that is
    still waiting for its latency sets the flag without advancing). *)
Theorem progress_flag_meaning c p n s s' :
  reachable c p n s → (Z.of_nat n < 4294967296)%Z →
  cycle_body s = Ok s' →
  (hasProgress s' = true ↔
   gained s s' ∨ (completeStage s ≠ [] ∧ 0 < width s)) ∧
  (loop_cond s' = false ↔ isFinished s' = true ∨ hasProgress s' = false) ∧
  (∀ fuel, loop_cond s' = false → simulate_loop fuel s' = Finished s') ∧
  (∀ fuel t, simulate_loop fuel s' = Finished t → loop_cond t = false).
Proof.
  intros Hr Hn Hb. split_and!.
  - split.
    + pose proof (reachable_stamp _ _ _ _ Hr Hn) as Hinv.
      assert (Hinv0 : stamp_inv 0 (set_hasProgress false s))
        by (destruct Hinv; by constructor).
      unfold cycle_body in Hb. inv_ok. simpl.
      apply (tick_stamp _ _ Hinv0) in Ha as (_ & _ & Hp).
      intros [Hf|[Hg|Hq]]%Hp; [done| |by right].
      left. destruct Hg as (i & st & ? & ?). by exists i, st.
    + unfold cycle_body in Hb. inv_ok. simpl.
      apply tick_quiet in Ha as [[_ Hq] Hc]. simpl in *.
      intros [Hg|[Hne Hw]]; [|by apply Hc].
      destruct (hasProgress a) eqn:E; [done|]. exfalso.
      apply (gained_same_store s a); [by apply Hq|].
      destruct Hg as (i & st & ? & ?). by exists i, st.
  - unfold loop_cond. destruct (isFinished s'), (hasProgress s'); simpl;
      naive_solver.
  - intros fuel Hc. destruct fuel; simpl; by rewrite Hc.
  - intros fuel t. apply simulate_loop_exit.
Qed.

Lemma progress_flag_meaning_witness :
  reachable cfgWidth1 progLoad 5 (stateAfter 5 cfgWidth1 progLoad) ∧
  (Z.of_nat 5 < 4294967296)%Z ∧
  cycle_body (stateAfter 5 cfgWidth1 progLoad) = Ok demoWait ∧
  (hasProgress demoWait = true ↔
   gained (stateAfter 5 cfgWidth1 progLoad) demoWait
   ∨ (completeStage (stateAfter 5 cfgWidth1 progLoad) ≠ []
      ∧ 0 < width (stateAfter 5 cfgWidth1 progLoad))).
Proof.
  assert (R : reachable cfgWidth1 progLoad 5 (stateAfter 5 cfgWidth1 progLoad)).
  { apply stateAfter_reachable. vm_compute. eexists. reflexivity. }
  assert (N : (Z.of_nat 5 < 4294967296)%Z) by lia.
  assert (B : cycle_body (stateAfter 5 cfgWidth1 progLoad) = Ok demoWait).
  { vm_compute. reflexivity. }
  split; [exact R|]. split; [exact N|]. split; [exact B|].
  exact (proj1 (progress_flag_meaning _ _ _ _ _ R N B)).
Defined.

(** C9. The renaming of [dispatch] looks the first source up in the map
    table without testing it for the "none" sentinel: on a program whose
    instruction has no first source the lookup is applied to the sentinel
    and indexes the table out of range. The second source is guarded: with
    the sentinel there no lookup happens and the instruction keeps its
    default second source register. *)
Lemma unguarded_first_source_lookup :
  simulate 10 (loadProgram cfgWidth1 progNoSource)
  = Faulted (ArchRegOutOfRange NONE) ∧
  rename 0 (stateAfter 2 cfgWidth1 progNoSource)
  = Err (ArchRegOutOfRange NONE) ∧
  ∃ s, simulate 10 (loadProgram cfgWidth1 progOneSource) = Finished s ∧
       srcPhysicalReg2 (getInst s 0) = defaultReg ∧
       retireCycle (getInst s 0) = Some 7%Z.
Proof.
  split; [vm_compute; reflexivity|]. split; [vm_compute; reflexivity|].
  eexists. split; [vm_compute; reflexivity|].
  split; vm_compute; reflexivity.
Qed.

(** C10. Completion is not bounded by the width. At width 2, in cycle 6 of
    the program [load; store; alu; alu], the complete queue holds all four
    instructions past their deadline and the two scans of [complete] mark
    three of them completed and remove them from the queue. *)
Theorem complete_exceeds_width :
  ∃ c p n s s1 s2,
    reachable c p n s ∧
    retire (release (set_hasProgress false s)) = Ok s1 ∧
    complete s1 = Ok s2 ∧
    width s1 < length (newlyCompleted s1 s2) ∧
    (∀ i, i ∈ newlyCompleted s1 s2 →
          i ∈ completeStage s1 ∧ i ∉ completeStage s2).
Proof.
  exists cfgWidth2, progFour, 6, (stateAfter 6 cfgWidth2 progFour).
  eexists _, _. split.
  { apply stateAfter_reachable. vm_compute. eexists. reflexivity. }
  split; [vm_compute; reflexivity|]. split; [vm_compute; reflexivity|].
  split; [vm_compute; lia|].
  intros i Hi. vm_compute in Hi.
  repeat (apply elem_of_cons in Hi as [->|Hi]);
    [..|by apply elem_of_nil in Hi];
    (split; [vm_compute; set_solver|vm_compute; set_solver]).
Qed.

(** * The stages as sequences of moves *)

Lemma retire_loop_steps n s s' :
  retire_loop n s = Ok s' → bsteps (step 1) n s s'.
Proof.
  revert s. induction n as [|n IH]; intros s H; simpl in H; inv_ok;
    try apply bsteps_refl.
  eapply bsteps_l; [|by apply IH].
  eapply step_retire; [done| |done].
  by destruct (hasCompleted _).
Qed.

Lemma complete_scan_steps fuel j s s' :
  complete_scan fuel j s = Ok s' → rtc (step 2) s s'.
Proof.
  revert j s. induction fuel as [|fuel IH]; intros j s H; simpl in H; inv_ok;
    try apply rtc_refl.
  - eapply rtc_l; [by eapply step_complete|by eapply IH].
  - eapply rtc_l; [by eapply step_wait|by eapply IH].
Qed.

Lemma complete_loop_steps n s s' :
  complete_loop n s = Ok s' → rtc (step 2) s s'.
Proof.
  revert s. induction n as [|n IH]; intros s H; simpl in H; inv_ok;
    try apply rtc_refl.
  etrans; [by eapply complete_scan_steps|by apply IH].
Qed.

Lemma execute_loop_steps n s s' :
  execute_loop n s = Ok s' → bsteps (step 3) n s s'.
Proof.
  revert s. induction n as [|n IH]; intros s H; simpl in H; inv_ok;
    try apply bsteps_refl.
  eapply bsteps_l; [by eapply step_execute|by apply IH].
Qed.

Lemma issue_scan_steps rs wc s ret wc' s' :
  (∀ r, r ∈ rs → r ∈ reservationStations s) →
  issue_scan rs wc s = (ret, wc', s') →
  ∃ m, bsteps (step 4) m s s' ∧ wc + m ≤ wc' ∧ (0 < m → wc + m ≤ width s) ∧
       reservationStations s' = reservationStations s ∧ width s' = width s.
Proof.
  revert wc s. induction rs as [|r rs IH]; intros wc s Hin H; simpl in H.
  - injection H as <- <- <-. exists 0. split_and!; [apply bsteps_refl|lia..|done|done].
  - assert (Hr : r ∈ reservationStations s) by (apply Hin; left).
    assert (Hrs : ∀ r0, r0 ∈ rs → r0 ∈ reservationStations s)
      by (intros; apply Hin; by right).
    destruct (issueCandidate s r) as [i|] eqn:Hc; [|by eapply IH].
    destruct (_ <? _)%nat eqn:Hw.
    + injection H as <- <- <-. exists 0.
      split_and!; [apply bsteps_refl|lia..|done|done].
    + apply Nat.ltb_ge in Hw.
      apply IH in H as (m & Hsteps & Hle & Hw' & Hst & Hwd); [|done].
      exists (S m). split_and!.
      * eapply bsteps_l; [by eapply step_issue|done].
      * lia.
      * intros _. destruct m; [lia|]. simpl in Hw'. lia.
      * by rewrite Hst.
      * by rewrite Hwd.
Qed.

Lemma issue_loop_steps n wc s :
  bsteps (step 4) (width s - wc) s (issue_loop n wc s).
Proof.
  revert wc s. induction n as [|n IH]; intros wc s; simpl;
    [apply bsteps_refl|].
  destruct (issue_scan _ _ _) as [[ret wc'] s'] eqn:E.
  apply issue_scan_steps in E as (m & Hsteps & Hle & Hw & Hst & Hwd); [|done].
  assert (Hm : m ≤ width s - wc) by (destruct m; lia).
  destruct ret.
  - by eapply bsteps_weaken.
  - apply (bsteps_weaken (m + (width s' - wc'))); [lia|].
    eapply bsteps_trans; [done|apply IH].
Qed.

Lemma dispatch_loop_steps n s s' :
  dispatch_loop n s = Ok s' → bsteps (step 5) n s s'.
Proof.
  revert s. induction n as [|n IH]; intros s H; simpl in H; inv_ok;
    try apply bsteps_refl.
  eapply bsteps_l; [|by apply IH].
  eapply step_dispatch; [done| |done| |done].
  - by destruct (hasFreeEntry _).
  - simpl in *. destruct (Z.eqb_spec (dstOp (nthInst (instructionsList s) n0)) NONE);
      [by left|right]. simpl in *. by destruct (hasRegister _).
Qed.

Lemma decode_loop_steps n s : bsteps (step 6) n s (decode_loop n s).
Proof.
  revert s. induction n as [|n IH]; intros s; simpl; [apply bsteps_refl|].
  destruct (decodeStage s) eqn:E; [apply bsteps_refl|].
  eapply bsteps_l; [by eapply step_decode|apply IH].
Qed.

Lemma fetch_loop_steps n s : bsteps (step 7) n s (fetch_loop n s).
Proof.
  revert s. induction n as [|n IH]; intros s; simpl; [apply bsteps_refl|].
  destruct (isFetching s) eqn:E; simpl; [|apply bsteps_refl].
  destruct (_ <=? _)%nat eqn:E2.
  - apply Nat.leb_le in E2. eapply bsteps_l; [by apply step_fetch_end|].
    apply bsteps_refl.
  - apply Nat.leb_gt in E2. eapply bsteps_l; [by apply step_fetch|apply IH].
Qed.

(** ** The tick as seven runs of moves *)

Lemma tick_stages s s' :
  tick s = Ok s' →
  ∃ s1 s2 s3 s4 s5 s6,
    bsteps (step 1) (width s) (release s) s1 ∧
    rtc (step 2) s1 s2 ∧
    bsteps (step 3) (width s) s2 s3 ∧
    bsteps (step 4) (width s) s3 s4 ∧
    bsteps (step 5) (width s) s4 s5 ∧
    bsteps (step 6) (width s) s5 s6 ∧
    bsteps (step 7) (width s) s6 s'.
Proof.
  unfold tick, stages_after_retire, retire, complete, execute, dispatch,
    decode, fetch.
  intros H. inv_ok.
  rename a into s1, a0 into s2, a1 into s3, a2 into s5.
  pose proof (retire_loop_base _ _ _ Ha) as [W1 _].
  pose proof (mid_frame_base _ _ (complete_loop_frame _ _ _ Ha0)) as [W2 _].
  pose proof (mid_frame_base _ _ (execute_loop_frame _ _ _ Ha1)) as [W3 _].
  pose proof (mid_frame_base _ _ (issue_frame s3)) as [W4 _].
  pose proof (dispatch_loop_base _ _ _ Ha2) as [W5 _].
  pose proof (decode_loop_base (width s5) s5) as [W6 _].
  simpl in W1.
  assert (E2 : width s2 = width s) by congruence.
  assert (E3 : width s3 = width s) by congruence.
  assert (E4 : width (issue s3) = width s) by congruence.
  assert (E5 : width s5 = width s) by congruence.
  assert (E6 : width (decode_loop (width s5) s5) = width s) by congruence.
  exists s1, s2, s3, (issue s3), s5, (decode_loop (width s5) s5).
  split_and!.
  - by apply retire_loop_steps in Ha.
  - by eapply complete_loop_steps.
  - rewrite <- E2. by apply execute_loop_steps.
  - rewrite <- E3.
    eapply bsteps_weaken; [|apply issue_loop_steps]. lia.
  - rewrite <- E4. by apply dispatch_loop_steps.
  - rewrite <- E5. apply decode_loop_steps.
  - rewrite <- E6. apply fetch_loop_steps.
Qed.

(** ** The invariants along the moves *)

Lemma stamp_inv_set_hasProgress k b s :
  stamp_inv k s → stamp_inv k (set_hasProgress b s).
Proof. intros []. by constructor. Qed.

Lemma stamp_inv_set_isFetching k b s :
  stamp_inv k s → stamp_inv k (set_isFetching b s).
Proof. intros []. by constructor. Qed.

Lemma step_cycle k s s' : step k s s' → cycle s' = cycle s.
Proof.
  intros Hstep. destruct Hstep.
  - unfold retire_one in *. simpl in *. inv_ok; simpl; known_ifs; done.
  - by destruct (complete_one_frame _ _ _ _ H1).
  - done.
  - by destruct (execute_one_frame _ _ _ _ H0).
  - done.
  - inv_dispatch H3; done.
  - done.
  - unfold fetch_one. simpl. by case_match.
  - done.
Qed.

Lemma step_kernel c k s s' :
  step k s s' → kernel_inv c k s → kernel_inv c k s'.
Proof.
  intros Hstep (Hst & Hord & Hreg & Hcy).
  pose proof (step_cycle _ _ _ Hstep) as Hc.
  split; [|split; [|split; [|by rewrite Hc]]]; destruct Hstep.
  - by eapply retire_one_stamp.
  - by eapply complete_one_stamp.
  - by apply stamp_inv_set_hasProgress.
  - by eapply execute_one_stamp.
  - by eapply issue_one_stamp.
  - by eapply dispatch_one_stamp.
  - by eapply decode_one_stamp.
  - by eapply fetch_one_stamp.
  - by apply stamp_inv_set_isFetching.
  - by eapply retire_one_ord.
  - eapply mid_frame_ord; [by eapply complete_one_frame|done].
  - done.
  - eapply mid_frame_ord; [by eapply execute_one_frame|done].
  - eapply mid_frame_ord; [by eapply issue_one_frame|done].
  - by eapply dispatch_one_ord.
  - by eapply decode_one_ord.
  - by eapply fetch_one_ord.
  - done.
  - destruct (getHead_Some _ _ H) as [es Hq]. by eapply retire_one_reg_inv.
  - eapply reg_same_inv; [|done]. by destruct (complete_one_frame _ _ _ _ H1).
  - done.
  - eapply reg_same_inv; [|done]. by destruct (execute_one_frame _ _ _ _ H0).
  - eapply reg_same_inv; [|done]. by destruct (issue_one_frame i s).
  - by eapply dispatch_one_regs.
  - eapply reg_same_inv; [|done].
    unfold decode_one. constructor; simpl; intros; pres; done.
  - eapply reg_same_inv; [|done].
    unfold fetch_one. simpl. case_match; constructor; simpl; intros; pres; done.
  - done.
Qed.

Lemma kernel_inv_weaken c k k' s :
  k ≤ k' → kernel_inv c k s → kernel_inv c k' s.
Proof.
  intros Hle (? & ? & ? & ?).
  split; [by eapply stamp_inv_weaken|done].
Qed.

Lemma rtc_step_inv c k (N : CPU → Prop) :
  (∀ s s', step k s s' → kernel_inv c k s → N s → N s') →
  ∀ s s', rtc (step k) s s' → kernel_inv c k s → N s →
          kernel_inv c k s' ∧ N s'.
Proof.
  intros Hs s s' Hrtc. induction Hrtc as [|s s1 s2 H1 _ IH]; [done|].
  intros HK HN. apply IH; [by eapply step_kernel|by eapply Hs].
Qed.

(** An invariant kept by every move is kept by the tick. *)
Lemma tick_inv c (N : CPU → Prop) :
  (∀ k s s', step k s s' → kernel_inv c k s → N s → N s') →
  ∀ s s', tick s = Ok s' → kernel_inv c 0 s → N (release s) →
          kernel_inv c 7 s' ∧ N s'.
Proof.
  intros Hs s s' Ht (Hst & Hord & Hreg & Hcy) HN.
  apply tick_stages in Ht as (s1 & s2 & s3 & s4 & s5 & s6 & T1 & T2 & T3
                               & T4 & T5 & T6 & T7).
  assert (K0 : kernel_inv c 1 (release s)).
  { split; [|split; [by apply release_ord|split; [by apply release_regs|done]]].
    eapply stamp_inv_weaken; [|by apply release_stamp]. lia. }
  apply rtc_bsteps_2 in T1, T3, T4, T5, T6, T7.
  destruct (rtc_step_inv c 1 N (Hs 1) _ _ T1 K0 HN) as [K1 N1].
  apply (kernel_inv_weaken c 1 2) in K1; [|lia].
  destruct (rtc_step_inv c 2 N (Hs 2) _ _ T2 K1 N1) as [K2 N2].
  apply (kernel_inv_weaken c 2 3) in K2; [|lia].
  destruct (rtc_step_inv c 3 N (Hs 3) _ _ T3 K2 N2) as [K3 N3].
  apply (kernel_inv_weaken c 3 4) in K3; [|lia].
  destruct (rtc_step_inv c 4 N (Hs 4) _ _ T4 K3 N3) as [K4 N4].
  apply (kernel_inv_weaken c 4 5) in K4; [|lia].
  destruct (rtc_step_inv c 5 N (Hs 5) _ _ T5 K4 N4) as [K5 N5].
  apply (kernel_inv_weaken c 5 6) in K5; [|lia].
  destruct (rtc_step_inv c 6 N (Hs 6) _ _ T6 K5 N5) as [K6 N6].
  apply (kernel_inv_weaken c 6 7) in K6; [|lia].
  by destruct (rtc_step_inv c 7 N (Hs 7) _ _ T7 K6 N6) as [K7 N7].
Qed.

Lemma reachable_kernel c p n s :
  reachable c p n s → (Z.of_nat n < 4294967295)%Z → kernel_inv c 0 s.
Proof.
  intros Hr Hn. split; [|split; [|split]].
  - eapply reachable_stamp; [done|lia].
  - eapply reachable_ord; [done|lia].
  - by eapply reachable_regs.
  - rewrite (reachable_cycle _ _ _ _ Hr); lia.
Qed.

Lemma kernel_inv_set_hasProgress c k b s :
  kernel_inv c k s → kernel_inv c k (set_hasProgress b s).
Proof.
  intros (? & ? & ? & ?).
  split; [by apply stamp_inv_set_hasProgress|done].
Qed.

(** An invariant with a form [Nb] between the cycles and a form [Nm] inside
    the tick holds in every reachable state. *)
Lemma reachable_inv c p (Nb Nm : CPU → Prop) :
  Nb (start c p) →
  (∀ s, kernel_inv c 0 s → Nb s → Nm (release (set_hasProgress false s))) →
  (∀ k s s', step k s s' → kernel_inv c k s → Nm s → Nm s') →
  (∀ s, kernel_inv c 7 s → Nm s → Nb (set_cycle (cycle s + 1) s)) →
  ∀ n s, reachable c p n s → (Z.of_nat n < 4294967296)%Z → Nb s.
Proof.
  intros H0 Hin Hs Hout n s Hr. induction Hr as [|n s s' Hr IH Hc Hb]; [done|].
  intros Hn. assert (Hn' : (Z.of_nat n < 4294967295)%Z) by lia.
  specialize (IH ltac:(lia)).
  pose proof (reachable_kernel _ _ _ _ Hr Hn') as HK.
  pose proof (reachable_cycle _ _ _ _ Hr ltac:(lia)) as Hcy.
  unfold cycle_body in Hb. inv_ok. rename a into t.
  pose proof (tick_base _ _ Ha) as [_ Hct]. simpl in Hct.
  apply (tick_inv c Nm Hs) in Ha as [K7 N7].
  - rewrite wrap32_small by lia. by apply Hout.
  - by apply kernel_inv_set_hasProgress.
  - by apply Hin.
Qed.

Lemma step_stable c k s s' : step k s s' → kernel_inv c k s → stable s s'.
Proof.
  intros Hstep (Hst & _). destruct Hstep.
  - by eapply retire_one_stamp.
  - by eapply complete_one_stamp.
  - by intros ? ? ?.
  - by eapply execute_one_stamp.
  - by eapply issue_one_stamp.
  - by eapply dispatch_one_stamp.
  - by eapply decode_one_stamp.
  - by eapply fetch_one_stamp.
  - by intros ? ? ?.
Qed.

(** * The effect of a move on the store *)

Lemma nthInst_alter_cases f i l j :
  nthInst (alter f i l) j = nthInst l j ∨
  (j = i ∧ is_Some (l !! i) ∧ nthInst (alter f i l) j = f (nthInst l i)).
Proof.
  destruct (decide (j = i)) as [->|Hne].
  - destruct (l !! i) eqn:E.
    + right. split_and!; [done|done|]. apply nthInst_alter_eq. by rewrite E.
    + left. unfold nthInst. rewrite list_lookup_alter, decide_True, E by done.
      done.
  - left. by apply nthInst_alter_ne.
Qed.

Lemma touch_alter st c f i l l0 j st' :
  (∀ x st'', st'' ≠ st → stamp st'' (f x) = stamp st'' x) →
  (∀ x, stamp st (f x) = Some c) →
  (∀ j st', stamp st' (nthInst l j) = stamp st' (nthInst l0 j)) →
  stamp st' (nthInst (alter f i l) j) = stamp st' (nthInst l0 j) ∨
  (j = i ∧ st' = st ∧ stamp st' (nthInst (alter f i l) j) = Some c).
Proof.
  intros Hother Hst Hl.
  destruct (nthInst_alter_cases f i l j) as [->|(-> & _ & ->)]; [by left|].
  destruct (decide (st' = st)) as [->|Hne].
  - right. by rewrite Hst.
  - left. by rewrite Hother.
Qed.

Ltac touch_tac :=
  intros ? ?; simpl; known_ifs; simpl; pres; apply touch_alter;
  [ by intros [] []; simpl; intros; congruence
  | by intros []
  | intros; pres; done ].

Lemma step_moves k s s' :
  step k s s' →
  (∀ j st, stamp st (getInst s' j) = stamp st (getInst s j)) ∨
  ∃ i, moves k s i ∧ touches (stageAt k) i s s'.
Proof.
  intros Hstep. destruct Hstep; simpl.
  - right. exists (robInst e). split; [by exists e|].
    unfold retire_one, setMapping in *. simpl in *.
    inv_ok; touch_tac.
  - right. exists i. split; [split; [by eapply list_elem_of_lookup_2|done]|].
    unfold complete_one, setReadyBit in *. rewrite broadcast_eq in *.
    simpl in *. inv_ok; touch_tac.
  - by left.
  - right. exists i. split; [by rewrite H|].
    unfold execute_one in *. simpl in *. inv_ok. touch_tac.
  - right. exists i. split.
    + unfold candidates. apply list_elem_of_omap. by exists r.
    + unfold issue_one. touch_tac.
  - right. exists i. split; [by rewrite H|]. inv_dispatch H3; touch_tac.
  - right. exists i. split; [by rewrite H|]. unfold decode_one. touch_tac.
  - right. exists (fetchPtr s). split; [done|].
    unfold fetch_one. simpl. case_match; touch_tac.
  - by left.
Qed.

Lemma step_touches k s s' :
  step k s s' → ∃ i, touches (stageAt k) i s s'.
Proof.
  intros [H|(i & _ & H)]%step_moves; [|by exists i].
  exists 0. intros j st. by left.
Qed.

Lemma step_length k s s' :
  step k s s' → length (instructionsList s') = length (instructionsList s).
Proof.
  intros Hstep. destruct Hstep; simpl.
  - unfold retire_one, setMapping in *. simpl in *.
    inv_ok; simpl; known_ifs; simpl; by rewrite ?length_alter.
  - unfold complete_one, setReadyBit in *. rewrite broadcast_eq in *.
    simpl in *.
    assert (L : ∀ r rs l, length (broadcastList r rs l) = length l).
    { intros r rs. induction rs as [|st rs IH]; intros l; simpl; [done|].
      unfold broadcastList in *. simpl. rewrite IH.
      destruct (rsInst st); by rewrite ?length_alter. }
    inv_ok; simpl; by rewrite ?length_alter, L.
  - done.
  - unfold execute_one in *. simpl in *. inv_ok. simpl.
    by rewrite ?length_alter.
  - unfold issue_one. simpl. by rewrite ?length_alter.
  - inv_dispatch H3; by rewrite ?length_alter.
  - unfold decode_one. simpl. by rewrite ?length_alter.
  - unfold fetch_one. simpl. case_match; simpl; by rewrite ?length_alter.
  - done.
Qed.

Lemma pointwise_alter (P : Instruction → Prop) f i l j :
  P (nthInst l j) →
  (is_Some (l !! i) → P (nthInst l i) → P (f (nthInst l i))) →
  P (nthInst (alter f i l) j).
Proof.
  intros Hj Hf.
  destruct (nthInst_alter_cases f i l j) as [->|(-> & Hi & ->)]; auto.
Qed.

Lemma stations_latency s r :
  (λ r, (rsType r, rsExecTime r)) <$> reservationStations s
    = [ (RSType_ALU, 1%Z); (RSType_ALU, 1%Z);
        (RSType_LOAD, 2%Z); (RSType_STORE, 2%Z) ] →
  r ∈ reservationStations s → rsExecTime r = latency (rsType r).
Proof.
  intros Hst Hr.
  assert (H : (rsType r, rsExecTime r) ∈
              (λ r, (rsType r, rsExecTime r)) <$> reservationStations s).
  { by apply (list_elem_of_fmap_2 (λ r, (rsType r, rsExecTime r))). }
  rewrite Hst in H.
  repeat (apply elem_of_cons in H as [H|H]; [by injection H as -> ->|]).
  by apply elem_of_nil in H.
Qed.

Lemma findRSOfType_Some t j rs k :
  findRSOfType t j rs = Some k →
  ∃ r, rs !! (k - j) = Some r ∧ rsType r = t ∧ j ≤ k.
Proof.
  revert j. induction rs as [|r rs IH]; intros j H; simpl in H; [done|].
  case_bool_decide as E.
  - injection H as <-. exists r. by rewrite Nat.sub_diag.
  - apply IH in H as (r' & Hl & Ht & Hle). exists r'.
    replace (k - j) with (S (k - S j)) by lia. split_and!; [done|done|lia].
Qed.


Lemma broadcastList_length r rs l :
  length (broadcastList r rs l) = length l.
Proof.
  revert l. induction rs as [|st rs IH]; intros l; simpl; [done|].
  unfold broadcastList in *. simpl. rewrite IH.
  destruct (rsInst st); by rewrite ?length_alter.
Qed.

Lemma fmap_alter_same {A B} (f : A → B) (g : A → A) i (l : list A) :
  (∀ x, f (g x) = f x) → f <$> alter g i l = f <$> l.
Proof.
  intros Hfg. revert i. induction l as [|x l IH]; intros [|i]; simpl; [done..| |].
  - by rewrite Hfg.
  - f_equal. apply IH.
Qed.

Ltac shape_fields :=
  constructor; simpl;
  rewrite ?length_alter, ?length_insert, ?broadcastList_length; try done;
  try (intros; pres; auto; fail).

Lemma step_shape c p k s s' :
  step k s s' → kernel_inv c k s → shape_inv c p s → shape_inv c p s'.
Proof.
  intros Hstep (Hst & Hord & Hreg & Hcy) Hsh.
  destruct Hsh as [Hlen Hops Hsta Hwid Hcap Hrob Hmap Harch Hdisp Hexec Hfet
                   Hiss Hcom Hret].
  destruct Hstep.
  - (* retire *)
    destruct (getHead_Some _ _ H) as [es Hq].
    assert (G : ∀ i,
      hasRetired (nthInst (alter (setRetireCycle (cycle s)) (robInst e)
                                 (instructionsList s)) i) = true
      ↔ is_Some (retireCycle (nthInst (alter (setRetireCycle (cycle s))
                                 (robInst e) (instructionsList s)) i))).
    { intros i.
      apply (pointwise_alter (λ x, hasRetired x = true ↔ is_Some (retireCycle x)));
        [apply Hret|]. intros _ _. simpl. split; eauto. }
    unfold retire_one, setMapping in *. simpl in *.
    inv_ok; simpl; known_ifs; simpl; shape_fields;
      rewrite Hq in *; simpl in *; lia.
  - (* complete *)
    unfold complete_one, setReadyBit in *. rewrite broadcast_eq in *.
    simpl in *.
    assert (G : ∀ l i0,
      (∀ j, hasCompleted (nthInst l j) = true ↔ is_Some (completeCycle (nthInst l j))) →
      hasCompleted (nthInst (alter (setCompleteCycle (cycle s)) i l) i0) = true
      ↔ is_Some (completeCycle (nthInst (alter (setCompleteCycle (cycle s)) i l) i0))).
    { intros l i0 Hl.
      apply (pointwise_alter (λ x, hasCompleted x = true ↔ is_Some (completeCycle x)));
        [apply Hl|]. intros _ _. simpl. split; eauto. }
    inv_ok; shape_fields; intros; apply G; intros; pres; apply Hcom.
  - (* wait *)
    by constructor.
  - (* execute *)
    unfold execute_one in *. simpl in *. inv_ok. pres.
    destruct (findRSOfType _ _ _) as [k|] eqn:Ek; [|done]. simpl in *.
    apply findRSOfType_Some in Ek as (r0 & Hr0 & Ht & _).
    rewrite Nat.sub_0_r in Hr0. simplify_eq.
    shape_fields.
    + by rewrite fmap_alter_same.
    + intros j. rewrite alter_alter.
      apply (pointwise_alter (λ x, is_Some (executeCycle x) →
                                   execTime x = latency (instType x)));
        [apply Hexec|]. intros _ _ _. simpl.
      unfold getReservationStation in Ht. rewrite <- Ht. apply (stations_latency s); [done|].
      by eapply list_elem_of_lookup_2.
  - (* issue *)
    unfold issue_one. simpl in *. shape_fields. intros j.
    apply (pointwise_alter (λ x, hasIssued x = true ↔ is_Some (issueCycle x)));
      [apply Hiss|]. intros _ _. simpl. split; eauto.
  - (* dispatch *)
    unfold hasFreeEntry in H0. apply Nat.ltb_lt in H0. simpl in *.
    destruct Hmap as [Hm1 Hm2].
    inv_dispatch H3; shape_fields;
      try (by rewrite fmap_alter_same);
      try (rewrite length_app; simpl; lia).
    all: intros i0; rewrite !alter_alter;
      apply (pointwise_alter (λ x, is_Some (dispatchCycle x) →
               is_Some (allocatedRs x) ∧
               (dstOp x ≠ NONE →
                (0 ≤ dstOp x < Z.of_nat (numArchRegs c))%Z ∧
                (0 ≤ regNum (dstPhysicalReg x) < Z.of_nat (physCount c))%Z)));
      [apply Hdisp|]; intros _ _ _; simpl; (split; [eauto|]); intros Hd;
      repeat match goal with
             | H : zlookup _ _ = Some _ |- _ =>
                 apply zlookup_Some in H as [? ?%lookup_lt_Some]
             | H : negb (_ =? _)%Z = false |- _ =>
                 apply negb_false_iff, Z.eqb_eq in H
             end; try done; lia.
  - (* decode *)
    unfold decode_one. simpl in *. shape_fields.
  - (* fetch *)
    unfold fetch_one. simpl in *. case_match eqn:E; shape_fields.
    intros _. apply Nat.leb_le in E. by rewrite length_alter in E.
  - (* fetch end *)
    by constructor.
Qed.

Lemma start_shape c p : shape_inv c p (start c p).
Proof.
  unfold start. rewrite loadProgram_eq.
  constructor; simpl; try done.
  - by rewrite length_fmap.
  - intros i l Hl. unfold nthInst. rewrite list_lookup_fmap.
    unfold ProgramLine in *. rewrite Hl. simpl.
    by destruct l as [[[t s1] s2] d].
  - lia.
  - by rewrite length_seqZ, length_replicate, Nat2Z.id.
  - by rewrite length_seqZ, length_replicate, Nat2Z.id.
  - intros i [a Ha]. pose proof (nthInst_fresh p i Dispatch) as Hn.
    simpl in Hn. congruence.
  - intros i [a Ha]. pose proof (nthInst_fresh p i Execute) as Hn.
    simpl in Hn. congruence.
  - intros i. destruct (nthInst_fresh_eq p i) as (t & s1 & s2 & d & ->).
    simpl. split; [done|by intros []].
  - intros i. destruct (nthInst_fresh_eq p i) as (t & s1 & s2 & d & ->).
    simpl. split; [done|by intros []].
  - intros i. destruct (nthInst_fresh_eq p i) as (t & s1 & s2 & d & ->).
    simpl. split; [done|by intros []].
Qed.

Lemma shape_inv_entry c p s :
  shape_inv c p s → shape_inv c p (release (set_hasProgress false s)).
Proof. intros []. by constructor. Qed.

Lemma shape_inv_bump c p z s :
  shape_inv c p s → shape_inv c p (set_cycle z s).
Proof. intros []. by constructor. Qed.

Lemma reachable_shape c p n s :
  reachable c p n s → (Z.of_nat n < 4294967296)%Z → shape_inv c p s.
Proof.
  apply (reachable_inv c p (shape_inv c p) (shape_inv c p)).
  - apply start_shape.
  - intros ? _. apply shape_inv_entry.
  - intros k t t'. apply step_shape.
  - intros ? _. apply shape_inv_bump.
Qed.

(** ** The range of the timestamps *)

Lemma step_stamps_upto k s s' :
  step k s s' → (0 ≤ cycle s)%Z → stamps_upto s → stamps_upto s'.
Proof.
  intros Hstep Hc Hs i st a Ha.
  rewrite (step_cycle _ _ _ Hstep).
  destruct (step_touches _ _ _ Hstep) as [i0 Ht].
  destruct (Ht i st) as [E|(_ & _ & E)]; rewrite E in Ha.
  - by eapply Hs.
  - injection Ha as <-. lia.
Qed.

Lemma reachable_stamps_below c p n s :
  reachable c p n s → (Z.of_nat n < 4294967296)%Z → stamps_below s.
Proof.
  apply (reachable_inv c p stamps_below stamps_upto).
  - intros i st a Ha. unfold start in Ha. rewrite loadProgram_eq in Ha.
    simpl in Ha. by rewrite nthInst_fresh in Ha.
  - intros t _ Hb i st a Ha. apply Hb in Ha. simpl. lia.
  - intros k t t' Hstep (_ & _ & _ & Hcy).
    apply (step_stamps_upto k); [done|lia].
  - intros t _ Hm i st a Ha. apply Hm in Ha. simpl. lia.
Qed.

(** ** The operands never change *)

Lemma step_operands k s s' :
  step k s s' → ∀ j, operands (getInst s' j) = operands (getInst s j).
Proof.
  intros Hstep j. destruct Hstep; simpl.
  - unfold retire_one, setMapping in *. simpl in *.
    inv_ok; simpl; known_ifs; simpl; by pres.
  - unfold complete_one, setReadyBit in *. rewrite broadcast_eq in *.
    simpl in *. inv_ok; simpl; by pres.
  - done.
  - unfold execute_one in *. simpl in *. inv_ok. simpl. by pres.
  - unfold issue_one. simpl. by pres.
  - inv_dispatch H3; by pres.
  - unfold decode_one. simpl. by pres.
  - unfold fetch_one. simpl. case_match; simpl; by pres.
  - done.
Qed.

(** The invariants of the simulation together with the shape of the state
    and the range of the timestamps. *)
Lemma reachable_inv2 c p (Nb Nm : CPU → Prop) :
  Nb (start c p) →
  (∀ s, kernel_inv c 0 s → shape_inv c p s → stamps_below s → Nb s →
        Nm (release (set_hasProgress false s))) →
  (∀ k s s', step k s s' → kernel_inv c k s → shape_inv c p s →
             stamps_upto s → Nm s → Nm s') →
  (∀ s, kernel_inv c 7 s → shape_inv c p s → stamps_upto s → Nm s →
        Nb (set_cycle (cycle s + 1) s)) →
  ∀ n s, reachable c p n s → (Z.of_nat n < 4294967296)%Z → Nb s.
Proof.
  intros H0 Hin Hs Hout n s Hr Hn.
  cut (shape_inv c p s ∧ stamps_below s ∧ Nb s); [tauto|].
  revert n s Hr Hn.
  apply (reachable_inv c p
           (λ s, shape_inv c p s ∧ stamps_below s ∧ Nb s)
           (λ s, shape_inv c p s ∧ stamps_upto s ∧ Nm s)).
  - split_and!; [apply start_shape| |done].
    intros i st a Ha. unfold start in Ha. rewrite loadProgram_eq in Ha.
    simpl in Ha. by rewrite nthInst_fresh in Ha.
  - intros s HK (Hsh & Hb & HN). split_and!.
    + by apply shape_inv_entry.
    + intros i st a Ha. apply Hb in Ha. simpl. lia.
    + by apply Hin.
  - intros k s s' Hstep HK (Hsh & Hu & HN). split_and!.
    + by eapply step_shape.
    + destruct HK as (_ & _ & _ & Hcy).
      apply (step_stamps_upto k s); [done|lia|done].
    + by eapply Hs.
  - intros s HK (Hsh & Hu & HN). split_and!.
    + by apply shape_inv_bump.
    + intros i st a Ha. apply Hu in Ha. simpl. lia.
    + by apply Hout.
Qed.

(** * Latency *)

Lemma latency_range t : (1 ≤ latency t ≤ 2)%Z.
Proof. destruct t; simpl; lia. Qed.

Lemma step_lat c p k s s' :
  step k s s' → kernel_inv c k s → shape_inv c p s → stamps_upto s →
  lat_inv s → lat_inv s'.
Proof.
  intros Hstep HK Hsh Hup Hlat i0 u Hu.
  pose proof (step_stable c _ _ _ Hstep HK) as Hstab.
  pose proof (step_operands _ _ _ Hstep i0) as Hop.
  assert (Hty : instType (getInst s' i0) = instType (getInst s i0)).
  { unfold operands in Hop. congruence. }
  assert (Hold : completeCycle (getInst s i0) = Some u →
                 ∃ e, executeCycle (getInst s' i0) = Some e ∧
                      (e + latency (instType (getInst s' i0)) ≤ u)%Z).
  { intros Hu0. destruct (Hlat _ _ Hu0) as (e & He & Hle).
    exists e. split; [by apply (Hstab i0 Execute)|by rewrite Hty]. }
  destruct (step_moves _ _ _ Hstep) as [Hsame|(i & Hmv & Ht)].
  { apply Hold. specialize (Hsame i0 Complete). simpl in *. congruence. }
  destruct (Ht i0 Complete) as [E|(-> & HC & E)].
  { apply Hold. simpl in *. congruence. }
  destruct HK as (Hst & _ & _ & Hcy).
  destruct k as [|[|[|[|[|[|[|k]]]]]]]; simpl in HC; try done.
  destruct Hmv as [Hin Hdl].
  destruct (si_complete _ _ Hst i Hin) as (_ & a & Ha & Hlt).
  unfold lim in Hlt. simpl in Hlt.
  pose proof (Hup i Execute a Ha) as Hr.
  pose proof (sh_exec _ _ _ Hsh i ltac:(by rewrite Ha)) as Hex.
  pose proof (latency_range (instType (getInst s i))) as HL.
  unfold deadlineReached, getExecuteCycle in Hdl. rewrite Ha, Hex in Hdl.
  rewrite wrap32_small in Hdl by lia. apply Z.leb_le in Hdl.
  simpl in E, Hu. rewrite E in Hu. injection Hu as <-.
  exists a. split; [by apply (Hstab i Execute)|]. rewrite Hty. lia.
Qed.

Lemma reachable_lat c p n s :
  reachable c p n s → (Z.of_nat n < 4294967296)%Z → lat_inv s.
Proof.
  apply (reachable_inv2 c p lat_inv lat_inv).
  - intros i u Hu. unfold start in Hu. rewrite loadProgram_eq in Hu.
    simpl in Hu. pose proof (nthInst_fresh p i Complete) as Hn.
    simpl in Hn. congruence.
  - done.
  - intros k t t'. apply step_lat.
  - done.
Qed.

(** * Faults *)

Lemma bind_Err {A B} (m : result A) (f : A → result B) e :
  m ≫= f = Err e → m = Err e ∨ ∃ a, m = Ok a ∧ f a = Err e.
Proof. destruct m as [a|e']; simpl; [eauto|intros [= ->]; by left]. Qed.

Lemma zlookup_is_Some {A} (l : list A) (i : Z) :
  (0 ≤ i < Z.of_nat (length l))%Z → is_Some (zlookup l i).
Proof.
  intros Hi. unfold zlookup.
  destruct (Z.leb_spec 0 i), (Z.ltb_spec i (Z.of_nat (length l))); try lia.
  simpl. apply lookup_lt_is_Some. lia.
Qed.

Lemma zlookup_None {A} (l : list A) (i : Z) :
  zlookup l i = None → ¬ (0 ≤ i < Z.of_nat (length l))%Z.
Proof.
  intros Hn Hi. apply zlookup_is_Some in Hi as [x Hx]. congruence.
Qed.

Lemma step_good c p k s s' : step k s s' → good c p k s → good c p k s'.
Proof.
  intros Hstep [HK Hsh]. split; [by eapply step_kernel|by eapply step_shape].
Qed.

Lemma good_weaken c p k k' s : k ≤ k' → good c p k s → good c p k' s.
Proof. intros Hle [HK Hsh]. split; [by eapply kernel_inv_weaken|done]. Qed.

Lemma bsteps_good c p k n s s' :
  bsteps (step k) n s s' → good c p k s → good c p k s'.
Proof.
  induction 1 as [|n s s1 s2 H1 _ IH]; [done|].
  intros HG. apply IH. by eapply step_good.
Qed.

Lemma rtc_good c p k s s' :
  rtc (step k) s s' → good c p k s → good c p k s'.
Proof.
  induction 1 as [|s s1 s2 H1 _ IH]; [done|].
  intros HG. apply IH. by eapply step_good.
Qed.

(** The registers of the speculative map table and of the free list are
    registers of the machine. *)
Lemma mapping_in_range c s a r :
  reg_inv (allRegs c) s → mapping (mapTable s) !! a = Some r →
  (0 ≤ r < Z.of_nat (physCount c))%Z.
Proof.
  intros Hreg Hl. apply list_elem_of_lookup_2 in Hl.
  assert (Hin : r ∈ regs s).
  { unfold regs. rewrite !elem_of_app. auto. }
  unfold reg_inv in Hreg. rewrite Hreg in Hin. unfold allRegs in Hin.
  apply elem_of_seqZ in Hin. unfold physCount. lia.
Qed.

Lemma retire_one_ok c p s e :
  good c p 1 s → getHead (rob s) = Some e → ∃ s', retire_one e s = Ok s'.
Proof.
  intros [(Hst & _) Hsh] He.
  destruct (getHead_Some _ _ He) as [es Hq].
  destruct (si_rob _ _ Hst (robInst e)) as (_ & Hd & _).
  { unfold robIds. rewrite Hq. simpl. left. }
  destruct (sh_disp _ _ _ Hsh _ Hd) as [_ Hr].
  destruct (sh_arch _ _ _ Hsh) as [Ha1 Ha2].
  unfold retire_one, setMapping. simpl in *.
  destruct (Z.eqb_spec (dstOp (nthInst (instructionsList s) (robInst e))) NONE)
    as [E|E]; simpl; [eauto|].
  destruct (Hr E) as [R1 R2].
  destruct (zlookup_is_Some (mapping (archMappingTable s)) _ ltac:(by rewrite Ha1))
    as [x ->].
  destruct (zlookup_is_Some (readyBits (archMappingTable s)) _ ltac:(by rewrite Ha2))
    as [y ->].
  simpl. eauto.
Qed.

Lemma retire_loop_ok c p n s :
  good c p 1 s → ∃ s', retire_loop n s = Ok s'.
Proof.
  revert s. induction n as [|n IH]; intros s HG; simpl; [eauto|].
  destruct (getHead (rob s)) as [e|] eqn:He; [|eauto].
  destruct (hasCompleted _) eqn:Hc; simpl; [|eauto].
  destruct (retire_one_ok c p s e HG He) as [s1 H1]. rewrite H1. simpl.
  apply IH. eapply step_good; [|done]. by eapply step_retire.
Qed.

Lemma complete_one_ok c p s i j :
  good c p 2 s → completeStage s !! j = Some i →
  ∃ s', complete_one i j s = Ok s'.
Proof.
  intros [(Hst & _) Hsh] Hj.
  destruct (si_complete _ _ Hst i) as (_ & a & Ha & _);
    [by eapply list_elem_of_lookup_2|].
  destruct (chain_ordered _ Dispatch Execute a (si_chain _ _ Hst i))
    as (b & Hb & _); [simpl; lia|done|].
  simpl in Hb.
  destruct (sh_disp _ _ _ Hsh i) as [_ Hr]; [simpl; by rewrite Hb|].
  destruct (sh_map _ _ _ Hsh) as [_ Hm2].
  unfold complete_one, setReadyBit. rewrite broadcast_eq. simpl in *. pres.
  destruct (Z.eqb_spec (dstOp (nthInst (instructionsList s) i)) NONE)
    as [E|E]; simpl; [eauto|].
  destruct (Hr E) as [_ R2].
  destruct (zlookup_is_Some (readyBits (mapTable s)) _ ltac:(by rewrite Hm2))
    as [y ->].
  simpl. eauto.
Qed.

Lemma complete_scan_ok c p fuel j s :
  good c p 2 s → ∃ s', complete_scan fuel j s = Ok s'.
Proof.
  revert j s. induction fuel as [|fuel IH]; intros j s HG; simpl; [eauto|].
  destruct (completeStage s !! j) as [i|] eqn:Hj; [|eauto].
  destruct (deadlineReached s i) eqn:Hd.
  - destruct (complete_one_ok c p s i j HG Hj) as [s1 H1]. rewrite H1. simpl.
    apply IH. eapply step_good; [|done]. by eapply step_complete.
  - apply IH. eapply step_good; [|done]. by eapply step_wait.
Qed.

Lemma complete_loop_ok c p n s :
  good c p 2 s → ∃ s', complete_loop n s = Ok s'.
Proof.
  revert s. induction n as [|n IH]; intros s HG; simpl; [eauto|].
  destruct (completeStage s) eqn:Hq; [eauto|]. rewrite <- Hq.
  destruct (complete_scan_ok c p (length (completeStage s)) 0 s HG) as [s1 H1].
  rewrite H1. simpl. apply IH.
  eapply rtc_good; [|done]. by eapply complete_scan_steps.
Qed.

Lemma findRSOfType_total s t :
  (λ r, (rsType r, rsExecTime r)) <$> reservationStations s
    = [ (RSType_ALU, 1%Z); (RSType_ALU, 1%Z);
        (RSType_LOAD, 2%Z); (RSType_STORE, 2%Z) ] →
  is_Some (findRSOfType t 0 (reservationStations s) ≫=
           (reservationStations s !!.)).
Proof.
  intros Hst.
  destruct (reservationStations s) as [|r0 [|r1 [|r2 [|r3 [|]]]]];
    simplify_eq/=.
  repeat match goal with
         | H : rsType ?r = _ |- _ => rewrite H
         end.
  destruct t; simpl; eauto.
Qed.

Lemma execute_one_ok c p s i rest :
  good c p 3 s → executeStage s = i :: rest →
  ∃ s', execute_one i rest (completeStage s ++ [i]) s = Ok s'.
Proof.
  intros [(Hst & _) Hsh] Hq.
  destruct (si_execute _ _ Hst i) as (_ & a & Ha & _); [rewrite Hq; left|].
  destruct (chain_ordered _ Dispatch Issue a (si_chain _ _ Hst i))
    as (b & Hb & _); [simpl; lia|done|].
  simpl in Hb.
  destruct (sh_disp _ _ _ Hsh i) as [[k Hk] _]; [simpl; by rewrite Hb|].
  unfold execute_one. simpl in *. pres.
  destruct (findRSOfType_total s
              (getReservationStation (nthInst (instructionsList s) i))
              (sh_stations _ _ _ Hsh)) as [r ->].
  pres. rewrite Hk. eauto.
Qed.

Lemma execute_loop_ok c p n s :
  good c p 3 s → ∃ s', execute_loop n s = Ok s'.
Proof.
  revert s. induction n as [|n IH]; intros s HG; simpl; [eauto|].
  destruct (executeStage s) as [|i rest] eqn:Hq; [eauto|].
  destruct (execute_one_ok c p s i rest HG Hq) as [s1 H1]. rewrite H1. simpl.
  apply IH. eapply step_good; [|done]. by eapply step_execute.
Qed.

Lemma getMapping_cases (m : MapTable) (A M : nat) (a : Z) :
  length (mapping m) = A → length (readyBits m) = M →
  (∀ j r, mapping m !! j = Some r → (0 ≤ r < Z.of_nat M)%Z) →
  ((0 ≤ a < Z.of_nat A)%Z ∧
   ∃ r b, getMapping m a = Ok (mkPR r b) ∧ zlookup (mapping m) a = Some r) ∨
  (¬ (0 ≤ a < Z.of_nat A)%Z ∧ getMapping m a = Err (ArchRegOutOfRange a)).
Proof.
  intros HA HM Hr. unfold getMapping.
  destruct (zlookup (mapping m) a) as [r|] eqn:E.
  - left. apply zlookup_Some in E as HE. destruct HE as [H0 Hl].
    pose proof (lookup_lt_Some _ _ _ Hl). split; [lia|].
    destruct (zlookup_is_Some (readyBits m) r) as [b Hb].
    { rewrite HM. by eapply Hr. }
    rewrite Hb. eauto.
  - right. split; [|done]. rewrite <- HA. by apply zlookup_None.
Qed.

Lemma dispatch_one_result c p s i rest k :
  good c p 5 s → dispatchStage s = i :: rest →
  (dstOp (getInst s i) = NONE ∨ hasRegister (freeList s) = true) →
  (∃ s', dispatch_one i k s = Ok s') ∨
  (∃ a l, dispatch_one i k s = Err (ArchRegOutOfRange a) ∧
          p !! i = Some l ∧ badOperand c l a).
Proof.
  intros [(Hst & _ & Hreg & _) Hsh] Hq Hfree.
  destruct (si_dispatch _ _ Hst i) as (_ & a0 & Ha0 & _); [rewrite Hq; left|].
  pose proof (stamp_in_range _ _ Decode _ Ha0) as Hi.
  apply lookup_lt_is_Some in Hi. rewrite (sh_len _ _ _ Hsh) in Hi.
  apply lookup_lt_is_Some in Hi as [l Hl].
  pose proof (sh_ops _ _ _ Hsh _ _ Hl) as Hop.
  destruct l as [[[t s1] s2] d]. unfold operands in Hop. simpl in Hop.
  injection Hop as Ht H1 H2 Hd.
  destruct (sh_map _ _ _ Hsh) as [Hm1 Hm2].
  pose proof (λ a, getMapping_cases (mapTable s) _ _ a Hm1 Hm2
                     (λ j r, mapping_in_range c s j r Hreg)) as HG.
  assert (Hfl : ∀ T fl, freeList s = T :: fl →
                is_Some (zlookup (readyBits (mapTable s)) (regNum T))).
  { intros T fl E. apply zlookup_is_Some. rewrite Hm2.
    assert (Hin : regNum T ∈ regs s).
    { unfold regs. rewrite E, fmap_cons. left. }
    unfold reg_inv in Hreg. rewrite Hreg in Hin. unfold allRegs in Hin.
    apply elem_of_seqZ in Hin. unfold physCount. lia. }
  unfold dispatch_one, rename. simpl in *.
  rewrite H1.
  destruct (HG s1) as [[R1 (r1 & b1 & -> & _)]|[R1 ->]]; simpl; cycle 1.
  { right. exists s1, (t, s1, s2, d). split_and!; [done|done|]. simpl. auto. }
  pres. rewrite H2.
  destruct (Z.eqb_spec s2 NONE) as [E2|E2]; simpl.
  - pres. rewrite Hd.
    destruct (Z.eqb_spec d NONE) as [Ed|Ed]; simpl; [eauto|].
    destruct Hfree as [Hfree|Hfree]; [congruence|].
    destruct (freeList s) as [|T fl] eqn:Efl; [done|]. simpl. pres. rewrite Hd.
    destruct (HG d) as [[Rd (rd & bd & -> & Hzd)]|[Rd ->]]; simpl; cycle 1.
    { right. exists d, (t, s1, s2, d). split_and!; [done|done|]. simpl. auto. }
    unfold setMapping. simpl. rewrite Hzd.
    destruct (Hfl T fl eq_refl) as [bT ->]. simpl. eauto.
  - destruct (HG s2) as [[R2 (r2 & b2 & -> & _)]|[R2 ->]]; simpl; cycle 1.
    { right. exists s2, (t, s1, s2, d). split_and!; [done|done|]. simpl. auto. }
    pres. rewrite Hd.
    destruct (Z.eqb_spec d NONE) as [Ed|Ed]; simpl; [eauto|].
    destruct Hfree as [Hfree|Hfree]; [congruence|].
    destruct (freeList s) as [|T fl] eqn:Efl; [done|]. simpl. pres. rewrite Hd.
    destruct (HG d) as [[Rd (rd & bd & -> & Hzd)]|[Rd ->]]; simpl; cycle 1.
    { right. exists d, (t, s1, s2, d). split_and!; [done|done|]. simpl. auto. }
    unfold setMapping. simpl. rewrite Hzd.
    destruct (Hfl T fl eq_refl) as [bT ->]. simpl. eauto.
Qed.

Lemma dispatch_loop_result c p n s :
  good c p 5 s →
  (∃ s', dispatch_loop n s = Ok s') ∨
  (∃ a i l, dispatch_loop n s = Err (ArchRegOutOfRange a) ∧
            p !! i = Some l ∧ badOperand c l a).
Proof.
  revert s. induction n as [|n IH]; intros s HG; simpl; [eauto|].
  destruct (dispatchStage s) as [|i rest] eqn:Hq; [eauto|].
  destruct (hasFreeEntry (rob s)) eqn:Hf; simpl; [|eauto].
  destruct (findFreeRS _ _ _) as [k|] eqn:Hk; [|eauto].
  destruct (Z.eqb_spec (dstOp (nthInst (instructionsList s) i)) NONE) as [E|E];
    simpl.
  - destruct (dispatch_one_result c p s i rest k HG Hq) as [[s1 H1]|(a & l & H1 & Hl & Hb)];
      [by left| |]; rewrite H1; simpl.
    + apply IH. eapply step_good; [|done].
      eapply step_dispatch; [done..|by left|done].
    + right. by exists a, i, l.
  - destruct (hasRegister (freeList s)) eqn:Hh; simpl; [|eauto].
    destruct (dispatch_one_result c p s i rest k HG Hq) as [[s1 H1]|(a & l & H1 & Hl & Hb)];
      [by right| |]; rewrite H1; simpl.
    + apply IH. eapply step_good; [|done].
      eapply step_dispatch; [done..|by right|done].
    + right. by exists a, i, l.
Qed.

Lemma good_release c p s : good c p 0 s → good c p 1 (release s).
Proof.
  intros [(Hst & Hord & Hreg & Hcy) Hsh]. split.
  - split; [|split; [by apply release_ord|split; [by apply release_regs|done]]].
    eapply stamp_inv_weaken; [|by apply release_stamp]. lia.
  - destruct Hsh. by constructor.
Qed.

Lemma good_set_hasProgress c p k b s :
  good c p k s → good c p k (set_hasProgress b s).
Proof.
  intros [HK Hsh]. split; [by apply kernel_inv_set_hasProgress|].
  destruct Hsh. by constructor.
Qed.

(** A tick faults only in the renaming of [dispatch], on an operand that is
    not the number of an architectural register. *)
Lemma tick_result c p s :
  good c p 0 s →
  (∃ s', tick s = Ok s') ∨
  (∃ a i l, tick s = Err (ArchRegOutOfRange a) ∧
            p !! i = Some l ∧ badOperand c l a).
Proof.
  intros HG0. apply good_release in HG0 as HG.
  unfold tick, stages_after_retire, retire, complete, execute, dispatch.
  destruct (retire_loop_ok c p (width (release s)) _ HG) as [s1 H1].
  rewrite H1. simpl.
  apply retire_loop_steps in H1. apply (bsteps_good c p) in H1; [|done].
  apply (good_weaken c p 1 2) in H1; [|lia].
  destruct (complete_loop_ok c p (width s1) _ H1) as [s2 H2].
  rewrite H2. simpl.
  apply complete_loop_steps in H2. apply (rtc_good c p) in H2; [|done].
  apply (good_weaken c p 2 3) in H2; [|lia].
  destruct (execute_loop_ok c p (width s2) _ H2) as [s3 H3].
  rewrite H3. simpl.
  apply execute_loop_steps in H3. apply (bsteps_good c p) in H3; [|done].
  apply (good_weaken c p 3 4) in H3; [|lia].
  pose proof (issue_loop_steps (width s3) 0 s3) as H4.
  apply (bsteps_good c p) in H4; [|done].
  apply (good_weaken c p 4 5) in H4; [|lia].
  fold (issue s3) in H4.
  destruct (dispatch_loop_result c p (width (issue s3)) _ H4)
    as [[s5 H5]|(a & i & l & H5 & Hl & Hb)]; rewrite H5; simpl; [eauto|].
  right. by exists a, i, l.
Qed.

Lemma cycle_body_result c p n s :
  reachable c p n s → (Z.of_nat n < 4294967295)%Z →
  (∃ s', cycle_body s = Ok s') ∨
  (∃ a i l, cycle_body s = Err (ArchRegOutOfRange a) ∧
            p !! i = Some l ∧ badOperand c l a).
Proof.
  intros Hr Hn. unfold cycle_body.
  assert (HG : good c p 0 (set_hasProgress false s)).
  { apply good_set_hasProgress. split; [by eapply reachable_kernel|].
    eapply reachable_shape; [done|lia]. }
  destruct (tick_result c p _ HG) as [[s' H]|(a & i & l & H & Hl & Hb)];
    rewrite H; simpl; [eauto|].
  right. by exists a, i, l.
Qed.

Lemma wellFormed_not_bad c p i l a :
  wellFormed c p → p !! i = Some l → ¬ badOperand c l a.
Proof.
  intros Hwf Hl. unfold wellFormed in Hwf.
  rewrite forallb_forall in Hwf.
  assert (Hin : In l p).
  { apply list_elem_of_In. by eapply list_elem_of_lookup_2. }
  specialize (Hwf l Hin). destruct l as [[[t s1] s2] d].
  unfold lineOk, archReg in Hwf. simpl. intros [Ha Hr]. apply Hr.
  destruct Ha as [->|[[-> Hn]|[-> Hn]]];
    repeat match goal with
           | H : _ && _ = true |- _ => apply andb_true_iff in H as [? ?]
           | H : _ || _ = true |- _ => apply orb_true_iff in H as [?|?]
           end; lia.
Qed.

(** * The width of the stages *)

Lemma rtc_step_cycle k s s' : rtc (step k) s s' → cycle s' = cycle s.
Proof.
  induction 1 as [|s s1 s2 H1 _ IH]; [done|].
  by rewrite IH, (step_cycle _ _ _ H1).
Qed.

Lemma rtc_step_length k s s' :
  rtc (step k) s s' →
  length (instructionsList s') = length (instructionsList s).
Proof.
  induction 1 as [|s s1 s2 H1 _ IH]; [done|].
  by rewrite IH, (step_length _ _ _ H1).
Qed.

(** The moves of a stage leave the timestamps of the other stages alone. *)
Lemma run_other k s s' st :
  rtc (step k) s s' → st ≠ stageAt k →
  ∀ j, stamp st (getInst s' j) = stamp st (getInst s j).
Proof.
  intros Hrtc Hne. induction Hrtc as [|s s1 s2 H1 _ IH]; [done|].
  intros j. rewrite IH.
  destruct (step_touches _ _ _ H1) as [i Ht].
  by destruct (Ht j st) as [E|(_ & E & _)].
Qed.

(** At most [n] moves stamp at most [n] instructions, with the current
    cycle. *)
Lemma run_own k n s s' :
  bsteps (step k) n s s' →
  ∃ l, length l ≤ n ∧
       ∀ j, stamp (stageAt k) (getInst s' j) = stamp (stageAt k) (getInst s j) ∨
            (j ∈ l ∧ stamp (stageAt k) (getInst s' j) = Some (cycle s)).
Proof.
  induction 1 as [n s|n s s1 s2 H1 _ IH].
  - exists []. split; [simpl; lia|]. intros j. by left.
  - destruct IH as (l & Hlen & Hl).
    destruct (step_touches _ _ _ H1) as [i Ht].
    rewrite (step_cycle _ _ _ H1) in Hl.
    exists (i :: l). split; [simpl; lia|]. intros j.
    destruct (Hl j) as [E|[Hin E]].
    + rewrite E. destruct (Ht j (stageAt k)) as [E1|(-> & _ & E1)].
      * by left.
      * right. split; [left|done].
    + right. split; [by right|done].
Qed.

Lemma tick_moved s s' st :
  tick s = Ok s' → st ≠ Complete →
  ∃ l, length l ≤ width s ∧
       ∀ j, stamp st (getInst s' j) = stamp st (getInst s j) ∨
            (j ∈ l ∧ stamp st (getInst s' j) = Some (cycle s)).
Proof.
  intros Ht Hne.
  apply tick_stages in Ht as (s1 & s2 & s3 & s4 & s5 & s6 & T1 & T2 & T3
                               & T4 & T5 & T6 & T7).
  pose proof (rtc_bsteps_2 _ _ _ T1) as R1.
  pose proof (rtc_bsteps_2 _ _ _ T3) as R3.
  pose proof (rtc_bsteps_2 _ _ _ T4) as R4.
  pose proof (rtc_bsteps_2 _ _ _ T5) as R5.
  pose proof (rtc_bsteps_2 _ _ _ T6) as R6.
  pose proof (rtc_bsteps_2 _ _ _ T7) as R7.
  pose proof (rtc_step_cycle _ _ _ R1) as C1. simpl in C1.
  pose proof (rtc_step_cycle _ _ _ T2) as C2.
  pose proof (rtc_step_cycle _ _ _ R3) as C3.
  pose proof (rtc_step_cycle _ _ _ R4) as C4.
  pose proof (rtc_step_cycle _ _ _ R5) as C5.
  pose proof (rtc_step_cycle _ _ _ R6) as C6.
  assert (O : ∀ k a b, rtc (step k) a b → st ≠ stageAt k →
              ∀ j, stamp st (getInst b j) = stamp st (getInst a j)).
  { intros k a b. apply run_other. }
  destruct st; try done.
  - destruct (run_own _ _ _ _ T7) as (l & Hlen & Hl). exists l.
    split; [done|]. intros j. specialize (Hl j).
    pose proof (O 1 _ _ R1 ltac:(done) j) as E1.
    pose proof (O 2 _ _ T2 ltac:(done) j) as E2.
    pose proof (O 3 _ _ R3 ltac:(done) j) as E3.
    pose proof (O 4 _ _ R4 ltac:(done) j) as E4.
    pose proof (O 5 _ _ R5 ltac:(done) j) as E5.
    pose proof (O 6 _ _ R6 ltac:(done) j) as E6.
    simpl in *.
    destruct Hl as [E|[Hin E]]; [left|right; split; [done|]]; congruence.
  - destruct (run_own _ _ _ _ T6) as (l & Hlen & Hl). exists l.
    split; [done|]. intros j. specialize (Hl j).
    pose proof (O 1 _ _ R1 ltac:(done) j) as E1.
    pose proof (O 2 _ _ T2 ltac:(done) j) as E2.
    pose proof (O 3 _ _ R3 ltac:(done) j) as E3.
    pose proof (O 4 _ _ R4 ltac:(done) j) as E4.
    pose proof (O 5 _ _ R5 ltac:(done) j) as E5.
    pose proof (O 7 _ _ R7 ltac:(done) j) as E7.
    simpl in *.
    destruct Hl as [E|[Hin E]]; [left|right; split; [done|]]; congruence.
  - destruct (run_own _ _ _ _ T5) as (l & Hlen & Hl). exists l.
    split; [done|]. intros j. specialize (Hl j).
    pose proof (O 1 _ _ R1 ltac:(done) j) as E1.
    pose proof (O 2 _ _ T2 ltac:(done) j) as E2.
    pose proof (O 3 _ _ R3 ltac:(done) j) as E3.
    pose proof (O 4 _ _ R4 ltac:(done) j) as E4.
    pose proof (O 6 _ _ R6 ltac:(done) j) as E6.
    pose proof (O 7 _ _ R7 ltac:(done) j) as E7.
    simpl in *.
    destruct Hl as [E|[Hin E]]; [left|right; split; [done|]]; congruence.
  - destruct (run_own _ _ _ _ T4) as (l & Hlen & Hl). exists l.
    split; [done|]. intros j. specialize (Hl j).
    pose proof (O 1 _ _ R1 ltac:(done) j) as E1.
    pose proof (O 2 _ _ T2 ltac:(done) j) as E2.
    pose proof (O 3 _ _ R3 ltac:(done) j) as E3.
    pose proof (O 5 _ _ R5 ltac:(done) j) as E5.
    pose proof (O 6 _ _ R6 ltac:(done) j) as E6.
    pose proof (O 7 _ _ R7 ltac:(done) j) as E7.
    simpl in *.
    destruct Hl as [E|[Hin E]]; [left|right; split; [done|]]; congruence.
  - destruct (run_own _ _ _ _ T3) as (l & Hlen & Hl). exists l.
    split; [done|]. intros j. specialize (Hl j).
    pose proof (O 1 _ _ R1 ltac:(done) j) as E1.
    pose proof (O 2 _ _ T2 ltac:(done) j) as E2.
    pose proof (O 4 _ _ R4 ltac:(done) j) as E4.
    pose proof (O 5 _ _ R5 ltac:(done) j) as E5.
    pose proof (O 6 _ _ R6 ltac:(done) j) as E6.
    pose proof (O 7 _ _ R7 ltac:(done) j) as E7.
    simpl in *.
    destruct Hl as [E|[Hin E]]; [left|right; split; [done|]]; congruence.
  - destruct (run_own _ _ _ _ T1) as (l & Hlen & Hl). exists l.
    split; [done|]. intros j. specialize (Hl j).
    pose proof (O 2 _ _ T2 ltac:(done) j) as E2.
    pose proof (O 3 _ _ R3 ltac:(done) j) as E3.
    pose proof (O 4 _ _ R4 ltac:(done) j) as E4.
    pose proof (O 5 _ _ R5 ltac:(done) j) as E5.
    pose proof (O 6 _ _ R6 ltac:(done) j) as E6.
    pose proof (O 7 _ _ R7 ltac:(done) j) as E7.
    simpl in *.
    destruct Hl as [E|[Hin E]]; [left|right; split; [done|]]; congruence.
Qed.

Lemma tick_length s s' :
  tick s = Ok s' → length (instructionsList s') = length (instructionsList s).
Proof.
  intros Ht.
  apply tick_stages in Ht as (s1 & s2 & s3 & s4 & s5 & s6 & T1 & T2 & T3
                               & T4 & T5 & T6 & T7).
  apply rtc_bsteps_2 in T1, T3, T4, T5, T6, T7.
  rewrite (rtc_step_length _ _ _ T7), (rtc_step_length _ _ _ T6),
    (rtc_step_length _ _ _ T5), (rtc_step_length _ _ _ T4),
    (rtc_step_length _ _ _ T3), (rtc_step_length _ _ _ T2),
    (rtc_step_length _ _ _ T1). done.
Qed.

Lemma filter_length_incl {A} (P : A → Prop) `{!∀ x, Decision (P x)}
    (l k : list A) :
  NoDup l → (∀ x, x ∈ l → P x → x ∈ k) → length (filter P l) ≤ length k.
Proof.
  intros Hnd Hin. apply submseteq_length, NoDup_submseteq.
  - by apply NoDup_filter.
  - intros x [HP Hx]%list_elem_of_filter. by apply Hin.
Qed.

Lemma reachable_width c p n s :
  reachable c p n s → (Z.of_nat n < 4294967296)%Z →
  ∀ st t, st ≠ Complete → length (stampedAt st t s) ≤ cfgWidth c.
Proof.
  intros Hr. induction Hr as [|n s s' Hr IH Hc Hb]; intros Hn st t Hne.
  - unfold stampedAt, start. rewrite loadProgram_eq. simpl.
    etrans; [|apply Nat.le_0_l].
    apply (filter_length_incl _ _ []); [apply NoDup_seq|].
    intros i _ Hi. by rewrite nthInst_fresh in Hi.
  - assert (Hn' : (Z.of_nat n < 4294967296)%Z) by lia.
    specialize (IH Hn' st t Hne).
    pose proof (reachable_stamps_below _ _ _ _ Hr Hn') as Hbelow.
    pose proof (sh_width _ _ _ (reachable_shape _ _ _ _ Hr Hn')) as Hw.
    unfold cycle_body in Hb. inv_ok. rename a into t'.
    pose proof (tick_length _ _ Ha) as Hlen. simpl in Hlen.
    destruct (tick_moved _ _ st Ha Hne) as (l & Hl & Hmv). simpl in Hl, Hmv.
    unfold stampedAt in *. simpl. rewrite Hlen.
    destruct (decide (t = cycle s)) as [->|Ht].
    + etrans; [|by rewrite <- Hw]. 
      apply filter_length_incl; [apply NoDup_seq|].
      intros j _ Hj. destruct (Hmv j) as [E|[Hin _]]; [|done].
      simpl in *. rewrite E in Hj. apply Hbelow in Hj. lia.
    + etrans; [|exact IH].
      apply filter_length_incl; [apply NoDup_seq|].
      intros j Hj0 Hj. apply list_elem_of_filter. split; [|done].
      simpl in *. destruct (Hmv j) as [E|[_ E]]; congruence.
Qed.

(** * Program order of the in-order stages *)

Lemma seq_app3 r m (A B C : list nat) :
  A ++ B ++ C = seq r m →
  A = seq r (length A) ∧ B = seq (r + length A) (length B) ∧
  C = seq (r + length A + length B) (length C) ∧
  m = length A + length B + length C.
Proof.
  intros H.
  assert (Hm : m = length A + length B + length C).
  { apply (f_equal length) in H. rewrite !length_app, length_seq in H. lia. }
  subst m. rewrite <- Nat.add_assoc, !seq_app in H.
  apply app_inj_1 in H as [H1 H]; [|by rewrite length_seq].
  apply app_inj_1 in H as [H2 H3]; [|by rewrite length_seq].
  done.
Qed.

(** The layout of the in-order queues. *)
Lemma ord_layout s :
  ord_inv s →
  ∃ r, robIds s = seq r (length (robIds s)) ∧
       dispatchStage s = seq (r + length (robIds s)) (length (dispatchStage s)) ∧
       decodeStage s = seq (r + length (robIds s) + length (dispatchStage s))
                           (length (decodeStage s)) ∧
       fetchPtr s = r + length (robIds s) + length (dispatchStage s)
                    + length (decodeStage s) ∧
       (∀ i, r ≤ i → retireCycle (getInst s i) = None).
Proof.
  intros (r & Hle & Hseq & Hnone & _). exists r.
  apply seq_app3 in Hseq as (H1 & H2 & H3 & H4).
  split_and!; [done..|lia|done].
Qed.

Lemma retired_below s r :
  retired_inv s →
  fetchPtr s = r + length (robIds s) + length (dispatchStage s)
               + length (decodeStage s) →
  robIds s = seq r (length (robIds s)) →
  dispatchStage s = seq (r + length (robIds s)) (length (dispatchStage s)) →
  decodeStage s = seq (r + length (robIds s) + length (dispatchStage s))
                      (length (decodeStage s)) →
  ∀ i, i < r → is_Some (retireCycle (getInst s i)).
Proof.
  intros Hret Hf H1 H2 H3 i Hi. apply Hret.
  - lia.
  - rewrite H1, elem_of_seq. lia.
  - rewrite H2, elem_of_seq. lia.
  - rewrite H3, elem_of_seq. lia.
Qed.

Lemma is_Some_earlier x st1 st2 :
  chain x → stageIndex st1 ≤ stageIndex st2 →
  is_Some (stamp st2 x) → is_Some (stamp st1 x).
Proof.
  intros Hc Hle [b Hb].
  destruct (decide (stageIndex st1 = stageIndex st2)) as [E|E].
  - assert (st1 = st2) as -> by (destruct st1, st2; simpl in E; congruence).
    by rewrite Hb.
  - destruct (chain_ordered x st1 st2 b Hc) as (a & -> & _); [lia|done|done].
Qed.

(** Every instruction before the one a stage takes has passed the stage. *)
Lemma moved_prefix c k s i0 :
  kernel_inv c k s → retired_inv s → moves k s i0 →
  inOrderStage (stageAt k) = true →
  ∀ i, i < i0 → is_Some (stamp (stageAt k) (getInst s i)).
Proof.
  intros (Hst & Hord & _) Hret Hmv Hin i Hi.
  destruct (ord_layout s Hord) as (r & H1 & H2 & H3 & Hf & Hnone).
  pose proof (retired_below s r Hret Hf H1 H2 H3) as Hbelow.
  pose proof (si_chain _ _ Hst i) as Hch.
  assert (RET : i < r → ∀ st, is_Some (stamp st (getInst s i))).
  { intros Hr st. apply (is_Some_earlier _ st Retire); [done| |by apply Hbelow].
    destruct st; simpl; lia. }
  assert (ROB : r ≤ i < r + length (robIds s) →
                ∀ st, stageIndex st ≤ 2 → is_Some (stamp st (getInst s i))).
  { intros Hr st Hle. apply (is_Some_earlier _ st Dispatch); [done|simpl; lia|].
    apply (si_rob _ _ Hst i). rewrite H1, elem_of_seq. lia. }
  assert (DIS : r + length (robIds s) ≤ i
                < r + length (robIds s) + length (dispatchStage s) →
                ∀ st, stageIndex st ≤ 1 → is_Some (stamp st (getInst s i))).
  { intros Hr st Hle. apply (is_Some_earlier _ st Decode); [done|simpl; lia|].
    destruct (si_dispatch _ _ Hst i) as (_ & a & Ha & _);
      [rewrite H2, elem_of_seq; lia|]. unfold stamp. by rewrite Ha. }
  assert (DEC : r + length (robIds s) + length (dispatchStage s) ≤ i
                < fetchPtr s → is_Some (stamp Fetch (getInst s i))).
  { intros Hr.
    destruct (si_decode _ _ Hst i) as (_ & a & Ha & _);
      [rewrite H3, elem_of_seq; lia|]. unfold stamp. by rewrite Ha. }
  assert (FET : i < fetchPtr s → is_Some (stamp Fetch (getInst s i))).
  { intros Hlt.
    destruct (decide (i < r)); [by apply RET|].
    destruct (decide (i < r + length (robIds s)));
      [apply ROB; [lia|simpl; lia]|].
    destruct (decide (i < r + length (robIds s) + length (dispatchStage s)));
      [apply DIS; [lia|simpl; lia]|]. apply DEC. lia. }
  destruct k as [|[|[|[|[|[|[|k]]]]]]]; simpl in Hin, Hmv; try done.
  - destruct Hmv as [-> _]. by apply FET.
  - (* retire: the head of the ROB *)
    destruct Hmv as (e & He & <- & _).
    apply getHead_Some in He as [es Hq].
    unfold robIds in H1 at 1. rewrite Hq in H1. simpl in H1.
    destruct (length (robIds s)) eqn:E; [done|]. simpl in H1.
    injection H1 as H1 _. apply RET. lia.
  - (* dispatch: the head of the dispatch queue *)
    destruct (dispatchStage s) as [|x rest] eqn:Hq; [done|].
    simpl in Hmv, H2. injection Hmv as ->. injection H2 as H2 _.
    destruct (decide (i < r)); [by apply RET|]. apply ROB; [lia|simpl; lia].
  - (* decode: the head of the decode queue *)
    destruct (decodeStage s) as [|x rest] eqn:Hq; [done|].
    simpl in Hmv, H3. injection Hmv as ->. injection H3 as H3 _.
    destruct (decide (i < r)); [by apply RET|].
    destruct (decide (i < r + length (robIds s)));
      [apply ROB; [lia|simpl; lia]|]. apply DIS; [lia|simpl; lia].
  - (* fetch: the instruction at the fetch pointer *)
    destruct Hmv as [-> _]. by apply FET.
Qed.

Lemma step_retired c k s s' :
  step k s s' → kernel_inv c k s → retired_inv s → retired_inv s'.
Proof.
  intros Hstep HK Hret.
  pose proof (step_stable c _ _ _ Hstep HK) as Hstab.
  assert (Hkeep : ∀ i, is_Some (retireCycle (getInst s i)) →
                       is_Some (retireCycle (getInst s' i))).
  { intros i [a Ha]. exists a. by apply (Hstab i Retire). }
  destruct HK as (Hst & _).
  destruct Hstep.
  - (* retire *)
    destruct (getHead_Some _ _ H) as [es Hq].
    destruct (si_rob _ _ Hst (robInst e)) as (_ & [a Ha] & _).
    { unfold robIds. rewrite Hq. left. }
    pose proof (stamp_in_range _ _ Dispatch _ Ha) as Hi.
    intros i Hlt Hrob Hdis Hdec.
    assert (E : fetchPtr s' = fetchPtr s ∧ dispatchStage s' = dispatchStage s ∧
                decodeStage s' = decodeStage s ∧ robIds s' = robInst <$> es ∧
                retireCycle (getInst s' (robInst e)) = Some (cycle s)).
    { unfold retire_one, setMapping in *. simpl in *.
      inv_ok; unfold robIds; simpl; known_ifs; simpl; rewrite Hq; simpl;
        rewrite nthInst_alter_eq by done; done. }
    destruct E as (E1 & E2 & E3 & E4 & E5).
    rewrite E1 in Hlt. rewrite E2 in Hdis. rewrite E3 in Hdec. rewrite E4 in Hrob.
    destruct (decide (i = robInst e)) as [->|Hne]; [by rewrite E5|].
    apply Hkeep, Hret; [done| |done|done].
    unfold robIds. rewrite Hq, fmap_cons. set_solver.
  - (* complete *)
    destruct (complete_one_frame _ _ _ _ H1) as [[_ _ Er _ _] _ Ed Ec Ef _ _].
    intros j0 Hlt Hrob Hdis Hdec. unfold robIds in *.
    rewrite ?Er, ?Ed, ?Ec, ?Ef in *. by apply Hkeep, Hret.
  - done.
  - destruct (execute_one_frame _ _ _ _ H0) as [[_ _ Er _ _] _ Ed Ec Ef _ _].
    intros j0 Hlt Hrob Hdis Hdec. unfold robIds in *.
    rewrite ?Er, ?Ed, ?Ec, ?Ef in *. by apply Hkeep, Hret.
  - destruct (issue_one_frame i s) as [[_ _ Er _ _] _ Ed Ec Ef _ _].
    intros j Hlt Hrob Hdis Hdec. unfold robIds in *.
    rewrite ?Er, ?Ed, ?Ec, ?Ef in *. by apply Hkeep, Hret.
  - (* dispatch *)
    intros j Hlt Hrob Hdis Hdec.
    assert (E : fetchPtr s' = fetchPtr s ∧ dispatchStage s' = rest ∧
                decodeStage s' = decodeStage s ∧ robIds s' = robIds s ++ [i]).
    { inv_dispatch H3; unfold robIds; simpl; rewrite ?H, ?fmap_app; done. }
    destruct E as (E1 & E2 & E3 & E4).
    rewrite E1 in Hlt. rewrite E2 in Hdis. rewrite E3 in Hdec. rewrite E4 in Hrob.
    apply Hkeep, Hret; [done|set_solver|rewrite H; set_solver|done].
  - (* decode *)
    intros j Hlt Hrob Hdis Hdec. unfold decode_one, robIds in *. simpl in *.
    apply Hkeep, Hret; [done|done|set_solver|rewrite H; set_solver].
  - (* fetch *)
    intros j Hlt Hrob Hdis Hdec.
    assert (E : fetchPtr (fetch_one (decodeStage s ++ [fetchPtr s]) s) = S (fetchPtr s) ∧
                dispatchStage (fetch_one (decodeStage s ++ [fetchPtr s]) s) = dispatchStage s ∧
                decodeStage (fetch_one (decodeStage s ++ [fetchPtr s]) s) = decodeStage s ++ [fetchPtr s] ∧
                robIds (fetch_one (decodeStage s ++ [fetchPtr s]) s) = robIds s).
    { unfold fetch_one, robIds. simpl. by case_match. }
    destruct E as (E1 & E2 & E3 & E4).
    rewrite E1 in Hlt. rewrite E2 in Hdis. rewrite E3 in Hdec. rewrite E4 in Hrob.
    apply Hkeep, Hret; [|done|done|set_solver].
    assert (j ≠ fetchPtr s) by set_solver. lia.
  - done.
Qed.

Lemma start_retired c p : retired_inv (start c p).
Proof.
  intros i Hi. unfold start in Hi. rewrite loadProgram_eq in Hi.
  simpl in Hi. lia.
Qed.

Lemma reachable_retired c p n s :
  reachable c p n s → (Z.of_nat n < 4294967296)%Z → retired_inv s.
Proof.
  apply (reachable_inv c p retired_inv retired_inv).
  - apply start_retired.
  - done.
  - intros k t t'. apply step_retired.
  - done.
Qed.

Lemma step_inorder c k s s' :
  step k s s' → kernel_inv c k s → stamps_upto s → retired_inv s →
  inorder_inv s → inorder_inv s'.
Proof.
  intros Hstep HK Hup Hret Hin st i j b Hst Hij Hb.
  pose proof (step_stable c _ _ _ Hstep HK) as Hstab.
  assert (Hold : stamp st (getInst s j) = Some b →
                 ∃ a, stamp st (getInst s' i) = Some a ∧ (a ≤ b)%Z).
  { intros Hb0. destruct (Hin st i j b Hst Hij Hb0) as (a & Ha & Hle).
    exists a. split; [by apply Hstab|done]. }
  destruct (step_moves _ _ _ Hstep) as [Hsame|(i0 & Hmv & Ht)].
  { apply Hold. by rewrite <- Hsame. }
  destruct (Ht j st) as [E|(-> & -> & E)].
  { apply Hold. by rewrite <- E. }
  rewrite E in Hb. injection Hb as <-.
  destruct (decide (i = i0)) as [->|Hne].
  { exists (cycle s). split; [done|lia]. }
  destruct (moved_prefix c k s i0 HK Hret Hmv Hst i ltac:(lia)) as [a Ha].
  exists a. split; [by apply Hstab|]. apply Hup in Ha. lia.
Qed.

Lemma reachable_inorder c p n s :
  reachable c p n s → (Z.of_nat n < 4294967296)%Z → inorder_inv s.
Proof.
  intros Hr Hn. cut (retired_inv s ∧ inorder_inv s); [tauto|].
  revert n s Hr Hn.
  apply (reachable_inv2 c p (λ s, retired_inv s ∧ inorder_inv s)
                            (λ s, retired_inv s ∧ inorder_inv s)).
  - split; [apply start_retired|].
    intros st i j b _ _ Hb. unfold start in Hb. rewrite loadProgram_eq in Hb.
    simpl in Hb. by rewrite nthInst_fresh in Hb.
  - done.
  - intros k t t' Hstep HK _ Hup [H1 H2].
    split; [by eapply step_retired|by eapply step_inorder].
  - done.
Qed.

(** * Termination of the simulation *)

Lemma pending_filter s s' :
  length (instructionsList s') = length (instructionsList s) →
  stable s s' →
  pending s' = filter (λ x, stamp x.2 (getInst s' x.1) = None) (pending s).
Proof.
  intros Hlen Hst. unfold pending. rewrite Hlen.
  rewrite list_filter_filter. apply list_filter_iff.
  intros [j st']. simpl. split; [|tauto]. intros Hj. split; [done|].
  destruct (stamp st' (nthInst (instructionsList s) j)) as [b|] eqn:Eb; [|done].
  apply (Hst j st') in Eb. simpl in Eb. congruence.
Qed.

Lemma pending_le s s' :
  length (instructionsList s') = length (instructionsList s) →
  stable s s' → length (pending s') ≤ length (pending s).
Proof.
  intros Hlen Hst. rewrite (pending_filter s s') by done. apply length_filter.
Qed.

Lemma pending_lt s s' i st :
  length (instructionsList s') = length (instructionsList s) →
  stable s s' →
  stamp st (getInst s i) = None → is_Some (stamp st (getInst s' i)) →
  length (pending s') < length (pending s).
Proof.
  intros Hlen Hst Hn [a Ha]. rewrite (pending_filter s s') by done.
  apply (length_filter_lt _ _ (i, st)).
  - unfold pending. apply list_elem_of_filter. split; [done|].
    apply list_elem_of_cprod. simpl. split.
    + apply elem_of_seq. split; [lia|]. simpl. rewrite <- Hlen.
      apply lookup_lt_is_Some. by eapply stamp_in_range.
    + destruct st; unfold allStages; set_solver.
  - simpl in *. congruence.
Qed.

Lemma step_retire_deadline s s' i :
  step 1 s s' →
  deadlineReached s' i = deadlineReached s i ∧
  completeStage s' = completeStage s.
Proof.
  inversion 1; subst. unfold retire_one, setMapping, deadlineReached,
    getExecuteCycle in *.
  simpl in *. inv_ok; simpl; known_ifs; simpl; pres; done.
Qed.

Lemma retire_loop_deadline n s s' i :
  retire_loop n s = Ok s' →
  deadlineReached s' i = deadlineReached s i ∧
  completeStage s' = completeStage s.
Proof.
  intros H%retire_loop_steps%rtc_bsteps_2.
  induction H as [|s s1 s2 H1 _ IH]; [done|].
  destruct (step_retire_deadline _ _ i H1) as [E1 E2].
  destruct IH as [E3 E4]. split; congruence.
Qed.

(** With a positive width, the front of the complete queue completes in the
    cycle in which its deadline is reached. *)
Lemma complete_loop_head n s s' h q :
  stamp_inv 2 s → completeStage s = h :: q → 0 < n →
  deadlineReached s h = true → complete_loop n s = Ok s' →
  is_Some (completeCycle (getInst s' h)).
Proof.
  intros Hinv Hq Hn Hd H. destruct n as [|n]; [lia|]. simpl in H.
  rewrite Hq in H. simpl in H.
  rewrite Hq in H. simpl in H.
  unfold deadlineReached in Hd, H. simpl in Hd, H. rewrite Hd in H. inv_ok.
  rename a0 into sa, a into sb, Ha into Ha1.
  destruct (si_complete _ _ Hinv h) as (_ & e & He & _); [rewrite Hq; left|].
  pose proof (stamp_in_range _ _ Execute _ He) as Hi.
  assert (Hc : completeCycle (getInst sa h) = Some (cycle s)).
  { unfold complete_one, setReadyBit in Ha0. rewrite broadcast_eq in Ha0.
    simpl in *.
    inv_ok; simpl; rewrite nthInst_alter_eq
      by (by apply broadcastList_in_range); done. }
  eapply complete_one_stamp in Ha0 as (I1 & _); [|by rewrite Hq|done].
  eapply complete_scan_stamp in Ha1 as (I2 & S2); [|done].
  eapply complete_loop_stamp in H as (_ & S3); [|done].
  exists (cycle s). by apply (S3 h Complete), (S2 h Complete).
Qed.

Lemma tick_head_completes s s' h q :
  stamp_inv 0 s → tick s = Ok s' → completeStage s = h :: q → 0 < width s →
  deadlineReached s h = true →
  is_Some (completeCycle (getInst s' h)).
Proof.
  intros Hinv H Hq Hw Hd. unfold tick, stages_after_retire in H. inv_ok.
  apply release_stamp in Hinv.
  destruct (retire_loop_deadline _ _ _ h Ha) as [Hd1 Hq1].
  pose proof (retire_loop_base _ _ _ Ha) as [Hw1 _].
  eapply retire_loop_stamp in Ha as (I1 & _);
    [|by eapply stamp_inv_weaken; [|done]; lia].
  assert (I1' : stamp_inv 2 a) by (by eapply stamp_inv_weaken; [|done]; lia).
  assert (Hc : is_Some (completeCycle (getInst a0 h))).
  { eapply (complete_loop_head (width a) a); [done| |simpl in *; lia| |done].
    - by rewrite Hq1.
    - by rewrite Hd1. }
  eapply complete_loop_stamp in Ha0 as (I2 & _); [|done].
  eapply execute_loop_stamp in Ha1 as (I3 & S3 & _);
    [|by eapply stamp_inv_weaken; [|done]; lia].
  destruct (issue_loop_stamp (width a1) 0 a1) as (I4 & S4 & _);
    [by eapply stamp_inv_weaken; [|done]; lia|].
  eapply dispatch_loop_stamp in Ha2 as (I5 & S5 & _);
    [|by eapply stamp_inv_weaken; [|done]; lia].
  destruct (decode_loop_stamp (width a2) a2) as (I6 & S6 & _);
    [by eapply stamp_inv_weaken; [|done]; lia|].
  destruct (fetch_loop_stamp (width (decode a2)) (decode a2)) as (I7 & S7 & _);
    [by eapply stamp_inv_weaken; [|done]; lia|].
  destruct Hc as [u Hu]. exists u.
  apply (S7 h Complete), (S6 h Complete), (S5 h Complete), (S4 h Complete),
    (S3 h Complete). done.
Qed.

(** Every cycle that sets the progress flag brings the simulation closer to
    its end. *)
Lemma potential_decreases c p n s s' :
  reachable c p n s → (Z.of_nat n < 4294967295)%Z →
  loop_cond s = true → cycle_body s = Ok s' →
  hasProgress s' = true → potential s' < potential s.
Proof.
  intros Hr Hn Hlc Hb Hp.
  assert (Hr' : reachable c p (S n) s') by (by eapply reach_cycle).
  assert (Hn1 : (Z.of_nat n < 4294967296)%Z) by lia.
  assert (Hn2 : (Z.of_nat (S n) < 4294967296)%Z) by lia.
  pose proof (reachable_stamp _ _ _ _ Hr Hn1) as I.
  pose proof (reachable_stamp _ _ _ _ Hr' Hn2) as I'.
  pose proof (reachable_stamps_below _ _ _ _ Hr Hn1) as Hbelow.
  pose proof (reachable_shape _ _ _ _ Hr' Hn2) as Hsh'.
  pose proof (reachable_cycle _ _ _ _ Hr Hn1) as Hcy.
  pose proof (reachable_cycle _ _ _ _ Hr' Hn2) as Hcy'.
  destruct (cycle_body_stamp s s') as (_ & Hstab & Hprog); [lia|done|done|].
  specialize (Hprog Hp).
  assert (Hlen : length (instructionsList s') = length (instructionsList s)).
  { unfold cycle_body in Hb. inv_ok. simpl.
    by rewrite (tick_length _ _ Ha). }
  pose proof (pending_le s s' Hlen Hstab) as Hle.
  unfold potential.
  destruct (decide (length (pending s') < length (pending s))) as [Hlt|Hnlt].
  { destruct (waiting s'), (waiting s); lia. }
  assert (NoGain : ∀ i st, stamp st (getInst s i) = None →
                           stamp st (getInst s' i) = None).
  { intros i st Hnone.
    destruct (stamp st (getInst s' i)) as [a|] eqn:E; [|done].
    exfalso. apply Hnlt. apply (pending_lt s s' i st); [done..|by rewrite E]. }
  destruct Hprog as [(i & st & Hnone & Hsome)|[Hne Hw]].
  { apply NoGain in Hnone. rewrite Hnone in Hsome. by destruct Hsome. }
  destruct (completeStage s) as [|h q] eqn:Hq; [done|].
  assert (Hdl : deadlineReached s h = false).
  { destruct (deadlineReached s h) eqn:Hd; [|done]. exfalso.
    unfold cycle_body in Hb. inv_ok. rename a into t.
    destruct (tick_head_completes (set_hasProgress false s) t h q)
      as [u Hu]; [by destruct I|done|done|done|done|].
    destruct (si_complete _ _ I h) as (Hcn & _); [rewrite Hq; left|].
    specialize (NoGain h Complete Hcn). simpl in *.
    rewrite NoGain in Hu. discriminate. }
  assert (W : waiting s = true).
  { unfold waiting. apply existsb_exists. exists h. rewrite Hq, Hdl.
    split; [left; done|done]. }
  assert (W' : waiting s' = false).
  { unfold waiting. destruct (existsb _ _) eqn:E; [|done]. exfalso.
    apply existsb_exists in E as (i & Hi & Hd).
    apply negb_true_iff in Hd. apply list_elem_of_In in Hi.
    destruct (si_complete _ _ I' i Hi) as (_ & e & He & Hlt).
    unfold lim in Hlt. simpl in Hlt.
    destruct (executeCycle (getInst s i)) as [e0|] eqn:He0.
    - pose proof (Hstab i Execute e0 He0) as He1.
      pose proof (Hbelow i Execute e0 He0) as Hrange.
      pose proof (sh_exec _ _ _ Hsh' i ltac:(by rewrite He)) as Hex.
      pose proof (latency_range (instType (getInst s' i))) as HL.
      unfold deadlineReached, getExecuteCycle in Hd.
      simpl in He, He1, Hex, HL, Hd.
      assert (e0 = e) as -> by congruence.
      rewrite He, Hex in Hd.
      rewrite wrap32_small in Hd by lia. apply Z.leb_gt in Hd. lia.
    - specialize (NoGain i Execute He0). simpl in *. congruence. }
  rewrite W, W'. lia.
Qed.

Lemma simulate_loop_terminates c p fuel :
  ∀ n s, reachable c p n s →
         (Z.of_nat n + Z.of_nat fuel < 4294967296)%Z →
         potential s < fuel → terminated (simulate_loop fuel s).
Proof.
  induction fuel as [|fuel IH]; intros n s Hr Hn Hpot; [lia|].
  simpl. destruct (loop_cond s) eqn:Hlc; [|done].
  destruct (cycle_body s) as [s'|e] eqn:Hb; [|done].
  destruct (hasProgress s') eqn:Hp.
  - apply (IH (S n)); [by eapply reach_cycle|lia|].
    pose proof (potential_decreases c p n s s' Hr ltac:(lia) Hlc Hb Hp). lia.
  - assert (Hlc' : loop_cond s' = false).
    { unfold loop_cond. rewrite Hp. apply andb_false_r. }
    destruct fuel; simpl; by rewrite Hlc'.
Qed.

Lemma simulate_loop_more fuel fuel' s :
  fuel ≤ fuel' → terminated (simulate_loop fuel s) →
  simulate_loop fuel' s = simulate_loop fuel s.
Proof.
  revert fuel' s. induction fuel as [|fuel IH]; intros fuel' s Hle Ht.
  - simpl in *. destruct (loop_cond s) eqn:Hlc; [done|].
    destruct fuel'; simpl; by rewrite Hlc.
  - destruct fuel' as [|fuel']; [lia|]. simpl in *.
    destruct (loop_cond s); [|done].
    destruct (cycle_body s); [|done]. apply IH; [lia|done].
Qed.

Lemma potential_start c p : potential (start c p) ≤ 14 * length p.
Proof.
  unfold potential, waiting, pending, start. rewrite loadProgram_eq. simpl.
  rewrite length_fmap.
  match goal with
  | |- context [length (filter ?P ?l)] =>
      pose proof (length_filter P l) as H;
      assert (L : length l = length p * 7)
        by (by rewrite list_cprod_list_prod, length_prod, length_seq)
  end.
  lia.
Qed.

(** The states [simulate] stops in are reachable. *)
Lemma simulate_loop_reachable c p fuel :
  ∀ n s s', reachable c p n s → simulate_loop fuel s = Finished s' →
            ∃ m, m ≤ fuel ∧ reachable c p (n + m) s' ∧ loop_cond s' = false.
Proof.
  induction fuel as [|fuel IH]; intros n s s' Hr H; simpl in H.
  - destruct (loop_cond s) eqn:Hlc; [done|]. injection H as <-.
    exists 0. rewrite Nat.add_0_r. by split_and!.
  - destruct (loop_cond s) eqn:Hlc.
    + destruct (cycle_body s) as [s1|e] eqn:Hb; [|done].
      destruct (IH (S n) s1 s') as (m & Hm & Hr' & Hl);
        [by eapply reach_cycle|done|].
      exists (S m). split_and!; [lia| |done].
      by replace (n + S m) with (S n + m) by lia.
    + injection H as <-. exists 0. rewrite Nat.add_0_r.
      split_and!; [lia|done|done].
Qed.

(** * Liveness: the stations, the ROB and the wake-up of sources *)

Lemma elem_of_held s i :
  i ∈ held s ↔ ∃ j r, reservationStations s !! j = Some r ∧ rsInst r = Some i.
Proof.
  unfold held. rewrite list_elem_of_omap. split.
  - intros (r & Hr & Hi). apply list_elem_of_lookup in Hr as [j Hj]. eauto.
  - intros (j & r & Hj & Hi). exists r. split; [|done].
    by eapply list_elem_of_lookup_2.
Qed.

Lemma omap_alter_free (rs : list ReservationStation) a i :
  i ∈ omap rsInst (alter free a rs) → i ∈ omap rsInst rs.
Proof.
  rewrite !list_elem_of_omap. intros (r & Hr & Hi).
  apply list_elem_of_lookup in Hr as [j Hj].
  destruct (decide (j = a)) as [->|Hne].
  - rewrite list_lookup_alter, decide_True in Hj by done.
    destruct (rs !! a) as [ra|] eqn:E; simplify_eq/=.
  - rewrite list_lookup_alter_ne in Hj by done.
    exists r. split; [by eapply list_elem_of_lookup_2|done].
Qed.

Lemma omap_alter_free_other (rs : list ReservationStation) a ra i i' :
  rs !! a = Some ra → rsInst ra = Some i →
  i' ∈ omap rsInst rs → i' ≠ i → i' ∈ omap rsInst (alter free a rs).
Proof.
  intros Ha Hra. rewrite !list_elem_of_omap. intros (r & Hr & Hi) Hne.
  apply list_elem_of_lookup in Hr as [j Hj].
  assert (j ≠ a) by (intros ->; congruence).
  exists r. split; [|done]. apply list_elem_of_lookup. exists j.
  by rewrite list_lookup_alter_ne.
Qed.

Lemma omap_alter_allocate (rs : list ReservationStation) k i i' :
  i' ∈ omap rsInst (alter (allocate i) k rs) → i' = i ∨ i' ∈ omap rsInst rs.
Proof.
  rewrite !list_elem_of_omap. intros (r & Hr & Hi).
  apply list_elem_of_lookup in Hr as [j Hj].
  destruct (decide (j = k)) as [->|Hne].
  - rewrite list_lookup_alter, decide_True in Hj by done.
    destruct (rs !! k) as [rk|] eqn:E; simplify_eq/=. by left.
  - rewrite list_lookup_alter_ne in Hj by done. right.
    exists r. split; [by eapply list_elem_of_lookup_2|done].
Qed.

Lemma omap_alter_allocate_old (rs : list ReservationStation) k rk i i' :
  rs !! k = Some rk → rsInst rk = None →
  i' ∈ omap rsInst rs → i' ∈ omap rsInst (alter (allocate i) k rs).
Proof.
  intros Hk Hrk. rewrite !list_elem_of_omap. intros (r & Hr & Hi).
  apply list_elem_of_lookup in Hr as [j Hj].
  assert (j ≠ k) by (intros ->; congruence).
  exists r. split; [|done]. apply list_elem_of_lookup. exists j.
  by rewrite list_lookup_alter_ne.
Qed.

Lemma omap_alter_allocate_new (rs : list ReservationStation) k rk i :
  rs !! k = Some rk → i ∈ omap rsInst (alter (allocate i) k rs).
Proof.
  intros Hk. rewrite list_elem_of_omap. exists (allocate i rk).
  split; [|done]. apply list_elem_of_lookup. exists k.
  by rewrite list_lookup_alter, decide_True, Hk by done.
Qed.

Lemma findFreeRS_Some t j rs k :
  findFreeRS t j rs = Some k →
  ∃ r, rs !! (k - j) = Some r ∧ rsType r = t ∧ rsBusy r = false ∧ j ≤ k.
Proof.
  revert j. induction rs as [|r rs IH]; intros j H; simpl in H; [done|].
  destruct (bool_decide (rsType r = t) && negb (rsBusy r)) eqn:E.
  - injection H as <-. apply andb_true_iff in E as [E1 E2].
    apply bool_decide_eq_true in E1. apply negb_true_iff in E2.
    exists r. by rewrite Nat.sub_diag.
  - apply IH in H as (r' & Hl & Ht & Hb & Hle). exists r'.
    replace (k - j) with (S (k - S j)) by lia. split_and!; [done..|lia].
Qed.

Lemma findFreeRS_None t j rs :
  findFreeRS t j rs = None →
  ∀ r, r ∈ rs → rsType r = t → rsBusy r = true.
Proof.
  revert j. induction rs as [|r0 rs IH]; intros j H r Hr Ht; simpl in H.
  - by apply elem_of_nil in Hr.
  - destruct (bool_decide (rsType r0 = t) && negb (rsBusy r0)) eqn:E; [done|].
    apply elem_of_cons in Hr as [->|Hr]; [|by eapply IH].
    rewrite bool_decide_eq_true_2 in E by done. simpl in E.
    by destruct (rsBusy r0).
Qed.

(** ** The broadcast of a completed register *)

Lemma markSrcReady_regNum1 r x :
  regNum (srcPhysicalReg1 (markSrcReady r x)) = regNum (srcPhysicalReg1 x).
Proof. unfold markSrcReady. repeat case_match; done. Qed.

Lemma markSrcReady_regNum2 r x :
  regNum (srcPhysicalReg2 (markSrcReady r x)) = regNum (srcPhysicalReg2 x).
Proof. unfold markSrcReady. repeat case_match; done. Qed.

Lemma markSrcReady_mono1 r x :
  isReady (srcPhysicalReg1 x) = true →
  isReady (srcPhysicalReg1 (markSrcReady r x)) = true.
Proof. unfold markSrcReady. repeat case_match; done. Qed.

Lemma markSrcReady_mono2 r x :
  isReady (srcPhysicalReg2 x) = true →
  isReady (srcPhysicalReg2 (markSrcReady r x)) = true.
Proof. unfold markSrcReady. repeat case_match; done. Qed.

Lemma markSrcReady_hit1 r x :
  regNum (srcPhysicalReg1 x) = r →
  isReady (srcPhysicalReg1 (markSrcReady r x)) = true.
Proof.
  intros <-. unfold markSrcReady. rewrite Z.eqb_refl. by case_match.
Qed.

Lemma markSrcReady_hit2 r x :
  regNum (srcPhysicalReg2 x) = r →
  isReady (srcPhysicalReg2 (markSrcReady r x)) = true.
Proof.
  intros <-. unfold markSrcReady.
  destruct (regNum (srcPhysicalReg1 x) =? regNum (srcPhysicalReg2 x))%Z;
    simpl; by rewrite Z.eqb_refl.
Qed.

Lemma broadcastList_cons r st rs l :
  broadcastList r (st :: rs) l
  = broadcastList r rs (match rsInst st with
                        | Some i => alter (markSrcReady r) i l
                        | None => l
                        end).
Proof. done. Qed.

(** A property of an instruction that [markSrcReady] only establishes is
    kept by the broadcast. *)
Lemma broadcastList_mono (P : Instruction → Prop) r rs l j :
  (∀ x, P x → P (markSrcReady r x)) →
  P (nthInst l j) → P (nthInst (broadcastList r rs l) j).
Proof.
  intros HP. revert l. induction rs as [|st rs IH]; intros l Hl; [done|].
  rewrite broadcastList_cons. apply IH.
  destruct (rsInst st) as [i|]; [|done].
  apply pointwise_alter; auto.
Qed.

(** The broadcast reaches every instruction a station holds. *)
Lemma broadcastList_hit (P : Instruction → Prop) r rs l j :
  (∀ x, P x → P (markSrcReady r x)) →
  P (markSrcReady r (nthInst l j)) →
  j ∈ omap rsInst rs → is_Some (l !! j) →
  P (nthInst (broadcastList r rs l) j).
Proof.
  intros HP. revert l. induction rs as [|st rs IH]; intros l Hl Hj Hi.
  - by apply elem_of_nil in Hj.
  - rewrite broadcastList_cons.
    destruct (rsInst st) as [i|] eqn:E.
    + destruct (decide (i = j)) as [->|Hne].
      * apply broadcastList_mono; [done|]. by rewrite nthInst_alter_eq.
      * simpl in Hj. rewrite E in Hj. apply elem_of_cons in Hj as [?|Hj]; [done|].
        apply IH; [|done|by apply alter_in_range].
        by rewrite nthInst_alter_ne.
    + simpl in Hj. rewrite E in Hj. by apply IH.
Qed.

Lemma held_not_completed k s i :
  stamp_inv k s → i ∈ held s → hasCompleted (getInst s i) = false.
Proof.
  intros Hst (j & r & Hj & Hi)%elem_of_held.
  destruct (si_station _ _ Hst j r i Hj Hi) as (_ & He & _).
  destruct (hasCompleted (getInst s i)) eqn:E; [|done].
  destruct (si_flag _ _ Hst i E) as [u Hu].
  destruct (chain_ordered _ Execute Complete u (si_chain _ _ Hst i))
    as (e & He' & _); [simpl; lia|done|]. simpl in He, He'. congruence.
Qed.

(** The invariant moves along a move that leaves the stations, the map table,
    the out-of-order queues and the fields of the instructions alone, and
    takes only completed instructions out of the ROB. *)
Lemma live_transfer k s s' :
  stamp_inv k s → live_inv s →
  (∀ i, liveFields (getInst s' i) = liveFields (getInst s i)) →
  reservationStations s' = reservationStations s →
  mapTable s' = mapTable s →
  completeStage s' = completeStage s →
  executeStage s' = executeStage s →
  (∀ i, i ∈ robIds s' → i ∈ robIds s) →
  (∀ i, i ∈ robIds s → hasCompleted (getInst s i) = false → i ∈ robIds s') →
  live_inv s'.
Proof.
  intros Hst [Hbusy Hheld Hrob Hexec Hs1 Hs2 Hmap] Hf Hrs Hmt Hcq Heq Hsub Hkeep.
  assert (Hh : held s' = held s) by (unfold held; by rewrite Hrs).
  assert (F : ∀ i, hasCompleted (getInst s' i) = hasCompleted (getInst s i) ∧
                   hasIssued (getInst s' i) = hasIssued (getInst s i) ∧
                   dstOp (getInst s' i) = dstOp (getInst s i) ∧
                   dstPhysicalReg (getInst s' i) = dstPhysicalReg (getInst s i) ∧
                   srcOp1 (getInst s' i) = srcOp1 (getInst s i) ∧
                   srcOp2 (getInst s' i) = srcOp2 (getInst s i) ∧
                   srcPhysicalReg1 (getInst s' i) = srcPhysicalReg1 (getInst s i) ∧
                   srcPhysicalReg2 (getInst s' i) = srcPhysicalReg2 (getInst s i)).
  { intros i. specialize (Hf i). unfold liveFields in Hf.
    injection Hf as E1 E2 E3 E4 E5 E6 E7 E8. by split_and!. }
  assert (P : ∀ r w, producer s r w → producer s' r w).
  { intros r w (Hw & Hc & Hd & Hr). destruct (F w) as (E1 & _ & E3 & E4 & _).
    split_and!; [by apply Hkeep|congruence..]. }
  constructor.
  - intros r. rewrite Hrs. apply Hbusy.
  - intros i. rewrite Hh. intros Hi. apply Hkeep; [by apply Hheld|].
    by eapply held_not_completed.
  - intros i Hi%Hsub. destruct (F i) as (E1 & E2 & _).
    rewrite E1, E2, Hcq, Heq, Hh. by apply Hrob.
  - intros i. rewrite Heq, Hh. apply Hexec.
  - intros i. rewrite Hh. destruct (F i) as (_ & _ & _ & _ & E5 & _ & E7 & _).
    rewrite E5, E7. intros Hi Hn.
    destruct (Hs1 i Hi Hn) as [?|(w & Hw & Hlt)]; [by left|right].
    exists w. split; [by apply P|done].
  - intros i. rewrite Hh. destruct (F i) as (_ & _ & _ & _ & _ & E6 & _ & E8).
    rewrite E6, E8. intros Hi Hn.
    destruct (Hs2 i Hi Hn) as [?|(w & Hw & Hlt)]; [by left|right].
    exists w. split; [by apply P|done].
  - intros a r. rewrite Hmt. intros Ha.
    destruct (Hmap a r Ha) as [?|(w & Hw)]; [by left|right].
    exists w. by apply P.
Qed.

Lemma step_live_retire k s e s' :
  stamp_inv k s → live_inv s →
  getHead (rob s) = Some e →
  hasCompleted (getInst s (robInst e)) = true →
  retire_one e s = Ok s' → live_inv s'.
Proof.
  intros Hst Hl He Hc H.
  destruct (getHead_Some _ _ He) as [es Hq].
  assert (R : robIds s' = robInst <$> es).
  { unfold retire_one, setMapping in H. simpl in H.
    inv_ok; unfold robIds; simpl; known_ifs; simpl; by rewrite Hq. }
  apply (live_transfer k s s'); try done.
  - intros i. unfold retire_one, setMapping, liveFields in *. simpl in *.
    inv_ok; simpl; known_ifs; simpl; by pres.
  - unfold retire_one, setMapping in H. simpl in H.
    inv_ok; simpl; known_ifs; done.
  - unfold retire_one, setMapping in H. simpl in H.
    inv_ok; simpl; known_ifs; done.
  - unfold retire_one, setMapping in H. simpl in H.
    inv_ok; simpl; known_ifs; done.
  - unfold retire_one, setMapping in H. simpl in H.
    inv_ok; simpl; known_ifs; done.
  - intros i. rewrite R. unfold robIds. rewrite Hq, fmap_cons. set_solver.
  - intros i. rewrite R. unfold robIds. rewrite Hq, fmap_cons.
    intros [->|Hi]%elem_of_cons Hn; [|done]. simpl in *. congruence.
Qed.

Lemma step_live_easy k s s' :
  stamp_inv k s → live_inv s →
  (step 6 s s' ∨ step 7 s s' ∨ s' = set_hasProgress true s) →
  live_inv s'.
Proof.
  intros Hst Hl H.
  apply (live_transfer k s s'); try done;
    destruct H as [H|[H| ->]]; try done; inversion H; subst;
    unfold decode_one, fetch_one, liveFields, robIds; simpl;
    try case_match; simpl; try done; intros; by pres.
Qed.

Lemma step_live_issue s r i :
  live_inv s → r ∈ reservationStations s → issueCandidate s r = Some i →
  live_inv (issue_one i (executeStage s ++ [i]) s).
Proof.
  intros [Hbusy Hheld Hrob Hexec Hs1 Hs2 Hmap] Hr Hc.
  apply issueCandidate_Some in Hc as [Hi _].
  assert (Hhi : i ∈ held s).
  { unfold held. apply list_elem_of_omap. by exists r. }
  assert (P : ∀ x w, producer s x w →
              producer (issue_one i (executeStage s ++ [i]) s) x w).
  { intros x w (Hw & Hc & Hd & Hx). unfold producer, issue_one, robIds in *.
    simpl in *. pres. done. }
  unfold issue_one. constructor; unfold held, robIds in *; simpl in *.
  - done.
  - done.
  - intros j Hj. pres.
    destruct (Hrob j Hj) as [?|[?|[Hh Hx]]]; [by left|by right; left|].
    right. right. split; [done|].
    destruct (decide (j = i)) as [->|Hne]; [right; set_solver|].
    rewrite nthInst_alter_ne by done.
    destruct Hx as [?|?]; [by left|right; set_solver].
  - intros j [Hj| ->%list_elem_of_singleton]%elem_of_app; [by apply Hexec|done].
  - intros j Hj. pres. intros Hn.
    destruct (Hs1 j Hj Hn) as [?|(w & Hw & Hlt)]; [by left|right].
    exists w. split; [by apply P|done].
  - intros j Hj. pres. intros Hn.
    destruct (Hs2 j Hj Hn) as [?|(w & Hw & Hlt)]; [by left|right].
    exists w. split; [by apply P|done].
  - intros a x Ha.
    destruct (Hmap a x Ha) as [?|(w & Hw)]; [by left|right].
    exists w. by apply P.
Qed.

Lemma step_live_execute s i rest s' :
  stamp_inv 3 s → live_inv s → executeStage s = i :: rest →
  execute_one i rest (completeStage s ++ [i]) s = Ok s' → live_inv s'.
Proof.
  intros Hst [Hbusy Hheld Hrob Hexec Hs1 Hs2 Hmap] Hq H.
  assert (Hhi : i ∈ held s) by (apply Hexec; rewrite Hq; left).
  apply elem_of_held in Hhi as (a & ra & Ha & Hra).
  destruct (si_station _ _ Hst a ra i Ha Hra) as (Hal & _).
  pose proof (si_execute_nd _ _ Hst) as Hnd. rewrite Hq in Hnd.
  apply NoDup_cons in Hnd as [Hni _].
  unfold execute_one in H. simpl in *. inv_ok. pres.
  rewrite Hal in Heqo0. injection Heqo0 as <-.
  set (l' := alter (setExecTime (rsExecTime r)) i
               (alter (setExecuteCycle (cycle s)) i (instructionsList s))).
  assert (F : ∀ j, liveFields (nthInst l' j)
                   = liveFields (nthInst (instructionsList s) j)).
  { intros j. unfold l', liveFields. by pres. }
  assert (F' : ∀ j, hasCompleted (nthInst l' j) = hasCompleted (nthInst (instructionsList s) j) ∧
                   hasIssued (nthInst l' j) = hasIssued (nthInst (instructionsList s) j) ∧
                   dstOp (nthInst l' j) = dstOp (nthInst (instructionsList s) j) ∧
                   dstPhysicalReg (nthInst l' j) = dstPhysicalReg (nthInst (instructionsList s) j) ∧
                   srcOp1 (nthInst l' j) = srcOp1 (nthInst (instructionsList s) j) ∧
                   srcOp2 (nthInst l' j) = srcOp2 (nthInst (instructionsList s) j) ∧
                   srcPhysicalReg1 (nthInst l' j) = srcPhysicalReg1 (nthInst (instructionsList s) j) ∧
                   srcPhysicalReg2 (nthInst l' j) = srcPhysicalReg2 (nthInst (instructionsList s) j)).
  { intros j. specialize (F j). unfold liveFields in F.
    injection F as E1 E2 E3 E4 E5 E6 E7 E8. by split_and!. }
  clearbody l'. clear F.
  constructor; unfold held, robIds, producer in *; simpl in *.
  - intros r0 Hr0. apply list_elem_of_lookup in Hr0 as [j Hj].
    destruct (decide (j = a)) as [->|Hne].
    + rewrite list_lookup_alter, decide_True, Ha in Hj by done.
      injection Hj as <-. simpl. split; [done|by intros []].
    + rewrite list_lookup_alter_ne in Hj by done.
      apply Hbusy. by eapply list_elem_of_lookup_2.
  - intros j Hj%omap_alter_free. by apply Hheld.
  - intros j Hj. destruct (F' j) as (E1 & E2 & _). rewrite E1, E2.
    destruct (decide (j = i)) as [->|Hne]; [right; left; set_solver|].
    destruct (Hrob j Hj) as [?|[?|[Hh Hx]]];
      [by left|right; left; set_solver|].
    right. right. split; [by eapply omap_alter_free_other|].
    destruct Hx as [?|Hx]; [by left|right]. rewrite Hq in Hx. set_solver.
  - intros j Hj. eapply omap_alter_free_other; [done..| |set_solver].
    apply Hexec. rewrite Hq. by right.
  - intros j Hj%omap_alter_free.
    destruct (F' j) as (_ & _ & _ & _ & E5 & _ & E7 & _). rewrite E5, E7.
    intros Hn. destruct (Hs1 j Hj Hn) as [?|(w & Hw & Hlt)]; [by left|right].
    exists w. destruct (F' w) as (E1 & _ & E3 & E4 & _).
    by rewrite E1, E3, E4.
  - intros j Hj%omap_alter_free.
    destruct (F' j) as (_ & _ & _ & _ & _ & E6 & _ & E8). rewrite E6, E8.
    intros Hn. destruct (Hs2 j Hj Hn) as [?|(w & Hw & Hlt)]; [by left|right].
    exists w. destruct (F' w) as (E1 & _ & E3 & E4 & _).
    by rewrite E1, E3, E4.
  - intros b x Hb.
    destruct (Hmap b x Hb) as [?|(w & Hw)]; [by left|right].
    exists w. destruct (F' w) as (E1 & _ & E3 & E4 & _).
    by rewrite E1, E3, E4.
Qed.

Lemma insert_true_keeps (l : list bool) k k' :
  l !! k = Some true → <[k' := true]> l !! k = Some true.
Proof.
  intros Hk. destruct (decide (k = k')) as [->|Hne].
  - rewrite list_lookup_insert_eq; [done|]. by eapply lookup_lt_Some.
  - by rewrite list_lookup_insert_ne.
Qed.

Lemma step_live_complete s j i s' :
  stamp_inv 2 s → live_inv s → completeStage s !! j = Some i →
  complete_one i j s = Ok s' → live_inv s'.
Proof.
  intros Hst [Hbusy Hheld Hrob Hexec Hs1 Hs2 Hmap] Hj H.
  assert (Hic : i ∈ completeStage s) by (by eapply list_elem_of_lookup_2).
  destruct (si_complete _ _ Hst i Hic) as (_ & e & He & _).
  pose proof (stamp_in_range _ _ Execute _ He) as Hi.
  assert (Hrange : ∀ x, x ∈ held s → is_Some (instructionsList s !! x)).
  { intros x (a & ra & Ha & Hra)%elem_of_held.
    destruct (si_station _ _ Hst a ra x Ha Hra) as (_ & _ & _ & d & Hd & _).
    by apply (stamp_in_range _ _ Dispatch d). }
  set (r := regNum (dstPhysicalReg (getInst s i))).
  set (l1 := broadcastList r (reservationStations s) (instructionsList s)).
  set (l2 := alter (setCompleteCycle (cycle s)) i l1).
  assert (Hi1 : is_Some (l1 !! i)) by (by apply broadcastList_in_range).
  assert (E : instructionsList s' = l2 ∧
              reservationStations s' = reservationStations s ∧
              rob s' = rob s ∧ executeStage s' = executeStage s ∧
              completeStage s' = delete j (completeStage s) ∧
              mapping (mapTable s') = mapping (mapTable s) ∧
              (∀ k, readyBits (mapTable s) !! k = Some true →
                    readyBits (mapTable s') !! k = Some true) ∧
              (dstOp (getInst s i) ≠ NONE →
               readyBits (mapTable s') !! Z.to_nat r = Some true)).
  { unfold complete_one, setReadyBit in H. rewrite broadcast_eq in H.
    simpl in H. pres.
    inv_ok; simpl; split_and!; try done.
    - intros k. apply insert_true_keeps.
    - intros _. apply zlookup_Some in Heqo as [_ Hl].
      rewrite list_lookup_insert_eq; [done|]. by eapply lookup_lt_Some.
    - intros Hn. apply negb_false_iff, Z.eqb_eq in Heqb. done. }
  destruct E as (El & Ers & Erob & Eex & Ecq & Emp & Erb & Ehit).
  assert (Hsame : ∀ {A} (f : Instruction → A) x,
            (∀ c y, f (setCompleteCycle c y) = f y) →
            (∀ y, f (markSrcReady r y) = f y) →
            f (nthInst l2 x) = f (nthInst (instructionsList s) x)).
  { intros A f x H1 H2. unfold l2, l1.
    rewrite nthInst_alter_pres by (intros; apply H1).
    by apply broadcastList_pres. }
  assert (Hc : ∀ x, x ≠ i →
            hasCompleted (nthInst l2 x) = hasCompleted (nthInst (instructionsList s) x)).
  { intros x Hne. unfold l2. rewrite nthInst_alter_ne by done.
    unfold l1. apply broadcastList_pres.
    apply markSrcReady_pres; by intros ? []. }
  assert (P : ∀ x w, w ≠ i → producer s x w → producer s' x w).
  { intros x w Hne (Hw & Hcw & Hd & Hx).
    unfold producer, robIds in *. simpl in *. rewrite El, Erob, Hc by done.
    rewrite !Hsame; try done; try (by intros ? []);
      intros; apply markSrcReady_pres; by intros ? []. }
  constructor; unfold held, robIds in *; simpl; rewrite ?El, ?Ers, ?Erob, ?Eex.
  - done.
  - done.
  - intros x Hx.
    destruct (decide (x = i)) as [->|Hne].
    { left. unfold l2. by rewrite nthInst_alter_eq. }
    rewrite Hc by done.
    rewrite (Hsame _ hasIssued); [|by intros ? []|
      intros; apply markSrcReady_pres; by intros ? []].
    destruct (Hrob x Hx) as [?|[Hq|?]]; [by left| |by right; right].
    right. left. rewrite Ecq.
    apply list_elem_of_lookup in Hq as [k Hk].
    assert (k ≠ j).
    { intros ->. pose proof (eq_trans (eq_sym Hj) Hk) as EE. by injection EE. }
    apply list_elem_of_lookup.
    destruct (decide (k < j)).
    + exists k. unfold PipelineStage. by rewrite list_lookup_delete_lt.
    + exists (k - 1). unfold PipelineStage.
      rewrite list_lookup_delete_ge by lia.
      by replace (S (k - 1)) with k by lia.
  - done.
  - intros x Hx.
    rewrite (Hsame _ srcOp1); [|by intros ? []|
      intros; apply markSrcReady_pres; by intros ? []].
    intros Hn. unfold l2. rewrite !nthInst_alter_pres by (by intros []).
    destruct (Hs1 x Hx Hn) as [Hr|(w & Hw & Hlt)].
    { left. apply (broadcastList_mono
                     (λ y, isReady (srcPhysicalReg1 y) = true)); [|done].
      intros y. apply markSrcReady_mono1. }
    destruct (decide (w = i)) as [->|Hne].
    + left. destruct Hw as (_ & _ & _ & Hreg).
      apply (broadcastList_hit (λ y, isReady (srcPhysicalReg1 y) = true));
        [intros y; apply markSrcReady_mono1| |done|by apply Hrange].
      by apply markSrcReady_hit1.
    + right. exists w. split; [|done].
      unfold l1. rewrite (broadcastList_pres (λ y, regNum (srcPhysicalReg1 y)))
        by apply markSrcReady_regNum1.
      by apply P.
  - intros x Hx.
    rewrite (Hsame _ srcOp2); [|by intros ? []|
      intros; apply markSrcReady_pres; by intros ? []].
    intros Hn. unfold l2. rewrite !nthInst_alter_pres by (by intros []).
    destruct (Hs2 x Hx Hn) as [Hr|(w & Hw & Hlt)].
    { left. apply (broadcastList_mono
                     (λ y, isReady (srcPhysicalReg2 y) = true)); [|done].
      intros y. apply markSrcReady_mono2. }
    destruct (decide (w = i)) as [->|Hne].
    + left. destruct Hw as (_ & _ & _ & Hreg).
      apply (broadcastList_hit (λ y, isReady (srcPhysicalReg2 y) = true));
        [intros y; apply markSrcReady_mono2| |done|by apply Hrange].
      by apply markSrcReady_hit2.
    + right. exists w. split; [|done].
      unfold l1. rewrite (broadcastList_pres (λ y, regNum (srcPhysicalReg2 y)))
        by apply markSrcReady_regNum2.
      by apply P.
  - intros a x. rewrite Emp. intros Ha.
    destruct (Hmap a x Ha) as [Hr|(w & Hw)]; [left; by apply Erb|].
    destruct (decide (w = i)) as [->|Hne]; [|right; exists w; by apply P].
    left. destruct Hw as (_ & _ & Hd & <-). by apply Ehit.
Qed.

(** ** What [dispatch] does to one instruction *)

Lemma dispatch_one_effect s i k s' :
  dispatch_one i k s = Ok s' → is_Some (instructionsList s !! i) →
  (∀ x, x ≠ i → getInst s' x = getInst s x) ∧
  hasCompleted (getInst s' i) = hasCompleted (getInst s i) ∧
  hasIssued (getInst s' i) = hasIssued (getInst s i) ∧
  operands (getInst s' i) = operands (getInst s i) ∧
  getMapping (mapTable s) (srcOp1 (getInst s i))
    = Ok (srcPhysicalReg1 (getInst s' i)) ∧
  (srcOp2 (getInst s i) ≠ NONE →
   getMapping (mapTable s) (srcOp2 (getInst s i))
     = Ok (srcPhysicalReg2 (getInst s' i))) ∧
  reservationStations s' = alter (allocate i) k (reservationStations s) ∧
  executeStage s' = executeStage s ∧ completeStage s' = completeStage s ∧
  dispatchStage s' = tail (dispatchStage s) ∧
  archMappingTable s' = archMappingTable s ∧
  ((dstOp (getInst s i) = NONE ∧ mapTable s' = mapTable s ∧
    robQueue (rob s') = robQueue (rob s) ++ [mkROBEntry i defaultReg defaultReg])
   ∨
   (dstOp (getInst s i) ≠ NONE ∧
    ∃ T0 fl told b,
      freeList s = T0 :: fl ∧
      dstPhysicalReg (getInst s' i) = setReady false T0 ∧
      zlookup (mapping (mapTable s)) (dstOp (getInst s i)) = Some told ∧
      is_Some (zlookup (readyBits (mapTable s)) (regNum T0)) ∧
      mapTable s' = mkMapTable
        (<[Z.to_nat (dstOp (getInst s i)) := regNum T0]> (mapping (mapTable s)))
        (<[Z.to_nat (regNum T0) := false]> (readyBits (mapTable s))) ∧
      robQueue (rob s') = robQueue (rob s)
                          ++ [mkROBEntry i (setReady false T0) (mkPR told b)])).
Proof.
  intros H Hi.
  inv_dispatch H; rewrite ?alter_alter.
  all: split; [intros x Hx; by apply nthInst_alter_ne|].
  all: rewrite ?nthInst_alter_eq by done; simpl.
  all: repeat match goal with
           | H : negb (_ =? _)%Z = false |- _ =>
               apply negb_false_iff, Z.eqb_eq in H
           | H : negb (_ =? _)%Z = true |- _ =>
               apply negb_true_iff, Z.eqb_neq in H
           end.
  all: split_and!; try done.
  all: try (by left).
  all: try (intros _).
  all: try (unfold getMapping;
            by repeat match goal with
                      | H : zlookup _ _ = Some _ |- context [zlookup _ _] =>
                          rewrite H
                      end).
  all: right; (split; [done|]); eexists _, _, _, _; split_and!; try done;
    eauto.
Qed.

Lemma step_live_dispatch c p s i rest k s' :
  kernel_inv c 5 s → shape_inv c p s → live_inv s →
  dispatchStage s = i :: rest →
  findFreeRS (getReservationStation (getInst s i)) 0
             (reservationStations s) = Some k →
  dispatch_one i k s = Ok s' → live_inv s'.
Proof.
  intros (Hst & Hord & Hreg & _) Hsh [Hbusy Hheld Hrob Hexec Hs1 Hs2 Hmap]
    Hq Hk H.
  destruct (si_dispatch _ _ Hst i) as (Hdn & a0 & Ha0 & _); [rewrite Hq; left|].
  pose proof (stamp_in_range _ _ Decode _ Ha0) as Hi.
  (* the instructions of the ROB precede [i] *)
  assert (Hlt : ∀ w, w ∈ robIds s → w < i).
  { destruct (ord_layout s Hord) as (r & H1 & H2 & _).
    rewrite Hq in H2. simpl in H2. injection H2 as H2 _.
    intros w Hw. rewrite H1 in Hw. apply elem_of_seq in Hw. lia. }
  (* [i] is fresh *)
  pose proof (si_chain _ _ Hst i) as Hch.
  assert (Hfc : hasCompleted (getInst s i) = false).
  { destruct (hasCompleted (getInst s i)) eqn:E; [|done].
    apply (sh_completed _ _ _ Hsh) in E.
    apply (is_Some_earlier _ Dispatch Complete) in E; [|done|simpl; lia].
    simpl in *. rewrite Hdn in E. by destruct E. }
  assert (Hfi : hasIssued (getInst s i) = false).
  { destruct (hasIssued (getInst s i)) eqn:E; [|done].
    apply (sh_issued _ _ _ Hsh) in E.
    apply (is_Some_earlier _ Dispatch Issue) in E; [|done|simpl; lia].
    simpl in *. rewrite Hdn in E. by destruct E. }
  (* the station is free *)
  apply findFreeRS_Some in Hk as (rk & Hrk & _ & Hbk & _).
  rewrite Nat.sub_0_r in Hrk.
  assert (Hik : rsInst rk = None).
  { destruct (rsInst rk) eqn:E; [|done].
    assert (Hb : rsBusy rk = true).
    { apply Hbusy; [by eapply list_elem_of_lookup_2|by rewrite E]. }
    congruence. }
  destruct (dispatch_one_effect s i k s' H Hi)
    as (Eo & Ec & Eis & Eop & Em1 & Em2 & Ers & Eex & Ecq & _ & _ & Edst).
  assert (Erob : robIds s' = robIds s ++ [i]).
  { unfold robIds. destruct Edst as [(_ & _ & ->)|(_ & ? & ? & ? & ? & _ & _ & _ & _ & _ & ->)];
      by rewrite fmap_app. }
  assert (Eops : srcOp1 (getInst s' i) = srcOp1 (getInst s i) ∧
                 srcOp2 (getInst s' i) = srcOp2 (getInst s i) ∧
                 dstOp (getInst s' i) = dstOp (getInst s i)).
  { unfold operands in Eop. simpl in *. split_and!; congruence. }
  destruct Eops as (Eo1 & Eo2 & Eod).
  assert (Hh1 : ∀ x, x ∈ held s' → x = i ∨ x ∈ held s).
  { intros x. unfold held. rewrite Ers. apply omap_alter_allocate. }
  assert (Hh2 : ∀ x, x ∈ held s → x ∈ held s').
  { intros x. unfold held. rewrite Ers. by eapply omap_alter_allocate_old. }
  assert (Hh3 : i ∈ held s').
  { unfold held. rewrite Ers. by eapply omap_alter_allocate_new. }
  assert (P : ∀ x w, producer s x w → producer s' x w ∧ w < i).
  { intros x w (Hw & Hcw & Hd & Hx). pose proof (Hlt w Hw) as Hwi.
    split; [|done]. unfold producer. rewrite Erob, Eo by lia.
    split_and!; [set_solver|done..]. }
  assert (Hsrc : ∀ a pr, getMapping (mapTable s) a = Ok pr →
            isReady pr = true ∨ ∃ w, producer s' (regNum pr) w ∧ w < i).
  { intros a pr Hg. unfold getMapping in Hg.
    destruct (zlookup (mapping (mapTable s)) a) as [x|] eqn:E1; [|done].
    destruct (zlookup (readyBits (mapTable s)) x) as [b|] eqn:E2; [|done].
    injection Hg as <-. simpl.
    apply zlookup_Some in E1 as [_ E1]. apply zlookup_Some in E2 as [_ E2].
    destruct (Hmap _ _ E1) as [Hr|(w & Hw)]; [left; congruence|right].
    exists w. by apply P. }
  constructor.
  - intros r0 Hr0. rewrite Ers in Hr0.
    apply list_elem_of_lookup in Hr0 as [j Hj].
    destruct (decide (j = k)) as [->|Hne].
    + rewrite list_lookup_alter, decide_True, Hrk in Hj by done.
      injection Hj as <-. simpl. split; [by eauto|done].
    + rewrite list_lookup_alter_ne in Hj by done.
      apply Hbusy. by eapply list_elem_of_lookup_2.
  - intros x [->|Hx]%Hh1; rewrite Erob; [set_solver|].
    apply elem_of_app. left. by apply Hheld.
  - intros x. rewrite Erob. intros [Hx| ->%list_elem_of_singleton]%elem_of_app.
    + rewrite Eo by (pose proof (Hlt x Hx); lia). rewrite Ecq, Eex.
      destruct (Hrob x Hx) as [?|[?|[Hh ?]]];
        [by left|by right; left|right; right]. split; [by apply Hh2|done].
    + right. right. split; [done|]. left. congruence.
  - intros x. rewrite Eex. intros Hx. by apply Hh2, Hexec.
  - intros x Hx. destruct (decide (x = i)) as [->|Hne].
    + rewrite Eo1. intros _. by apply (Hsrc (srcOp1 (getInst s i))).
    + destruct (Hh1 x Hx) as [?|Hx0]; [done|]. rewrite Eo by done.
      intros Hn. destruct (Hs1 x Hx0 Hn) as [?|(w & Hw & Hwx)]; [by left|].
      right. exists w. split; [by apply P|done].
  - intros x Hx. destruct (decide (x = i)) as [->|Hne].
    + rewrite Eo2. intros Hn. by apply (Hsrc (srcOp2 (getInst s i))), Em2.
    + destruct (Hh1 x Hx) as [?|Hx0]; [done|]. rewrite Eo by done.
      intros Hn. destruct (Hs2 x Hx0 Hn) as [?|(w & Hw & Hwx)]; [by left|].
      right. exists w. split; [by apply P|done].
  - intros a x Ha.
    destruct Edst as [(_ & Emt & _)|(Hd & T0 & fl & told & b & Efl & Edp & Ezl & [bT HbT] & Emt & _)].
    { rewrite Emt in Ha |- *.
      destruct (Hmap a x Ha) as [?|(w & Hw)]; [by left|right].
      exists w. by apply P. }
    rewrite Emt in Ha |- *. simpl in Ha |- *.
    apply zlookup_Some in Ezl as [Hd0 Ezl]. apply zlookup_Some in HbT as [HT0 HbT].
    destruct (decide (a = Z.to_nat (dstOp (getInst s i)))) as [->|Hne].
    + rewrite list_lookup_insert_eq in Ha by (by eapply lookup_lt_Some).
      injection Ha as <-. right. exists i. unfold producer.
      rewrite Erob, Ec, Eod, Edp. split_and!; [set_solver|done..].
    + rewrite list_lookup_insert_ne in Ha by done.
      pose proof (mapping_in_range c s a x Hreg Ha) as Hx.
      assert (x ≠ regNum T0).
      { pose proof (regs_NoDup c s Hreg) as Hnd. unfold regs in Hnd.
        rewrite Efl, fmap_cons in Hnd. simpl in Hnd.
        apply NoDup_cons in Hnd as [Hni _]. intros ->. apply Hni.
        rewrite !elem_of_app. right. left. by eapply list_elem_of_lookup_2. }
      destruct (Hmap a x Ha) as [Hr|(w & Hw)].
      * left. rewrite list_lookup_insert_ne by lia. done.
      * right. exists w. by apply P.
Qed.

Lemma step_live c p k s s' :
  step k s s' → kernel_inv c k s → shape_inv c p s → live_inv s → live_inv s'.
Proof.
  intros Hstep HK Hsh Hl. pose proof HK as (Hst & _).
  inversion Hstep; subst.
  - by eapply step_live_retire.
  - by eapply step_live_complete.
  - eapply step_live_easy; eauto.
  - by eapply step_live_execute.
  - by eapply step_live_issue.
  - by eapply step_live_dispatch.
  - eapply step_live_easy; eauto.
  - eapply step_live_easy; eauto.
  - eapply step_live_easy; eauto.
Qed.

Lemma start_live c p : live_inv (start c p).
Proof.
  unfold start. rewrite loadProgram_eq. constructor; simpl.
  - intros r Hr. unfold newReservationStation in Hr.
    set_unfold. destruct Hr as [->|[->|[->|[->|[]]]]]; simpl;
      (split; [done|by intros []]).
  - intros i Hi. unfold held in Hi. simpl in Hi. set_solver.
  - intros i Hi. unfold robIds in Hi. simpl in Hi. set_solver.
  - intros i Hi. set_solver.
  - intros i Hi. unfold held in Hi. simpl in Hi. set_solver.
  - intros i Hi. unfold held in Hi. simpl in Hi. set_solver.
  - intros a r Ha. left. apply lookup_seqZ in Ha as [-> Ha].
    apply lookup_replicate. split; [done|]. lia.
Qed.

Lemma reachable_live c p n s :
  reachable c p n s → (Z.of_nat n < 4294967296)%Z → live_inv s.
Proof.
  apply (reachable_inv2 c p live_inv live_inv).
  - apply start_live.
  - intros s0 (Hst & _) _ _ Hl.
    apply (live_transfer 0 s0); try done.
  - intros k s0 s' Hstep HK Hsh _ Hl. by eapply step_live.
  - intros s0 (Hst & _) _ _ Hl.
    apply (live_transfer 7 s0); try done.
Qed.

(** * A tick that moves nothing *)

Lemma retire_loop_still n s s' :
  retire_loop (S n) s = Ok s' → hasProgress s' = false →
  s' = s ∧ retireBlocked s.
Proof.
  intros H Hp. simpl in H. unfold retireBlocked.
  destruct (getHead (rob s)) as [e|]; [|by inv_ok].
  destruct (hasCompleted _) eqn:E; simpl in H; [|by inv_ok].
  inv_ok. apply retire_loop_quiet in H as [H _].
  rewrite H in Hp; [done|].
  unfold retire_one in Ha. simpl in Ha. inv_ok; done.
Qed.

Lemma complete_loop_still n s s' :
  complete_loop (S n) s = Ok s' → hasProgress s' = false →
  s' = s ∧ completeStage s = [].
Proof.
  intros H Hp. pose proof (complete_loop_progress _ _ _ H) as [_ Hq].
  destruct (completeStage s) eqn:E.
  - simpl in H. rewrite E in H. by inv_ok.
  - rewrite Hq in Hp; [done|]. right. split; [done|lia].
Qed.

Lemma execute_loop_still n s s' :
  execute_loop (S n) s = Ok s' → hasProgress s' = false →
  s' = s ∧ executeStage s = [].
Proof.
  intros H Hp. simpl in H.
  destruct (executeStage s) as [|i rest] eqn:E; [by inv_ok|].
  simpl in H. inv_ok. apply execute_loop_quiet in H as [H _].
  rewrite H in Hp; [done|].
  unfold execute_one in Ha. simpl in Ha. inv_ok. done.
Qed.

Lemma issue_scan_still rs wc s ret wc' s' :
  issue_scan rs wc s = (ret, wc', s') → wc < width s →
  hasProgress s' = false → Forall (λ r, issueCandidate s r = None) rs.
Proof.
  revert wc s. induction rs as [|r rs IH]; intros wc s H Hw Hp; simpl in H;
    [done|].
  destruct (issueCandidate s r) as [i|] eqn:Hc.
  - destruct (Nat.ltb_spec (width s) (S wc)); [lia|].
    simpl in H. apply issue_scan_quiet in H as [H _].
    rewrite H in Hp; done.
  - constructor; [done|]. by eapply IH.
Qed.

Lemma issue_still s :
  0 < width s → hasProgress (issue s) = false →
  issue s = s ∧ ∀ r, r ∈ reservationStations s → issueCandidate s r = None.
Proof.
  intros Hw Hp. unfold issue in *.
  destruct (width s) as [|w] eqn:E; [lia|].
  assert (F : Forall (λ r, issueCandidate s r = None) (reservationStations s)).
  { simpl in Hp.
    destruct (issue_scan _ _ _) as [[ret wc'] s'] eqn:Hs.
    apply (issue_scan_still _ _ _ _ _ _ Hs); [lia|].
    destruct ret; [done|].
    pose proof (issue_loop_quiet w wc' s') as [Hq _].
    destruct (hasProgress s') eqn:E'; [|done]. by rewrite Hq in Hp. }
  split.
  - apply issue_loop_idle. by apply omap_eq_nil.
  - by apply Forall_forall.
Qed.

Lemma dispatch_loop_still n s s' :
  dispatch_loop (S n) s = Ok s' → hasProgress s' = false →
  s' = s ∧ (dispatchStage s = [] ∨
            ∃ i rest, dispatchStage s = i :: rest ∧ dispatchStalled s i).
Proof.
  intros H Hp. simpl in H.
  destruct (dispatchStage s) as [|i rest] eqn:E; [inv_ok; auto|].
  unfold dispatchStalled.
  destruct (hasFreeEntry (rob s)) eqn:Hrob; simpl in H;
    [|inv_ok; split; [done|right; eauto]].
  destruct (findFreeRS _ _ _) as [k|] eqn:Hrs;
    [|inv_ok; split; [done|right; eauto 6]].
  destruct (Z.eqb_spec (dstOp (getInst s i)) NONE) as [Hd|Hd];
    simpl in *; [rewrite Hd in H; simpl in H|].
  - inv_ok. apply dispatch_loop_quiet in H as [H _].
    rewrite H in Hp; [done|]. inv_dispatch Ha; done.
  - apply Z.eqb_neq in Hd as Hd'. rewrite Hd' in H. simpl in H.
    destruct (freeList s) as [|T0 fl] eqn:Hfl; simpl in H.
    + inv_ok. split; [done|]. right. exists i, rest. split; [done|].
      right. right. done.
    + inv_ok. apply dispatch_loop_quiet in H as [H _].
      rewrite H in Hp; [done|]. inv_dispatch Ha; done.
Qed.

Lemma decode_loop_still n s :
  hasProgress (decode_loop (S n) s) = false →
  decode_loop (S n) s = s ∧ decodeStage s = [].
Proof.
  simpl. destruct (decodeStage s) as [|i rest] eqn:E; [done|].
  intros Hp. simpl in Hp.
  pose proof (decode_loop_quiet n (decode_one i rest (dispatchStage s ++ [i]) s))
    as [H _].
  rewrite H in Hp; done.
Qed.

Lemma fetch_loop_still n s :
  hasProgress (fetch_loop (S n) s) = false →
  isFetching s = false ∨ length (instructionsList s) ≤ fetchPtr s.
Proof.
  simpl. destruct (isFetching s); simpl; [|by left].
  destruct (Nat.leb_spec (length (instructionsList s)) (fetchPtr s));
    [by right|].
  intros Hp.
  pose proof (fetch_loop_quiet n (fetch_one (decodeStage s ++ [fetchPtr s]) s))
    as [Hq _].
  rewrite Hq in Hp; [done|]. unfold fetch_one. simpl. by case_match.
Qed.

(** A state in which no stage can move has retired every instruction: the
    head of the ROB would be a candidate of [issue], and the front of the
    dispatch queue finds the ROB, the stations and the free list empty of
    obstacles. *)
Lemma still_finished c p k t :
  sane c → kernel_inv c k t → shape_inv c p t → live_inv t → retired_inv t →
  freePhysRegsPrevCycle t = [] →
  retireBlocked t → completeStage t = [] → executeStage t = [] →
  (∀ r, r ∈ reservationStations t → issueCandidate t r = None) →
  (dispatchStage t = [] ∨
   ∃ i rest, dispatchStage t = i :: rest ∧ dispatchStalled t i) →
  decodeStage t = [] →
  (isFetching t = false ∨ length (instructionsList t) ≤ fetchPtr t) →
  isFinished t = true.
Proof.
  intros Hsane (Hst & Hord & Hreg & _) Hsh [Hbusy Hheld Hrob Hexec Hs1 Hs2 Hmap]
    Hret Hfp Hrb Hcq Heq Hcand Hdq Hdec Hfet.
  apply andb_true_iff in Hsane as [Hsane Hphys].
  apply andb_true_iff in Hsane as [Hwid Hent].
  apply Nat.ltb_lt in Hwid, Hent, Hphys.
  destruct (ord_layout t Hord) as (r & L1 & L2 & L3 & L4 & _).
  assert (Hlen : length (instructionsList t) ≤ fetchPtr t).
  { destruct Hfet as [Hf|?]; [|done]. by apply (sh_fetching _ _ _ Hsh). }
  (* the ROB is empty *)
  assert (A : robQueue (rob t) = []).
  { destruct (robQueue (rob t)) as [|e es] eqn:Hq; [done|exfalso].
    unfold retireBlocked, getHead in Hrb. rewrite Hq in Hrb. simpl in Hrb.
    set (h := robInst e) in *.
    assert (Hh : h ∈ robIds t) by (unfold robIds; rewrite Hq; left).
    assert (Hmin : ∀ w, w ∈ robIds t → h ≤ w).
    { intros w Hw. rewrite L1 in Hw. apply elem_of_seq in Hw.
      unfold robIds in L1. rewrite Hq in L1. simpl in L1.
      injection L1 as L1 _. fold h in L1. lia. }
    destruct (Hrob h Hh) as [Hc|[Hc|[Hhh [Hi|Hx]]]].
    - simpl in *. congruence.
    - rewrite Hcq in Hc. by apply elem_of_nil in Hc.
    - pose proof Hhh as Hhh'.
      apply elem_of_held in Hhh as (j & ra & Hj & Hra).
      assert (Hin : ra ∈ reservationStations t)
        by (by eapply list_elem_of_lookup_2).
      pose proof (Hcand ra Hin) as Hn.
      unfold issueCandidate, isReadyToExecute in Hn. rewrite Hra in Hn.
      assert (Hb : rsBusy ra = true) by (apply Hbusy; [done|by rewrite Hra]).
      rewrite Hb in Hn. simpl in Hi, Hn. rewrite Hi in Hn. simpl in Hn.
      destruct (srcsReady _) eqn:Hsr; [done|]. clear Hn.
      unfold srcsReady in Hsr. apply andb_false_iff in Hsr as [Hsr|Hsr];
        apply orb_false_iff in Hsr as [Ho Hr]; apply Z.eqb_neq in Ho.
      + destruct (Hs1 h Hhh' Ho) as [Hy|(w & (Hw & _) & Hlt)];
          [simpl in *; congruence|].
        apply Hmin in Hw. lia.
      + destruct (Hs2 h Hhh' Ho) as [Hy|(w & (Hw & _) & Hlt)];
          [simpl in *; congruence|].
        apply Hmin in Hw. lia.
    - rewrite Heq in Hx. by apply elem_of_nil in Hx. }
  assert (A' : robIds t = []) by (unfold robIds; by rewrite A).
  assert (Hfree : ∀ ra, ra ∈ reservationStations t → rsBusy ra = false).
  { intros ra Hra. destruct (rsBusy ra) eqn:Hb; [|done].
    apply (Hbusy ra Hra) in Hb as [x Hx].
    assert (Hxh : x ∈ held t).
    { unfold held. apply list_elem_of_omap. by exists ra. }
    apply Hheld in Hxh. rewrite A' in Hxh. by apply elem_of_nil in Hxh. }
  (* the dispatch queue is empty *)
  assert (B : dispatchStage t = []).
  { destruct Hdq as [?|(i & rest & Hq & [Hs|[Hs|[Hd Hs]]])]; [done|exfalso..].
    - unfold hasFreeEntry in Hs. rewrite A in Hs. simpl in Hs.
      rewrite (sh_cap _ _ _ Hsh) in Hs. apply Nat.ltb_ge in Hs. lia.
    - pose proof (findFreeRS_None _ _ _ Hs) as Hall.
      pose proof (sh_stations _ _ _ Hsh) as Hty.
      destruct (reservationStations t) as [|r1 [|r2 [|r3 [|r4 [|]]]]];
        try done. simpl in Hty. injection Hty as T1 _ T2 _ T3 _ T4 _.
      destruct (getReservationStation (getInst t i)) eqn:Et.
      + specialize (Hall r1 ltac:(set_solver) T1).
        rewrite Hfree in Hall; [done|set_solver].
      + specialize (Hall r3 ltac:(set_solver) T3).
        rewrite Hfree in Hall; [done|set_solver].
      + specialize (Hall r4 ltac:(set_solver) T4).
        rewrite Hfree in Hall; [done|set_solver].
    - apply Permutation_length in Hreg. unfold regs, robTolds, allRegs in Hreg.
      rewrite A, Hs, Hfp in Hreg. simpl in Hreg.
      rewrite app_nil_r, length_seqZ in Hreg.
      destruct (sh_map _ _ _ Hsh) as [Hm _]. lia. }
  rewrite A', B, Hdec in L4. simpl in L4.
  unfold isFinished. apply forallb_forall. intros x Hx.
  apply list_elem_of_In, list_elem_of_lookup in Hx as [i Hi].
  assert (Hir : i < fetchPtr t).
  { apply lookup_lt_Some in Hi. lia. }
  assert (Hrt : is_Some (retireCycle (getInst t i))).
  { apply Hret; [done|rewrite ?A', ?B, ?Hdec; apply not_elem_of_nil..]. }
  apply (sh_retired _ _ _ Hsh) in Hrt. simpl in Hrt. unfold nthInst in Hrt.
  by rewrite Hi in Hrt.
Qed.

(** In a configuration that can move, a cycle that starts with an
    instruction still to retire makes progress. *)
Lemma cycle_body_progress c p n s s' :
  sane c → reachable c p n s → (Z.of_nat n < 4294967295)%Z →
  isFinished s = false → cycle_body s = Ok s' → hasProgress s' = true.
Proof.
  intros Hsane Hr Hn Hfin Hb.
  pose proof (reachable_kernel _ _ _ _ Hr Hn) as HK.
  pose proof (reachable_shape _ _ _ _ Hr ltac:(lia)) as Hsh.
  pose proof (reachable_live _ _ _ _ Hr ltac:(lia)) as Hl.
  pose proof (reachable_retired _ _ _ _ Hr ltac:(lia)) as Hret.
  set (t := release (set_hasProgress false s)).
  assert (Kt : kernel_inv c 1 t ∧ shape_inv c p t).
  { apply good_release, good_set_hasProgress. by split. }
  destruct Kt as [Kt Sht].
  assert (Lt : live_inv t).
  { destruct HK as (Hst & _). by apply (live_transfer 0 s). }
  assert (Rt : retired_inv t) by done.
  destruct (hasProgress s') eqn:Hp; [done|exfalso].
  unfold cycle_body in Hb. inv_ok. simpl in Hp.
  unfold tick, stages_after_retire, retire, complete, execute, dispatch,
    decode, fetch in Ha. fold t in Ha. inv_ok.
  rename a0 into s1, a1 into s2, a2 into s3, a3 into s5.
  pose proof (sh_width _ _ _ Sht) as Hw.
  assert (Hwpos : 0 < cfgWidth c).
  { apply andb_true_iff in Hsane as [Hs _].
    apply andb_true_iff in Hs as [Hs _]. by apply Nat.ltb_lt in Hs. }
  (* the flag is clear after every stage *)
  pose proof (fetch_loop_quiet (width (decode_loop (width s5) s5))
                (decode_loop (width s5) s5)) as [Q7 _].
  destruct (hasProgress (decode_loop (width s5) s5)) eqn:P6;
    [by rewrite Q7 in Hp|].
  pose proof (decode_loop_quiet (width s5) s5) as [Q6 _].
  destruct (hasProgress s5) eqn:P5; [by rewrite Q6 in P6|].
  pose proof (dispatch_loop_quiet _ _ _ Ha3) as [Q5 _].
  destruct (hasProgress (issue s3)) eqn:P4; [by rewrite Q5 in P5|].
  pose proof (issue_loop_quiet (width s3) 0 s3) as [Q4 _].
  fold (issue s3) in Q4.
  destruct (hasProgress s3) eqn:P3; [by rewrite Q4 in P4|].
  pose proof (execute_loop_quiet _ _ _ Ha2) as [Q3 _].
  destruct (hasProgress s2) eqn:P2; [by rewrite Q3 in P3|].
  pose proof (complete_loop_quiet _ _ _ Ha1) as [Q2 _].
  destruct (hasProgress s1) eqn:P1; [by rewrite Q2 in P2|].
  (* so no stage moved *)
  destruct (width t) as [|w] eqn:Ew; [lia|].
  apply retire_loop_still in Ha0 as [-> F1]; [|done].
  rewrite Ew in Ha1. apply complete_loop_still in Ha1 as [-> F2]; [|done].
  rewrite Ew in Ha2. apply execute_loop_still in Ha2 as [-> F3]; [|done].
  apply issue_still in P4 as [E4 F4]; [|lia].
  rewrite E4, Ew in Ha3.
  apply dispatch_loop_still in Ha3 as [-> F5]; [|done].
  rewrite Ew in P6, Hp.
  apply decode_loop_still in P6 as [E6 F6]. rewrite E6, Ew in Hp.
  apply fetch_loop_still in Hp.
  assert (isFinished t = true) by (by eapply (still_finished c p 1 t)).
  unfold isFinished in *. simpl in *. congruence.
Qed.

(** * The run to the end *)

Lemma simulate_loop_completes c p fuel :
  sane c → wellFormed c p →
  ∀ n s, reachable c p n s → hasProgress s = true →
         (Z.of_nat n + Z.of_nat fuel < 4294967296)%Z →
         potential s < fuel →
         ∃ m s', m ≤ fuel ∧ simulate_loop fuel s = Finished s' ∧
                 reachable c p (n + m) s' ∧ isFinished s' = true.
Proof.
  intros Hsane Hwf.
  induction fuel as [|fuel IH]; intros n s Hr Hp Hn Hpot; [lia|].
  simpl. destruct (loop_cond s) eqn:Hlc.
  - destruct (cycle_body_result c p n s Hr ltac:(lia))
      as [[s' Hb]|(a & i & l & _ & Hl & Hbad)];
      [|by destruct (wellFormed_not_bad c p i l a)].
    rewrite Hb.
    assert (Hf : isFinished s = false).
    { unfold loop_cond in Hlc. by destruct (isFinished s). }
    pose proof (cycle_body_progress c p n s s' Hsane Hr ltac:(lia) Hf Hb)
      as Hp'.
    pose proof (potential_decreases c p n s s' Hr ltac:(lia) Hlc Hb Hp').
    destruct (IH (S n) s') as (m & s2 & Hm & Hs & Hr2 & Hfin);
      [by eapply reach_cycle|done|lia|lia|].
    exists (S m), s2. split_and!; [lia|done| |done].
    by replace (n + S m) with (S n + m) by lia.
  - exists 0, s. rewrite Nat.add_0_r. split_and!; [lia|done|done|].
    unfold loop_cond in Hlc. rewrite Hp in Hlc.
    by destruct (isFinished s).
Qed.

(** * The committed state *)

Lemma step_dstPhys k s s' :
  step k s s' → k ≠ 5 →
  ∀ j, dstPhysicalReg (getInst s' j) = dstPhysicalReg (getInst s j).
Proof.
  intros Hstep Hk j. destruct Hstep; simpl; try done.
  - unfold retire_one, setMapping in *. simpl in *.
    inv_ok; simpl; known_ifs; simpl; by pres.
  - unfold complete_one, setReadyBit in *. rewrite broadcast_eq in *.
    simpl in *. inv_ok; simpl; by pres.
  - unfold execute_one in *. simpl in *. inv_ok. simpl. by pres.
  - unfold issue_one. simpl. by pres.
  - unfold decode_one. simpl. by pres.
  - unfold fetch_one. simpl. case_match; simpl; by pres.
Qed.

Lemma step_tables k s s' :
  step k s s' → k ≠ 1 → k ≠ 5 →
  rob s' = rob s ∧ mapping (mapTable s') = mapping (mapTable s) ∧
  archMappingTable s' = archMappingTable s.
Proof.
  intros Hstep H1 H5. destruct Hstep; simpl; try done.
  - unfold complete_one, setReadyBit in *. rewrite broadcast_eq in *.
    simpl in *. inv_ok; simpl; done.
  - unfold execute_one in *. simpl in *. inv_ok. simpl. done.
  - unfold fetch_one. simpl. by case_match.
Qed.

Lemma renameEntry_ext s s' m e :
  dstOp (getInst s' (robInst e)) = dstOp (getInst s (robInst e)) →
  dstPhysicalReg (getInst s' (robInst e))
    = dstPhysicalReg (getInst s (robInst e)) →
  renameEntry s' m e = renameEntry s m e.
Proof. unfold renameEntry, hasDst. by intros -> ->. Qed.

Lemma foldl_renameEntry_ext s s' m es :
  (∀ e, e ∈ es →
        dstOp (getInst s' (robInst e)) = dstOp (getInst s (robInst e)) ∧
        dstPhysicalReg (getInst s' (robInst e))
          = dstPhysicalReg (getInst s (robInst e))) →
  foldl (renameEntry s') m es = foldl (renameEntry s) m es.
Proof.
  revert m. induction es as [|e es IH]; intros m H; simpl; [done|].
  destruct (H e ltac:(left)) as [H1 H2].
  rewrite (renameEntry_ext s s') by done.
  apply IH. intros e' He'. apply H. by right.
Qed.

Lemma commit_transfer s s' :
  commit_inv s →
  (∀ j, dstOp (getInst s' j) = dstOp (getInst s j)) →
  (∀ j, dstPhysicalReg (getInst s' j) = dstPhysicalReg (getInst s j)) →
  rob s' = rob s → mapping (mapTable s') = mapping (mapTable s) →
  archMappingTable s' = archMappingTable s →
  commit_inv s'.
Proof.
  intros [Hm Ht] Hd Hp Hrob Hmt Ha.
  assert (E : ∀ es, replay s' es = replay s es).
  { intros es. unfold replay. rewrite Ha.
    apply foldl_renameEntry_ext. intros e _. by rewrite Hd, Hp. }
  constructor.
  - by rewrite Hmt, Hrob, E.
  - intros k e. rewrite Hrob, E. unfold hasDst. rewrite Hd. apply Ht.
Qed.

Lemma step_commit_retire s e s' :
  commit_inv s → getHead (rob s) = Some e →
  retire_one e s = Ok s' → commit_inv s'.
Proof.
  intros [Hm Ht] He H.
  destruct (getHead_Some _ _ He) as [es Hq].
  assert (F : (∀ j, dstOp (getInst s' j) = dstOp (getInst s j)) ∧
              (∀ j, dstPhysicalReg (getInst s' j)
                    = dstPhysicalReg (getInst s j)) ∧
              robQueue (rob s') = es ∧ mapTable s' = mapTable s ∧
              mapping (archMappingTable s')
              = renameEntry s (mapping (archMappingTable s)) e).
  { unfold retire_one, setMapping, renameEntry, hasDst in *. simpl in *.
    inv_ok; simpl; known_ifs; simpl; rewrite ?Hq; simpl;
      (split_and!; [intros; by pres..|done|done|done]). }
  destruct F as (Hd & Hp & Hrob & Hmt & Ha).
  assert (E : ∀ l, replay s' l = replay s (e :: l)).
  { intros l. unfold replay. simpl. rewrite Ha.
    apply foldl_renameEntry_ext. intros e' _. by rewrite Hd, Hp. }
  constructor.
  - by rewrite Hmt, Hrob, E, Hm, Hq.
  - intros k e'. rewrite Hrob, E. unfold hasDst. rewrite Hd. intros Hk Hh.
    specialize (Ht (S k) e'). rewrite Hq in Ht. by apply Ht.
Qed.

Lemma step_commit_dispatch c s i rest k s' :
  kernel_inv c 5 s → commit_inv s → dispatchStage s = i :: rest →
  dispatch_one i k s = Ok s' → commit_inv s'.
Proof.
  intros (Hst & Hord & _) [Hm Ht] Hq H.
  destruct (si_dispatch _ _ Hst i) as (_ & a0 & Ha0 & _); [rewrite Hq; left|].
  pose proof (stamp_in_range _ _ Decode _ Ha0) as Hi.
  assert (Hni : ∀ e, e ∈ robQueue (rob s) → robInst e ≠ i).
  { destruct (ord_layout s Hord) as (r & H1 & H2 & _).
    rewrite Hq in H2. simpl in H2. injection H2 as H2 _.
    intros e He. assert (Hw : robInst e ∈ robIds s).
    { unfold robIds. apply list_elem_of_fmap. by exists e. }
    rewrite H1 in Hw. apply elem_of_seq in Hw. lia. }
  destruct (dispatch_one_effect s i k s' H Hi)
    as (Eo & _ & _ & Eop & _ & _ & _ & _ & _ & _ & Ear & Edst).
  assert (Eod : dstOp (getInst s' i) = dstOp (getInst s i)).
  { unfold operands in Eop. simpl in *. congruence. }
  assert (E : ∀ es, (∀ e, e ∈ es → e ∈ robQueue (rob s)) →
                    replay s' es = replay s es).
  { intros es Hes. unfold replay. rewrite Ear.
    apply foldl_renameEntry_ext. intros e He.
    rewrite Eo by (by apply Hni, Hes). done. }
  assert (Etake : ∀ j, replay s' (take j (robQueue (rob s)))
                       = replay s (take j (robQueue (rob s)))).
  { intros j. apply E. intros e He. by eapply subseteq_take. }
  assert (Eall : replay s' (robQueue (rob s)) = replay s (robQueue (rob s)))
    by (by apply E).
  assert (Hold : ∀ j e, robQueue (rob s) !! j = Some e → hasDst s' e = true →
            replay s' (take j (robQueue (rob s)))
              !! Z.to_nat (dstOp (getInst s' (robInst e)))
            = Some (regNum (robTold e))).
  { intros j e Hj Hh.
    assert (He : e ∈ robQueue (rob s)) by (by eapply list_elem_of_lookup_2).
    unfold hasDst in Hh. rewrite Etake. rewrite Eo in Hh |- * by (by apply Hni).
    by apply Ht. }
  destruct Edst as [(Hd & Emt & Erob)|
    (Hd & T0 & fl & told & b & Efl & Edp & Ezl & _ & Emt & Erob)].
  - constructor.
    + rewrite Emt, Erob. unfold replay. rewrite foldl_app. simpl.
      fold (replay s' (robQueue (rob s))). rewrite Eall, <- Hm.
      unfold renameEntry, hasDst. simpl in *. rewrite Eod, Hd. done.
    + intros j e. rewrite Erob. intros Hj Hh.
      apply lookup_app_Some in Hj as [Hj|[Hlen Hj]].
      * rewrite take_app_le by (apply lookup_lt_Some in Hj; lia).
        by apply Hold.
      * apply list_lookup_singleton_Some in Hj as [_ <-].
        unfold hasDst in Hh. simpl in *. rewrite Eod, Hd in Hh. done.
  - apply zlookup_Some in Ezl as [Hd0 Ezl]. constructor.
    + rewrite Emt, Erob. unfold replay. rewrite foldl_app. simpl.
      fold (replay s' (robQueue (rob s))). rewrite Eall, <- Hm.
      unfold renameEntry, hasDst. simpl in *. rewrite Eod, Edp.
      apply Z.eqb_neq in Hd. rewrite Hd. done.
    + intros j e. rewrite Erob. intros Hj Hh.
      apply lookup_app_Some in Hj as [Hj|[Hlen Hj]].
      * rewrite take_app_le by (apply lookup_lt_Some in Hj; lia).
        by apply Hold.
      * apply list_lookup_singleton_Some in Hj as [Hj <-].
        assert (j = length (robQueue (rob s))) as -> by lia.
        rewrite take_app_length. rewrite Eall, <- Hm. simpl in *.
        by rewrite Eod.
Qed.

Lemma step_commit c k s s' :
  step k s s' → kernel_inv c k s → commit_inv s → commit_inv s'.
Proof.
  intros Hstep HK Hc.
  destruct (decide (k = 1)) as [->|H1].
  { inversion Hstep; subst. by eapply step_commit_retire. }
  destruct (decide (k = 5)) as [->|H5].
  { inversion Hstep; subst. by eapply step_commit_dispatch. }
  destruct (step_tables _ _ _ Hstep H1 H5) as (Hrob & Hmt & Ha).
  apply (commit_transfer s s'); try done.
  - intros j. pose proof (step_operands _ _ _ Hstep j) as Ho.
    unfold operands in Ho. simpl in *. congruence.
  - by apply (step_dstPhys k).
Qed.

Lemma start_commit c p : commit_inv (start c p).
Proof.
  unfold start. rewrite loadProgram_eq. by constructor.
Qed.

Lemma reachable_commit c p n s :
  reachable c p n s → (Z.of_nat n < 4294967296)%Z → commit_inv s.
Proof.
  apply (reachable_inv c p commit_inv commit_inv).
  - apply start_commit.
  - intros t _ Hc. by apply (commit_transfer t).
  - intros k t t' Hstep HK. by apply (step_commit c k).
  - intros t _ Hc. by apply (commit_transfer t).
Qed.

(** A finished state has an empty ROB. *)
Lemma finished_rob_empty c p k s :
  stamp_inv k s → shape_inv c p s → isFinished s = true →
  robQueue (rob s) = [].
Proof.
  intros Hst Hsh Hfin.
  destruct (robQueue (rob s)) as [|e es] eqn:Hq; [done|exfalso].
  assert (Hi : robInst e ∈ robIds s) by (unfold robIds; rewrite Hq; left).
  destruct (si_rob _ _ Hst _ Hi) as (Hn & [a Ha] & _).
  destruct (stamp_in_range _ _ Dispatch _ Ha) as [x Hx].
  unfold isFinished in Hfin. rewrite forallb_forall in Hfin.
  assert (Hr : hasRetired x = true).
  { apply Hfin, list_elem_of_In. by eapply list_elem_of_lookup_2. }
  assert (Ex : getInst s (robInst e) = x).
  { simpl. unfold nthInst. by rewrite Hx. }
  rewrite <- Ex in Hr. apply (sh_retired _ _ _ Hsh) in Hr as [r Hr].
  simpl in *. congruence.
Qed.
(** * Configurations that cannot move *)

Lemma step_free k s s' :
  step k s s' → k ≠ 1 → k ≠ 5 →
  freeList s' = freeList s ∧
  freePhysRegsPrevCycle s' = freePhysRegsPrevCycle s.
Proof.
  intros Hstep H1 H5. destruct Hstep; simpl; try done.
  - unfold complete_one, setReadyBit in *. rewrite broadcast_eq in *.
    simpl in *. inv_ok; simpl; done.
  - unfold execute_one in *. simpl in *. inv_ok. simpl. done.
  - unfold fetch_one. simpl. by case_match.
Qed.

Lemma step_dstOp k s s' :
  step k s s' → ∀ j, dstOp (getInst s' j) = dstOp (getInst s j).
Proof.
  intros Hstep j. pose proof (step_operands _ _ _ Hstep j) as Ho.
  unfold operands in Ho. simpl in *. congruence.
Qed.

Lemma step_starved c p k s s' :
  step k s s' → kernel_inv c k s → shape_inv c p s →
  starved_inv c s → starved_inv c s'.
Proof.
  intros Hstep (Hst & _) Hsh [HD HF].
  pose proof (step_dstOp _ _ _ Hstep) as Hd.
  assert (Hkeep : k ≠ 5 → ∀ j, dispatchCycle (getInst s' j)
                               = dispatchCycle (getInst s j)).
  { intros H5 j. destruct (step_touches _ _ _ Hstep) as [i Ht].
    destruct (Ht j Dispatch) as [E|(_ & E & _)]; [done|].
    exfalso. clear -E H5. unfold stageAt in E.
    repeat (destruct k as [|k]; try done). }
  destruct (decide (k = 5)) as [->|H5].
  - (* dispatch *)
    inversion Hstep as [| | | | |s0 i0 rest k0 s1 Hq Hrob Hrs Hreg H| | |];
      subst.
    assert (Hcap : 0 < robEntries c).
    { unfold hasFreeEntry in Hrob. apply Nat.ltb_lt in Hrob.
      rewrite (sh_cap _ _ _ Hsh) in Hrob. lia. }
    destruct (si_dispatch _ _ Hst i0) as (_ & a0 & Ha0 & _);
      [rewrite Hq; left|].
    pose proof (stamp_in_range _ _ Decode _ Ha0) as Hi0.
    destruct (dispatch_one_effect s i0 k0 s' H Hi0)
      as (Eo & _ & _ & _ & _ & _ & _ & _ & _ & _ & _ & _).
    assert (Hfl : dstOp (getInst s i0) ≠ NONE →
                  numArchRegs c < numPhysicalRegs c).
    { intros Hne. destruct Hreg as [?|Hreg]; [done|].
      destruct (decide (numArchRegs c < numPhysicalRegs c)) as [|Hn]; [done|].
      destruct HF as [HF _]; [lia|]. rewrite HF in Hreg. done. }
    split.
    + intros j. rewrite Hd. destruct (decide (j = i0)) as [->|Hne]; [done|].
      rewrite Eo by done. apply HD.
    + intros Hle. destruct (HF Hle) as [F1 F2].
      assert (Hnone : dstOp (getInst s i0) = NONE).
      { destruct (decide (dstOp (getInst s i0) = NONE)) as [|Hne]; [done|].
        apply Hfl in Hne. lia. }
      clear Hd HD Hfl Eo Hkeep. simpl in Hnone.
      inv_dispatch H; simpl in *;
        repeat match goal with
        | H : negb (_ =? _)%Z = true |- _ =>
            apply negb_true_iff, Z.eqb_neq in H
        end; try done.
  - destruct (decide (k = 1)) as [->|H1].
    + (* retire *)
      inversion Hstep as [s0 e s1 He Hc H| | | | | | | |]; subst.
      destruct (getHead_Some _ _ He) as [es Hq].
      assert (Hin : robInst e ∈ robIds s)
        by (unfold robIds; rewrite Hq; left).
      destruct (si_rob _ _ Hst _ Hin) as (_ & Hdis & _).
      destruct (HD _ Hdis) as [Hcap Hphys].
      split.
      * intros j. rewrite Hd, Hkeep by done. apply HD.
      * intros Hle. destruct (HF Hle) as [F1 F2].
        assert (Hnone : dstOp (getInst s (robInst e)) = NONE).
        { destruct (decide (dstOp (getInst s (robInst e)) = NONE))
            as [|Hne]; [done|]. apply Hphys in Hne. lia. }
        clear Hd HD Hkeep Hphys. simpl in Hnone.
        unfold retire_one, setMapping in H. simpl in H.
        rewrite Hnone in H. simpl in H. inv_ok. simpl.
        rewrite Hnone. simpl. done.
    + destruct (step_free _ _ _ Hstep H1 H5) as [E1 E2].
      split.
      * intros j. rewrite Hd, Hkeep by done. apply HD.
      * by rewrite E1, E2.
Qed.

Lemma reachable_starved c p n s :
  reachable c p n s → (Z.of_nat n < 4294967296)%Z → starved_inv c s.
Proof.
  apply (reachable_inv2 c p (starved_inv c) (starved_inv c)).
  - unfold start. rewrite loadProgram_eq. split; simpl.
    + intros i [a Ha]. pose proof (nthInst_fresh p i Dispatch) as Hn.
      simpl in Hn. congruence.
    + intros Hle. unfold newFreeList.
      by replace (numPhysicalRegs c - numArchRegs c) with 0 by lia.
  - intros t _ _ _ [HD HF]. split; [done|].
    intros Hle. destruct (HF Hle) as [F1 F2]. unfold release. simpl.
    by rewrite F1, F2.
  - intros k t t' Hstep HK Hsh _. by apply (step_starved c p k).
  - done.
Qed.

(** With a width of zero no loop of a stage runs its body. *)
Lemma tick_width0 s : width s = 0 → tick s = Ok (release s).
Proof.
  intros Hw. unfold tick, stages_after_retire, retire, complete, execute,
    issue, dispatch, decode, fetch.
  simpl. repeat (rewrite Hw; simpl). done.
Qed.

Lemma reachable_width0 c p n s :
  cfgWidth c = 0 → reachable c p n s →
  instructionsList s = instructionsList (start c p) ∧ width s = 0.
Proof.
  intros Hw Hr. induction Hr as [|n s s' Hr [IH1 IH2] Hlc Hb].
  - split; [done|]. unfold start. by rewrite loadProgram_eq.
  - unfold cycle_body in Hb. rewrite tick_width0 in Hb by done.
    simpl in Hb. injection Hb as <-. done.
Qed.

(** An instruction that was dispatched tells that the configuration has a
    width, a ROB entry and, when it has a destination, a spare register. *)
Lemma dispatched_resources c p n s i :
  reachable c p n s → (Z.of_nat n < 4294967296)%Z →
  is_Some (dispatchCycle (getInst s i)) →
  0 < cfgWidth c ∧ 0 < robEntries c ∧
  (dstOp (getInst s i) ≠ NONE → numArchRegs c < numPhysicalRegs c).
Proof.
  intros Hr Hn Hd. split.
  - destruct (decide (cfgWidth c = 0)) as [Hw|]; [exfalso|lia].
    destruct (reachable_width0 c p n s Hw Hr) as [E _].
    destruct Hd as [a Ha]. simpl in Ha. rewrite E in Ha.
    unfold start in Ha. rewrite loadProgram_eq in Ha. simpl in Ha.
    pose proof (nthInst_fresh p i Dispatch) as Hf. simpl in Hf. congruence.
  - destruct (reachable_starved c p n s Hr Hn) as [HD _]. by apply HD.
Qed.
(** * The registers of the instructions in flight *)

Lemma robTs_same s s' :
  rob s' = rob s → (∀ i, dstOp (getInst s' i) = dstOp (getInst s i)) →
  (∀ i, dstPhysicalReg (getInst s' i) = dstPhysicalReg (getInst s i)) →
  robTs s' = robTs s.
Proof.
  intros Hrob Hdst Hp. unfold robTs. rewrite Hrob.
  rewrite (filter_hasDst_same s s') by done.
  apply list_fmap_ext. intros _ e _. by rewrite Hp.
Qed.

Lemma alloc_transfer s s' :
  alloc_inv s →
  (∀ j, dstOp (getInst s' j) = dstOp (getInst s j)) →
  (∀ j, dstPhysicalReg (getInst s' j) = dstPhysicalReg (getInst s j)) →
  rob s' = rob s → mapping (mapTable s') = mapping (mapTable s) →
  archMappingTable s' = archMappingTable s →
  alloc_inv s'.
Proof.
  intros H Hd Hp Hrob Hmt Ha. unfold alloc_inv.
  by rewrite Hmt, Ha, (robTolds_same s s'), (robTs_same s s').
Qed.

Lemma step_alloc_retire s e s' :
  commit_inv s → alloc_inv s → getHead (rob s) = Some e →
  retire_one e s = Ok s' → alloc_inv s'.
Proof.
  intros [_ Ht] Hal He H.
  destruct (getHead_Some _ _ He) as [es Hq].
  assert (F : (∀ j, dstOp (getInst s' j) = dstOp (getInst s j)) ∧
              (∀ j, dstPhysicalReg (getInst s' j)
                    = dstPhysicalReg (getInst s j)) ∧
              robQueue (rob s') = es ∧ mapTable s' = mapTable s ∧
              mapping (archMappingTable s')
              = renameEntry s (mapping (archMappingTable s)) e).
  { unfold retire_one, setMapping, renameEntry, hasDst in *. simpl in *.
    inv_ok; simpl; known_ifs; simpl; rewrite ?Hq; simpl;
      (split_and!; [intros; by pres..|done|done|done]). }
  destruct F as (Hd & Hp & Hrob & Hmt & Ha).
  specialize (Ht 0 e). rewrite Hq in Ht. specialize (Ht eq_refl).
  unfold alloc_inv, robTolds, robTs in *.
  rewrite Hmt, Ha, Hrob. rewrite Hq in Hal. rewrite !filter_cons in Hal.
  rewrite !(filter_hasDst_same s s') by done.
  rewrite (list_fmap_ext
             (λ e0, regNum (dstPhysicalReg (getInst s' (robInst e0))))
             (λ e0, regNum (dstPhysicalReg (getInst s (robInst e0)))))
    by (intros _ e0 _; by rewrite Hp).
  unfold renameEntry. destruct (hasDst s e) eqn:Hh.
  - rewrite !decide_True in Hal by done. rewrite !fmap_cons in Hal.
    specialize (Ht eq_refl). unfold replay in Ht. simpl in Ht.
    pose proof (insert_swap_perm _ _
      (regNum (dstPhysicalReg (getInst s (robInst e)))) _ Ht) as Hperm.
    apply (Permutation_cons_inv (a := regNum (robTold e))).
    etrans; [apply Permutation_middle|]. rewrite Hal.
    match goal with
    | |- _ ≡ₚ ?t :: ?A ++ ?Ts =>
        trans ((A ++ [t]) ++ Ts); [rewrite Hperm|]; solve_Permutation
    end.
  - rewrite !decide_False in Hal by (by intros []). done.
Qed.

(** The front of the dispatch queue is in the store and behind the ROB. *)
Lemma dispatch_head c s i rest :
  kernel_inv c 5 s → dispatchStage s = i :: rest →
  is_Some (instructionsList s !! i) ∧
  (∀ w, w ∈ robIds s → w < i) ∧
  (∀ e, e ∈ robQueue (rob s) → robInst e ≠ i).
Proof.
  intros (Hst & Hord & _) Hq.
  destruct (si_dispatch _ _ Hst i) as (_ & a0 & Ha0 & _); [rewrite Hq; left|].
  pose proof (stamp_in_range _ _ Decode _ Ha0) as Hi.
  assert (Hlt : ∀ w, w ∈ robIds s → w < i).
  { destruct (ord_layout s Hord) as (r & H1 & H2 & _).
    rewrite Hq in H2. simpl in H2. injection H2 as H2 _.
    intros w Hw. rewrite H1 in Hw. apply elem_of_seq in Hw. lia. }
  split_and!; [done|done|].
  intros e He. assert (Hw : robInst e ∈ robIds s).
  { unfold robIds. apply list_elem_of_fmap. by exists e. }
  apply Hlt in Hw. lia.
Qed.

Lemma step_alloc_dispatch c s i rest k s' :
  kernel_inv c 5 s → alloc_inv s → dispatchStage s = i :: rest →
  dispatch_one i k s = Ok s' → alloc_inv s'.
Proof.
  intros HK Hal Hq H.
  destruct (dispatch_head c s i rest HK Hq) as (Hi & _ & Hni).
  destruct (dispatch_one_effect s i k s' H Hi)
    as (Eo & _ & _ & Eop & _ & _ & _ & _ & _ & _ & Ear & Edst).
  assert (Eod : ∀ j, dstOp (getInst s' j) = dstOp (getInst s j)).
  { intros j. destruct (decide (j = i)) as [->|Hne]; [|by rewrite Eo].
    unfold operands in Eop. simpl in *. congruence. }
  assert (ETs : (λ e, regNum (dstPhysicalReg (getInst s' (robInst e))))
                  <$> filter (λ e, Is_true (hasDst s e)) (robQueue (rob s))
                = robTs s).
  { unfold robTs. apply list_fmap_ext. intros j e He.
    apply list_elem_of_lookup_2, list_elem_of_filter in He as [_ He].
    by rewrite Eo by (by apply Hni). }
  unfold alloc_inv, robTolds, robTs in *. rewrite Ear.
  rewrite !(filter_hasDst_same s s') by done.
  destruct Edst as [(Hd & Emt & Erob)|
    (Hd & T0 & fl & told & b & Efl & Edp & Ezl & _ & Emt & Erob)];
    rewrite Emt, Erob, !filter_app, !filter_hasDst_one, !fmap_app, ETs.
  - simpl in *. rewrite Hd. simpl. by rewrite !app_nil_r.
  - apply Z.eqb_neq in Hd. simpl in *. rewrite Hd. simpl. rewrite Edp.
    apply zlookup_Some in Ezl as [_ Ezl].
    pose proof (insert_swap_perm _ _ (regNum T0) _ Ezl) as Hperm.
    match goal with
    | |- ?M ++ ?R ++ [?t] ≡ₚ ?A ++ ?Ts ++ [?T] =>
        trans ((M ++ [t]) ++ R); [solve_Permutation|];
        rewrite Hperm; trans (T :: (mapping (mapTable s) ++ R));
        [solve_Permutation|]; rewrite Hal; solve_Permutation
    end.
Qed.

Lemma step_alloc c k s s' :
  step k s s' → kernel_inv c k s → commit_inv s → alloc_inv s →
  alloc_inv s'.
Proof.
  intros Hstep HK Hc Hal.
  destruct (decide (k = 1)) as [->|H1].
  { inversion Hstep; subst. by eapply step_alloc_retire. }
  destruct (decide (k = 5)) as [->|H5].
  { inversion Hstep; subst. by eapply step_alloc_dispatch. }
  destruct (step_tables _ _ _ Hstep H1 H5) as (Hrob & Hmt & Ha).
  apply (alloc_transfer s s'); try done.
  - by apply (step_dstOp k).
  - by apply (step_dstPhys k).
Qed.

Lemma reachable_alloc c p n s :
  reachable c p n s → (Z.of_nat n < 4294967296)%Z →
  commit_inv s ∧ alloc_inv s.
Proof.
  apply (reachable_inv c p (λ s, commit_inv s ∧ alloc_inv s)
                           (λ s, commit_inv s ∧ alloc_inv s)).
  - split; [apply start_commit|].
    unfold start. rewrite loadProgram_eq. by unfold alloc_inv.
  - intros t _ [Hc Hal].
    split; [by apply (commit_transfer t)|by apply (alloc_transfer t)].
  - intros k t t' Hstep HK [Hc Hal].
    split; [by apply (step_commit c k t)|by apply (step_alloc c k t)].
  - intros t _ [Hc Hal].
    split; [by apply (commit_transfer t)|by apply (alloc_transfer t)].
Qed.

(** The registers seen from the committed state. *)
Lemma committed_regs c p n s :
  reachable c p n s → (Z.of_nat n < 4294967296)%Z →
  (regNum <$> freeList s) ++ mapping (archMappingTable s) ++ robTs s
    ++ (regNum <$> freePhysRegsPrevCycle s) ≡ₚ allRegs c.
Proof.
  intros Hr Hn. destruct (reachable_alloc _ _ _ _ Hr Hn) as [_ Hal].
  pose proof (reachable_regs _ _ _ _ Hr) as Hreg.
  unfold reg_inv, regs in Hreg. rewrite <- Hreg.
  rewrite !app_assoc. apply Permutation_app_tail.
  rewrite <- !app_assoc. apply Permutation_app_head. by symmetry.
Qed.
(** * Read after write *)

Lemma rawFields_eq x y :
  rawFields x = rawFields y →
  dstOp x = dstOp y ∧ dstPhysicalReg x = dstPhysicalReg y ∧
  srcOp1 x = srcOp1 y ∧ srcOp2 x = srcOp2 y ∧
  srcPhysicalReg1 x = srcPhysicalReg1 y ∧
  srcPhysicalReg2 x = srcPhysicalReg2 y ∧
  hasCompleted x = hasCompleted y ∧ dispatchCycle x = dispatchCycle y.
Proof.
  unfold rawFields. intros H. injection H as E1 E2 E3 E4 E5 E6 E7 E8.
  by split_and!.
Qed.

(** The invariant moves along a move that leaves the map table and the
    fields alone and adds nothing to the ROB. *)
Lemma raw_transfer s s' :
  raw_inv s →
  (∀ j, rawFields (getInst s' j) = rawFields (getInst s j)) →
  mapTable s' = mapTable s →
  (∀ j, j ∈ robIds s' → j ∈ robIds s) →
  raw_inv s'.
Proof.
  intros [Hb Hm Hs Hr Hn] Hf Hmt Hsub.
  assert (F : ∀ j, dstOp (getInst s' j) = dstOp (getInst s j) ∧
                   dstPhysicalReg (getInst s' j) = dstPhysicalReg (getInst s j) ∧
                   srcOp1 (getInst s' j) = srcOp1 (getInst s j) ∧
                   srcOp2 (getInst s' j) = srcOp2 (getInst s j) ∧
                   srcPhysicalReg1 (getInst s' j) = srcPhysicalReg1 (getInst s j) ∧
                   srcPhysicalReg2 (getInst s' j) = srcPhysicalReg2 (getInst s j) ∧
                   hasCompleted (getInst s' j) = hasCompleted (getInst s j) ∧
                   dispatchCycle (getInst s' j) = dispatchCycle (getInst s j)).
  { intros j. by apply rawFields_eq. }
  assert (LW : ∀ a w, lastWriter s' a w → lastWriter s a w).
  { intros a w (H1 & H2 & H3). unfold lastWriter, dispatched in *.
    destruct (F w) as (<- & _ & _ & _ & _ & _ & _ & <-). split_and!; try done.
    intros j Hj. destruct (F j) as (<- & _ & _ & _ & _ & _ & _ & <-).
    by apply H3. }
  assert (WB : ∀ i a w, writerBefore s' i a w → writerBefore s i a w).
  { intros i a w (H1 & H2 & H3). unfold writerBefore in *.
    destruct (F w) as (<- & _). split_and!; try done.
    intros j Hj. destruct (F j) as (<- & _). by apply H3. }
  assert (SR : ∀ i a r, source (getInst s' i) a r → source (getInst s i) a r).
  { intros i a r. unfold source.
    destruct (F i) as (_ & _ & -> & -> & -> & -> & _). done. }
  assert (DR : ∀ w, dstReg s' w = dstReg s w).
  { intros w. unfold dstReg. by destruct (F w) as (_ & -> & _). }
  assert (HC : ∀ w, hasCompleted (getInst s' w) = hasCompleted (getInst s w)).
  { intros w. by destruct (F w) as (_ & _ & _ & _ & _ & _ & -> & _). }
  constructor.
  - intros a w x Ha Hw H1 H2. rewrite Hmt in H1, H2. rewrite HC.
    eapply Hb; eauto.
  - intros a w Ha Hw Hin. rewrite Hmt, DR.
    apply Hm; [done|by apply LW|by apply Hsub].
  - intros i a r w Hi Hsrc Hw Hin. rewrite DR.
    apply (Hs i a r w); [by apply Hsub|by apply SR|by apply WB|by apply Hsub].
  - intros i a r w Hi Hsrc Hw Hrd. rewrite HC.
    apply (Hr i a r w); [by apply Hsub|by apply SR|by apply WB|done].
  - intros w. rewrite DR. unfold dispatched.
    destruct (F w) as (-> & _ & _ & _ & _ & _ & _ & ->). apply Hn.
Qed.

Lemma step_rawFields k s s' :
  step k s s' → k ≠ 2 → k ≠ 5 →
  (∀ j, rawFields (getInst s' j) = rawFields (getInst s j)) ∧
  mapTable s' = mapTable s ∧
  (∀ j, j ∈ robIds s' → j ∈ robIds s).
Proof.
  intros Hstep H2 H5. destruct Hstep; try done.
  - destruct (getHead_Some _ _ H) as [es Hq].
    unfold retire_one, setMapping, robIds, rawFields in *. simpl in *.
    inv_ok; simpl; known_ifs; simpl; rewrite ?Hq; simpl;
      (split_and!; [intros; by pres|done|intros j Hj; by right]).
  - unfold execute_one, rawFields in *. simpl in *. inv_ok. simpl.
    split_and!; [intros; by pres|done|done].
  - unfold issue_one, rawFields. simpl.
    split_and!; [intros; by pres|done|done].
  - unfold decode_one, rawFields. simpl.
    split_and!; [intros; by pres|done|done].
  - unfold fetch_one, rawFields. simpl.
    case_match; simpl; (split_and!; [intros; by pres|done|done]).
Qed.

(** ** Who has been dispatched *)

(** The dispatched instructions are the retired ones and those of the ROB: a
    prefix of the program. *)
Lemma dispatched_prefix c p k s :
  kernel_inv c k s → shape_inv c p s → retired_inv s →
  ∃ r, robIds s = seq r (length (robIds s)) ∧
       dispatchStage s
       = seq (r + length (robIds s)) (length (dispatchStage s)) ∧
       (∀ j, dispatched s j ↔ j < r + length (robIds s)) ∧
       (∀ j, j < r → hasCompleted (getInst s j) = true).
Proof.
  intros (Hst & Hord & _) Hsh Hret.
  destruct (ord_layout s Hord) as (r & L1 & L2 & L3 & L4 & L5).
  pose proof (retired_below s r Hret L4 L1 L2 L3) as Hbelow.
  exists r. split_and!; [done|done| |].
  - intros j. split.
    + intros Hd. destruct (decide (j < r + length (robIds s))) as [|Hge];
        [done|exfalso].
      assert (Hn : dispatchCycle (getInst s j) = None); [|
        unfold dispatched in Hd; rewrite Hn in Hd; by destruct Hd].
      destruct (decide (j < r + length (robIds s) + length (dispatchStage s)))
        as [H1|H1].
      { destruct (si_dispatch _ _ Hst j) as [Hn _]; [|done].
        rewrite L2. apply elem_of_seq. lia. }
      destruct (decide (j < fetchPtr s)) as [H2|H2].
      { destruct (si_decode _ _ Hst j) as [Hn _].
        { rewrite L3. apply elem_of_seq. lia. }
        destruct (dispatchCycle (getInst s j)) eqn:E; [|done].
        assert (Hs : is_Some (stamp Decode (getInst s j))).
        { apply (is_Some_earlier _ Decode Dispatch);
            [apply (si_chain _ _ Hst)|simpl; lia|]. simpl in *. by rewrite E. }
        simpl in *. rewrite Hn in Hs. by destruct Hs. }
      pose proof (si_unfetched _ _ Hst j ltac:(lia)) as Hn.
      destruct (dispatchCycle (getInst s j)) eqn:E; [|done].
      assert (Hs : is_Some (stamp Fetch (getInst s j))).
      { apply (is_Some_earlier _ Fetch Dispatch);
          [apply (si_chain _ _ Hst)|simpl; lia|]. simpl in *. by rewrite E. }
      simpl in *. rewrite Hn in Hs. by destruct Hs.
    + intros Hlt. destruct (decide (j < r)) as [H1|H1].
      * apply (is_Some_earlier _ Dispatch Retire);
          [apply (si_chain _ _ Hst)|simpl; lia|]. by apply Hbelow.
      * destruct (si_rob _ _ Hst j) as (_ & Hd & _); [|done].
        rewrite L1. apply elem_of_seq. lia.
  - intros j Hj. apply (sh_completed _ _ _ Hsh).
    apply (is_Some_earlier _ Complete Retire);
      [apply (si_chain _ _ Hst)|simpl; lia|]. by apply Hbelow.
Qed.

(** An instruction in the complete queue is in the ROB. *)
Lemma completing_in_rob c p k s i :
  kernel_inv c k s → shape_inv c p s → retired_inv s →
  i ∈ completeStage s → i ∈ robIds s.
Proof.
  intros HK Hsh Hret Hi.
  destruct (dispatched_prefix c p k s HK Hsh Hret) as (r & L1 & _ & Hd & Hc).
  destruct HK as (Hst & _).
  destruct (si_complete _ _ Hst i Hi) as (Hn & e & He & _).
  assert (Hdi : dispatched s i).
  { apply (is_Some_earlier _ Dispatch Execute);
      [apply (si_chain _ _ Hst)|simpl; lia|]. simpl in *. by rewrite He. }
  apply Hd in Hdi. rewrite L1. apply elem_of_seq.
  destruct (decide (i < r)) as [Hlt|]; [exfalso|lia].
  apply Hc, (sh_completed _ _ _ Hsh) in Hlt. simpl in *.
  rewrite Hn in Hlt. by destruct Hlt.
Qed.

(** ** One destination register for each instruction in flight *)

Lemma NoDup_fmap_inj {A B} (f : A → B) (l : list A) x y :
  NoDup (f <$> l) → x ∈ l → y ∈ l → f x = f y → x = y.
Proof.
  induction l as [|z l IH]; intros Hnd Hx Hy E.
  { by apply elem_of_nil in Hx. }
  rewrite fmap_cons in Hnd. apply NoDup_cons in Hnd as [Hz Hnd].
  apply elem_of_cons in Hx as [->|Hx]; apply elem_of_cons in Hy as [->|Hy].
  - done.
  - exfalso. apply Hz. rewrite E. by apply list_elem_of_fmap_2.
  - exfalso. apply Hz. rewrite <- E. by apply list_elem_of_fmap_2.
  - by apply IH.
Qed.

Lemma alloc_NoDup c s :
  reg_inv (allRegs c) s → alloc_inv s →
  NoDup ((regNum <$> freeList s) ++ mapping (archMappingTable s) ++ robTs s
         ++ (regNum <$> freePhysRegsPrevCycle s)).
Proof.
  intros Hreg Hal. pose proof (regs_NoDup c s Hreg) as Hnd.
  unfold regs in Hnd. revert Hnd. apply NoDup_Permutation_proper.
  rewrite !app_assoc. apply Permutation_app_tail.
  rewrite <- !app_assoc. apply Permutation_app_head. by symmetry.
Qed.

Lemma dstReg_inj c s w w' :
  reg_inv (allRegs c) s → alloc_inv s →
  w ∈ robIds s → w' ∈ robIds s →
  dstOp (getInst s w) ≠ NONE → dstOp (getInst s w') ≠ NONE →
  dstReg s w = dstReg s w' → w = w'.
Proof.
  intros Hreg Hal Hw Hw' Hd Hd' E.
  pose proof (alloc_NoDup c s Hreg Hal) as Hnd.
  apply NoDup_app in Hnd as (_ & _ & Hnd).
  apply NoDup_app in Hnd as (_ & _ & Hnd).
  apply NoDup_app in Hnd as (Hnd & _ & _).
  unfold robIds in Hw, Hw'.
  apply list_elem_of_fmap in Hw as (e & -> & He).
  apply list_elem_of_fmap in Hw' as (e' & -> & He').
  f_equal. unfold robTs in Hnd.
  apply (NoDup_fmap_inj _ _ e e' Hnd); [| |done].
  - apply list_elem_of_filter. split; [|done].
    unfold hasDst. by apply Is_true_true, negb_true_iff, Z.eqb_neq.
  - apply list_elem_of_filter. split; [|done].
    unfold hasDst. by apply Is_true_true, negb_true_iff, Z.eqb_neq.
Qed.

(** A register of the free list is no destination in flight. *)
Lemma free_not_dstReg c s T0 fl w :
  reg_inv (allRegs c) s → alloc_inv s → freeList s = T0 :: fl →
  w ∈ robIds s → dstOp (getInst s w) ≠ NONE → dstReg s w ≠ regNum T0.
Proof.
  intros Hreg Hal Hfl Hw Hd E.
  pose proof (alloc_NoDup c s Hreg Hal) as Hnd.
  rewrite Hfl, fmap_cons in Hnd. simpl in Hnd.
  apply NoDup_cons in Hnd as [Hni _]. apply Hni.
  rewrite !elem_of_app. right. right. left.
  unfold robIds in Hw. apply list_elem_of_fmap in Hw as (e & -> & He).
  unfold robTs. rewrite <- E. apply list_elem_of_fmap.
  exists e. split; [done|].
  apply list_elem_of_filter. split; [|done].
  unfold hasDst. by apply Is_true_true, negb_true_iff, Z.eqb_neq.
Qed.

(** ** Dispatch *)

Lemma dispatch_one_fields s i k s' :
  dispatch_one i k s = Ok s' → is_Some (instructionsList s !! i) →
  dispatchCycle (getInst s' i) = Some (cycle s) ∧
  (dstOp (getInst s i) = NONE → dstPhysicalReg (getInst s' i) = defaultReg).
Proof.
  intros H Hi.
  inv_dispatch H; rewrite ?alter_alter.
  all: rewrite ?nthInst_alter_eq by done; simpl.
  all: repeat match goal with
           | H : negb (_ =? _)%Z = false |- _ =>
               apply negb_false_iff, Z.eqb_eq in H
           | H : negb (_ =? _)%Z = true |- _ =>
               apply negb_true_iff, Z.eqb_neq in H
           end.
  all: split; [done|]; try done.
Qed.

Lemma step_raw_dispatch c p s i rest k s' :
  kernel_inv c 5 s → shape_inv c p s → retired_inv s → raw_inv s →
  dispatchStage s = i :: rest → dispatch_one i k s = Ok s' → raw_inv s'.
Proof.
  intros HK Hsh Hret [Hb Hm Hs Hr Hn] Hq H.
  destruct (dispatch_head c s i rest HK Hq) as (Hi & Hlt & Hni).
  destruct (dispatched_prefix c p 5 s HK Hsh Hret) as (r & L1 & L2 & Hdis & _).
  assert (Ei : i = r + length (robIds s)).
  { rewrite Hq in L2. simpl in L2. by injection L2 as L2 _. }
  rewrite <- Ei in Hdis. clear L1 L2 Ei r.
  destruct HK as (Hst & Hord & Hreg & _).
  destruct (dispatch_one_effect s i k s' H Hi)
    as (Eo & Ec & _ & Eop & Em1 & Em2 & _ & _ & _ & _ & _ & Edst).
  destruct (dispatch_one_fields s i k s' H Hi) as (Edc & Edd).
  assert (Eops : srcOp1 (getInst s' i) = srcOp1 (getInst s i) ∧
                 srcOp2 (getInst s' i) = srcOp2 (getInst s i) ∧
                 dstOp (getInst s' i) = dstOp (getInst s i)).
  { unfold operands in Eop. simpl in *. split_and!; congruence. }
  destruct Eops as (Eo1 & Eo2 & Eoi).
  assert (Eod : ∀ j, dstOp (getInst s' j) = dstOp (getInst s j)).
  { intros j. destruct (decide (j = i)) as [->|Hne]; [done|by rewrite Eo]. }
  assert (Erob : robIds s' = robIds s ++ [i]).
  { unfold robIds.
    destruct Edst as [(_ & _ & ->)|(_ & ? & ? & ? & ? & _ & _ & _ & _ & _ & ->)];
      by rewrite fmap_app. }
  assert (Hdis' : ∀ j, j ≠ i → dispatched s' j → j < i).
  { intros j Hne Hj. apply Hdis. unfold dispatched in *. by rewrite <- Eo. }
  assert (Hdi : dispatched s' i) by (unfold dispatched; by rewrite Edc).
  assert (DR : ∀ w, w ≠ i → dstReg s' w = dstReg s w).
  { intros w Hne. unfold dstReg. by rewrite Eo. }
  assert (HC : ∀ w, hasCompleted (getInst s' w) = hasCompleted (getInst s w)).
  { intros w. destruct (decide (w = i)) as [->|Hne]; [done|by rewrite Eo]. }
  assert (WB : ∀ i1 a w, writerBefore s' i1 a w → writerBefore s i1 a w).
  { intros i1 a w (H1 & H2 & H3). split_and!; [done|by rewrite <- Eod|].
    intros j Hj. rewrite <- Eod. by apply H3. }
  assert (LW : ∀ a w, lastWriter s' a w →
            (w = i ∧ dstOp (getInst s i) = a) ∨
            (w ≠ i ∧ dstOp (getInst s i) ≠ a ∧ lastWriter s a w)).
  { intros a w (H1 & H2 & H3). rewrite Eod in H2.
    destruct (decide (w = i)) as [->|Hne]; [by left|right].
    pose proof (Hdis' w Hne H1) as Hwi.
    split_and!; [done| |].
    - intros E. apply (H3 i Hwi Hdi). by rewrite Eod.
    - split_and!; [by apply Hdis|done|].
      intros j Hj Hdj. rewrite <- Eod. apply H3; [done|].
      apply Hdis in Hdj. unfold dispatched in *. rewrite Eo by lia.
      by apply Hdis. }
  assert (WL : ∀ a w, writerBefore s i a w → lastWriter s a w).
  { intros a w (H1 & H2 & H3). split_and!; [by apply Hdis|done|].
    intros j Hj Hdj. apply H3. apply Hdis in Hdj. lia. }
  assert (Hrange : ∀ w, dispatched s w → dstOp (getInst s w) ≠ NONE →
            (0 ≤ dstOp (getInst s w))%Z).
  { intros w Hw Hd. destruct (sh_disp _ _ _ Hsh w Hw) as [_ Hx].
    destruct (Hx Hd) as [? _]. lia. }
  assert (SRC : ∀ a pr, source (getInst s' i) a pr →
            ∃ x b, pr = mkPR x b ∧
                   mapping (mapTable s) !! Z.to_nat a = Some x ∧
                   readyBits (mapTable s) !! Z.to_nat x = Some b).
  { intros a pr (Ha & [[E1 E2]|[E1 E2]]).
    - rewrite Eo1 in E1. rewrite E1 in Em1. unfold getMapping in Em1.
      destruct (zlookup (mapping (mapTable s)) a) as [x|] eqn:Z1; [|done].
      destruct (zlookup (readyBits (mapTable s)) x) as [b|] eqn:Z2; [|done].
      apply zlookup_Some in Z1 as [_ Z1]. apply zlookup_Some in Z2 as [_ Z2].
      exists x, b. split_and!; [congruence|done|done].
    - rewrite Eo2 in E1. rewrite E1 in Em2. specialize (Em2 Ha).
      unfold getMapping in Em2.
      destruct (zlookup (mapping (mapTable s)) a) as [x|] eqn:Z1; [|done].
      destruct (zlookup (readyBits (mapTable s)) x) as [b|] eqn:Z2; [|done].
      apply zlookup_Some in Z1 as [_ Z1]. apply zlookup_Some in Z2 as [_ Z2].
      exists x, b. split_and!; [congruence|done|done]. }
  (* the sources of the older instructions *)
  assert (Hs' : ∀ i1 a pr w, i1 ∈ robIds s → source (getInst s' i1) a pr →
             writerBefore s' i1 a w →
             source (getInst s i1) a pr ∧ writerBefore s i1 a w ∧ w ≠ i).
  { intros i1 a pr w Hi1 Hsrc Hw. pose proof (Hlt i1 Hi1) as Hi1i.
    rewrite Eo in Hsrc by lia. split_and!; [done|by apply WB|].
    destruct Hw as (Hw & _). lia. }
  (* the sources of the dispatched instruction *)
  assert (Hnew : ∀ a pr w, source (getInst s' i) a pr →
             writerBefore s' i a w →
             (w ∈ robIds s → regNum pr = dstReg s w) ∧
             (isReady pr = true → hasCompleted (getInst s w) = true)).
  { intros a pr w Hsrc Hw. pose proof Hsrc as [Ha _].
    destruct (SRC a pr Hsrc) as (x & b & -> & Z1 & Z2).
    apply WB, WL in Hw. simpl. split.
    - intros Hin. pose proof (Hm a w Ha Hw Hin) as E. congruence.
    - intros ->. by apply (Hb a w x). }
  destruct Edst as [(Hd & Emt & _)|
    (Hd & T0 & fl & told & b & Efl & Edp & Ezl & [bT HbT] & Emt & _)].
  - (* no destination *)
    constructor.
    + intros a w x Ha Hw. rewrite Emt, HC.
      destruct (LW a w Hw) as [[_ E]|(_ & _ & Hw')]; [congruence|].
      by apply Hb.
    + intros a w Ha Hw. rewrite Emt.
      destruct (LW a w Hw) as [[_ E]|(Hne & _ & Hw')]; [congruence|].
      rewrite Erob, DR by done. intros [Hin|Hin%list_elem_of_singleton]%elem_of_app;
        [by apply Hm|done].
    + intros i1 a pr w. rewrite Erob.
      intros [Hi1|Hi1%list_elem_of_singleton]%elem_of_app Hsrc Hw.
      * destruct (Hs' i1 a pr w Hi1 Hsrc Hw) as (Hsrc0 & Hw0 & Hne).
        rewrite DR by done.
        intros [Hin|Hin%list_elem_of_singleton]%elem_of_app; [|done].
        by apply (Hs i1 a pr w).
      * subst i1. assert (w ≠ i) by (destruct Hw as (? & _); lia).
        rewrite DR by done.
        intros [Hin|Hin%list_elem_of_singleton]%elem_of_app; [|done].
        by apply (Hnew a pr w).
    + intros i1 a pr w. rewrite Erob, HC.
      intros [Hi1|Hi1%list_elem_of_singleton]%elem_of_app Hsrc Hw.
      * destruct (Hs' i1 a pr w Hi1 Hsrc Hw) as (Hsrc0 & Hw0 & Hne).
        by apply (Hr i1 a pr w).
      * subst i1. by apply (Hnew a pr w).
    + intros w Hw. rewrite Eod. destruct (decide (w = i)) as [->|Hne].
      * intros E. unfold dstReg. by rewrite Edd.
      * rewrite DR by done. apply Hn. apply Hdis. by apply Hdis'.
  - (* a destination, renamed to [T0] *)
    apply zlookup_Some in Ezl as [Hd0 Ezl].
    apply zlookup_Some in HbT as [HT0 HbT].
    assert (HT : dstReg s' i = regNum T0) by (unfold dstReg; by rewrite Edp).
    assert (Hfresh : ∀ a x, mapping (mapTable s) !! a = Some x →
              (0 ≤ x)%Z ∧ x ≠ regNum T0).
    { intros a x Ha.
      pose proof (mapping_in_range c s a x Hreg Ha) as Hx. split; [lia|].
      pose proof (regs_NoDup c s Hreg) as Hnd. unfold regs in Hnd.
      rewrite Efl, fmap_cons in Hnd. simpl in Hnd.
      apply NoDup_cons in Hnd as [Hnf _]. intros ->. apply Hnf.
      rewrite !elem_of_app. right. left. by eapply list_elem_of_lookup_2. }
    assert (Hother : ∀ a w, a ≠ NONE → lastWriter s a w →
              dstOp (getInst s i) ≠ a →
              Z.to_nat a ≠ Z.to_nat (dstOp (getInst s i))).
    { intros a w Ha (Hw1 & Hw2 & _) Hne.
      pose proof (Hrange w Hw1 ltac:(by rewrite Hw2)) as H0.
      rewrite Hw2 in H0. lia. }
    constructor.
    + intros a w x Ha Hw. rewrite Emt, HC. simpl.
      destruct (LW a w Hw) as [[-> E]|(Hne & Hda & Hw')].
      * rewrite <- E, list_lookup_insert_eq by (by eapply lookup_lt_Some).
        intros [= <-].
        rewrite list_lookup_insert_eq by (by eapply lookup_lt_Some). done.
      * rewrite list_lookup_insert_ne by (symmetry; by eapply Hother).
        intros Hx. destruct (Hfresh _ _ Hx) as [Hx0 HxT].
        rewrite list_lookup_insert_ne by lia. intros Hrb.
        by apply (Hb a w x).
    + intros a w Ha Hw. rewrite Emt, Erob. simpl.
      destruct (LW a w Hw) as [[-> E]|(Hne & Hda & Hw')].
      * intros _. rewrite HT, <- E.
        by rewrite list_lookup_insert_eq by (by eapply lookup_lt_Some).
      * rewrite DR by done.
        rewrite list_lookup_insert_ne by (symmetry; by eapply Hother).
        intros [Hin|Hin%list_elem_of_singleton]%elem_of_app;
          [by apply Hm|done].
    + intros i1 a pr w. rewrite Erob.
      intros [Hi1|Hi1%list_elem_of_singleton]%elem_of_app Hsrc Hw.
      * destruct (Hs' i1 a pr w Hi1 Hsrc Hw) as (Hsrc0 & Hw0 & Hne).
        rewrite DR by done.
        intros [Hin|Hin%list_elem_of_singleton]%elem_of_app; [|done].
        by apply (Hs i1 a pr w).
      * subst i1. assert (w ≠ i) by (destruct Hw as (? & _); lia).
        rewrite DR by done.
        intros [Hin|Hin%list_elem_of_singleton]%elem_of_app; [|done].
        by apply (Hnew a pr w).
    + intros i1 a pr w. rewrite Erob, HC.
      intros [Hi1|Hi1%list_elem_of_singleton]%elem_of_app Hsrc Hw.
      * destruct (Hs' i1 a pr w Hi1 Hsrc Hw) as (Hsrc0 & Hw0 & Hne).
        by apply (Hr i1 a pr w).
      * subst i1. by apply (Hnew a pr w).
    + intros w Hw. rewrite Eod. destruct (decide (w = i)) as [->|Hne].
      * intros E. done.
      * rewrite DR by done. apply Hn. apply Hdis. by apply Hdis'.
Qed.

(** ** Complete *)

(** What holds after [markSrcReady] only if it held before holds after the
    broadcast only if it held before. *)
Lemma broadcastList_back (P : Instruction → Prop) r rs l j :
  (∀ x, P (markSrcReady r x) → P x) →
  P (nthInst (broadcastList r rs l) j) → P (nthInst l j).
Proof.
  intros HP. revert l. induction rs as [|st rs IH]; intros l Hl; [done|].
  rewrite broadcastList_cons in Hl. apply IH in Hl.
  destruct (rsInst st) as [i|]; [|done].
  destruct (nthInst_alter_cases (markSrcReady r) i l j)
    as [E|(-> & _ & E)]; rewrite E in Hl; auto.
Qed.

Lemma markSrcReady_back1 r x :
  isReady (srcPhysicalReg1 (markSrcReady r x)) = true →
  isReady (srcPhysicalReg1 x) = true ∨ regNum (srcPhysicalReg1 x) = r.
Proof.
  unfold markSrcReady.
  destruct (Z.eqb_spec (regNum (srcPhysicalReg1 x)) r); [by right|].
  case_match; simpl; by left.
Qed.

Lemma markSrcReady_back2 r x :
  isReady (srcPhysicalReg2 (markSrcReady r x)) = true →
  isReady (srcPhysicalReg2 x) = true ∨ regNum (srcPhysicalReg2 x) = r.
Proof.
  unfold markSrcReady.
  destruct (regNum (srcPhysicalReg1 x) =? r)%Z; simpl.
  - destruct (Z.eqb_spec (regNum (srcPhysicalReg2 x)) r); [by right|].
    by left.
  - destruct (Z.eqb_spec (regNum (srcPhysicalReg2 x)) r); [by right|].
    by left.
Qed.

Lemma complete_one_raw s i0 j s' :
  complete_one i0 j s = Ok s' → is_Some (instructionsList s !! i0) →
  (∀ x, dstOp (getInst s' x) = dstOp (getInst s x) ∧
        dstPhysicalReg (getInst s' x) = dstPhysicalReg (getInst s x) ∧
        srcOp1 (getInst s' x) = srcOp1 (getInst s x) ∧
        srcOp2 (getInst s' x) = srcOp2 (getInst s x) ∧
        dispatchCycle (getInst s' x) = dispatchCycle (getInst s x) ∧
        regNum (srcPhysicalReg1 (getInst s' x))
          = regNum (srcPhysicalReg1 (getInst s x)) ∧
        regNum (srcPhysicalReg2 (getInst s' x))
          = regNum (srcPhysicalReg2 (getInst s x)) ∧
        (isReady (srcPhysicalReg1 (getInst s' x)) = true →
         isReady (srcPhysicalReg1 (getInst s x)) = true ∨
         regNum (srcPhysicalReg1 (getInst s x)) = dstReg s i0) ∧
        (isReady (srcPhysicalReg2 (getInst s' x)) = true →
         isReady (srcPhysicalReg2 (getInst s x)) = true ∨
         regNum (srcPhysicalReg2 (getInst s x)) = dstReg s i0) ∧
        (hasCompleted (getInst s x) = true →
         hasCompleted (getInst s' x) = true)) ∧
  hasCompleted (getInst s' i0) = true ∧
  rob s' = rob s ∧ mapping (mapTable s') = mapping (mapTable s) ∧
  (∀ k, readyBits (mapTable s') !! k = Some true →
        readyBits (mapTable s) !! k = Some true ∨
        (dstOp (getInst s i0) ≠ NONE ∧ k = Z.to_nat (dstReg s i0))).
Proof.
  intros H Hi.
  set (r := regNum (dstPhysicalReg (getInst s i0))).
  set (l1 := broadcastList r (reservationStations s) (instructionsList s)).
  set (l2 := alter (setCompleteCycle (cycle s)) i0 l1).
  assert (Hi1 : is_Some (l1 !! i0)) by (by apply broadcastList_in_range).
  assert (E : instructionsList s' = l2 ∧ rob s' = rob s ∧
              mapping (mapTable s') = mapping (mapTable s) ∧
              (∀ k, readyBits (mapTable s') !! k = Some true →
                    readyBits (mapTable s) !! k = Some true ∨
                    (dstOp (getInst s i0) ≠ NONE ∧ k = Z.to_nat r))).
  { unfold complete_one, setReadyBit in H. rewrite broadcast_eq in H.
    simpl in H. pres.
    inv_ok; simpl; split_and!; try done; [|by left].
    intros k Hk. destruct (decide (k = Z.to_nat r)) as [->|Hne].
    - right. split; [|done]. by apply negb_true_iff, Z.eqb_neq in Heqb.
    - left. by rewrite list_lookup_insert_ne in Hk. }
  destruct E as (El & Erob & Emp & Erb).
  assert (Hsame : ∀ {A} (f : Instruction → A) x,
            (∀ c y, f (setCompleteCycle c y) = f y) →
            (∀ y, f (markSrcReady r y) = f y) →
            f (nthInst l2 x) = f (nthInst (instructionsList s) x)).
  { intros A f x H1 H2. unfold l2, l1.
    rewrite nthInst_alter_pres by (intros; apply H1).
    by apply broadcastList_pres. }
  assert (Hback : ∀ (P : Instruction → Prop) x,
            (∀ c y, P (setCompleteCycle c y) → P y) →
            (∀ y, P (markSrcReady r y) → P y) →
            P (nthInst l2 x) → P (nthInst (instructionsList s) x)).
  { intros P x H1 H2 Hx. unfold l2 in Hx.
    apply (broadcastList_back P r (reservationStations s)); [done|].
    fold l1.
    destruct (nthInst_alter_cases (setCompleteCycle (cycle s)) i0 l1 x)
      as [E|(-> & _ & E)]; rewrite E in Hx; eauto. }
  split_and!; [|simpl; rewrite El; unfold l2; by rewrite nthInst_alter_eq
              |done|done|done].
  intros x. simpl. rewrite El.
  split_and!.
  - apply Hsame; [by intros ? []|]. apply markSrcReady_pres; by intros ? [].
  - apply Hsame; [by intros ? []|]. apply markSrcReady_pres; by intros ? [].
  - apply Hsame; [by intros ? []|]. apply markSrcReady_pres; by intros ? [].
  - apply Hsame; [by intros ? []|]. apply markSrcReady_pres; by intros ? [].
  - apply Hsame; [by intros ? []|]. apply markSrcReady_pres; by intros ? [].
  - apply (Hsame _ (λ y, regNum (srcPhysicalReg1 y))); [by intros ? []|].
    apply markSrcReady_regNum1.
  - apply (Hsame _ (λ y, regNum (srcPhysicalReg2 y))); [by intros ? []|].
    apply markSrcReady_regNum2.
  - intros Hx. unfold dstReg. fold r.
    apply (Hback (λ y, isReady (srcPhysicalReg1 y) = true ∨
                       regNum (srcPhysicalReg1 y) = r) x).
    + by intros ? [].
    + intros y [Hy|Hy]; [by apply markSrcReady_back1|].
      right. by rewrite markSrcReady_regNum1 in Hy.
    + by left.
  - intros Hx. unfold dstReg. fold r.
    apply (Hback (λ y, isReady (srcPhysicalReg2 y) = true ∨
                       regNum (srcPhysicalReg2 y) = r) x).
    + by intros ? [].
    + intros y [Hy|Hy]; [by apply markSrcReady_back2|].
      right. by rewrite markSrcReady_regNum2 in Hy.
    + by left.
  - intros Hx. unfold l2. apply pointwise_alter.
    + unfold l1. rewrite broadcastList_pres; [done|].
      apply markSrcReady_pres; by intros ? [].
    + intros _ _. by destruct (nthInst l1 i0).
Qed.

Lemma step_raw_complete c p s j i0 s' :
  (Z.of_nat (physCount c) ≤ NONE)%Z →
  kernel_inv c 2 s → shape_inv c p s → retired_inv s → alloc_inv s →
  raw_inv s →
  completeStage s !! j = Some i0 → complete_one i0 j s = Ok s' → raw_inv s'.
Proof.
  intros Hphys HK Hsh Hret Hal [Hb Hm Hs Hr Hn] Hj H.
  assert (Hic : i0 ∈ completeStage s) by (by eapply list_elem_of_lookup_2).
  pose proof (completing_in_rob c p 2 s i0 HK Hsh Hret Hic) as Hi0.
  destruct (dispatched_prefix c p 2 s HK Hsh Hret) as (r & L1 & _ & Hdis & Hcomp).
  destruct HK as (Hst & Hord & Hreg & _).
  destruct (si_complete _ _ Hst i0 Hic) as (_ & e & He & _).
  pose proof (stamp_in_range _ _ Execute _ He) as Hi.
  destruct (complete_one_raw s i0 j s' H Hi) as (F & Hc0 & Erob & Emp & Erb).
  assert (Eids : robIds s' = robIds s) by (unfold robIds; by rewrite Erob).
  assert (Hd0 : dispatched s i0) by (by destruct (si_rob _ _ Hst i0 Hi0) as (_ & ? & _)).
  assert (DR : ∀ w, dstReg s' w = dstReg s w).
  { intros w. unfold dstReg. by destruct (F w) as (_ & -> & _). }
  assert (Eod : ∀ w, dstOp (getInst s' w) = dstOp (getInst s w)).
  { intros w. by destruct (F w) as (-> & _). }
  assert (Edc : ∀ w, dispatched s' w ↔ dispatched s w).
  { intros w. unfold dispatched.
    by destruct (F w) as (_ & _ & _ & _ & -> & _). }
  assert (Mono : ∀ w, hasCompleted (getInst s w) = true →
                      hasCompleted (getInst s' w) = true).
  { intros w. by destruct (F w) as (_ & _ & _ & _ & _ & _ & _ & _ & _ & ?). }
  assert (LW : ∀ a w, lastWriter s' a w → lastWriter s a w).
  { intros a w (H1 & H2 & H3). split_and!; [by apply Edc|by rewrite <- Eod|].
    intros k Hk Hdk. rewrite <- Eod. apply H3; [done|by apply Edc]. }
  assert (WB : ∀ i1 a w, writerBefore s' i1 a w → writerBefore s i1 a w).
  { intros i1 a w (H1 & H2 & H3). split_and!; [done|by rewrite <- Eod|].
    intros k Hk. rewrite <- Eod. by apply H3. }
  assert (Hreg0 : ∀ w, dispatched s w → dstOp (getInst s w) ≠ NONE →
            (0 ≤ dstReg s w < NONE)%Z).
  { intros w Hw Hd. destruct (sh_disp _ _ _ Hsh w Hw) as [_ Hx].
    destruct (Hx Hd) as [_ ?]. unfold dstReg. lia. }
  (* an instruction outside the ROB has completed *)
  assert (K1 : ∀ w, dispatched s w → w ∉ robIds s →
                    hasCompleted (getInst s' w) = true).
  { intros w Hw Hnin. apply Mono, Hcomp. apply Hdis in Hw.
    destruct (decide (w < r)) as [|Hge]; [done|exfalso].
    apply Hnin. rewrite L1. apply elem_of_seq. lia. }
  (* the broadcast reaches the consumers of [i0] only *)
  assert (K2 : ∀ w, dispatched s w → dstOp (getInst s w) ≠ NONE →
                    dstReg s w = dstReg s i0 →
                    hasCompleted (getInst s' w) = true).
  { intros w Hw Hd E.
    destruct (decide (w ∈ robIds s)) as [Hin|Hnin]; [|by apply K1].
    destruct (decide (dstOp (getInst s i0) = NONE)) as [Hd0n|Hd0n].
    - exfalso. pose proof (Hn i0 Hd0 Hd0n) as E0. simpl in E0.
      pose proof (Hreg0 w Hw Hd). lia.
    - by rewrite (dstReg_inj c s w i0 Hreg Hal Hin Hi0 Hd Hd0n E). }
  assert (SRC : ∀ i1 a pr, source (getInst s' i1) a pr →
            ∃ pr0, source (getInst s i1) a pr0 ∧ regNum pr0 = regNum pr ∧
                   (isReady pr = true →
                    isReady pr0 = true ∨ regNum pr0 = dstReg s i0)).
  { intros i1 a pr (Ha & Hsrc).
    destruct (F i1) as (_ & _ & E1 & E2 & _ & R1 & R2 & B1 & B2 & _).
    destruct Hsrc as [[Eo <-]|[Eo <-]].
    - exists (srcPhysicalReg1 (getInst s i1)).
      split_and!; [split; [done|left; split; [congruence|done]]|done|done].
    - exists (srcPhysicalReg2 (getInst s i1)).
      split_and!; [split; [done|right; split; [congruence|done]]|done|done]. }
  constructor.
  - intros a w x Ha Hw. apply LW in Hw. rewrite Emp. intros Hx Hrb.
    destruct (Erb _ Hrb) as [Hold|[Hd0n Ex]]; [by apply Mono, (Hb a w x)|].
    pose proof Hw as (Hw1 & Hw2 & _).
    destruct (decide (w ∈ robIds s)) as [Hin|Hnin]; [|by apply K1].
    pose proof (Hm a w Ha Hw Hin) as Hx'.
    assert (x = dstReg s w) by congruence. subst x.
    apply K2; [done|by rewrite Hw2|].
    pose proof (Hreg0 w Hw1 ltac:(by rewrite Hw2)).
    pose proof (Hreg0 i0 Hd0 Hd0n). lia.
  - intros a w Ha Hw. apply LW in Hw. rewrite Emp, Eids, DR. by apply Hm.
  - intros i1 a pr w. rewrite Eids, DR. intros Hi1 Hsrc Hw Hin.
    destruct (SRC i1 a pr Hsrc) as (pr0 & Hsrc0 & <- & _).
    apply (Hs i1 a pr0 w); [done|done|by apply WB|done].
  - intros i1 a pr w. rewrite Eids. intros Hi1 Hsrc Hw Hrd.
    destruct (SRC i1 a pr Hsrc) as (pr0 & Hsrc0 & Ereg & Hback).
    apply WB in Hw.
    destruct (Hback Hrd) as [Hold|Hhit]; [by apply Mono, (Hr i1 a pr0 w)|].
    pose proof Hw as (Hwi & Hw2 & _). pose proof Hsrc0 as [Ha _].
    assert (Hdw : dispatched s w).
    { apply Hdis. rewrite L1 in Hi1. apply elem_of_seq in Hi1. lia. }
    destruct (decide (w ∈ robIds s)) as [Hin|Hnin]; [|by apply K1].
    apply K2; [done|by rewrite Hw2|].
    rewrite <- Hhit. symmetry. by apply (Hs i1 a pr0 w).
  - intros w. rewrite Edc, Eod, DR. apply Hn.
Qed.

(** ** Issue *)

Lemma candidate_ready s i :
  i ∈ candidates s → srcsReady (getInst s i) = true.
Proof.
  unfold candidates. intros (r & _ & Hc)%list_elem_of_omap.
  unfold issueCandidate, isReadyToExecute in Hc.
  destruct (rsInst r) as [i'|]; [|done].
  destruct (rsBusy r); [|done].
  destruct (srcsReady (getInst s i')) eqn:E; [|done].
  destruct (hasIssued (getInst s i')); [done|].
  simpl in Hc. by injection Hc as <-.
Qed.

Lemma step_raw c p k s s' :
  (Z.of_nat (physCount c) ≤ NONE)%Z →
  step k s s' → kernel_inv c k s → shape_inv c p s → retired_inv s →
  alloc_inv s → raw_inv s → raw_inv s'.
Proof.
  intros Hphys Hstep HK Hsh Hret Hal Hraw.
  destruct (decide (k = 5)) as [->|H5].
  { inversion Hstep; subst. by eapply step_raw_dispatch. }
  destruct (decide (k = 2)) as [->|H2].
  { inversion Hstep; subst; [by eapply step_raw_complete|].
    by apply (raw_transfer s). }
  destruct (step_rawFields _ _ _ Hstep H2 H5) as (Hf & Hmt & Hsub).
  by apply (raw_transfer s).
Qed.

Lemma step_issue_after c p k s s' :
  step k s s' → kernel_inv c k s → shape_inv c p s → stamps_upto s →
  live_inv s → raw_inv s → issue_after_writer s → issue_after_writer s'.
Proof.
  intros Hstep HK Hsh Hup Hl Hraw IH i a w t Ha Hsrc Hw Ht.
  pose proof (step_stable c _ _ _ Hstep HK) as Hstab.
  pose proof (step_operands _ _ _ Hstep) as Hops.
  assert (Eo : ∀ j, srcOp1 (getInst s' j) = srcOp1 (getInst s j) ∧
                    srcOp2 (getInst s' j) = srcOp2 (getInst s j) ∧
                    dstOp (getInst s' j) = dstOp (getInst s j)).
  { intros j. specialize (Hops j). unfold operands in Hops.
    simpl in *. split_and!; congruence. }
  assert (Hw0 : writerBefore s i a w).
  { destruct Hw as (H1 & H2 & H3). destruct (Eo w) as (_ & _ & E).
    split_and!; [done|by rewrite <- E|].
    intros j Hj. destruct (Eo j) as (_ & _ & <-). by apply H3. }
  destruct (Eo i) as (E1 & E2 & _). rewrite E1, E2 in Hsrc.
  assert (Hkeep : ∀ u, completeCycle (getInst s w) = Some u →
                       completeCycle (getInst s' w) = Some u).
  { intros u. apply (Hstab w Complete). }
  destruct (issueCycle (getInst s i)) as [t0|] eqn:Ei.
  { pose proof (Hstab i Issue t0 Ei) as Ei'. simpl in Ei'.
    assert (t0 = t) as -> by (simpl in *; congruence).
    destruct (IH i a w t Ha Hsrc Hw0 Ei) as (u & Hu & Hle).
    exists u. split; [by apply Hkeep|done]. }
  (* the move issues [i] *)
  destruct (step_moves _ _ _ Hstep) as [Hsame|(i' & Hmv & Htouch)].
  { specialize (Hsame i Issue). simpl in *. congruence. }
  destruct (Htouch i Issue) as [Hsame|(<- & Hst4 & Hnow)];
    [simpl in *; congruence|].
  assert (k = 4) as ->.
  { unfold stageAt in Hst4. repeat (destruct k as [|k]; try done). }
  simpl in Hmv. assert (t = cycle s) as -> by (simpl in *; congruence).
  pose proof (candidate_ready s i Hmv) as Hrdy.
  destruct (elem_of_candidates s i Hmv) as [Hheld _].
  pose proof (li_held _ Hl i Hheld) as Hin.
  assert (Hc : hasCompleted (getInst s w) = true).
  { unfold srcsReady in Hrdy. apply andb_true_iff in Hrdy as [R1 R2].
    destruct Hsrc as [Hs1|Hs2].
    - apply (ri_ready _ Hraw i a (srcPhysicalReg1 (getInst s i)) w);
        [done|split; [done|by left]|done|].
      apply orb_true_iff in R1 as [R1|R1]; [|done].
      apply Z.eqb_eq in R1. congruence.
    - apply (ri_ready _ Hraw i a (srcPhysicalReg2 (getInst s i)) w);
        [done|split; [done|by right]|done|].
      apply orb_true_iff in R2 as [R2|R2]; [|done].
      apply Z.eqb_eq in R2. congruence. }
  apply (sh_completed _ _ _ Hsh) in Hc as [u Hu].
  exists u. split; [by apply Hkeep|]. apply (Hup w Complete u Hu).
Qed.

(** ** Every reachable state *)

Lemma start_raw c p : raw_inv (start c p).
Proof.
  assert (Hn : ∀ w, ¬ dispatched (start c p) w).
  { intros w [a Ha]. unfold start in Ha. rewrite loadProgram_eq in Ha.
    pose proof (nthInst_fresh p w Dispatch) as Hf. simpl in *. congruence. }
  assert (Hr : ∀ w, w ∉ robIds (start c p)).
  { intros w. unfold start. rewrite loadProgram_eq. apply not_elem_of_nil. }
  constructor.
  - intros a w x _ (Hw & _). by destruct (Hn w).
  - intros a w _ (Hw & _). by destruct (Hn w).
  - intros i a r w Hi. by destruct (Hr i).
  - intros i a r w Hi. by destruct (Hr i).
  - intros w Hw. by destruct (Hn w).
Qed.

Lemma start_flow c p : flow_inv (start c p).
Proof.
  split_and!.
  - apply start_retired.
  - apply start_commit.
  - unfold start. rewrite loadProgram_eq. by unfold alloc_inv.
  - apply start_live.
  - apply start_raw.
  - intros i a w t _ _ _ Ht. unfold start in Ht. rewrite loadProgram_eq in Ht.
    pose proof (nthInst_fresh p i Issue) as Hf. simpl in *. congruence.
Qed.

Lemma step_flow c p k s s' :
  (Z.of_nat (physCount c) ≤ NONE)%Z →
  step k s s' → kernel_inv c k s → shape_inv c p s → stamps_upto s →
  flow_inv s → flow_inv s'.
Proof.
  intros Hphys Hstep HK Hsh Hup (Hret & Hc & Hal & Hl & Hraw & Hia).
  split_and!.
  - by apply (step_retired c k s).
  - by apply (step_commit c k s).
  - by apply (step_alloc c k s).
  - by apply (step_live c p k s).
  - by apply (step_raw c p k s).
  - by apply (step_issue_after c p k s).
Qed.

Lemma reachable_flow c p n s :
  (Z.of_nat (physCount c) ≤ NONE)%Z →
  reachable c p n s → (Z.of_nat n < 4294967296)%Z → flow_inv s.
Proof.
  intros Hphys. apply (reachable_inv2 c p flow_inv flow_inv).
  - apply start_flow.
  - intros t (Hst & _) _ _ (Hret & Hc & Hal & Hl & Hraw & Hia). split_and!.
    + done.
    + by apply (commit_transfer t).
    + by apply (alloc_transfer t).
    + by apply (live_transfer 0 t).
    + by apply (raw_transfer t).
    + done.
  - intros k t t'. by apply step_flow.
  - intros t (Hst & _) _ _ (Hret & Hc & Hal & Hl & Hraw & Hia). split_and!.
    + done.
    + by apply (commit_transfer t).
    + by apply (alloc_transfer t).
    + by apply (live_transfer 7 t).
    + by apply (raw_transfer t).
    + done.
Qed.

(** ** From the program to the store *)

Lemma lastWriteBefore_store c p s i a w li :
  shape_inv c p s → p !! i = Some li → lastWriteBefore p i a w →
  writerBefore s i a w.
Proof.
  intros Hsh Hi (Hwi & (lw & Hlw & Hdw) & Hbetween).
  split_and!; [done| |].
  - pose proof (sh_ops _ _ _ Hsh w lw Hlw) as Ho.
    unfold operands in Ho. destruct lw as [[[ty s1] s2] d].
    injection Ho as _ _ _ E. unfold lineDst in Hdw. simpl in *. congruence.
  - intros j Hj.
    destruct (lookup_lt_is_Some_2 p j) as [lj Hlj].
    { apply lookup_lt_Some in Hi. lia. }
    pose proof (sh_ops _ _ _ Hsh j lj Hlj) as Ho.
    pose proof (Hbetween j lj Hj Hlj) as Hne.
    unfold operands in Ho. destruct lj as [[[ty s1] s2] d].
    injection Ho as _ _ _ E. unfold lineDst in Hne. simpl in *. congruence.
Qed.

Lemma reads_store c p s i li :
  shape_inv c p s → p !! i = Some li →
  srcOp1 (getInst s i) = lineSrc1 li ∧ srcOp2 (getInst s i) = lineSrc2 li.
Proof.
  intros Hsh Hi. pose proof (sh_ops _ _ _ Hsh i li Hi) as Ho.
  unfold operands in Ho. destruct li as [[[ty s1] s2] d].
  injection Ho as _ E1 E2 _. unfold lineSrc1, lineSrc2. simpl in *. done.
Qed.

(** * Further properties of the stages *)

(** X1. The reorder buffer never overflows. In every state the simulation
    reaches, the ROB holds at most as many entries as the configuration gives
    it, and its capacity is the configured one: [dispatch] adds an entry only
    after [hasFreeEntry]. *)
Theorem rob_within_capacity c p n s :
  reachable c p n s → (Z.of_nat n < 4294967296)%Z →
  robCapacity (rob s) = robEntries c ∧
  length (robQueue (rob s)) ≤ robEntries c.
Proof.
  intros Hr Hn. destruct (reachable_shape _ _ _ _ Hr Hn). by split.
Qed.

Lemma rob_within_capacity_witness :
  reachable cfgWidth1 progLoadAlu 5 (stateAfter 5 cfgWidth1 progLoadAlu) ∧
  (Z.of_nat 5 < 4294967296)%Z ∧
  length (robQueue (rob (stateAfter 5 cfgWidth1 progLoadAlu))) ≤ 8.
Proof.
  assert (R : reachable cfgWidth1 progLoadAlu 5
                (stateAfter 5 cfgWidth1 progLoadAlu)).
  { apply stateAfter_reachable. vm_compute. eexists. reflexivity. }
  assert (N : (Z.of_nat 5 < 4294967296)%Z) by lia.
  split; [exact R|]. split; [exact N|].
  exact (proj2 (rob_within_capacity _ _ _ _ R N)).
Defined.

(** X2. Latency. In every state the simulation reaches, an instruction that
    has completed was issued, started execution in a later cycle, and
    completed no earlier than the latency of its station type after the
    cycle in which it started execution (1 cycle for an ALU operation, 2 for
    a load or a store). *)
Theorem latency_lower_bound c p n s i ty s1 s2 d u :
  reachable c p n s → (Z.of_nat n < 4294967296)%Z →
  p !! i = Some (ty, s1, s2, d) →
  completeCycle (getInst s i) = Some u →
  ∃ t e, issueCycle (getInst s i) = Some t ∧
         executeCycle (getInst s i) = Some e ∧
         (t < e)%Z ∧ (e + latency ty ≤ u)%Z.
Proof.
  intros Hr Hn Hl Hu.
  destruct (reachable_lat _ _ _ _ Hr Hn i u Hu) as (e & He & Hle).
  pose proof (sh_ops _ _ _ (reachable_shape _ _ _ _ Hr Hn) _ _ Hl) as Hop.
  injection Hop as Hty _ _ _.
  destruct (chain_ordered _ Issue Execute e
              (si_chain _ _ (reachable_stamp _ _ _ _ Hr Hn) i))
    as (t & Ht & Hlt); [simpl; lia|done|].
  exists t, e. rewrite <- Hty. by split_and!.
Qed.

Lemma latency_lower_bound_witness :
  reachable cfgWidth1 progLoadAlu 9 (stateAfter 9 cfgWidth1 progLoadAlu) ∧
  (Z.of_nat 9 < 4294967296)%Z ∧
  progLoadAlu !! 0 = Some (RSType_LOAD, 0%Z, NONE, 1%Z) ∧
  completeCycle (getInst (stateAfter 9 cfgWidth1 progLoadAlu) 0) = Some 6%Z ∧
  ∃ t e, issueCycle (getInst (stateAfter 9 cfgWidth1 progLoadAlu) 0) = Some t ∧
         executeCycle (getInst (stateAfter 9 cfgWidth1 progLoadAlu) 0) = Some e ∧
         (t < e)%Z ∧ (e + latency RSType_LOAD ≤ 6)%Z.
Proof.
  assert (R : reachable cfgWidth1 progLoadAlu 9
                (stateAfter 9 cfgWidth1 progLoadAlu)).
  { apply stateAfter_reachable. vm_compute. eexists. reflexivity. }
  assert (N : (Z.of_nat 9 < 4294967296)%Z) by lia.
  assert (L : progLoadAlu !! 0 = Some (RSType_LOAD, 0%Z, NONE, 1%Z))
    by reflexivity.
  assert (C : completeCycle (getInst (stateAfter 9 cfgWidth1 progLoadAlu) 0)
              = Some 6%Z) by (vm_compute; reflexivity).
  split; [exact R|]. split; [exact N|]. split; [exact L|]. split; [exact C|].
  exact (latency_lower_bound _ _ _ _ _ _ _ _ _ _ R N L C).
Defined.





(** X5. The width of the in-order and issue stages. In every state the
    simulation reaches and for every cycle [t], at most [width] instructions
    carry [t] as their fetch cycle, and the same holds for the decode,
    dispatch, issue, execute and retire cycles: each of these stages takes at
    most [width] instructions per cycle. ([complete] is the exception.) *)
Theorem stage_width_cap c p n s st t :
  reachable c p n s → (Z.of_nat n < 4294967296)%Z → st ≠ Complete →
  length (stampedAt st t s) ≤ cfgWidth c.
Proof. intros Hr Hn Hst. by apply (reachable_width c p n). Qed.

Lemma stage_width_cap_witness :
  reachable cfgWidth2 progFour 9 (stateAfter 9 cfgWidth2 progFour) ∧
  (Z.of_nat 9 < 4294967296)%Z ∧ Execute ≠ Complete ∧
  length (stampedAt Execute 4 (stateAfter 9 cfgWidth2 progFour)) ≤ 2.
Proof.
  assert (R : reachable cfgWidth2 progFour 9
                (stateAfter 9 cfgWidth2 progFour)).
  { apply stateAfter_reachable. vm_compute. eexists. reflexivity. }
  assert (N : (Z.of_nat 9 < 4294967296)%Z) by lia.
  assert (D : Execute ≠ Complete) by discriminate.
  split; [exact R|]. split; [exact N|]. split; [exact D|].
  exact (stage_width_cap _ _ _ _ Execute 4%Z R N D).
Defined.

(** X6. Program order of fetch, decode, dispatch and retire. In every state
    the simulation reaches, when an instruction carries a fetch cycle, every
    earlier instruction of the program carries one too, and it is not a
    later cycle; the same holds for the decode, dispatch and retire cycles.
    These four stages never take an instruction before an earlier one. *)
Theorem in_order_stages c p n s st i j b :
  reachable c p n s → (Z.of_nat n < 4294967296)%Z →
  inOrderStage st = true → i ≤ j →
  stamp st (getInst s j) = Some b →
  ∃ a, stamp st (getInst s i) = Some a ∧ (a ≤ b)%Z.
Proof. intros Hr Hn. by apply (reachable_inorder c p n). Qed.

Lemma in_order_stages_witness :
  reachable cfgWidth1 progLoadAlu 9 (stateAfter 9 cfgWidth1 progLoadAlu) ∧
  (Z.of_nat 9 < 4294967296)%Z ∧ inOrderStage Dispatch = true ∧ 0 ≤ 1 ∧
  stamp Dispatch (getInst (stateAfter 9 cfgWidth1 progLoadAlu) 1) = Some 3%Z ∧
  ∃ a, stamp Dispatch (getInst (stateAfter 9 cfgWidth1 progLoadAlu) 0) = Some a ∧
       (a ≤ 3)%Z.
Proof.
  assert (R : reachable cfgWidth1 progLoadAlu 9
                (stateAfter 9 cfgWidth1 progLoadAlu)).
  { apply stateAfter_reachable. vm_compute. eexists. reflexivity. }
  assert (N : (Z.of_nat 9 < 4294967296)%Z) by lia.
  assert (O : inOrderStage Dispatch = true) by reflexivity.
  assert (L : 0 ≤ 1) by lia.
  assert (S1 : stamp Dispatch (getInst (stateAfter 9 cfgWidth1 progLoadAlu) 1)
               = Some 3%Z) by (vm_compute; reflexivity).
  split; [exact R|]. split; [exact N|]. split; [exact O|]. split; [exact L|].
  split; [exact S1|].
  exact (in_order_stages _ _ _ _ Dispatch 0 1 3%Z R N O L S1).
Defined.

(** X7. Termination. The loop of [simulate] stops after at most
    14n + 1 cycles on a program of [n] instructions, with the loop
    condition false or with a fault, whatever the configuration: a cycle
    that sets the progress flag sets a timestamp or is a cycle of waiting
    for a latency of at most 2, and those cannot follow each other. More
    fuel does not change the outcome, and the cycle counter of the final
    state is at most 14n + 1. *)
Theorem simulate_terminates c p fuel :
  (14 * Z.of_nat (length p) + 1 < 4294967296)%Z →
  14 * length p + 1 ≤ fuel →
  terminated (simulate fuel (loadProgram c p)) ∧
  simulate fuel (loadProgram c p)
    = simulate (14 * length p + 1) (loadProgram c p) ∧
  ∀ s, simulate fuel (loadProgram c p) = Finished s →
       loop_cond s = false ∧ (cycle s ≤ 14 * Z.of_nat (length p) + 1)%Z.
Proof.
  intros Hb Hle. unfold simulate. fold (start c p).
  assert (T : terminated (simulate_loop (14 * length p + 1) (start c p))).
  { apply (simulate_loop_terminates c p _ 0); [apply reach_start|lia|].
    pose proof (potential_start c p). lia. }
  pose proof (simulate_loop_more _ fuel (start c p) Hle T) as E.
  split_and!.
  - by rewrite E.
  - done.
  - intros s Hs. rewrite E in Hs.
    apply (simulate_loop_reachable c p _ 0) in Hs as (m & Hm & Hr & Hl);
      [|apply reach_start].
    split; [done|]. rewrite (reachable_cycle _ _ _ _ Hr); simpl; lia.
Qed.

Lemma simulate_terminates_witness :
  (14 * Z.of_nat (length progLoadAlu) + 1 < 4294967296)%Z ∧
  14 * length progLoadAlu + 1 ≤ 40 ∧
  terminated (simulate 40 (loadProgram cfgWidth1 progLoadAlu)).
Proof.
  assert (B : (14 * Z.of_nat (length progLoadAlu) + 1 < 4294967296)%Z)
    by (simpl; lia).
  assert (L : 14 * length progLoadAlu + 1 ≤ 40) by (simpl; lia).
  split; [exact B|]. split; [exact L|].
  exact (proj1 (simulate_terminates cfgWidth1 progLoadAlu 40 B L)).
Defined.

(** X8. No deadlock. In a configuration with a positive width, a ROB with an
    entry and more physical than architectural registers, every state at the
    head of the loop of [simulate] has the progress flag set: the loop stops
    only when every instruction has retired. *)
Theorem never_stops_unfinished c p n s :
  sane c → reachable c p n s → (Z.of_nat n < 4294967296)%Z →
  hasProgress s = true ∧ loop_cond s = negb (isFinished s).
Proof.
  intros Hsane Hr Hn.
  assert (Hp : hasProgress s = true).
  { inversion Hr as [|n0 s0 s1 Hr0 Hlc Hb]; subst; [done|].
    apply (cycle_body_progress c p n0 s0 s Hsane Hr0); [lia| |done].
    unfold loop_cond in Hlc. by destruct (isFinished s0). }
  split; [done|]. unfold loop_cond. rewrite Hp. apply andb_true_r.
Qed.

Lemma never_stops_unfinished_witness :
  sane cfgWidth1 ∧
  reachable cfgWidth1 progLoadAlu 5 (stateAfter 5 cfgWidth1 progLoadAlu) ∧
  (Z.of_nat 5 < 4294967296)%Z ∧
  hasProgress (stateAfter 5 cfgWidth1 progLoadAlu) = true.
Proof.
  assert (S : sane cfgWidth1) by reflexivity.
  assert (R : reachable cfgWidth1 progLoadAlu 5
                (stateAfter 5 cfgWidth1 progLoadAlu)).
  { apply stateAfter_reachable. vm_compute. eexists. reflexivity. }
  assert (N : (Z.of_nat 5 < 4294967296)%Z) by lia.
  split; [exact S|]. split; [exact R|]. split; [exact N|].
  exact (proj1 (never_stops_unfinished _ _ _ _ S R N)).
Defined.

(** X9. The run comes to its end. In such a configuration, on a program
    whose operands are numbers of architectural registers (or the sentinel
    where the code tests for it), [simulate] returns without fault within
    14n + 1 cycles, and every instruction has retired. *)
Theorem simulate_completes c p fuel :
  sane c → wellFormed c p →
  (14 * Z.of_nat (length p) + 1 < 4294967296)%Z →
  14 * length p + 1 ≤ fuel →
  ∃ s, simulate fuel (loadProgram c p) = Finished s ∧
       isFinished s = true ∧
       (cycle s ≤ 14 * Z.of_nat (length p) + 1)%Z.
Proof.
  intros Hsane Hwf Hb Hle. unfold simulate. fold (start c p).
  destruct (simulate_loop_completes c p (14 * length p + 1) Hsane Hwf 0
              (start c p)) as (m & s & Hm & Hs & Hr & Hfin);
    [apply reach_start|done|lia|pose proof (potential_start c p); lia|].
  exists s. split_and!; [|done|].
  - rewrite (simulate_loop_more (14 * length p + 1) fuel); [done|done|].
    by rewrite Hs.
  - rewrite (reachable_cycle _ _ _ _ Hr); simpl; lia.
Qed.

Lemma simulate_completes_witness :
  sane cfgWidth1 ∧ wellFormed cfgWidth1 progLoadAlu ∧
  (14 * Z.of_nat (length progLoadAlu) + 1 < 4294967296)%Z ∧
  14 * length progLoadAlu + 1 ≤ 40 ∧
  ∃ s, simulate 40 (loadProgram cfgWidth1 progLoadAlu) = Finished s ∧
       isFinished s = true ∧
       (cycle s ≤ 14 * Z.of_nat (length progLoadAlu) + 1)%Z.
Proof.
  assert (S : sane cfgWidth1) by reflexivity.
  assert (W : wellFormed cfgWidth1 progLoadAlu) by reflexivity.
  assert (B : (14 * Z.of_nat (length progLoadAlu) + 1 < 4294967296)%Z)
    by (simpl; lia).
  assert (L : 14 * length progLoadAlu + 1 ≤ 40) by (simpl; lia).
  split; [exact S|]. split; [exact W|]. split; [exact B|]. split; [exact L|].
  exact (simulate_completes cfgWidth1 progLoadAlu 40 S W B L).
Defined.

(** X10. The output of a finished run. In a reachable state in which every
    instruction has retired, [generateOutputFile] writes one line for each
    line of the program, and each line holds seven cycle numbers that grow
    strictly from fetch to retire and lie below the cycle counter. *)
Theorem output_rows_increasing c p n s :
  reachable c p n s → (Z.of_nat n < 4294967296)%Z → isFinished s = true →
  length (generateOutputFile s) = length p ∧
  ∀ row, row ∈ generateOutputFile s →
    ∃ f d q i e u r,
      row = [f; d; q; i; e; u; r] ∧
      (0 ≤ f < d)%Z ∧ (d < q)%Z ∧ (q < i)%Z ∧ (i < e)%Z ∧ (e < u)%Z ∧
      (u < r)%Z ∧ (r < cycle s)%Z.
Proof.
  intros Hr Hn Hfin.
  pose proof (reachable_shape _ _ _ _ Hr Hn) as Hsh.
  pose proof (reachable_stamps_below _ _ _ _ Hr Hn) as Hbel.
  pose proof (reachable_stamp _ _ _ _ Hr Hn) as Hst.
  split.
  { unfold generateOutputFile. rewrite length_fmap. apply (sh_len _ _ _ Hsh). }
  intros row Hrow. unfold generateOutputFile in Hrow.
  apply list_elem_of_fmap in Hrow as (x & -> & Hx).
  unfold isFinished in Hfin. rewrite forallb_forall in Hfin.
  pose proof (Hfin x ltac:(by apply list_elem_of_In)) as Hx'.
  apply list_elem_of_lookup in Hx as [k Hk].
  assert (Ex : getInst s k = x).
  { simpl. unfold nthInst. by rewrite Hk. }
  rewrite <- Ex in Hx' |- *.
  apply (sh_retired _ _ _ Hsh) in Hx' as [r Hr7].
  pose proof (si_chain _ _ Hst k) as Hch.
  destruct (chain_ordered _ Complete Retire r Hch ltac:(simpl; lia) Hr7)
    as (u & Hu & Hur).
  destruct (chain_ordered _ Execute Complete u Hch ltac:(simpl; lia) Hu)
    as (e & He & Heu).
  destruct (chain_ordered _ Issue Execute e Hch ltac:(simpl; lia) He)
    as (i & Hi & Hie).
  destruct (chain_ordered _ Dispatch Issue i Hch ltac:(simpl; lia) Hi)
    as (q & Hq & Hqi).
  destruct (chain_ordered _ Decode Dispatch q Hch ltac:(simpl; lia) Hq)
    as (d & Hd & Hdq).
  destruct (chain_ordered _ Fetch Decode d Hch ltac:(simpl; lia) Hd)
    as (f & Hf & Hfd).
  pose proof (Hbel k Fetch f Hf). pose proof (Hbel k Retire r Hr7).
  exists f, d, q, i, e, u, r. unfold outputRow, getCycle, stamp in *.
  simpl in *. rewrite Hf, Hd, Hq, Hi, He, Hu, Hr7. simpl.
  split_and!; try done; lia.
Qed.

Lemma output_rows_increasing_witness :
  reachable cfgWidth1 progLoadAlu 9 (stateAfter 9 cfgWidth1 progLoadAlu) ∧
  (Z.of_nat 9 < 4294967296)%Z ∧
  isFinished (stateAfter 9 cfgWidth1 progLoadAlu) = true ∧
  length (generateOutputFile (stateAfter 9 cfgWidth1 progLoadAlu))
    = length progLoadAlu.
Proof.
  assert (R : reachable cfgWidth1 progLoadAlu 9
                (stateAfter 9 cfgWidth1 progLoadAlu)).
  { apply stateAfter_reachable. vm_compute. eexists. reflexivity. }
  assert (N : (Z.of_nat 9 < 4294967296)%Z) by lia.
  assert (F : isFinished (stateAfter 9 cfgWidth1 progLoadAlu) = true)
    by (vm_compute; reflexivity).
  split; [exact R|]. split; [exact N|]. split; [exact F|].
  exact (proj1 (output_rows_increasing _ _ _ _ R N F)).
Defined.

(** X11. Precise state. In every state the simulation reaches, the
    speculative map table maps the architectural registers as the
    architectural map table does once the renamings of the ROB entries are
    applied to it in order; the [Told] of the head entry is what the
    architectural table maps its destination to, so that [retire] releases
    exactly the register it replaces; and when every instruction has retired
    the two tables map alike. *)
Theorem precise_state c p n s :
  reachable c p n s → (Z.of_nat n < 4294967296)%Z →
  mapping (mapTable s) = replay s (robQueue (rob s)) ∧
  (∀ e es, robQueue (rob s) = e :: es →
           dstOp (getInst s (robInst e)) ≠ NONE →
           mapping (archMappingTable s)
             !! Z.to_nat (dstOp (getInst s (robInst e)))
           = Some (regNum (robTold e))) ∧
  (isFinished s = true →
   mapping (mapTable s) = mapping (archMappingTable s)).
Proof.
  intros Hr Hn. destruct (reachable_commit _ _ _ _ Hr Hn) as [Hm Ht].
  split_and!; [done| |].
  - intros e es Hq Hd. specialize (Ht 0 e). rewrite Hq in Ht.
    apply Ht; [done|]. unfold hasDst. by apply negb_true_iff, Z.eqb_neq.
  - intros Hfin. rewrite Hm.
    rewrite (finished_rob_empty c p 0 s); [done| |by eapply reachable_shape|done].
    by eapply reachable_stamp.
Qed.

Lemma precise_state_witness :
  reachable cfgWidth1 progLoadAlu 5 (stateAfter 5 cfgWidth1 progLoadAlu) ∧
  (Z.of_nat 5 < 4294967296)%Z ∧
  mapping (mapTable (stateAfter 5 cfgWidth1 progLoadAlu))
  = replay (stateAfter 5 cfgWidth1 progLoadAlu)
           (robQueue (rob (stateAfter 5 cfgWidth1 progLoadAlu))).
Proof.
  assert (R : reachable cfgWidth1 progLoadAlu 5
                (stateAfter 5 cfgWidth1 progLoadAlu)).
  { apply stateAfter_reachable. vm_compute. eexists. reflexivity. }
  assert (N : (Z.of_nat 5 < 4294967296)%Z) by lia.
  split; [exact R|]. split; [exact N|].
  exact (proj1 (precise_state _ _ _ _ R N)).
Defined.

(** X12. Configurations that cannot move. With a width of zero or a ROB
    without entries no instruction is ever dispatched, and without a physical
    register beyond the architectural ones no instruction with a destination
    is: [dispatch] stalls on it for ever, and the simulation never reaches a
    state in which the program is finished. *)
Theorem unfinished_without_resources c p n s i ty s1 s2 d :
  reachable c p n s → (Z.of_nat n < 4294967296)%Z →
  p !! i = Some (ty, s1, s2, d) →
  cfgWidth c = 0 ∨ robEntries c = 0 ∨
    (numPhysicalRegs c ≤ numArchRegs c ∧ d ≠ NONE) →
  dispatchCycle (getInst s i) = None ∧ isFinished s = false.
Proof.
  intros Hr Hn Hi Hcfg.
  pose proof (reachable_shape _ _ _ _ Hr Hn) as Hsh.
  pose proof (reachable_stamp _ _ _ _ Hr Hn) as Hst.
  assert (Hd : dispatchCycle (getInst s i) = None).
  { destruct (dispatchCycle (getInst s i)) as [a|] eqn:E; [exfalso|done].
    destruct (dispatched_resources c p n s i Hr Hn) as (Hw & Hrob & Hreg);
      [by rewrite E|].
    pose proof (sh_ops _ _ _ Hsh i _ Hi) as Ho. unfold operands in Ho.
    injection Ho as _ _ _ Ho. simpl in *.
    destruct Hcfg as [?|[?|[? Hne]]]; [lia..|].
    rewrite <- Ho in Hne. apply Hreg in Hne. lia. }
  split; [done|].
  destruct (isFinished s) eqn:Hfin; [exfalso|done].
  unfold isFinished in Hfin. rewrite forallb_forall in Hfin.
  destruct (lookup_lt_is_Some_2 (instructionsList s) i) as [x Hx].
  { rewrite (sh_len _ _ _ Hsh). by eapply lookup_lt_Some. }
  assert (Hret : hasRetired x = true).
  { apply Hfin, list_elem_of_In. by eapply list_elem_of_lookup_2. }
  assert (Ex : getInst s i = x).
  { simpl. unfold nthInst. by rewrite Hx. }
  rewrite <- Ex in Hret. apply (sh_retired _ _ _ Hsh) in Hret.
  apply (is_Some_earlier _ Dispatch Retire) in Hret;
    [|apply (si_chain _ _ Hst)|simpl; lia].
  simpl in *. rewrite Hd in Hret. by destruct Hret.
Qed.

Lemma unfinished_without_resources_witness :
  reachable (mkConfig 4 8 0 1 0) progLoadAlu 2
            (stateAfter 2 (mkConfig 4 8 0 1 0) progLoadAlu) ∧
  (Z.of_nat 2 < 4294967296)%Z ∧
  progLoadAlu !! 0 = Some (RSType_LOAD, 0, NONE, 1)%Z ∧
  isFinished (stateAfter 2 (mkConfig 4 8 0 1 0) progLoadAlu) = false.
Proof.
  assert (R : reachable (mkConfig 4 8 0 1 0) progLoadAlu 2
                (stateAfter 2 (mkConfig 4 8 0 1 0) progLoadAlu)).
  { apply stateAfter_reachable. vm_compute. eexists. reflexivity. }
  assert (N : (Z.of_nat 2 < 4294967296)%Z) by lia.
  assert (L : progLoadAlu !! 0 = Some (RSType_LOAD, 0, NONE, 1)%Z)
    by reflexivity.
  assert (C : robEntries (mkConfig 4 8 0 1 0) = 0) by reflexivity.
  split; [exact R|]. split; [exact N|]. split; [exact L|].
  exact (proj2 (unfinished_without_resources _ _ _ _ _ _ _ _ _ R N L
                  (or_intror (or_introl C)))).
Defined.

(** X13. The registers seen from the committed state. In every state the
    simulation reaches, the physical registers of the configuration are, each
    exactly once, the registers of the free list, the registers the
    architectural map table maps to, the destination registers of the
    instructions in the ROB, and the registers waiting for release: a
    register handed to an instruction in flight is neither free nor part of
    the architectural state, and no two instructions in flight share one. *)
Theorem committed_register_partition c p n s :
  reachable c p n s → (Z.of_nat n < 4294967296)%Z →
  (regNum <$> freeList s) ++ mapping (archMappingTable s) ++ robTs s
    ++ (regNum <$> freePhysRegsPrevCycle s) ≡ₚ allRegs c ∧
  NoDup ((regNum <$> freeList s) ++ mapping (archMappingTable s) ++ robTs s
           ++ (regNum <$> freePhysRegsPrevCycle s)).
Proof.
  intros Hr Hn. pose proof (committed_regs c p n s Hr Hn) as H.
  split; [done|]. rewrite H. apply NoDup_seqZ.
Qed.

Lemma committed_register_partition_witness :
  reachable cfgWidth1 progLoadAlu 5 (stateAfter 5 cfgWidth1 progLoadAlu) ∧
  (Z.of_nat 5 < 4294967296)%Z ∧
  NoDup ((regNum <$> freeList (stateAfter 5 cfgWidth1 progLoadAlu))
         ++ mapping (archMappingTable (stateAfter 5 cfgWidth1 progLoadAlu))
         ++ robTs (stateAfter 5 cfgWidth1 progLoadAlu)
         ++ (regNum <$> freePhysRegsPrevCycle
                          (stateAfter 5 cfgWidth1 progLoadAlu))).
Proof.
  assert (R : reachable cfgWidth1 progLoadAlu 5
                (stateAfter 5 cfgWidth1 progLoadAlu)).
  { apply stateAfter_reachable. vm_compute. eexists. reflexivity. }
  assert (N : (Z.of_nat 5 < 4294967296)%Z) by lia.
  split; [exact R|]. split; [exact N|].
  exact (proj2 (committed_register_partition _ _ _ _ R N)).
Defined.

(** X14. Read after write. When a line of the program reads an architectural
    register and an earlier line is the last one before it that writes this
    register, the reader is issued no earlier than the cycle in which the
    writer completed: renaming, the ready bits and the broadcast of
    [complete] never let an instruction start on a value that has not been
    produced. (The physical registers are numbered below the sentinel, as
    32-bit register numbers are.) *)
Theorem read_after_write c p n s i w a li t :
  (Z.of_nat (physCount c) ≤ 4294967295)%Z →
  reachable c p n s → (Z.of_nat n < 4294967296)%Z →
  p !! i = Some li → reads li a → lastWriteBefore p i a w →
  issueCycle (getInst s i) = Some t →
  ∃ u, completeCycle (getInst s w) = Some u ∧ (u ≤ t)%Z.
Proof.
  intros Hphys Hr Hn Hi [Ha Hsrc] Hw Ht.
  pose proof (reachable_shape _ _ _ _ Hr Hn) as Hsh.
  destruct (reachable_flow c p n s Hphys Hr Hn) as (_ & _ & _ & _ & _ & Hia).
  destruct (reads_store c p s i li Hsh Hi) as [E1 E2].
  apply (Hia i a w t); [done| |by eapply lastWriteBefore_store|done].
  destruct Hsrc; [left|right]; congruence.
Qed.

Lemma read_after_write_witness :
  (Z.of_nat (physCount cfgWidth1) ≤ 4294967295)%Z ∧
  reachable cfgWidth1 progChain 8 (stateAfter 8 cfgWidth1 progChain) ∧
  (Z.of_nat 8 < 4294967296)%Z ∧
  progChain !! 1 = Some (RSType_ALU, 1, 1, 2)%Z ∧
  reads (RSType_ALU, 1, 1, 2)%Z 1 ∧
  lastWriteBefore progChain 1 1 0 ∧
  issueCycle (getInst (stateAfter 8 cfgWidth1 progChain) 1) = Some 6%Z ∧
  ∃ u, completeCycle (getInst (stateAfter 8 cfgWidth1 progChain) 0) = Some u
       ∧ (u ≤ 6)%Z.
Proof.
  assert (P : (Z.of_nat (physCount cfgWidth1) ≤ 4294967295)%Z)
    by (vm_compute; discriminate).
  assert (R : reachable cfgWidth1 progChain 8
                (stateAfter 8 cfgWidth1 progChain)).
  { apply stateAfter_reachable. vm_compute. eexists. reflexivity. }
  assert (N : (Z.of_nat 8 < 4294967296)%Z) by lia.
  assert (L : progChain !! 1 = Some (RSType_ALU, 1, 1, 2)%Z) by reflexivity.
  assert (A : reads (RSType_ALU, 1, 1, 2)%Z 1).
  { split; [discriminate|by left]. }
  assert (W : lastWriteBefore progChain 1 1 0).
  { split_and!; [lia|by eexists|]. intros j l Hj. lia. }
  assert (T : issueCycle (getInst (stateAfter 8 cfgWidth1 progChain) 1)
              = Some 6%Z) by (vm_compute; reflexivity).
  split; [exact P|]. split; [exact R|]. split; [exact N|]. split; [exact L|].
  split; [exact A|]. split; [exact W|]. split; [exact T|].
  exact (read_after_write _ _ _ _ _ _ _ _ _ P R N L A W T).
Defined.

(** X15. Renaming follows the last writer. While a reader and the last
    earlier writer of one of its source registers are both in the ROB, the
    source is renamed to the destination register of that writer: the
    reader waits for this producer and for no other. *)
Theorem source_renamed_to_writer c p n s i w a li :
  (Z.of_nat (physCount c) ≤ 4294967295)%Z →
  reachable c p n s → (Z.of_nat n < 4294967296)%Z →
  p !! i = Some li → reads li a → lastWriteBefore p i a w →
  i ∈ robIds s → w ∈ robIds s →
  (lineSrc1 li = a →
   regNum (srcPhysicalReg1 (getInst s i)) = dstReg s w) ∧
  (lineSrc2 li = a →
   regNum (srcPhysicalReg2 (getInst s i)) = dstReg s w).
Proof.
  intros Hphys Hr Hn Hi [Ha Hsrc] Hw Hin Hwin.
  pose proof (reachable_shape _ _ _ _ Hr Hn) as Hsh.
  destruct (reachable_flow c p n s Hphys Hr Hn) as (_ & _ & _ & _ & Hraw & _).
  destruct (reads_store c p s i li Hsh Hi) as [E1 E2].
  pose proof (lastWriteBefore_store c p s i a w li Hsh Hi Hw) as Hw'.
  split; intros E.
  - apply (ri_src _ Hraw i a _ w); [done| |done|done].
    split; [done|left]. split; [congruence|done].
  - apply (ri_src _ Hraw i a _ w); [done| |done|done].
    split; [done|right]. split; [congruence|done].
Qed.

Lemma source_renamed_to_writer_witness :
  (Z.of_nat (physCount cfgWidth1) ≤ 4294967295)%Z ∧
  reachable cfgWidth1 progChain 5 (stateAfter 5 cfgWidth1 progChain) ∧
  (Z.of_nat 5 < 4294967296)%Z ∧
  progChain !! 1 = Some (RSType_ALU, 1, 1, 2)%Z ∧
  reads (RSType_ALU, 1, 1, 2)%Z 1 ∧
  lastWriteBefore progChain 1 1 0 ∧
  1 ∈ robIds (stateAfter 5 cfgWidth1 progChain) ∧
  0 ∈ robIds (stateAfter 5 cfgWidth1 progChain) ∧
  regNum (srcPhysicalReg1 (getInst (stateAfter 5 cfgWidth1 progChain) 1))
  = dstReg (stateAfter 5 cfgWidth1 progChain) 0.
Proof.
  assert (P : (Z.of_nat (physCount cfgWidth1) ≤ 4294967295)%Z)
    by (vm_compute; discriminate).
  assert (R : reachable cfgWidth1 progChain 5
                (stateAfter 5 cfgWidth1 progChain)).
  { apply stateAfter_reachable. vm_compute. eexists. reflexivity. }
  assert (N : (Z.of_nat 5 < 4294967296)%Z) by lia.
  assert (L : progChain !! 1 = Some (RSType_ALU, 1, 1, 2)%Z) by reflexivity.
  assert (A : reads (RSType_ALU, 1, 1, 2)%Z 1).
  { split; [discriminate|by left]. }
  assert (W : lastWriteBefore progChain 1 1 0).
  { split_and!; [lia|by eexists|]. intros j l Hj. lia. }
  assert (I1 : 1 ∈ robIds (stateAfter 5 cfgWidth1 progChain)).
  { vm_compute. apply list_elem_of_In. simpl. auto. }
  assert (I0 : 0 ∈ robIds (stateAfter 5 cfgWidth1 progChain)).
  { vm_compute. apply list_elem_of_In. simpl. auto. }
  split; [exact P|]. split; [exact R|]. split; [exact N|]. split; [exact L|].
  split; [exact A|]. split; [exact W|]. split; [exact I1|]. split; [exact I0|].
  exact (proj1 (source_renamed_to_writer _ _ _ _ _ _ _ _ P R N L A W I1 I0)
               eq_refl).
Defined.
